(** * aniposelib: camera model, triangulation and bundle adjustment

    A shallow embedding of [aniposelib/cameras.py].  Scalars are IEEE
    binary64 numbers (Rocq's primitive floats, as numpy's [float64]); a
    missing observation is a not-a-number coordinate, as in the source.
    Numeric kernels the library consumes (OpenCV projection and
    undistortion, the dense SVD, the sparse least-squares solver, numpy's
    sums, order statistics and random resampling) are fields of the class
    [Capabilities]; every definition below is parametric in them. *)

From Stdlib Require Import String Ascii DecimalString.
From Stdlib Require Import ZArith Lia Bool List Floats.
From Stdlib Require Uint63.
Import ListNotations.

Set Implicit Arguments.
Set Warnings "-inexact-float".

(* ================================================================== *)
(** ** Python exceptions as an error monad *)

Inductive pyerr : Type :=
| IndexError
| ValueError
| AssertionError
| TypeError
| KeyError
| LinAlgError
| AttributeError.

Inductive result (A : Type) : Type :=
| Ok (a : A)
| Raise (e : pyerr).

Arguments Ok {A} a.
Arguments Raise {A} e.

Definition bind {A B : Type} (m : result A) (k : A -> result B) : result B :=
  match m with
  | Ok a => k a
  | Raise e => Raise e
  end.

Declare Scope py_scope.
Delimit Scope py_scope with py.
Notation "x <- m ;; k" := (bind m (fun x => k))
  (at level 61, m at next level, right associativity) : py_scope.
Notation "' pat <- m ;; k" := (bind m (fun x => match x with pat => k end))
  (at level 61, pat pattern, m at next level, right associativity) : py_scope.
Open Scope py_scope.

(** [mapM f l]: a list comprehension whose body may raise. *)
Fixpoint mapM {A B : Type} (f : A -> result B) (l : list A) : result (list B) :=
  match l with
  | [] => Ok []
  | a :: r => b <- f a ;; bs <- mapM f r ;; Ok (b :: bs)
  end.

(** [l[i]] for a non-negative index. *)
Definition getitem {A : Type} (l : list A) (i : nat) : result A :=
  match nth_error l i with
  | Some x => Ok x
  | None => Raise IndexError
  end.

(** [l[i]] for a Python integer: negative indices count from the end. *)
Definition py_getitem {A : Type} (l : list A) (i : Z) : result A :=
  let n := Z.of_nat (length l) in
  if (0 <=? i)%Z then getitem l (Z.to_nat i)
  else if (- n <=? i)%Z then getitem l (Z.to_nat (n + i))
  else Raise IndexError.

(** [l[i] = v] on a list. *)
Fixpoint setitem {A : Type} (l : list A) (i : nat) (v : A) : result (list A) :=
  match l, i with
  | [], _ => Raise IndexError
  | _ :: r, O => Ok (v :: r)
  | x :: r, S j => r' <- setitem r j v ;; Ok (x :: r')
  end.

(** [l[a:b]] never raises. *)
Definition slice {A : Type} (l : list A) (a b : nat) : list A :=
  firstn (b - a) (skipn a l).

(* ================================================================== *)
(** ** float64 scalars and small arrays *)

Open Scope float_scope.

Definition pt2 : Type := float * float.
Definition pt3 : Type := float * float * float.
Definition row4 : Type := float * float * float * float.

Definition nan_pt2 : pt2 := (nan, nan).
Definition nan_pt3 : pt3 := (nan, nan, nan).

(** [np.isnan]. *)
Definition isnan (x : float) : bool := is_nan x.

Definition finite3 (p : pt3) : bool :=
  let '(x, y, z) := p in is_finite x && is_finite y && is_finite z.

(** An observation is valid iff neither coordinate is missing. *)
Definition valid_obs (p : pt2) : bool :=
  negb (isnan (fst p)) && negb (isnan (snd p)).

(** The sign bit of a binary64 value is clear, or the value is not a
    number. *)
Definition sf_nonneg (x : spec_float) : Prop :=
  match x with
  | S754_zero s | S754_infinity s | S754_finite s _ _ => s = false
  | S754_nan => True
  end.

(** The value is a zero or a finite number. *)
Definition sf_finite (x : spec_float) : Prop :=
  match x with
  | S754_zero _ | S754_finite _ _ _ => True
  | _ => False
  end.

(** Conversion of an integer count to float64 ([astype("float64")]). *)
Definition float_of_nat (n : nat) : float :=
  of_uint63 (Uint63.of_Z (Z.of_nat n)).

(** Assignment [dst[a:a+n] = src] of a 1-D array into a slice of length
    [n]: numpy accepts a source of length [n], broadcasts a source of
    length 1, and raises otherwise.  The result is the slice content. *)
Definition broadcast (n : nat) (src : list float) : result (list float) :=
  if Nat.eqb (length src) n then Ok src
  else match src with
       | [x] => Ok (repeat x n)
       | _ => Raise ValueError
       end.

(** [m[i, j]] and [m[i, j] = v] on a 2-D array. *)
Definition getitem2 (m : list (list float)) (i j : nat) : result float :=
  row <- getitem m i ;; getitem row j.

Definition setitem2 (m : list (list float)) (i j : nat) (v : float)
  : result (list (list float)) :=
  row <- getitem m i ;;
  row' <- setitem row j v ;;
  setitem m i row'.

(** Python's built-in [max(a, b)] and [min(a, b)]: the first argument is
    kept unless the second compares strictly beyond it. *)
Definition py_max (a b : float) : float := if a <? b then b else a.
Definition py_min (a b : float) : float := if b <? a then b else a.

(* ================================================================== *)
(** ** CameraModel *)

(** The class of the object: [Camera] or [FisheyeCamera]. *)
Inductive cam_kind : Type := Pinhole | Fisheye.

Record Camera : Type := mkCamera {
  kind : cam_kind;
  matrix : list (list float);
  dist : list float;
  size : option (list Z);
  rvec : list float;
  tvec : list float;
  name : string;
  extra_dist : bool
}.

Definition set_rotation (c : Camera) (r : list float) : Camera :=
  mkCamera (kind c) (matrix c) (dist c) (size c) r (tvec c) (name c) (extra_dist c).

Definition set_translation (c : Camera) (t : list float) : Camera :=
  mkCamera (kind c) (matrix c) (dist c) (size c) (rvec c) t (name c) (extra_dist c).

Definition set_camera_matrix (c : Camera) (m : list (list float)) : Camera :=
  mkCamera (kind c) m (dist c) (size c) (rvec c) (tvec c) (name c) (extra_dist c).

Definition set_distortions (c : Camera) (d : list float) : Camera :=
  mkCamera (kind c) (matrix c) d (size c) (rvec c) (tvec c) (name c) (extra_dist c).

Definition set_name (c : Camera) (n : string) : Camera :=
  mkCamera (kind c) (matrix c) (dist c) (size c) (rvec c) (tvec c) n (extra_dist c).

Definition set_size (c : Camera) (s : option (list Z)) : Camera :=
  mkCamera (kind c) (matrix c) (dist c) s (rvec c) (tvec c) (name c) (extra_dist c).

Definition eye3 : list (list float) := [[1; 0; 0]; [0; 1; 0]; [0; 0; 1]].

(** [Camera()] and [FisheyeCamera()] with their default arguments; the
    default name is [str(None)]. *)
Definition Camera_default : Camera :=
  mkCamera Pinhole eye3 (repeat 0 5) None (repeat 0 3) (repeat 0 3) "None"%string false.

Definition FisheyeCamera_default : Camera :=
  mkCamera Fisheye eye3 (repeat 0 4) None (repeat 0 3) (repeat 0 3) "None"%string false.

(** [set_focal_length(fx)] with [fy=None]: both diagonal entries are
    overwritten in place by [fx]. *)
Definition set_focal_length (c : Camera) (fx : float) : result Camera :=
  m1 <- setitem2 (matrix c) 0 0 fx ;;
  m2 <- setitem2 m1 1 1 fx ;;
  Ok (set_camera_matrix c m2).

(** [get_focal_length()] with [both=False]. *)
Definition get_focal_length (c : Camera) : result float :=
  fx <- getitem2 (matrix c) 0 0 ;;
  fy <- getitem2 (matrix c) 1 1 ;;
  Ok ((fx + fy) / 2).

(** [Camera.get_params(self, optimize_intrinsics=False)]. *)
Definition Camera_get_params (c : Camera) (optimize_intrinsics : bool)
  : result (list float) :=
  r <- broadcast 3 (rvec c) ;;
  t <- broadcast 3 (tvec c) ;;
  let out := r ++ t in
  if negb optimize_intrinsics then Ok out
  else
    fx <- getitem2 (matrix c) 0 0 ;;
    fy <- getitem2 (matrix c) 1 1 ;;
    cx <- getitem2 (matrix c) 0 2 ;;
    cy <- getitem2 (matrix c) 1 2 ;;
    skew <- getitem2 (matrix c) 0 1 ;;
    d <- broadcast 5 (slice (dist c) 0 5) ;;
    Ok (out ++ [fx; fy; cx; cy; skew] ++ d).

(** [Camera.set_params(self, params, optimize_intrinsics=False)]. *)
Definition Camera_set_params (c : Camera) (params : list float)
    (optimize_intrinsics : bool) : result Camera :=
  let c1 := set_translation (set_rotation c (slice params 0 3)) (slice params 3 6) in
  if negb optimize_intrinsics then Ok c1
  else
    fx <- getitem params 6 ;;
    fy <- getitem params 7 ;;
    cx <- getitem params 8 ;;
    cy <- getitem params 9 ;;
    skew <- getitem params 10 ;;
    match slice params 11 16 with
    | [k1; k2; p1; p2; k3] =>
        Ok (set_distortions
              (set_camera_matrix c1 [[fx; skew; cx]; [0; fy; cy]; [0; 0; 1]])
              [k1; k2; p1; p2; k3])
    | _ => Raise ValueError
    end.

(** [FisheyeCamera.get_params(self, only_extrinsics=False)]. *)
Definition FisheyeCamera_get_params (c : Camera) (only_extrinsics : bool)
  : result (list float) :=
  r <- broadcast 3 (rvec c) ;;
  t <- broadcast 3 (tvec c) ;;
  if only_extrinsics then Ok (r ++ t)
  else
    f <- get_focal_length c ;;
    d0 <- getitem (dist c) 0 ;;
    if extra_dist c then
      d1 <- getitem (dist c) 1 ;;
      Ok (r ++ t ++ [f; d0; d1])
    else Ok (r ++ t ++ [f; d0]).

(** [FisheyeCamera.set_params(self, params, only_extrinsics)]. *)
Definition FisheyeCamera_set_params (c : Camera) (params : list float)
    (only_extrinsics : bool) : result Camera :=
  let c1 := set_translation (set_rotation c (slice params 0 3)) (slice params 3 6) in
  if only_extrinsics then Ok c1
  else
    f <- getitem params 6 ;;
    c2 <- set_focal_length c1 f ;;
    d0 <- getitem params 7 ;;
    if extra_dist c then
      d1 <- getitem params 8 ;;
      Ok (set_distortions c2 [d0; d1; 0; 0])
    else Ok (set_distortions c2 [d0; 0; 0; 0]).

(** Method dispatch on the object's class.  Both classes take one
    boolean after [self]; its meaning is the parameter's name in the
    class that receives the call. *)
Definition get_params (c : Camera) (flag : bool) : result (list float) :=
  match kind c with
  | Pinhole => Camera_get_params c flag
  | Fisheye => FisheyeCamera_get_params c flag
  end.

Definition set_params (c : Camera) (params : list float) (flag : bool)
  : result Camera :=
  match kind c with
  | Pinhole => Camera_set_params c params flag
  | Fisheye => FisheyeCamera_set_params c params flag
  end.

(** [Camera.copy] / [FisheyeCamera.copy]: the arrays are copied, the
    other attributes are passed on; on values this is the identity. *)
Definition Camera_copy (c : Camera) : Camera :=
  mkCamera (kind c) (matrix c) (dist c) (size c) (rvec c) (tvec c)
           (name c) (extra_dist c).

(* ================================================================== *)
(** ** Array shapes *)

(** A [C x N x 2] observation tensor: one row of [N] points per camera. *)
Record tensor : Type := mkTensor {
  n_points : nat;
  rows : list (list pt2)
}.

(** A [C x N x P x 2] tensor: [P] candidate detections per camera and
    point. *)
Record tensor4 : Type := mkTensor4 {
  n_points4 : nat;
  n_possible : nat;
  rows4 : list (list (list pt2))
}.

(** The three rows of a camera matrix that triangulation reads. *)
Record cam_mat : Type := mkCamMat {
  mrow0 : row4;
  mrow1 : row4;
  mrow2 : row4
}.

Inductive loss_kind : Type := linear | soft_l1 | huber.

Fixpoint enumerate_from {A : Type} (i : nat) (l : list A) : list (nat * A) :=
  match l with
  | [] => []
  | x :: r => (i, x) :: enumerate_from (S i) r
  end.

(** [enumerate(l)]. *)
Definition enumerate {A : Type} (l : list A) : list (nat * A) :=
  enumerate_from 0 l.

(** Boolean-mask indexing [l[good]]. *)
Fixpoint mask {A : Type} (good : list bool) (l : list A) : list A :=
  match good, l with
  | b :: gs, x :: r => if b then x :: mask gs r else mask gs r
  | _, _ => []
  end.

(** [np.sum(good)] of a boolean array. *)
Definition count_true (good : list bool) : nat :=
  length (filter (fun b => b) good).

(** [points[:, ip, :]]. *)
Definition column (rws : list (list pt2)) (ip : nat) : list pt2 :=
  map (fun row => nth ip row nan_pt2) rws.

(** The values added one after the other, starting from the first
    (zero for none): the sum the example instances of the capabilities
    use for [np.sum]. *)
Definition sum_in_order (l : list float) : float :=
  match l with
  | [] => 0
  | x :: r => fold_left PrimFloat.add r x
  end.

Definition ravel3 (ps : list pt3) : list float :=
  flat_map (fun p : pt3 => let '(x, y, z) := p in [x; y; z]) ps.

(* ================================================================== *)
(** ** External capabilities *)

Class Capabilities : Type := {
  (** [np.linalg.svd(A, full_matrices=True)[2][-1]]: the right singular
      vector of the smallest singular value; may fail to converge. *)
  svd_vh_last : list row4 -> result row4;
  (** [utils.make_M(rvec, tvec)]: the extrinsics matrix. *)
  make_M : list float -> list float -> cam_mat;
  (** [cv2.undistortPoints] and [cv2.fisheye.undistortPoints] on an
      [N x 1 x 2] array; the binding may return [None] instead of an
      array. *)
  cv2_undistortPoints :
    cam_kind -> list (list float) -> list float -> list pt2 -> option (list pt2);
  (** [cv2.projectPoints] and [cv2.fisheye.projectPoints], per point. *)
  cv2_projectPoints :
    cam_kind -> list float -> list float -> list (list float) -> list float ->
    pt3 -> pt2;
  (** The [fast] branch of [triangulate]: [cv2.triangulatePoints] on
      every camera pair followed by [np.nanmedian]. *)
  fast_pairwise_median : list cam_mat -> tensor -> list pt3;
  (** Content of storage allocated by [np.empty] and never written. *)
  np_empty_fill : float;
  np_median : list float -> float;
  np_mean : list float -> float;
  (** One entry of [np.sum(a, axis=0)] for a [C x n] array [a]: numpy's
      sum of the [C] values of one column.  The order of the additions
      is numpy's and depends on the shape, hence the argument [n]. *)
  np_sum_axis0 : nat -> list float -> float;
  (** [np.percentile(a, q)]. *)
  np_percentile : list float -> float -> float;
  (** [np.exp(np.linspace(np.log(a), np.log(b), num=n))]. *)
  geometric_schedule : float -> float -> nat -> list float;
  (** State of numpy's global random generator. *)
  Rng : Type;
  (** Board metadata passed along as [extra]. *)
  Extra : Type;
  (** [resample_points(imgp, extra, n_samp)]. *)
  resample_points :
    tensor -> option Extra -> nat -> Rng -> tensor * option Extra * Rng;
  (** [subset_extra(extra, good)] with a boolean mask. *)
  subset_extra : option Extra -> list bool -> option Extra;
  (** Initial board poses appended to the parameter vector. *)
  init_board_params : list Camera -> tensor -> Extra -> Rng -> list float * Rng;
  (** [scipy.optimize.least_squares(...).x], for the residual function
      [_error_fun_bundle] of the given cameras and observations. *)
  least_squares :
    list Camera -> list float -> tensor -> nat -> option Extra -> bool ->
    loss_kind -> float -> float -> Z -> list float
}.

(* ================================================================== *)
(** ** Linear triangulation *)

Definition scale4 (x : float) (r : row4) : row4 :=
  let '(a, b, c, d) := r in (x * a, x * b, x * c, x * d).

Definition sub4 (r s : row4) : row4 :=
  let '(a, b, c, d) := r in
  let '(a', b', c', d') := s in (a - a', b - b', c - c', d - d').

(** The two equations of one view: [x * mat[2] - mat[0]] and
    [y * mat[2] - mat[1]]. *)
Definition view_rows (p : pt2) (m : cam_mat) : list row4 :=
  [sub4 (scale4 (fst p) (mrow2 m)) (mrow0 m);
   sub4 (scale4 (snd p) (mrow2 m)) (mrow1 m)].

(** [p3d[:3] / p3d[3]]. *)
Definition dehomogenize (v : row4) : pt3 :=
  let '(a, b, c, d) := v in (a / d, b / d, c / d).

Section Triangulation.
Context `{Cap : Capabilities}.

(** The matrix [A] of [triangulate_simple]. *)
Definition simple_system (points : list pt2) (camera_mats : list cam_mat)
  : list row4 :=
  flat_map (fun pm : pt2 * cam_mat => view_rows (fst pm) (snd pm))
           (combine points camera_mats).

(** The matrix [A] of [triangulate_weighted]. *)
Definition weighted_system (points : list pt2) (camera_mats : list cam_mat)
    (weights : list float) : list row4 :=
  flat_map (fun pmw : pt2 * cam_mat * float =>
              let '(p, m, w) := pmw in map (scale4 w) (view_rows p m))
           (combine (combine points camera_mats) weights).

(** [triangulate_simple(points, camera_mats)]; the loop runs over
    [len(camera_mats)] and reads [points[i]].  The callers pass as many
    points as matrices.  With fewer points the compiled function reads
    past the array without a check; that read has no value here and is
    reported as [IndexError]. *)
Definition triangulate_simple (points : list pt2) (camera_mats : list cam_mat)
  : result pt3 :=
  if (length points <? length camera_mats)%nat then Raise IndexError
  else
    vh <- svd_vh_last (simple_system points camera_mats) ;;
    Ok (dehomogenize vh).

(** [triangulate_weighted(points, camera_mats, weights)]; arrays
    shorter than [camera_mats] as for [triangulate_simple]. *)
Definition triangulate_weighted (points : list pt2)
    (camera_mats : list cam_mat) (weights : list float) : result pt3 :=
  if (length points <? length camera_mats)%nat
     || (length weights <? length camera_mats)%nat
  then Raise IndexError
  else
    vh <- svd_vh_last (weighted_system points camera_mats weights) ;;
    Ok (dehomogenize vh).

End Triangulation.

(* ================================================================== *)
(** ** CameraGroup *)

Record CameraGroup : Type := mkGroup {
  cameras : list Camera;
  metadata : list (string * string)
}.

Section Group.
Context `{Cap : Capabilities}.

(** [undistort_points(points)]: [out.reshape(shape)] on what OpenCV
    returns, which has no [reshape] when it is [None]. *)
Definition undistort_points (cam : Camera) (pts : list pt2)
  : result (list pt2) :=
  match cv2_undistortPoints (kind cam) (matrix cam) (dist cam) pts with
  | None => Raise AttributeError
  | Some out =>
      if (length out =? length pts)%nat then Ok out else Raise ValueError
  end.

Definition get_extrinsics_mat (cam : Camera) : cam_mat :=
  make_M (rvec cam) (tvec cam).

Definition project (cam : Camera) (p : pt3) : pt2 :=
  cv2_projectPoints (kind cam) (rvec cam) (tvec cam) (matrix cam) (dist cam) p.

(** [subset_cameras(indices)] on camera values. *)
Definition subset_cameras (g : CameraGroup) (indices : list Z)
  : result CameraGroup :=
  cams <- mapM (fun ix => c <- py_getitem (cameras g) ix ;; Ok (Camera_copy c))
               indices ;;
  Ok (mkGroup cams (metadata g)).

(** The undistortion loop of [triangulate]. *)
Definition undistort_rows (cams : list Camera) (rws : list (list pt2))
  : result (list (list pt2)) :=
  mapM (fun cr : Camera * list pt2 => undistort_points (fst cr) (snd cr))
       (combine cams rws).

(** [good = ~np.isnan(subp[:, 0])]. *)
Definition good_mask (subp : list pt2) : list bool :=
  map (fun p : pt2 => negb (isnan (fst p))) subp.

(** One iteration of the per-point loop of [triangulate]: the row
    written to [out[ip]]. *)
Definition triangulate_point (cam_mats : list cam_mat) (subp : list pt2)
  : result pt3 :=
  let good := good_mask subp in
  if (2 <=? count_true good)%nat
  then triangulate_simple (mask good subp) (mask good cam_mats)
  else Ok nan_pt3.

(** [CameraGroup.triangulate(points, undistort, fast)] on a
    [C x N x 2] array. *)
Definition triangulate (g : CameraGroup) (points : tensor)
    (undistort fast : bool) : result (list pt3) :=
  if negb (length (rows points) =? length (cameras g))%nat then Raise AssertionError
  else
    rws <- (if undistort then undistort_rows (cameras g) (rows points)
            else Ok (rows points)) ;;
    let cam_mats := map get_extrinsics_mat (cameras g) in
    if fast then Ok (fast_pairwise_median cam_mats (mkTensor (n_points points) rws))
    else mapM (fun ip => triangulate_point cam_mats (column rws ip))
              (seq 0 (n_points points)).

(** The same call on a [C x 2] array (one point): the array is
    reshaped to [C x 1 x 2] and [out[0]] is returned. *)
Definition triangulate_one (g : CameraGroup) (pts : list pt2)
    (undistort fast : bool) : result pt3 :=
  out <- triangulate g (mkTensor 1 (map (fun p => [p]) pts)) undistort fast ;;
  getitem out 0.

(** One iteration of the per-point loop of
    [CameraGroup.triangulate_weighted] with [weights=None]. *)
Definition triangulate_weighted_point (cam_mats : list cam_mat)
    (subp : list pt2) : result pt3 :=
  let good := good_mask subp in
  if (2 <=? count_true good)%nat
  then triangulate_weighted (mask good subp) (mask good cam_mats)
                            (repeat 1 (count_true good))
  else Ok nan_pt3.

(** [CameraGroup.triangulate_weighted(points, undistort, weights=None)]. *)
Definition group_triangulate_weighted (g : CameraGroup) (points : tensor)
    (undistort : bool) : result (list pt3) :=
  if negb (length (rows points) =? length (cameras g))%nat then Raise AssertionError
  else
    rws <- (if undistort then undistort_rows (cameras g) (rows points)
            else Ok (rows points)) ;;
    let cam_mats := map get_extrinsics_mat (cameras g) in
    mapM (fun ip => triangulate_weighted_point cam_mats (column rws ip))
         (seq 0 (n_points points)).

(** [Camera.reprojection_error(p3d, p2d)]: observed minus projected. *)
Definition sub2 (a b : pt2) : pt2 := (fst a - fst b, snd a - snd b).

Definition Camera_reprojection_error (cam : Camera) (p3d : list pt3)
    (p2d : list pt2) : list pt2 :=
  map (fun op : pt2 * pt3 => sub2 (fst op) (project cam (snd op)))
      (combine p2d p3d).

(** Rows of [errors]: one per row of [p2ds]; rows beyond the cameras
    of the group are never written. *)
Fixpoint error_rows (cams : list Camera) (p3ds : list pt3)
    (rws : list (list pt2)) : list (list pt2) :=
  match rws, cams with
  | [], _ => []
  | row :: rr, cam :: cr =>
      Camera_reprojection_error cam p3ds row :: error_rows cr p3ds rr
  | row :: rr, [] =>
      map (fun _ => (np_empty_fill, np_empty_fill)) row :: error_rows [] p3ds rr
  end.

(** [CameraGroup.reprojection_error(p3ds, p2ds, mean=False)]. *)
Definition reprojection_error (g : CameraGroup) (p3ds : list pt3)
    (p2ds : tensor) : result (list (list pt2)) :=
  if negb (length p3ds =? n_points p2ds)%nat then Raise AssertionError
  else if (length (rows p2ds) <? length (cameras g))%nat then Raise IndexError
  else Ok (error_rows (cameras g) p3ds (rows p2ds)).

(** [np.linalg.norm(e, axis=2)] on one residual. *)
Definition norm2 (e : pt2) : float :=
  sqrt (fst e * fst e + snd e * snd e).

(** The [mean=True] reduction for one point of an array of [n]
    points, from the residual norms of all cameras. *)
Definition mean_of_norms (n : nat) (errors_norm : list float) : float :=
  let good := map (fun e => negb (isnan e)) errors_norm in
  let zeroed := map (fun e => if isnan e then 0 else e) errors_norm in
  let denom := float_of_nat (count_true good) in
  let denom := if denom <? 1.5 then nan else denom in
  np_sum_axis0 n zeroed / denom.

(** [CameraGroup.reprojection_error(p3ds, p2ds, mean=True)]. *)
Definition reprojection_error_mean (g : CameraGroup) (p3ds : list pt3)
    (p2ds : tensor) : result (list float) :=
  errors <- reprojection_error g p3ds p2ds ;;
  Ok (map (fun ip => mean_of_norms (n_points p2ds)
                       (map (fun row => norm2 (nth ip row nan_pt2)) errors))
          (seq 0 (n_points p2ds))).

(** The same call with a single 3D point and a [C x 2] array. *)
Definition reprojection_error_one_mean (g : CameraGroup) (p3d : pt3)
    (pts : list pt2) : result float :=
  errors <- reprojection_error_mean g [p3d]
              (mkTensor 1 (map (fun p => [p]) pts)) ;;
  getitem errors 0.

(** [average_error(p2ds, median)]. *)
Definition average_error (g : CameraGroup) (p2ds : tensor) (median : bool)
  : result float :=
  p3ds <- triangulate g p2ds true false ;;
  errors <- reprojection_error_mean g p3ds p2ds ;;
  Ok (if median then np_median errors else np_mean errors).

End Group.

(* ================================================================== *)
(** ** Multi-hypothesis triangulation *)

(** A pick [(cam_num, possible_num)]. *)
Definition pick : Type := (nat * nat)%type.

(** The dictionary [best_point] of [triangulate_possible]. *)
Record best_point : Type := mkBest {
  bp_error : float;
  bp_point : pt3;
  bp_points : list pt2;
  bp_picked : list pick
}.

(** The four arrays returned by [triangulate_possible]. *)
Record possible_out : Type := mkPossibleOut {
  out : list pt3;
  picked_vals : list (list (list bool));
  points_2d : list (list pt2);
  errors : list float
}.

(** [itertools.product] of the lists: the last list advances fastest. *)
Fixpoint product {A : Type} (ls : list (list A)) : list (list A) :=
  match ls with
  | [] => [[]]
  | l :: r => flat_map (fun x => map (cons x) (product r)) l
  end.

(** [[p for p in picked if p is not None]]. *)
Fixpoint drop_none {A : Type} (l : list (option A)) : list A :=
  match l with
  | [] => []
  | Some x :: r => x :: drop_none r
  | None :: r => drop_none r
  end.

(** Candidate indices of one camera and point whose first coordinate is
    not missing, in increasing order. *)
Definition valid_candidates (cands : list pt2) : list nat :=
  map fst (filter (fun kc : nat * pt2 => negb (isnan (fst (snd kc))))
                  (enumerate cands)).

(** [all_iters[point_ix].values()] after the [None] option has been
    appended to every camera's list: cameras in increasing order, only
    those with at least one valid candidate. *)
Definition all_iters (rws : list (list (list pt2))) (point_ix : nat)
  : list (list (option pick)) :=
  flat_map (fun cr : nat * list (list pt2) =>
              match valid_candidates (nth point_ix (snd cr) []) with
              | [] => []
              | ks => [map (fun k => Some (fst cr, k)) ks ++ [None]]
              end)
           (enumerate rws).

(** The combinations in the order the loop meets them. *)
Definition combinations (rws : list (list (list pt2))) (point_ix : nat)
  : list (list pick) :=
  map (@drop_none pick) (product (all_iters rws point_ix)).

(** The test that makes the loop [continue]. *)
Definition skipped (min_cams : Z) (n_cams_max : nat) (picked : list pick) : bool :=
  (Z.of_nat (length picked) <? min_cams)%Z
  && negb (length picked =? n_cams_max)%nat.

Section Search.
(** What one combination evaluates to: the triangulated point, the
    picked 2D points and the mean reprojection error. *)
Variable evaluate : list pick -> result (pt3 * list pt2 * float).
Variable min_cams : Z.
Variable n_cams_max : nat.
Variable threshold : float.

(** The loop over [itertools.product], from the current
    [best_point] and [best_error]. *)
Fixpoint search (combos : list (list pick)) (best : option best_point)
    (best_error : float) : result (option best_point) :=
  match combos with
  | [] => Ok best
  | picked :: rest =>
      if skipped min_cams n_cams_max picked then search rest best best_error
      else
        ev <- evaluate picked ;;
        let '(p3d, pts, err) := ev in
        if err <? best_error then
          let best' := Some (mkBest err p3d pts picked) in
          if err <? threshold then Ok best'
          else search rest best' err
        else search rest best best_error
  end.
End Search.

Section Possible.
Context `{Cap : Capabilities}.

(** [points[cnums, point_ix, xnums]]. *)
Definition picked_points (rws : list (list (list pt2))) (point_ix : nat)
    (picked : list pick) : result (list pt2) :=
  mapM (fun p : pick =>
          row <- getitem rws (fst p) ;;
          cands <- getitem row point_ix ;;
          getitem cands (snd p))
       picked.

(** Body of the loop after the [continue] test. *)
Definition evaluate_picked (g : CameraGroup) (rws : list (list (list pt2)))
    (undistort : bool) (point_ix : nat) (picked : list pick)
  : result (pt3 * list pt2 * float) :=
  pts <- picked_points rws point_ix picked ;;
  cc <- subset_cameras g (map (fun p : pick => Z.of_nat (fst p)) picked) ;;
  p3d <- triangulate_one cc pts undistort false ;;
  err <- reprojection_error_one_mean cc p3d pts ;;
  Ok (p3d, pts, err).

(** [best_point] at the end of the loop for one point; [best_error]
    starts at 200. *)
Definition best_for_point (g : CameraGroup) (points : tensor4)
    (undistort : bool) (min_cams : Z) (threshold : float) (point_ix : nat)
  : result (option best_point) :=
  search (evaluate_picked g (rows4 points) undistort point_ix)
         min_cams (length (all_iters (rows4 points) point_ix)) threshold
         (combinations (rows4 points) point_ix) None 200.

Definition pick_eqb (p q : pick) : bool :=
  ((fst p =? fst q)%nat && (snd p =? snd q)%nat)%bool.

(** Row [picked_vals[c, point_ix, :]]. *)
Definition picked_row (best : option best_point) (n_poss c : nat) : list bool :=
  map (fun k => match best with
                | Some b => existsb (pick_eqb (c, k)) (bp_picked b)
                | None => false
                end)
      (seq 0 n_poss).

(** Entry [points_2d[c, point_ix]]: the last assignment for camera [c]
    wins. *)
Definition point_2d_entry (best : option best_point) (c : nat) : pt2 :=
  match best with
  | Some b =>
      fold_left (fun acc (pp : pick * pt2) =>
                   if (fst (fst pp) =? c)%nat then snd pp else acc)
                (combine (bp_picked b) (bp_points b)) nan_pt2
  | None => nan_pt2
  end.

(** [triangulate_possible(points, undistort, min_cams, threshold)]. *)
Definition triangulate_possible (g : CameraGroup) (points : tensor4)
    (undistort : bool) (min_cams : Z) (threshold : float)
  : result possible_out :=
  if negb (length (rows4 points) =? length (cameras g))%nat
  then Raise AssertionError
  else
    bests <- mapM (best_for_point g points undistort min_cams threshold)
                  (seq 0 (n_points4 points)) ;;
    let n_cams := length (rows4 points) in
    Ok (mkPossibleOut
          (map (fun best => match best with
                            | Some b => bp_point b
                            | None => nan_pt3
                            end) bests)
          (map (fun c => map (fun best => picked_row best (n_possible points) c)
                             bests)
               (seq 0 n_cams))
          (map (fun c => map (fun best => point_2d_entry best c) bests)
               (seq 0 n_cams))
          (map (fun best => match best with
                            | Some b => bp_error b
                            | None => 0
                            end) bests)).

(** [triangulate_ransac]: one candidate per camera, default
    threshold. *)
Definition triangulate_ransac (g : CameraGroup) (points : tensor)
    (undistort : bool) (min_cams : Z) : result possible_out :=
  if negb (length (rows points) =? length (cameras g))%nat
  then Raise AssertionError
  else
    triangulate_possible g
      (mkTensor4 (n_points points) 1
                 (map (map (fun p : pt2 => [p])) (rows points)))
      undistort min_cams 0.5.

End Possible.

(* ================================================================== *)
(** ** Bundle adjustment *)

(** What the calibration loop does that an observer can see: each
    evaluation of the early-stop test and each call of [bundle_adjust]. *)
Inductive event : Type :=
| EvCheck (round : nat) (error : float) (stop : bool)
| EvSolve (round : option nat) (loss : loss_kind) (max_nfev : Z)
          (only_extrinsics : bool).

Section Bundle.
Context `{Cap : Capabilities}.

(** Camera part of [_initialize_params_bundle]: the stacked parameter
    blocks and [n_cam_params]. *)
Definition camera_blocks (g : CameraGroup) (only_extrinsics : bool)
  : result (list float * nat) :=
  blocks <- mapM (fun cam => get_params cam only_extrinsics) (cameras g) ;;
  match blocks with
  | [] => Raise ValueError
  | _ =>
      let cam_params := concat blocks in
      Ok (cam_params, (length cam_params / length (cameras g))%nat)
  end.

(** [_initialize_params_bundle(p2ds, extra, only_extrinsics)]. *)
Definition _initialize_params_bundle (g : CameraGroup) (p2ds : tensor)
    (extra : option Extra) (only_extrinsics : bool) (rng : Rng)
  : result (list float * nat * Rng) :=
  cb <- camera_blocks g only_extrinsics ;;
  let '(cam_params, n_cam_params) := cb in
  if negb (length (rows p2ds) =? length (cameras g))%nat
  then Raise AssertionError
  else
    p3ds <- triangulate g p2ds true false ;;
    let '(board, rng') :=
      match extra with
      | Some e => init_board_params (cameras g) p2ds e rng
      | None => ([], rng)
      end in
    Ok (cam_params ++ ravel3 p3ds ++ board, n_cam_params, rng').

(** The commit loop: camera [i] receives
    [best_params[i * n_cam_params : (i + 1) * n_cam_params]]. *)
Definition commit_params (cams : list Camera) (best_params : list float)
    (n_cam_params : nat) (only_extrinsics : bool) : result (list Camera) :=
  mapM (fun ic : nat * Camera =>
          set_params (snd ic)
                     (slice best_params (fst ic * n_cam_params)
                            ((fst ic + 1) * n_cam_params))
                     only_extrinsics)
       (enumerate cams).

(** [bundle_adjust(p2ds, extra, loss, threshold, ftol, max_nfev,
    only_extrinsics)] with [start_params=None]; returns the updated
    group and the mean error. *)
Definition bundle_adjust (g : CameraGroup) (p2ds : tensor)
    (extra : option Extra) (loss : loss_kind) (threshold ftol : float)
    (max_nfev : Z) (only_extrinsics : bool) (rng : Rng)
  : result (CameraGroup * float * Rng) :=
  if negb (length (rows p2ds) =? length (cameras g))%nat
  then Raise AssertionError
  else
    init <- _initialize_params_bundle g p2ds extra only_extrinsics rng ;;
    let '(x0, n_cam_params, rng') := init in
    let best_params :=
      least_squares (cameras g) x0 p2ds n_cam_params extra only_extrinsics
                    loss threshold ftol max_nfev in
    cams <- commit_params (cameras g) best_params n_cam_params only_extrinsics ;;
    let g' := mkGroup cams (metadata g) in
    error <- average_error g' p2ds false ;;
    Ok (g', error, rng').

(** Pairs [(i, j)] with [i < j < n], in the order of the nested loops. *)
Definition index_pairs (n : nat) : list (nat * nat) :=
  flat_map (fun i => map (fun j => (i, j)) (seq (S i) (n - S i))) (seq 0 n).

(** [get_error_dict(errors_full, min_points)]: for every camera pair
    with more than [min_points] common points, the number of common
    points and the 15th and 75th percentiles of the pair's mean error. *)
Definition get_error_dict (errors_full : list (list pt2)) (min_points : nat)
  : list (nat * nat * (nat * (float * float))) :=
  flat_map
    (fun ij : nat * nat =>
       let ri := nth (fst ij) errors_full [] in
       let rj := nth (snd ij) errors_full [] in
       let subset :=
         map (fun ab : pt2 * pt2 =>
                negb (isnan (fst (fst ab))) && negb (isnan (fst (snd ab))))
             (combine ri rj) in
       let err_subset_mean :=
         map (fun ab : pt2 * pt2 => (norm2 (fst ab) + norm2 (snd ab)) / 2)
             (mask subset (combine ri rj)) in
       if (min_points <? count_true subset)%nat
       then [(ij, (count_true subset,
                   (np_percentile err_subset_mean 15,
                    np_percentile err_subset_mean 75)))]
       else [])
    (index_pairs (length errors_full)).

(** The two accumulators over [error_dict.items()]. *)
Definition max_error_of (error_dict : list (nat * nat * (nat * (float * float))))
  : float :=
  fold_left (fun acc kv => py_max (snd (snd (snd kv))) acc) error_dict 0.

Definition min_error_of (error_dict : list (nat * nat * (nat * (float * float))))
  : float :=
  fold_left (fun acc kv => py_max (fst (snd (snd kv))) acc) error_dict 0.

(** [p2ds[:, good]]. *)
Definition mask_columns (p2ds : tensor) (good : list bool) : tensor :=
  mkTensor (count_true good) (map (mask good) (rows p2ds)).

(** Arguments of [bundle_adjust_iter] that stay fixed over the rounds. *)
Record iter_args : Type := mkIterArgs {
  n_iters : nat;
  start_mu : float;
  end_mu : float;
  max_nfev : Z;
  ftol : float;
  n_samp_iter : nat;
  n_samp_full : nat;
  error_threshold : float;
  only_extrinsics : bool
}.

(** [bundle_adjust_iter] with its default arguments. *)
Definition default_iter_args : iter_args :=
  mkIterArgs 6 15 1 200 0.0001 200 1000 0.3 false.

Record iter_state : Type := mkIterState {
  st_group : CameraGroup;
  st_rng : Rng;
  st_log : list event
}.

(** What a round ends with: the loop goes on, or [break]. *)
Inductive round_exit : Type :=
| Continue (s : iter_state)
| Break (s : iter_state).

(** Body of the [for i in range(n_iters)] loop. *)
Definition round_body (a : iter_args) (p2ds_full : tensor)
    (extra_full : option Extra) (mus : list float) (i : nat) (s : iter_state)
  : result round_exit :=
  let g := st_group s in
  let '(p2ds, extra, rng1) :=
    resample_points p2ds_full extra_full (n_samp_full a) (st_rng s) in
  p3ds <- triangulate g p2ds true false ;;
  errors_full <- reprojection_error g p3ds p2ds ;;
  errors_norm <- reprojection_error_mean g p3ds p2ds ;;
  let error_dict := get_error_dict errors_full 10 in
  mu_i <- getitem mus i ;;
  let mu := py_max (py_min (max_error_of error_dict) mu_i)
                   (min_error_of error_dict) in
  let good := map (fun e => e <? mu) errors_norm in
  let extra_good := subset_extra extra good in
  let '(p2ds_samp, extra_samp, rng2) :=
    resample_points (mask_columns p2ds good) extra_good (n_samp_iter a) rng1 in
  let error := np_median errors_norm in
  if error <? error_threshold a
  then Ok (Break (mkIterState g rng2 (st_log s ++ [EvCheck i error true])))
  else
    ba <- bundle_adjust g p2ds_samp extra_samp linear 50 (ftol a) (max_nfev a)
                        (only_extrinsics a) rng2 ;;
    let '(g', _, rng3) := ba in
    Ok (Continue
          (mkIterState g' rng3
             (st_log s ++ [EvCheck i error false;
                           EvSolve (Some i) linear (max_nfev a)
                                   (only_extrinsics a)]))).

(** The loop over the rounds still to run. *)
Fixpoint rounds (a : iter_args) (p2ds_full : tensor)
    (extra_full : option Extra) (mus : list float) (todo : list nat)
    (s : iter_state) : result iter_state :=
  match todo with
  | [] => Ok s
  | i :: rest =>
      ex <- round_body a p2ds_full extra_full mus i s ;;
      match ex with
      | Break s' => Ok s'
      | Continue s' => rounds a p2ds_full extra_full mus rest s'
      end
  end.

(** [bundle_adjust_iter(p2ds, extra, ...)]: the returned error, with
    the final group, generator state and event log. *)
Definition bundle_adjust_iter (g : CameraGroup) (p2ds_full : tensor)
    (extra_full : option Extra) (a : iter_args) (rng : Rng)
  : result (float * iter_state) :=
  if negb (length (rows p2ds_full) =? length (cameras g))%nat
  then Raise AssertionError
  else
    let '(p2ds0, _, rng0) :=
      resample_points p2ds_full extra_full (n_samp_full a) rng in
    _ <- average_error g p2ds0 true ;;
    let mus := geometric_schedule (start_mu a) (end_mu a) (n_iters a) in
    s <- rounds a p2ds_full extra_full mus (seq 0 (n_iters a))
                (mkIterState g rng0 []) ;;
    let g1 := st_group s in
    let '(p2ds, extra, rng1) :=
      resample_points p2ds_full extra_full (n_samp_full a) (st_rng s) in
    p3ds <- triangulate g1 p2ds true false ;;
    errors_full <- reprojection_error g1 p3ds p2ds ;;
    errors_norm <- reprojection_error_mean g1 p3ds p2ds ;;
    let error_dict := get_error_dict errors_full 10 in
    let mu := py_max (py_max (max_error_of error_dict) (end_mu a))
                     (min_error_of error_dict) in
    let good := map (fun e => e <? mu) errors_norm in
    let extra_good := subset_extra extra good in
    ba <- bundle_adjust g1 (mask_columns p2ds good) extra_good linear 50
                        (ftol a) (Z.max 200 (max_nfev a)) (only_extrinsics a)
                        rng1 ;;
    let '(g2, _, rng2) := ba in
    error <- average_error g2 p2ds true ;;
    p3ds' <- triangulate g2 p2ds true false ;;
    _ <- reprojection_error g2 p3ds' p2ds ;;
    Ok (error,
        mkIterState g2 rng2
          (st_log s ++ [EvSolve None linear (Z.max 200 (max_nfev a))
                                (only_extrinsics a)])).

End Bundle.

(* ================================================================== *)
(** ** Persisted camera-group record *)

(** Values of the fields of a table of the persisted record. *)
Inductive toml_value : Type :=
| TStr (s : string)
| TBool (b : bool)
| TInts (l : list Z)
| TFloats (l : list float)
| TMatrix (m : list (list float)).

(** A Python [dict] with string keys, in insertion order. *)
Definition pydict (V : Type) : Type := list (string * V).

Fixpoint dict_get {V : Type} (d : pydict V) (k : string) : result V :=
  match d with
  | [] => Raise KeyError
  | (k', v) :: r => if String.eqb k k' then Ok v else dict_get r k
  end.

Fixpoint dict_mem {V : Type} (d : pydict V) (k : string) : bool :=
  match d with
  | [] => false
  | (k', _) :: r => String.eqb k k' || dict_mem r k
  end.

(** [d[k] = v]: an existing key keeps its place. *)
Fixpoint dict_set {V : Type} (d : pydict V) (k : string) (v : V) : pydict V :=
  match d with
  | [] => [(k, v)]
  | (k', v') :: r =>
      if String.eqb k k' then (k', v) :: r else (k', v') :: dict_set r k v
  end.

(** [sorted(keys)]: strings in code-point order. *)
Fixpoint insert_sorted (k : string) (l : list string) : list string :=
  match l with
  | [] => [k]
  | k' :: r => if String.leb k k' then k :: l else k' :: insert_sorted k r
  end.

Definition sorted (l : list string) : list string :=
  fold_right insert_sorted [] l.

(** ["cam_{}".format(i)]. *)
Definition cam_key (i : nat) : string :=
  ("cam_" ++ NilEmpty.string_of_uint (Nat.to_uint i))%string.

(** [Camera.get_dict] and [FisheyeCamera.get_dict]. *)
Definition get_dict (c : Camera) : result (pydict toml_value) :=
  match size c with
  | None => Raise TypeError
  | Some sz =>
      let d := [("name"%string, TStr (name c));
                ("size"%string, TInts sz);
                ("matrix"%string, TMatrix (matrix c));
                ("distortions"%string, TFloats (dist c));
                ("rotation"%string, TFloats (rvec c));
                ("translation"%string, TFloats (tvec c))] in
      match kind c with
      | Pinhole => Ok d
      | Fisheye => Ok (dict_set d "fisheye" (TBool true))
      end
  end.

Definition as_matrix (v : toml_value) : result (list (list float)) :=
  match v with TMatrix m => Ok m | _ => Raise ValueError end.

Definition as_floats (v : toml_value) : result (list float) :=
  match v with TFloats l => Ok l | _ => Raise ValueError end.

Definition as_str (v : toml_value) : result string :=
  match v with TStr s => Ok s | _ => Raise ValueError end.

Definition as_ints (v : toml_value) : result (list Z) :=
  match v with TInts l => Ok l | _ => Raise TypeError end.

(** [load_dict(d)]. *)
Definition load_dict (c : Camera) (d : pydict toml_value) : result Camera :=
  m <- bind (dict_get d "matrix") as_matrix ;;
  r <- bind (dict_get d "rotation") as_floats ;;
  t <- bind (dict_get d "translation") as_floats ;;
  ds <- bind (dict_get d "distortions") as_floats ;;
  n <- bind (dict_get d "name") as_str ;;
  sz <- bind (dict_get d "size") as_ints ;;
  Ok (mkCamera (kind c) m ds (Some sz) r t n (extra_dist c)).

(** [Camera.from_dict] and [FisheyeCamera.from_dict]. *)
Definition Camera_from_dict (d : pydict toml_value) : result Camera :=
  load_dict Camera_default d.

Definition FisheyeCamera_from_dict (d : pydict toml_value) : result Camera :=
  load_dict FisheyeCamera_default d.

(** Truth value of [d["fisheye"]]. *)
Definition truthy (v : toml_value) : bool :=
  match v with
  | TBool b => b
  | TStr s => negb (String.eqb s "")
  | TInts l => negb (Nat.eqb (length l) 0)
  | TFloats l => negb (Nat.eqb (length l) 0)
  | TMatrix m => negb (Nat.eqb (length m) 0)
  end.

(** The metadata blob as a table of strings. *)
Definition metadata_table (md : list (string * string)) : pydict toml_value :=
  map (fun kv : string * string => (fst kv, TStr (snd kv))) md.

Definition as_metadata (d : pydict toml_value) : result (list (string * string)) :=
  mapM (fun kv : string * toml_value => s <- as_str (snd kv) ;; Ok (fst kv, s)) d.

(** [CameraGroup.get_dicts]. *)
Definition get_dicts (g : CameraGroup) : result (list (pydict toml_value)) :=
  mapM get_dict (cameras g).

(** [CameraGroup.from_dicts(arr)]. *)
Definition from_dicts (arr : list (pydict toml_value)) : result CameraGroup :=
  cams <- mapM (fun d =>
                  if dict_mem d "fisheye"
                  then fe <- dict_get d "fisheye" ;;
                       if truthy fe then FisheyeCamera_from_dict d
                       else Camera_from_dict d
                  else Camera_from_dict d)
               arr ;;
  Ok (mkGroup cams []).

(** [dump], up to the call of the serializer: the document
    [master_dict], a table of tables.  Opening the file and
    [toml.dump] come after it; see [Toml.dump]. *)
Definition dump (g : CameraGroup) : result (pydict (pydict toml_value)) :=
  dicts <- get_dicts g ;;
  let names := map cam_key (seq 0 (length dicts)) in
  let master_dict := combine names dicts in
  Ok (dict_set master_dict "metadata" (metadata_table (metadata g))).

(** [load], from the document [toml.load] returns; see [Toml.load]. *)
Definition load (master_dict : pydict (pydict toml_value)) : result CameraGroup :=
  let keys := sorted (map fst master_dict) in
  items <- mapM (dict_get master_dict)
                (filter (fun k => negb (String.eqb k "metadata")) keys) ;;
  cgroup <- from_dicts items ;;
  if dict_mem master_dict "metadata"
  then md <- bind (dict_get master_dict "metadata") as_metadata ;;
       Ok (mkGroup (cameras cgroup) md)
  else Ok cgroup.

(* ================================================================== *)
(** ** Object identity: cameras and groups in a store *)

Module Store.

Definition loc : Type := nat.

(** A camera object: its arrays, its size and nothing else are
    references. *)
Record cam_obj : Type := mkCamObj {
  o_kind : cam_kind;
  o_matrix : loc;
  o_dist : loc;
  o_size : option loc;
  o_rvec : loc;
  o_tvec : loc;
  o_name : string;
  o_extra_dist : bool
}.

Inductive obj : Type :=
| ONdarray (a : list float)
| OMatrix (m : list (list float))
| OSize (s : list Z)
| ODict (d : list (string * string))
| OCamera (c : cam_obj).

Definition store : Type := list obj.

(** A [CameraGroup] object: its list of cameras and its metadata. *)
Record group : Type := mkGroupRef {
  g_cameras : list loc;
  g_metadata : loc
}.

Definition alloc (h : store) (o : obj) : store * loc :=
  (h ++ [o], length h).

Definition read (h : store) (l : loc) : result obj := getitem h l.

Definition write (h : store) (l : loc) (o : obj) : result store :=
  setitem h l o.

(** [a.copy()] and [np.array(a, dtype="float64")]: a new array with
    the same content. *)
Definition copy_array (h : store) (l : loc) : result (store * loc) :=
  o <- read h l ;;
  match o with
  | ONdarray a => Ok (alloc h (ONdarray a))
  | OMatrix m => Ok (alloc h (OMatrix m))
  | _ => Raise TypeError
  end.

(** [Camera.copy] and [FisheyeCamera.copy]: each array is copied by
    [.copy()] and again by the constructor's [np.array]; [size] is
    passed on as it is. *)
Definition Camera_copy (h : store) (l : loc) : result (store * loc) :=
  o <- read h l ;;
  match o with
  | OCamera c =>
      '(h1, m1) <- copy_array h (o_matrix c) ;;
      '(h2, d1) <- copy_array h1 (o_dist c) ;;
      '(h3, r1) <- copy_array h2 (o_rvec c) ;;
      '(h4, t1) <- copy_array h3 (o_tvec c) ;;
      '(h5, m2) <- copy_array h4 m1 ;;
      '(h6, d2) <- copy_array h5 d1 ;;
      '(h7, r2) <- copy_array h6 r1 ;;
      '(h8, t2) <- copy_array h7 t1 ;;
      Ok (alloc h8 (OCamera (mkCamObj (o_kind c) m2 d2 (o_size c) r2 t2
                                      (o_name c) (o_extra_dist c))))
  | _ => Raise TypeError
  end.

(** The list comprehension [[cam.copy() for ...]] over camera
    references. *)
Fixpoint copy_all (h : store) (ls : list loc) : result (store * list loc) :=
  match ls with
  | [] => Ok (h, [])
  | l :: r =>
      '(h1, l') <- Camera_copy h l ;;
      '(h2, r') <- copy_all h1 r ;;
      Ok (h2, l' :: r')
  end.

(** [subset_cameras(indices)]. *)
Definition subset_cameras (h : store) (g : group) (indices : list Z)
  : result (store * group) :=
  ls <- mapM (py_getitem (g_cameras g)) indices ;;
  '(h', cams) <- copy_all h ls ;;
  Ok (h', mkGroupRef cams (g_metadata g)).

(** [CameraGroup.copy()]. *)
Definition CameraGroup_copy (h : store) (g : group) : result (store * group) :=
  '(h1, cams) <- copy_all h (g_cameras g) ;;
  md <- read h1 (g_metadata g) ;;
  match md with
  | ODict d =>
      let '(h2, m) := alloc h1 (ODict d) in
      Ok (h2, mkGroupRef cams m)
  | _ => Raise TypeError
  end.

(** [g.metadata[k] = v]. *)
Fixpoint assoc_set (d : list (string * string)) (k v : string)
  : list (string * string) :=
  match d with
  | [] => [(k, v)]
  | (k', v') :: r =>
      if String.eqb k k' then (k', v) :: r else (k', v') :: assoc_set r k v
  end.

Definition metadata_setitem (h : store) (g : group) (k v : string)
  : result store :=
  o <- read h (g_metadata g) ;;
  match o with
  | ODict d => write h (g_metadata g) (ODict (assoc_set d k v))
  | _ => Raise TypeError
  end.

(** [g.metadata]. *)
Definition metadata_of (h : store) (g : group)
  : result (list (string * string)) :=
  o <- read h (g_metadata g) ;;
  match o with
  | ODict d => Ok d
  | _ => Raise TypeError
  end.

(** [g.cameras[i].rvec[j] = v]: a write through a camera of the group. *)
Definition rvec_setitem (h : store) (g : group) (i j : nat) (v : float)
  : result store :=
  cl <- getitem (g_cameras g) i ;;
  co <- read h cl ;;
  match co with
  | OCamera c =>
      ro <- read h (o_rvec c) ;;
      match ro with
      | ONdarray a => a' <- setitem a j v ;; write h (o_rvec c) (ONdarray a')
      | _ => Raise TypeError
      end
  | _ => Raise TypeError
  end.

(** [g.cameras[i].rvec]. *)
Definition rvec_of (h : store) (g : group) (i : nat) : result (list float) :=
  cl <- getitem (g_cameras g) i ;;
  co <- read h cl ;;
  match co with
  | OCamera c =>
      ro <- read h (o_rvec c) ;;
      match ro with
      | ONdarray a => Ok a
      | _ => Raise TypeError
      end
  | _ => Raise TypeError
  end.

End Store.


(* ================================================================== *)
(** ** Vocabulary of the statements *)

(** The flag each class expects when intrinsics are to be included
    ([optimize_intrinsics] for [Camera], [only_extrinsics] for
    [FisheyeCamera]). *)
Definition class_flag (k : cam_kind) (includeIntrinsics : bool) : bool :=
  match k with
  | Pinhole => includeIntrinsics
  | Fisheye => negb includeIntrinsics
  end.

Definition getParams (c : Camera) (includeIntrinsics : bool) : result (list float) :=
  get_params c (class_flag (kind c) includeIntrinsics).

Definition setParams (c : Camera) (params : list float) (includeIntrinsics : bool)
  : result Camera :=
  set_params c params (class_flag (kind c) includeIntrinsics).

(** [setParams(getParams(cam, True), True)]. *)
Definition params_roundtrip (c : Camera) : result Camera :=
  p <- getParams c true ;; setParams c p true.

(** Shapes of the arrays of a camera: 3-vectors for the pose, a 3 x 3
    matrix and [n_dist] distortion coefficients. *)
Definition well_shaped (n_dist : nat) (c : Camera) : bool :=
  (length (rvec c) =? 3)%nat && (length (tvec c) =? 3)%nat
  && (length (dist c) =? n_dist)%nat
  && (length (matrix c) =? 3)%nat
  && forallb (fun r : list float => (length r =? 3)%nat) (matrix c).

Definition is_pinhole (c : Camera) : bool :=
  match kind c with Pinhole => true | Fisheye => false end.

(** A fisheye camera with different focal lengths and four distortion
    coefficients. *)
Definition fisheye_800_600 : Camera :=
  mkCamera Fisheye [[800; 0; 320]; [0; 600; 240]; [0; 0; 1]]
           [0.1; 0.02; 0.003; 0.0004] (Some [640; 480]%Z)
           [0; 0; 0] [0; 0; 1] "fish"%string false.

(** A pinhole camera. *)
Definition pinhole_500 : Camera :=
  mkCamera Pinhole [[500; 0; 320]; [0; 500; 240]; [0; 0; 1]]
           [0.1; 0.02; 0; 0; 0] (Some [640; 480]%Z)
           [0; 0; 0] [0; 0; 1] "pin"%string false.

(** An instance of the capabilities on which the definitions can be
    run: orthographic projection, no lens distortion (and, as OpenCV
    does, [None] for an empty array), a fixed singular vector, sums in
    camera order, a solver that moves every parameter by one, the first
    element as order statistic and no resampling. *)
Definition example_capabilities : Capabilities := {|
  svd_vh_last := fun _ => Ok (2, 4, 6, 2);
  make_M := fun _ _ => mkCamMat (1, 0, 0, 0) (0, 1, 0, 0) (0, 0, 1, 0);
  cv2_undistortPoints := fun _ _ _ pts =>
    match pts with [] => None | _ => Some pts end;
  cv2_projectPoints := fun _ _ _ _ _ p => (fst (fst p), snd (fst p));
  fast_pairwise_median := fun _ t => repeat nan_pt3 (n_points t);
  np_empty_fill := 0;
  np_median := fun l => nth 0 l nan;
  np_mean := fun l => nth 0 l nan;
  np_sum_axis0 := fun _ l => sum_in_order l;
  np_percentile := fun l _ => nth 0 l nan;
  geometric_schedule := fun a _ n => repeat a n;
  Rng := unit;
  Extra := unit;
  resample_points := fun t e _ r => (t, e, r);
  subset_extra := fun e _ => e;
  init_board_params := fun _ _ _ r => ([], r);
  least_squares := fun _ x0 _ _ _ _ _ _ _ _ => map (fun x => x + 1) x0
|}.

(** The same instance with a projection that moves with the camera:
    the first two entries of the translation are added to the
    orthographic projection. *)
Definition posed_capabilities : Capabilities := {|
  svd_vh_last := fun _ => Ok (2, 4, 6, 2);
  make_M := fun _ _ => mkCamMat (1, 0, 0, 0) (0, 1, 0, 0) (0, 0, 1, 0);
  cv2_undistortPoints := fun _ _ _ pts =>
    match pts with [] => None | _ => Some pts end;
  cv2_projectPoints := fun _ _ tvec _ _ p =>
    (fst (fst p) + nth 0 tvec 0, snd (fst p) + nth 1 tvec 0);
  fast_pairwise_median := fun _ t => repeat nan_pt3 (n_points t);
  np_empty_fill := 0;
  np_median := fun l => nth 0 l nan;
  np_mean := fun l => nth 0 l nan;
  np_sum_axis0 := fun _ l => sum_in_order l;
  np_percentile := fun l _ => nth 0 l nan;
  geometric_schedule := fun a _ n => repeat a n;
  Rng := unit;
  Extra := unit;
  resample_points := fun t e _ r => (t, e, r);
  subset_extra := fun e _ => e;
  init_board_params := fun _ _ _ r => ([], r);
  least_squares := fun _ x0 _ _ _ _ _ _ _ _ => map (fun x => x + 1) x0
|}.

(** Two pinhole cameras and two points seen by both. *)
Definition two_pinholes : CameraGroup :=
  mkGroup [pinhole_500; pinhole_500] [].

Definition two_points : tensor :=
  mkTensor 2 [[(1, 2); (3, 4)]; [(1, 2); (3, 4)]].



(** The default arguments with a threshold no error can be below. *)
Definition never_stop_args : iter_args :=
  mkIterArgs 6 15 1 200 0.0001 200 1000 0 false.


(** [mu] clamped into [[lo, hi]], as the rounds compute it. *)
Definition clamp_mu (lo hi mu : float) : float := py_max (py_min hi mu) lo.

Section RoundView.
Context `{Cap : Capabilities}.

(** What a round has worked out when it reaches its early-stop test:
    the mean reprojection error of every point, the clamped [mu], the
    points kept (error below [mu]), the working subset resampled from
    them with its board data, the median error and the state of the
    generator. *)
Record round_view : Type := mkRoundView {
  rv_scores : list float;
  rv_mu : float;
  rv_kept : list bool;
  rv_subset : tensor;
  rv_extra : option Extra;
  rv_median : float;
  rv_rng : Rng
}.

(** The view of round [i] for the group [g] and generator state [r]
    the round starts with. *)
Definition round_view_of (a : iter_args) (p2ds_full : tensor)
    (extra_full : option Extra) (mus : list float) (i : nat)
    (g : CameraGroup) (r : Rng) : result round_view :=
  let '(p2ds, extra, r1) :=
    resample_points p2ds_full extra_full (n_samp_full a) r in
  p3ds <- triangulate g p2ds true false ;;
  errors_full <- reprojection_error g p3ds p2ds ;;
  scores <- reprojection_error_mean g p3ds p2ds ;;
  mu_i <- getitem mus i ;;
  let summary := get_error_dict errors_full 10 in
  let mu := clamp_mu (min_error_of summary) (max_error_of summary) mu_i in
  let kept := map (fun e => e <? mu) scores in
  let '(subset, extra', r2) :=
    resample_points (mask_columns p2ds kept) (subset_extra extra kept)
                    (n_samp_iter a) r1 in
  Ok (mkRoundView scores mu kept subset extra' (np_median scores) r2).



End RoundView.

(** Two pinhole cameras without lens distortion, 200 units apart along
    the x axis, and twelve points seen by both: the rows are the pixel
    coordinates in the left and in the right camera; the right
    coordinates are off the epipolar line by a quarter of a pixel more
    from one point to the next. *)
Definition cam_left : Camera :=
  mkCamera Pinhole [[500; 0; 320]; [0; 500; 240]; [0; 0; 1]]
           [0; 0; 0; 0; 0] (Some [640; 480]%Z)
           [0; 0; 0] [0; 0; 0] "left"%string false.

Definition cam_right : Camera :=
  mkCamera Pinhole [[500; 0; 320]; [0; 500; 240]; [0; 0; 1]]
           [0; 0; 0; 0; 0] (Some [640; 480]%Z)
           [0; 0; 0] [-200; 0; 0] "right"%string false.

Definition stereo_pair : CameraGroup := mkGroup [cam_left; cam_right] [].

Definition twelve_points : tensor :=
  mkTensor 12
    [[(620, 460); (100, 100); (200, 120); (300, 140); (400, 160); (500, 180);
      (150, 300); (250, 320); (350, 340); (450, 360); (550, 380); (120, 220)];
     [(520, 460); (20, 100.25); (110, 120.5); (200, 140.75); (290, 161);
      (380, 181.25); (65, 301.5); (155, 321.75); (245, 342); (335, 362.25);
      (425, 382.5); (20, 222.75)]].

(** Three pinhole cameras, the third with a translation that is not a
    number, and one point that all three observe. *)
Definition nan_pose_group : CameraGroup :=
  mkGroup [cam_left; cam_left; set_translation cam_left [nan; 0; 0]] [].

Definition seen_by_three : tensor :=
  mkTensor 1 [[(1, 2)]; [(4, 6)]; [(1, 2)]].

(** A store with one pinhole camera and a group that owns it, with a
    one-entry metadata dictionary. *)
Definition session_store : Store.store :=
  [Store.OMatrix [[500; 0; 320]; [0; 500; 240]; [0; 0; 1]];
   Store.ONdarray [0.1; 0.02; 0; 0; 0];
   Store.OSize [640; 480]%Z;
   Store.ONdarray [0; 0; 0];
   Store.ONdarray [0; 0; 1];
   Store.OCamera (Store.mkCamObj Pinhole 0%nat 1%nat (Some 2%nat) 3%nat 4%nat
                                "pin"%string false);
   Store.ODict [("session"%string, "first"%string)]].

Definition session_group : Store.group := Store.mkGroupRef [5%nat] 6%nat.

(** The document of [dump] handed to [load] as it is: dumping and
    loading when the file gives back the document that was written. *)
Definition dump_load (g : CameraGroup) : result CameraGroup :=
  bind (dump g) load.

(** Eleven pinhole cameras named [c0] to [c10]. *)
Definition eleven_cameras : CameraGroup :=
  mkGroup (map (fun i => set_name pinhole_500
                           ("c" ++ NilEmpty.string_of_uint (Nat.to_uint i))%string)
               (seq 0 11))
          [("rig"%string, "lab"%string)].

(** What loading gives back for a dumped camera: the persisted fields;
    [extra_dist], which is not persisted, is the constructor's default. *)
Definition persisted (c : Camera) : Camera :=
  mkCamera (kind c) (matrix c) (dist c) (size c) (rvec c) (tvec c) (name c) false.

(** Every row of the tensor has [n_points] entries. *)
Definition rectangular (t : tensor) : bool :=
  forallb (fun row : list pt2 => (length row =? n_points t)%nat) (rows t).


(** Three cameras and two points: the first point is seen by all three
    cameras, the second by the first camera only. *)
Definition three_pinholes : CameraGroup :=
  mkGroup [pinhole_500; pinhole_500; pinhole_500] [].

Definition partly_seen : tensor :=
  mkTensor 2 [[(1, 2); (3, 4)]; [(1, 2); nan_pt2]; [(1, 2); nan_pt2]].

(** Reading of C5 as stated: once a combination with error below
    [threshold] has been met no further combination is scored, so the
    chosen combination, if any, is that one or an earlier one. *)
Definition stops_at_first_below
    (evaluate : list pick -> result (pt3 * list pt2 * float))
    (min_cams : Z) (n_cams_max : nat) (threshold : float)
    (combos : list (list pick)) (res : option best_point) : Prop :=
  forall pre c post ev,
    combos = pre ++ c :: post ->
    skipped min_cams n_cams_max c = false ->
    evaluate c = Ok ev ->
    (snd ev <? threshold) = true ->
    match res with
    | Some b => In (bp_picked b) (pre ++ [c])
    | None => True
    end.

(** Two cameras with two candidate detections each of one point.  With
    the example capabilities the point triangulates to [(1, 2, 3)] and
    projects to [(1, 2)]: the first candidates are 250 pixels off, the
    second 100 pixels. *)
Definition two_candidates : tensor4 :=
  mkTensor4 1 2 [[[(1, 252); (1, 102)]]; [[(1, 252); (1, 102)]]].

(** One point that no camera sees in any candidate, and one seen 250
    pixels off by both cameras. *)
Definition unseen_and_far : tensor4 :=
  mkTensor4 2 1 [[[nan_pt2]; [(1, 252)]]; [[nan_pt2]; [(1, 252)]]].

(** A combination that is scored, and its score. *)
Definition scored (evaluate : list pick -> result (pt3 * list pt2 * float))
    (min_cams : Z) (n_cams_max : nat) (picked : list pick) (err : float)
  : Prop :=
  skipped min_cams n_cams_max picked = false
  /\ exists p3d pts, evaluate picked = Ok (p3d, pts, err).

(** What holds of the loop state after the combinations [done]. *)
Definition search_inv (evaluate : list pick -> result (pt3 * list pt2 * float))
    (min_cams : Z) (n_cams_max : nat) (threshold : float)
    (done : list (list pick)) (best : option best_point)
    (best_error : float) : Prop :=
  (forall picked err, In picked done -> scored evaluate min_cams n_cams_max picked err ->
     (err <? best_error) = false
     /\ ((err <? threshold) && (err <? 200)) = false)
  /\ match best with
     | None => best_error = 200
     | Some b =>
         best_error = bp_error b
         /\ (best_error <? 200) = true
         /\ (best_error <? threshold) = false
         /\ exists pre mid,
              done = pre ++ bp_picked b :: mid
              /\ skipped min_cams n_cams_max (bp_picked b) = false
              /\ evaluate (bp_picked b)
                 = Ok (bp_point b, bp_points b, bp_error b)
              /\ forall picked err, In picked pre -> scored evaluate min_cams n_cams_max picked err ->
                   (err <=? best_error) = false
     end.

(** What holds of the result over all the combinations. *)
Definition search_post (evaluate : list pick -> result (pt3 * list pt2 * float))
    (min_cams : Z) (n_cams_max : nat) (threshold : float)
    (all : list (list pick)) (res : option best_point) : Prop :=
  match res with
  | None =>
      forall picked err, In picked all -> scored evaluate min_cams n_cams_max picked err ->
        (err <? 200) = false
  | Some b =>
      exists pre post,
        all = pre ++ bp_picked b :: post
        /\ skipped min_cams n_cams_max (bp_picked b) = false
        /\ evaluate (bp_picked b) = Ok (bp_point b, bp_points b, bp_error b)
        /\ (bp_error b <? 200) = true
        /\ (forall picked err, In picked pre -> scored evaluate min_cams n_cams_max picked err ->
              (err <=? bp_error b) = false
              /\ ((err <? threshold) && (err <? 200)) = false)
        /\ ((bp_error b <? threshold) = true
            \/ ((bp_error b <? threshold) = false
                /\ forall picked err, In picked post -> scored evaluate min_cams n_cams_max picked err ->
                     (err <? bp_error b) = false))
  end.


(* ================================================================== *)
(** ** Further methods of Camera and CameraGroup *)

(** [zero_distortions]: [self.dist = self.dist * 0]. *)
Definition zero_distortions (c : Camera) : Camera :=
  set_distortions c (map (fun d => d * 0) (dist c)).

(** A loop [for cam, v in zip(self.cameras, vals): cam.set(v)]: the
    cameras beyond the values are left as they are. *)
Fixpoint zip_update {A : Type} (f : Camera -> A -> Camera) (cams : list Camera)
    (vals : list A) : list Camera :=
  match cams, vals with
  | c :: cr, v :: vr => f c v :: zip_update f cr vr
  | _, _ => cams
  end.

Definition set_rotations (g : CameraGroup) (rvecs : list (list float))
  : CameraGroup :=
  mkGroup (zip_update set_rotation (cameras g) rvecs) (metadata g).

Definition set_translations (g : CameraGroup) (tvecs : list (list float))
  : CameraGroup :=
  mkGroup (zip_update set_translation (cameras g) tvecs) (metadata g).

Definition set_names (g : CameraGroup) (names : list string) : CameraGroup :=
  mkGroup (zip_update set_name (cameras g) names) (metadata g).

Definition get_names (g : CameraGroup) : list string :=
  map name (cameras g).

(** [np.array(rows)] of a list of 1-D arrays: the rows must have one
    length. *)
Definition np_stack (rws : list (list float)) : result (list (list float)) :=
  match rws with
  | [] => Ok []
  | r :: rest =>
      if forallb (fun r' : list float => (length r' =? length r)%nat) rest
      then Ok rws else Raise ValueError
  end.

Definition get_rotations (g : CameraGroup) : result (list (list float)) :=
  np_stack (map rvec (cameras g)).

Definition get_translations (g : CameraGroup) : result (list (list float)) :=
  np_stack (map tvec (cameras g)).

(** [dict(zip(keys, vals))]: a later pair replaces an earlier one with
    the same key. *)
Definition dict_of_zip {V : Type} (keys : list string) (vals : list V)
  : pydict V :=
  fold_left (fun d kv => dict_set d (fst kv) (snd kv)) (combine keys vals) [].

(** The loop of [subset_cameras_names] that turns names into indices. *)
Definition indices_of_names (cur_names_dict : pydict nat) (names : list string)
  : result (list nat) :=
  mapM (fun nm => if dict_mem cur_names_dict nm
                  then dict_get cur_names_dict nm
                  else Raise IndexError)
       names.

Section GroupNames.
Context `{Cap : Capabilities}.

(** [subset_cameras_names(names)]. *)
Definition subset_cameras_names (g : CameraGroup) (names : list string)
  : result CameraGroup :=
  let cur_names := get_names g in
  let cur_names_dict := dict_of_zip cur_names (seq 0 (length cur_names)) in
  indices <- indices_of_names cur_names_dict names ;;
  subset_cameras g (map Z.of_nat indices).


End GroupNames.

(** Attributes that make a camera the camera it is. *)
Definition identity_of (c : Camera) : cam_kind * string * option (list Z) * bool :=
  (kind c, name c, size c, extra_dist c).

(** Three cameras named after their position. *)
Definition named_cameras : CameraGroup :=
  mkGroup [set_name pinhole_500 "left"; set_name fisheye_800_600 "top";
           set_name pinhole_500 "right"]
          [("rig"%string, "lab"%string)].

(* ================================================================== *)
(** ** Jacobian sparsity and residuals of [bundle_adjust] *)

(** A loop whose body may raise, over a state. *)
Fixpoint foldM {A S : Type} (f : S -> A -> result S) (l : list A) (s : S)
  : result S :=
  match l with
  | [] => Ok s
  | a :: r => s' <- f s a ;; foldM f r s'
  end.

(** A [scipy.sparse.dok_matrix] that only ever receives ones: its shape
    and the keys it stores, in insertion order. *)
Record dok : Type := mkDok {
  dok_rows : nat;
  dok_cols : nat;
  dok_keys : list (nat * nat)
}.

Definition key_eqb (a b : nat * nat) : bool :=
  (fst a =? fst b)%nat && (snd a =? snd b)%nat.

(** [A[r, c] = 1]. *)
Definition dok_set (A : dok) (rc : nat * nat) : result dok :=
  if (fst rc <? dok_rows A)%nat && (snd rc <? dok_cols A)%nat
  then Ok (mkDok (dok_rows A) (dok_cols A)
                 (if existsb (key_eqb rc) (dok_keys A) then dok_keys A
                  else dok_keys A ++ [rc]))
  else Raise IndexError.

(** [A[rws, cls] = 1] with two index arrays, paired elementwise. *)
Definition dok_assign (A : dok) (rws cls : list nat) : result dok :=
  if negb (length rws =? length cls)%nat then Raise ValueError
  else foldM dok_set (combine rws cls) A.

(** The entries of a [C x N x 2] array in storage order, each with its
    camera and point index. *)
Definition coord_entries (p2ds : tensor) : list (nat * nat * float) :=
  flat_map (fun cr : nat * list pt2 =>
              flat_map (fun ip : nat * pt2 =>
                          [(fst cr, fst ip, fst (snd ip));
                           (fst cr, fst ip, snd (snd ip))])
                       (enumerate (snd cr)))
           (enumerate (rows p2ds)).

(** [good = ~np.isnan(p2ds)], flattened. *)
Definition good_coords (p2ds : tensor) : list bool :=
  map (fun e : nat * nat * float => negb (isnan (snd e))) (coord_entries p2ds).

(** [cam_indices[good]] and [point_indices[good]]. *)
Definition cam_indices_good (p2ds : tensor) : list nat :=
  mask (good_coords p2ds)
       (map (fun e : nat * nat * float => fst (fst e)) (coord_entries p2ds)).

Definition point_indices_good (p2ds : tensor) : list nat :=
  mask (good_coords p2ds)
       (map (fun e : nat * nat * float => snd (fst e)) (coord_entries p2ds)).

(** [int(np.max(ids)) + 1]; [np.max] of an empty array raises. *)
Definition n_boards_of (ids : list nat) : result nat :=
  match ids with
  | [] => Raise ValueError
  | i :: r => Ok (S (fold_left Nat.max r i))
  end.

(** [a.reshape(-1, 3)] of a 1-D array. *)
Fixpoint unravel3 (l : list float) : list pt3 :=
  match l with
  | x :: y :: z :: r => (x, y, z) :: unravel3 r
  | _ => []
  end.

Definition reshape_rows3 (l : list float) : result (list pt3) :=
  if (length l mod 3 =? 0)%nat then Ok (unravel3 l) else Raise ValueError.

(** The entries of a [C x N x 2] array of residuals in storage order. *)
Definition ravel2 (rws : list (list pt2)) : list float :=
  flat_map (flat_map (fun p : pt2 => [fst p; snd p])) rws.

Section BundleResiduals.
Context `{Cap : Capabilities}.

(** [extra["ids_map"]], the board of every point. *)
Variable ids_map : Extra -> list nat.

(** The residuals of the points against the boards, the part of
    [_error_fun_bundle] under [if extra is not None]. *)
Variable board_residuals : Extra -> list float -> list pt3 -> result (list float).

(** [_jac_sparsity_bundle(p2ds, n_cam_params, extra)]. *)
Definition _jac_sparsity_bundle (p2ds : tensor) (n_cam_params : nat)
    (extra : option Extra) : result dok :=
  n_boards <- match extra with
              | Some e => n_boards_of (ids_map e)
              | None => Ok 0%nat
              end ;;
  let total_board_params := (n_boards * (3 + 3))%nat in
  let n_cams := length (rows p2ds) in
  let n_points := n_points p2ds in
  let total_params_reproj := (n_cams * n_cam_params + n_points * 3)%nat in
  let n_params := (total_params_reproj + total_board_params)%nat in
  let n_good_values := count_true (good_coords p2ds) in
  let n_errors := match extra with
                  | Some _ => (n_good_values + n_points * 3)%nat
                  | None => n_good_values
                  end in
  let ix := seq 0 n_good_values in
  A1 <- foldM (fun A i =>
                 dok_assign A ix
                   (map (fun c => (c * n_cam_params + i)%nat)
                        (cam_indices_good p2ds)))
              (seq 0 n_cam_params) (mkDok n_errors n_params []) ;;
  A2 <- foldM (fun A i =>
                 dok_assign A ix
                   (map (fun p => (n_cams * n_cam_params + p * 3 + i)%nat)
                        (point_indices_good p2ds)))
              (seq 0 3) A1 ;;
  match extra with
  | None => Ok A2
  | Some e =>
      let ids := ids_map e in
      let point_ix := seq 0 n_points in
      A3 <- foldM (fun A ij =>
                     let rws := map (fun p => (n_good_values + p * 3 + fst ij)%nat)
                                    point_ix in
                     A' <- dok_assign A rws
                             (map (fun id => (total_params_reproj + id * 3
                                              + snd ij)%nat) ids) ;;
                     dok_assign A' rws
                       (map (fun id => (total_params_reproj + n_boards * 3
                                        + id * 3 + snd ij)%nat) ids))
                  (list_prod (seq 0 3) (seq 0 3)) A2 ;;
      foldM (fun A i =>
               dok_assign A
                 (map (fun p => (n_good_values + p * 3 + i)%nat) point_ix)
                 (map (fun p => (n_cams * n_cam_params + p * 3 + i)%nat)
                      point_ix))
            (seq 0 3) A3
  end.

(** [_error_fun_bundle(params, p2ds, n_cam_params, extra,
    only_extrinsics)]: the residual vector, and the group with the
    parameters written to its cameras. *)
Definition _error_fun_bundle (g : CameraGroup) (params : list float)
    (p2ds : tensor) (n_cam_params : nat) (extra : option Extra)
    (only_extrinsics : bool) : result (list float * CameraGroup) :=
  cams <- commit_params (cameras g) params n_cam_params only_extrinsics ;;
  let g' := mkGroup cams (metadata g) in
  let sub := (n_cam_params * length (cameras g))%nat in
  let n3d := (n_points p2ds * 3)%nat in
  p3ds_test <- reshape_rows3 (slice params sub (sub + n3d)) ;;
  errors <- reprojection_error g' p3ds_test p2ds ;;
  let errors_reproj := mask (good_coords p2ds) (ravel2 errors) in
  errors_obj <- match extra with
                | Some e => board_residuals e params p3ds_test
                | None => Ok []
                end ;;
  Ok (errors_reproj ++ errors_obj, g').

End BundleResiduals.

(* ================================================================== *)
(** ** Weighted bundle adjustment: packing, residuals, sparsity *)

(** [cam.get_params(optimize_intrinsics=flag)] and
    [cam.set_params(params, optimize_intrinsics=flag)], the flag passed
    by keyword: the methods of [FisheyeCamera] have no parameter of
    that name. *)
Definition get_params_kw (c : Camera) (optimize_intrinsics : bool)
  : result (list float) :=
  match kind c with
  | Pinhole => Camera_get_params c optimize_intrinsics
  | Fisheye => Raise TypeError
  end.

Definition set_params_kw (c : Camera) (params : list float)
    (optimize_intrinsics : bool) : result Camera :=
  match kind c with
  | Pinhole => Camera_set_params c params optimize_intrinsics
  | Fisheye => Raise TypeError
  end.

(** A [T x K x 3] array of 3D points. *)
Record points3 : Type := mkPoints3 {
  p3_T : nat;
  p3_K : nat;
  p3_rows : list (list pt3)
}.

(** A [C x T x K] array of scalars, or a [C x T x K x 2] array of
    points: one [T x K] plane per camera. *)
Record grid (A : Type) : Type := mkGrid {
  grid_T : nat;
  grid_K : nat;
  cells : list (list (list A))
}.

(** [a[c, t, k]]. *)
Definition getitem3 {A : Type} (a : grid A) (c t k : nat) : result A :=
  plane <- getitem (cells a) c ;;
  row <- getitem plane t ;;
  getitem row k.

(** The index triples of [for c in range(C): for t in range(T):
    for k in range(K)], in the order of the loops. *)
Definition index_triples (C T K : nat) : list (nat * nat * nat) :=
  flat_map (fun c => flat_map (fun t => map (fun k => (c, t, k)) (seq 0 K))
                              (seq 0 T))
           (seq 0 C).

(** [np.sum(mask_valid)]. *)
Definition grid_count (m : grid bool) : nat :=
  count_true (concat (concat (cells m))).

(** [flat.reshape((T, K, 3))] of a 1-D array. *)
Definition reshape_TK3 (T K : nat) (flat : list float) : result points3 :=
  if (length flat =? T * K * 3)%nat
  then Ok (mkPoints3 T K
             (map (fun t => slice (unravel3 flat) (t * K) ((t + 1) * K))
                  (seq 0 T)))
  else Raise ValueError.

(** [_pack_params(camera_network, points_3d, optimize_intrinsics)]. *)
Definition _pack_params (g : CameraGroup) (points_3d : points3)
    (optimize_intrinsics : bool) : result (list float * nat) :=
  all_cam_params <- mapM (fun cam => get_params_kw cam optimize_intrinsics)
                         (cameras g) ;;
  match all_cam_params with
  | [] => Raise ValueError
  | p0 :: _ =>
      Ok (concat all_cam_params ++ ravel3 (concat (p3_rows points_3d)),
          length p0)
  end.

(** The loop [for i, cam in enumerate(cameras): cam.set_params(
    x[i * n : (i + 1) * n], optimize_intrinsics=flag)]. *)
Definition commit_params_kw (cams : list Camera) (x : list float)
    (n_cam_params : nat) (optimize_intrinsics : bool) : result (list Camera) :=
  mapM (fun ic : nat * Camera =>
          set_params_kw (snd ic)
                        (slice x (fst ic * n_cam_params)
                               ((fst ic + 1) * n_cam_params))
                        optimize_intrinsics)
       (enumerate cams).

(** [_unpack_params(x_opt, camera_network, n_cam_params,
    optimize_intrinsics)], with [camera_network._shape_3d] as
    [shape_3d]: the points and the group with its cameras updated. *)
Definition _unpack_params (x_opt : list float) (g : CameraGroup)
    (shape_3d : nat * nat) (n_cam_params : nat) (optimize_intrinsics : bool)
  : result (points3 * CameraGroup) :=
  cams <- commit_params_kw (cameras g) x_opt n_cam_params optimize_intrinsics ;;
  let offset := (length (cameras g) * n_cam_params)%nat in
  let '(T, K) := shape_3d in
  let p3d_size := (T * K * 3)%nat in
  p3d_new <- reshape_TK3 T K (slice x_opt offset (offset + p3d_size)) ;;
  Ok (p3d_new, mkGroup cams (metadata g)).

Section WeightedResiduals.
Context `{Cap : Capabilities}.

(** One pass of the body of the loops of [fun]. *)
Definition residual_step (cams : list Camera) (p3d_flat : list pt3) (K : nat)
    (points_2d : grid pt2) (weights : option (grid float))
    (mask_valid : grid bool) (residuals : list float) (ctk : nat * nat * nat)
  : result (list float) :=
  let '(c, t, k) := ctk in
  cam <- getitem cams c ;;
  valid <- getitem3 mask_valid c t k ;;
  if negb valid then Ok residuals
  else
    let idx_3d := (t * K + k)%nat in
    observed_2d <- getitem3 points_2d c t k ;;
    X <- getitem p3d_flat idx_3d ;;
    let proj_2d := project cam X in
    w <- match weights with
         | Some ws =>
             w <- getitem3 ws c t k ;; Ok (if isnan w then 0 else w)
         | None => Ok 1
         end ;;
    let rx := w * (fst observed_2d - fst proj_2d) in
    let ry := w * (snd observed_2d - snd proj_2d) in
    Ok (residuals ++ [rx; ry]).

(** [fun(x, camera_network, points_2d, weights, n_cam_params,
    optimize_intrinsics, mask_valid)], the residual function of the
    weighted bundle adjustment ([fun] is a keyword here). *)
Definition fun_ (x : list float) (g : CameraGroup) (shape_3d : nat * nat)
    (points_2d : grid pt2) (weights : option (grid float))
    (n_cam_params : nat) (optimize_intrinsics : bool) (mask_valid : grid bool)
  : result (list float * CameraGroup) :=
  let n_cams := length (cameras g) in
  let '(T, K) := shape_3d in
  cams <- commit_params_kw (cameras g) x n_cam_params optimize_intrinsics ;;
  let offset := (n_cams * n_cam_params)%nat in
  let p3d_size := (T * K * 3)%nat in
  let flat := slice x offset (offset + p3d_size) in
  if negb (length flat =? T * K * 3)%nat then Raise ValueError
  else
    residuals <- foldM (residual_step cams (unravel3 flat) K points_2d weights
                                      mask_valid)
                       (index_triples n_cams T K) [] ;;
    Ok (residuals, mkGroup cams (metadata g)).

End WeightedResiduals.

(** The two assignments [A[r1, col] = 1; A[r2, col] = 1] for the
    columns [start .. start + n - 1]. *)
Definition mark_columns (r1 r2 start n : nat) (A : dok) : result dok :=
  foldM (fun A col => A' <- dok_set A (r1, col) ;; dok_set A' (r2, col))
        (seq start n) A.

(** One pass of the body of the loops of [make_jac_sparsity], on the
    matrix and [row_ptr]. *)
Definition sparsity_step (mask_valid : grid bool) (n_cam_params K : nat)
    (n_cam_total : nat) (st : dok * nat) (ctk : nat * nat * nat)
  : result (dok * nat) :=
  let '(c, t, k) := ctk in
  valid <- getitem3 mask_valid c t k ;;
  if negb valid then Ok st
  else
    let r1 := snd st in
    let r2 := (snd st + 1)%nat in
    A1 <- mark_columns r1 r2 (c * n_cam_params) n_cam_params (fst st) ;;
    let p_idx := (t * K + k)%nat in
    A2 <- mark_columns r1 r2 (n_cam_total + p_idx * 3) 3 A1 ;;
    Ok (A2, (snd st + 2)%nat).

(** [make_jac_sparsity(points_2d, mask_valid, n_cam_params)]. *)
Definition make_jac_sparsity (points_2d : grid pt2) (mask_valid : grid bool)
    (n_cam_params : nat) : result dok :=
  let C := length (cells points_2d) in
  let T := grid_T points_2d in
  let K := grid_K points_2d in
  let n_rows := (grid_count mask_valid * 2)%nat in
  let n_cam_total := (C * n_cam_params)%nat in
  let n_points_total := (T * K * 3)%nat in
  let n_params := (n_cam_total + n_points_total)%nat in
  st <- foldM (sparsity_step mask_valid n_cam_params K n_cam_total)
              (index_triples C T K) (mkDok n_rows n_params [], 0%nat) ;;
  Ok (fst st).

(** [a[np.isnan(a)] = 0.0] on one entry. *)
Definition nan_to_zero (v : float) : float := if isnan v then 0 else v.

(** A point with a missing coordinate. *)
Definition any_nan (p : pt3) : bool :=
  let '(x, y, z) := p in isnan x || isnan y || isnan z.

(** [w[:, t, k] = v]. *)
Definition set_column {A : Type} (w : grid A) (t k : nat) (v : A)
  : result (grid A) :=
  if (t <? grid_T w)%nat && (k <? grid_K w)%nat
  then Ok (mkGrid (grid_T w) (grid_K w)
             (map (fun plane =>
                     map (fun tr : nat * list A =>
                            if (fst tr =? t)%nat
                            then map (fun kx : nat * A =>
                                        if (fst kx =? k)%nat then v else snd kx)
                                     (enumerate (snd tr))
                            else snd tr)
                         (enumerate plane))
                  (cells w)))
  else Raise IndexError.

(** [nan_mask[t, k]]. *)
Definition nan_mask_at (nan_mask : list (list bool)) (tk : nat * nat) : bool :=
  nth (snd tk) (nth (fst tk) nan_mask []) false.

(** [fix_init_points_and_weights(init_points_3d, weights)]. *)
Definition fix_init_points_and_weights (init_points_3d : points3)
    (weights : option (grid float)) : result (points3 * option (grid float)) :=
  let nan_mask := map (map any_nan) (p3_rows init_points_3d) in
  let init_points_3d_fixed :=
    mkPoints3 (p3_T init_points_3d) (p3_K init_points_3d)
      (map (map (fun p : pt3 =>
                   let '(x, y, z) := p in
                   (nan_to_zero x, nan_to_zero y, nan_to_zero z)))
           (p3_rows init_points_3d)) in
  weights_fixed <-
    match weights with
    | None => Ok None
    | Some w =>
        w' <- foldM (fun w tk =>
                       if nan_mask_at nan_mask tk
                       then set_column w (fst tk) (snd tk) 0
                       else Ok w)
                    (list_prod (seq 0 (p3_T init_points_3d))
                               (seq 0 (p3_K init_points_3d)))
                    w ;;
        Ok (Some w')
    end ;;
  Ok (init_points_3d_fixed, weights_fixed).

(** Shapes: every plane of a grid has [grid_T] rows of [grid_K]
    entries; a point array has [p3_T] rows of [p3_K] points. *)
Definition grid_ok {A : Type} (a : grid A) : bool :=
  forallb (fun plane : list (list A) =>
             (length plane =? grid_T a)%nat
             && forallb (fun row : list A => (length row =? grid_K a)%nat) plane)
          (cells a).

Definition points3_ok (p : points3) : bool :=
  (length (p3_rows p) =? p3_T p)%nat
  && forallb (fun row : list pt3 => (length row =? p3_K p)%nat) (p3_rows p).

(** Entry [(c, t, k)] of a grid and entry [(t, k)] of a point array, if
    there is one. *)
Definition at3 {A : Type} (a : grid A) (c t k : nat) : option A :=
  match nth_error (cells a) c with
  | Some plane =>
      match nth_error plane t with
      | Some row => nth_error row k
      | None => None
      end
  | None => None
  end.

Definition at2 (p : points3) (t k : nat) : option pt3 :=
  match nth_error (p3_rows p) t with
  | Some row => nth_error row k
  | None => None
  end.

(** The measurement [(c, t, k)] is there and marked valid. *)
Definition measured (mask_valid : grid bool) (ctk : nat * nat * nat) : bool :=
  match at3 mask_valid (fst (fst ctk)) (snd (fst ctk)) (snd ctk) with
  | Some b => b
  | None => false
  end.

(** The valid measurements in the order of the loops. *)
Definition valid_triples (mask_valid : grid bool) (C T K : nat)
  : list (nat * nat * nat) :=
  filter (measured mask_valid) (index_triples C T K).

(** The intrinsic matrix has the form [Camera.set_params] writes. *)
Definition canonical_matrix (c : Camera) : Prop :=
  exists fx fy cx cy skew : float,
    matrix c = [[fx; skew; cx]; [0; fy; cy]; [0; 0; 1]].

(** A trajectory of one keypoint over two frames, the second frame
    missing its depth, with the weights of two cameras. *)
Definition gappy_points : points3 :=
  mkPoints3 2 1 [[(1, 2, 3)]; [(4, 5, nan)]].

Definition gappy_weights : grid float :=
  mkGrid 2 1 [[[0.5]; [0.7]]; [[0.9]; [nan]]].

(** Observations of that keypoint by two cameras; the second camera
    misses the second frame. *)
Definition gappy_obs : grid pt2 :=
  mkGrid 2 1 [[[(1, 2)]; [(4, 5)]]; [[(1, 2)]; [nan_pt2]]].

Definition gappy_mask : grid bool :=
  mkGrid 2 1 [[[true]; [true]]; [[true]; [false]]].

(** Column [col] belongs to the parameters the measurement [(c, t, k)]
    depends on: the block of camera [c], or the three coordinates of
    point [t * K + k]. *)
Definition depends_on (n_cam_params K n_cam_total : nat)
    (ctk : nat * nat * nat) (col : nat) : Prop :=
  let '(c, t, k) := ctk in
  (c * n_cam_params <= col < c * n_cam_params + n_cam_params)%nat
  \/ (n_cam_total + (t * K + k) * 3 <= col
      < n_cam_total + (t * K + k) * 3 + 3)%nat.

(** The stored ones are those of the rows [2 j] and [2 j + 1] of the
    [j]-th measurement of [valid], in the columns it depends on. *)
Definition pattern_of (n_cam_params K n_cam_total : nat)
    (valid : list (nat * nat * nat)) (A : dok) : Prop :=
  forall r col,
    In (r, col) (dok_keys A)
    <-> exists j ctk,
          nth_error valid j = Some ctk
          /\ (r = (2 * j)%nat \/ r = (2 * j + 1)%nat)
          /\ depends_on n_cam_params K n_cam_total ctk col.

(** What holds of the matrix and [row_ptr] of [make_jac_sparsity]
    after the index triples [done]. *)
Definition sparsity_inv (mask_valid : grid bool)
    (n_cam_params K n_cam_total n_rows n_params : nat)
    (done : list (nat * nat * nat)) (st : dok * nat) : Prop :=
  snd st = (2 * length (filter (measured mask_valid) done))%nat
  /\ dok_rows (fst st) = n_rows
  /\ dok_cols (fst st) = n_params
  /\ pattern_of n_cam_params K n_cam_total
                (filter (measured mask_valid) done) (fst st).

(** The camera numbers of the picks increase strictly. *)
Fixpoint increasing_cams (picked : list pick) : Prop :=
  match picked with
  | [] => True
  | p :: r => Forall (fun q : pick => (fst p < fst q)%nat) r /\ increasing_cams r
  end.

(** The camera object at [l'] has its four arrays at locations from
    [n] on: they are objects a store of [n] objects did not have. *)
Definition fresh_camera (n : nat) (h' : Store.store) (l' : Store.loc) : Prop :=
  exists c', nth_error h' l' = Some (Store.OCamera c')
             /\ (n <= Store.o_matrix c')%nat /\ (n <= Store.o_dist c')%nat
             /\ (n <= Store.o_rvec c')%nat /\ (n <= Store.o_tvec c')%nat.

(** [g.cameras[i].size[j] = v]: a write to an entry of the size list of
    a camera of the group; [None] supports no item assignment. *)
Definition size_setitem (h : Store.store) (g : Store.group) (i j : nat)
    (v : Z) : result Store.store :=
  cl <- getitem (Store.g_cameras g) i ;;
  co <- Store.read h cl ;;
  match co with
  | Store.OCamera c =>
      match Store.o_size c with
      | None => Raise TypeError
      | Some sl =>
          so <- Store.read h sl ;;
          match so with
          | Store.OSize sz =>
              sz' <- setitem sz j v ;; Store.write h sl (Store.OSize sz')
          | _ => Raise TypeError
          end
      end
  | _ => Raise TypeError
  end.

(** [g.cameras[i].size], a list. *)
Definition size_of (h : Store.store) (g : Store.group) (i : nat)
  : result (list Z) :=
  cl <- getitem (Store.g_cameras g) i ;;
  co <- Store.read h cl ;;
  match co with
  | Store.OCamera c =>
      match Store.o_size c with
      | None => Raise TypeError
      | Some sl =>
          so <- Store.read h sl ;;
          match so with
          | Store.OSize sz => Ok sz
          | _ => Raise TypeError
          end
      end
  | _ => Raise TypeError
  end.

(* ================================================================== *)
(** ** Writing a group to a file and reading it back *)

Module Toml.
Section Codec.

(** The files, and the two calls into the [toml] library with the
    file access around them: [open(fname, "w")] followed by
    [toml.dump(master_dict, f)], and [toml.load(fname)].  Either may
    raise, and what the parser returns for a file the encoder wrote is
    the library's business. *)
Variable fs : Type.
Variable toml_dump :
  pydict (pydict toml_value) -> string -> fs -> result fs.
Variable toml_load : string -> fs -> result (pydict (pydict toml_value)).

(** [CameraGroup.dump(fname)]: the document is built first, then the
    file is opened and written. *)
Definition dump (g : CameraGroup) (fname : string) (files : fs) : result fs :=
  master_dict <- dump g ;;
  toml_dump master_dict fname files.

(** [CameraGroup.load(fname)]. *)
Definition load (fname : string) (files : fs) : result CameraGroup :=
  master_dict <- toml_load fname files ;;
  load master_dict.

End Codec.
End Toml.

(** Files as a dictionary from names to documents, with a codec that
    stores a document as it is. *)
Definition plain_files : Type := pydict (pydict (pydict toml_value)).

Definition plain_dump (d : pydict (pydict toml_value)) (fname : string)
    (files : plain_files) : result plain_files :=
  Ok (dict_set files fname d).

Definition plain_load (fname : string) (files : plain_files)
  : result (pydict (pydict toml_value)) :=
  dict_get files fname.

(* ================================================================== *)
(** ** Constructing groups: the default metadata *)

Module Construct.

(** [Camera(name=name)] and [FisheyeCamera(name=name)]: the setters
    called by [__init__] make an array of each default argument, in the
    order matrix, distortions, rotation, translation. *)
Definition new_camera (h : Store.store) (k : cam_kind) (nm : string)
  : Store.store * Store.loc :=
  let '(h1, m) := Store.alloc h (Store.OMatrix eye3) in
  let '(h2, d) :=
    Store.alloc h1 (Store.ONdarray
                      (repeat 0 (match k with
                                 | Pinhole => 5%nat
                                 | Fisheye => 4%nat
                                 end))) in
  let '(h3, r) := Store.alloc h2 (Store.ONdarray (repeat 0 3)) in
  let '(h4, t) := Store.alloc h3 (Store.ONdarray (repeat 0 3)) in
  Store.alloc h4 (Store.OCamera (Store.mkCamObj k m d None r t nm false)).

Fixpoint new_cameras (h : Store.store) (k : cam_kind) (names : list string)
  : Store.store * list Store.loc :=
  match names with
  | [] => (h, [])
  | nm :: r =>
      let '(h1, c) := new_camera h k nm in
      let '(h2, cs) := new_cameras h1 k r in
      (h2, c :: cs)
  end.

(** [CameraGroup(cameras, metadata={})]: without a [metadata] argument
    the attribute is the default value, the one dictionary object made
    when the [def] was executed, at [default_metadata]. *)
Definition CameraGroup_init (cams : list Store.loc)
    (metadata : option Store.loc) (default_metadata : Store.loc)
  : Store.group :=
  Store.mkGroupRef cams (match metadata with
                         | Some m => m
                         | None => default_metadata
                         end).

(** [CameraGroup.from_names(names, fisheye)]. *)
Definition from_names (h : Store.store) (default_metadata : Store.loc)
    (names : list string) (fisheye : bool) : Store.store * Store.group :=
  let '(h', cams) :=
    new_cameras h (if fisheye then Fisheye else Pinhole) names in
  (h', CameraGroup_init cams None default_metadata).

End Construct.

(** A store that holds nothing but the empty default dictionary. *)
Definition fresh_interpreter : Store.store := [Store.ODict []].

(* ================================================================== *)
(** ** Board identifiers *)

(** [np.unique(ids)]: the distinct values in increasing order. *)
Fixpoint insert_unique (x : Z) (l : list Z) : list Z :=
  match l with
  | [] => [x]
  | y :: r =>
      if (x <? y)%Z then x :: l
      else if (x =? y)%Z then l
      else y :: insert_unique x r
  end.

Definition np_unique (ids : list Z) : list Z :=
  fold_right insert_unique [] ids.

(** [remap_ids(ids)]: for every [(i, num)] of [enumerate(unique_ids)],
    [ids_out[ids == num] = i]. *)
Definition remap_ids (ids : list Z) : list Z :=
  fold_left (fun ids_out (inum : nat * Z) =>
               map (fun p : Z * Z =>
                      if (fst p =? snd inum)%Z then Z.of_nat (fst inum)
                      else snd p)
                   (combine ids ids_out))
            (enumerate (np_unique ids)) ids.

(** Strictly increasing. *)
Fixpoint strictly_sorted (l : list Z) : Prop :=
  match l with
  | [] => True
  | x :: r => Forall (Z.lt x) r /\ strictly_sorted r
  end.

(* ================================================================== *)
(** ** Bundle adjustment with temporal smoothness *)

(** What [smoothness_derivative.lower()] is compared with: ["first"],
    ["second"], or anything else. *)
Inductive derivative : Type := First | Second | OtherDerivative.

(** [(smoothness_weight is not None) and (smoothness_weight > 1e-12)],
    the test of [fun_with_smoothness]. *)
Definition smoothing_on (smoothness_weight : option float) : bool :=
  match smoothness_weight with
  | Some w => 1e-12 <? w
  | None => false
  end.

(** [smoothness_weight is None or smoothness_weight <= 1e-12], the
    test of [make_jac_sparsity_with_smoothness]. *)
Definition smoothing_off (smoothness_weight : option float) : bool :=
  match smoothness_weight with
  | Some w => w <=? 1e-12
  | None => true
  end.

Definition sub3 (a b : pt3) : pt3 :=
  let '(ax, ay, az) := a in
  let '(bx, by_, bz) := b in (ax - bx, ay - by_, az - bz).

Definition add3 (a b : pt3) : pt3 :=
  let '(ax, ay, az) := a in
  let '(bx, by_, bz) := b in (ax + bx, ay + by_, az + bz).

Definition scale3 (s : float) (a : pt3) : pt3 :=
  let '(ax, ay, az) := a in (s * ax, s * ay, s * az).

(** The three residuals [sqrt_sw * d[0], sqrt_sw * d[1], sqrt_sw * d[2]]. *)
Definition weighted3 (sqrt_sw : float) (d : pt3) : list float :=
  let '(dx, dy, dz) := d in [sqrt_sw * dx; sqrt_sw * dy; sqrt_sw * dz].

(** One pass of the body of the first-derivative loop of
    [fun_with_smoothness]; [p3d_matrix[t, k]] is [p3d_flat[t * K + k]]. *)
Definition first_step (p3d_flat : list pt3) (K : nat) (sqrt_sw : float)
    (residuals : list float) (tk : nat * nat) : result (list float) :=
  let '(t, k) := tk in
  a <- getitem p3d_flat (t * K + k) ;;
  b <- getitem p3d_flat ((t + 1) * K + k) ;;
  if any_nan a || any_nan b then Ok residuals
  else Ok (residuals ++ weighted3 sqrt_sw (sub3 b a)).

(** One pass of the body of the second-derivative loop. *)
Definition second_step (p3d_flat : list pt3) (K : nat) (sqrt_sw : float)
    (residuals : list float) (tk : nat * nat) : result (list float) :=
  let '(t, k) := tk in
  a <- getitem p3d_flat (t * K + k) ;;
  b <- getitem p3d_flat ((t + 1) * K + k) ;;
  c <- getitem p3d_flat ((t + 2) * K + k) ;;
  if any_nan a || any_nan b || any_nan c then Ok residuals
  else Ok (residuals ++ weighted3 sqrt_sw (add3 (sub3 c (scale3 2 b)) a)).

Section SmoothResiduals.
Context `{Cap : Capabilities}.

(** [fun_with_smoothness(x, camera_network, points_2d, weights,
    n_cam_params, optimize_intrinsics, mask_valid, smoothness_weight,
    smoothness_derivative)]. *)
Definition fun_with_smoothness (x : list float) (g : CameraGroup)
    (shape_3d : nat * nat) (points_2d : grid pt2)
    (weights : option (grid float)) (n_cam_params : nat)
    (optimize_intrinsics : bool) (mask_valid : grid bool)
    (smoothness_weight : option float) (smoothness_derivative : derivative)
  : result (list float * CameraGroup) :=
  let n_cams := length (cameras g) in
  let '(T, K) := shape_3d in
  cams <- commit_params_kw (cameras g) x n_cam_params optimize_intrinsics ;;
  let offset := (n_cams * n_cam_params)%nat in
  let p3d_size := (T * K * 3)%nat in
  let flat := slice x offset (offset + p3d_size) in
  if negb (length flat =? T * K * 3)%nat then Raise ValueError
  else
    let p3d_flat := unravel3 flat in
    residuals <- foldM (residual_step cams p3d_flat K points_2d weights
                                      mask_valid)
                       (index_triples n_cams T K) [] ;;
    residuals' <-
      match smoothness_weight with
      | Some w =>
          if smoothing_on smoothness_weight then
            let sqrt_sw := sqrt w in
            match smoothness_derivative with
            | First =>
                foldM (first_step p3d_flat K sqrt_sw)
                      (list_prod (seq 0 (T - 1)) (seq 0 K)) residuals
            | Second =>
                foldM (second_step p3d_flat K sqrt_sw)
                      (list_prod (seq 0 (T - 2)) (seq 0 K)) residuals
            | OtherDerivative => Ok residuals
            end
          else Ok residuals
      | None => Ok residuals
      end ;;
    Ok (residuals', mkGroup cams (metadata g)).

End SmoothResiduals.

(** The assignments of one pass of the smoothness loops of
    [make_jac_sparsity_with_smoothness]: rows [row_ptr .. row_ptr + 2]
    against coordinate [i] of each of the points [p_idxs]. *)
Definition smooth_keys (row_ptr cam_offset : nat) (p_idxs : list nat)
  : list (nat * nat) :=
  flat_map (fun i => map (fun p => ((row_ptr + i)%nat,
                                    (cam_offset + p * 3 + i)%nat)) p_idxs)
           (seq 0 3).

Definition smooth_step (cam_offset : nat) (p_idxs : nat * nat -> list nat)
    (st : dok * nat) (tk : nat * nat) : result (dok * nat) :=
  A <- foldM dok_set (smooth_keys (snd st) cam_offset (p_idxs tk)) (fst st) ;;
  Ok (A, (snd st + 3)%nat).

(** [make_jac_sparsity_with_smoothness(points_2d, mask_valid,
    n_cam_params, smoothness_weight, smoothness_derivative, T, K)]. *)
Definition make_jac_sparsity_with_smoothness (points_2d : grid pt2)
    (mask_valid : grid bool) (n_cam_params : nat)
    (smoothness_weight : option float) (smoothness_derivative : derivative)
    (T K : nat) : result dok :=
  A_reproj <- make_jac_sparsity points_2d mask_valid n_cam_params ;;
  let n_reproj_rows := dok_rows A_reproj in
  let n_params := dok_cols A_reproj in
  if smoothing_off smoothness_weight then Ok A_reproj
  else
    let n_smooth_rows :=
      match smoothness_derivative with
      | First => ((Z.of_nat T - 1) * Z.of_nat K * 3)%Z
      | Second => ((Z.of_nat T - 2) * Z.of_nat K * 3)%Z
      | OtherDerivative => 0%Z
      end in
    let n_total := (Z.of_nat n_reproj_rows + n_smooth_rows)%Z in
    if (n_total <? 0)%Z then Raise ValueError
    else
      A <- foldM dok_set (dok_keys A_reproj)
                 (mkDok (Z.to_nat n_total) n_params []) ;;
      let cam_offset := (length (cells points_2d) * n_cam_params)%nat in
      match smoothness_derivative with
      | First =>
          st <- foldM (smooth_step cam_offset
                         (fun tk => [(fst tk * K + snd tk)%nat;
                                     ((fst tk + 1) * K + snd tk)%nat]))
                      (list_prod (seq 0 (T - 1)) (seq 0 K))
                      (A, n_reproj_rows) ;;
          Ok (fst st)
      | Second =>
          st <- foldM (smooth_step cam_offset
                         (fun tk => [(fst tk * K + snd tk)%nat;
                                     ((fst tk + 1) * K + snd tk)%nat;
                                     ((fst tk + 2) * K + snd tk)%nat]))
                      (list_prod (seq 0 (T - 2)) (seq 0 K))
                      (A, n_reproj_rows) ;;
          Ok (fst st)
      | OtherDerivative => Ok A
      end.

(** Enough frames for the differences of the smoothness term. *)
Definition enough_frames (d : derivative) (T : nat) : Prop :=
  match d with
  | First => (1 <= T)%nat
  | Second => (2 <= T)%nat
  | OtherDerivative => True
  end.

(** One frame of one keypoint seen by two cameras. *)
Definition one_frame_obs : grid pt2 := mkGrid 1 1 [[[(1, 2)]]; [[(1, 2)]]].

Definition one_frame_mask : grid bool := mkGrid 1 1 [[[true]]; [[true]]].

(* ================================================================== *)
(** ** The weighted bundle adjustment *)

(** [p3d_opt[np.isnan(init_points_3d)] = np.nan] on two arrays of one
    shape. *)
Definition restore_nan (init_points_3d p3d_opt : points3) : points3 :=
  mkPoints3 (p3_T p3d_opt) (p3_K p3d_opt)
    (map (fun rr : list pt3 * list pt3 =>
            map (fun pq : pt3 * pt3 =>
                   let '(x, y, z) := fst pq in
                   let '(a, b, c) := snd pq in
                   (if isnan x then nan else a,
                    if isnan y then nan else b,
                    if isnan z then nan else c))
                (combine (fst rr) (snd rr)))
         (combine (p3_rows init_points_3d) (p3_rows p3d_opt))).

Section WeightedSolve.

(** [optimize.least_squares(fun, x0, jac_sparsity=..., ...).x] for the
    residual function [fun] with the given arguments. *)
Variable least_squares_weighted :
  CameraGroup -> list float -> dok -> grid pt2 -> option (grid float) ->
  nat -> bool -> grid bool -> loss_kind -> float -> Z -> list float.

(** [bundle_adjust_with_weighted(camera_network, points_2d,
    init_points_3d, weights, optimize_intrinsics, max_nfev, ftol,
    loss)]. *)
Definition bundle_adjust_with_weighted (g : CameraGroup) (points_2d : grid pt2)
    (init_points_3d : points3) (weights : option (grid float))
    (optimize_intrinsics : bool) (max_nfev : Z) (ftol : float)
    (loss : loss_kind) : result (points3 * CameraGroup) :=
  let T := grid_T points_2d in
  let K := grid_K points_2d in
  if negb ((p3_T init_points_3d =? T)%nat && (p3_K init_points_3d =? K)%nat)
  then Raise AssertionError
  else
    let mask_valid :=
      mkGrid T K (map (map (map (fun p : pt2 => negb (isnan (fst p)))))
                      (cells points_2d)) in
    fw <- fix_init_points_and_weights init_points_3d weights ;;
    xn <- _pack_params g (fst fw) optimize_intrinsics ;;
    jac_sparsity <- make_jac_sparsity points_2d mask_valid (snd xn) ;;
    let x_opt :=
      least_squares_weighted g (fst xn) jac_sparsity points_2d (snd fw)
                             (snd xn) optimize_intrinsics mask_valid loss ftol
                             max_nfev in
    pg <- _unpack_params x_opt g (T, K) (snd xn) optimize_intrinsics ;;
    Ok (restore_nan init_points_3d (fst pg), snd pg).

End WeightedSolve.

(* ================================================================== *)
(** ** Resampling the points *)

(** A Python [set] of indices, kept as the list [sorted] returns. *)
Fixpoint set_add (x : nat) (l : list nat) : list nat :=
  match l with
  | [] => [x]
  | y :: r =>
      if (x <? y)%nat then x :: l
      else if (x =? y)%nat then l
      else y :: set_add x r
  end.

Fixpoint strictly_increasing (l : list nat) : Prop :=
  match l with
  | [] => True
  | x :: r => Forall (Nat.lt x) r /\ strictly_increasing r
  end.

(** [good = ~np.isnan(imgp[:, :, 0])]. *)
Definition good_of (imgp : tensor) : list (list bool) :=
  map (map (fun p : pt2 => negb (isnan (fst p)))) (rows imgp).

(** [np.sum(good, axis=0)]. *)
Definition num_cams_of (good : list (list bool)) (n : nat) : list nat :=
  map (fun ip => count_true (map (fun row : list bool => nth ip row false) good))
      (seq 0 n).

(** Point [ix] is seen by the cameras [i < j]. *)
Definition seen_by_pair (imgp : tensor) (ix : nat) : Prop :=
  exists i j, (i < j < length (rows imgp))%nat
              /\ nth ix (nth i (good_of imgp) []) false = true
              /\ nth ix (nth j (good_of imgp) []) false = true.

Module Sampling.
Section Resample.
Context `{Cap : Capabilities}.

(** [np.random.random(size=n)]. *)
Variable random : Rng -> nat -> list float * Rng.
(** [np.argsort]. *)
Variable argsort : list float -> list nat.
(** [subset_extra(extra, ixs)] with a list of indices. *)
Variable subset_extra_ixs : option Extra -> list nat -> option Extra.

(** Body of the loops over the camera pairs, on [include] and the
    state of the generator. *)
Definition pair_step (good : list (list bool)) (num_cams ixs : list nat)
    (n_samp : nat) (st : list nat * Rng) (ij : nat * nat)
  : result (list nat * Rng) :=
  let subset := map (fun ab : bool * bool => fst ab && snd ab)
                    (combine (nth (fst ij) good []) (nth (snd ij) good [])) in
  let n_good := count_true subset in
  if (0 <? n_good)%nat then
    let arr := map float_of_nat (mask subset num_cams) in
    let '(rnd, rng') := random (snd st) (length arr) in
    let arr := map (fun ar : float * float => fst ar + snd ar)
                   (combine arr rnd) in
    let picked_ix := firstn n_samp (argsort (map PrimFloat.opp arr)) in
    picked <- mapM (getitem (mask subset ixs)) picked_ix ;;
    Ok (fold_left (fun s x => set_add x s) picked (fst st), rng')
  else Ok st.

(** [resample_points(imgp, extra, n_samp)]. *)
Definition resample_points (imgp : tensor) (extra : option Extra)
    (n_samp : nat) (rng : Rng) : result (tensor * option Extra * Rng) :=
  let n_cams := length (rows imgp) in
  let good := good_of imgp in
  let ixs := seq 0 (n_points imgp) in
  let num_cams := num_cams_of good (n_points imgp) in
  st <- foldM (pair_step good num_cams ixs n_samp) (index_pairs n_cams)
              ([], rng) ;;
  let final_ixs := fst st in
  let newp := mkTensor (length final_ixs)
                (map (fun row : list pt2 =>
                        map (fun ix => nth ix row nan_pt2) final_ixs)
                     (rows imgp)) in
  Ok (newp, subset_extra_ixs extra final_ixs, snd st).

End Resample.
End Sampling.

(** A random source that always draws zero, and the ordering that
    leaves a list in place: one instance of the two numpy calls. *)
Definition zero_draw {R : Type} (r : R) (n : nat) : list float * R :=
  (repeat 0%float n, r).

Definition index_order (l : list float) : list nat := seq 0 (length l).

(** [good[i] & good[j]] of [get_error_dict]: the points for which the
    errors of both cameras are present. *)
Definition common_errors (errors_full : list (list pt2)) (i j : nat)
  : list bool :=
  map (fun ab : pt2 * pt2 =>
         negb (isnan (fst (fst ab))) && negb (isnan (fst (snd ab))))
      (combine (nth i errors_full []) (nth j errors_full [])).
(* ================================================================== *)
(** * Properties *)

(** Inversion of a successful [bind]. *)
Tactic Notation "inv_bind" hyp(H) "as" simple_intropattern(p) ident(E) :=
  match type of H with
  | bind ?m _ = Ok _ =>
      destruct m as [p|] eqn:E; cbn [bind] in H; [|discriminate H]
  end.

(** ** Facts of binary64 arithmetic *)

Module F64.

Lemma SFcompare_refl (x : spec_float) :
  x <> S754_nan -> SFcompare x x = Some Eq.
Proof.
  destruct x as [s|s| |s m e]; intros H; try congruence; unfold SFcompare.
  - reflexivity.
  - now destruct s.
  - rewrite Z.compare_refl, Pos.compare_cont_refl. now destruct s.
Qed.

Lemma is_nan_spec (x : float) : is_nan x = true <-> Prim2SF x = S754_nan.
Proof.
  unfold is_nan. rewrite eqb_spec. unfold SFeqb. split.
  - intros H. destruct (Prim2SF x) eqn:E; try reflexivity;
      rewrite SFcompare_refl in H by discriminate; discriminate.
  - intros ->. reflexivity.
Qed.

Lemma is_nan_false_spec (x : float) :
  is_nan x = false <-> Prim2SF x <> S754_nan.
Proof.
  rewrite <- is_nan_spec. destruct (is_nan x); split; congruence.
Qed.

Lemma SFltb_irrefl (x : spec_float) : SFltb x x = false.
Proof.
  unfold SFltb, SFcompare. destruct x as [s|s| |s m e]; try reflexivity.
  - now destruct s.
  - rewrite Z.compare_refl, Pos.compare_cont_refl. now destruct s.
Qed.

Ltac cmp_cases :=
  repeat match goal with
  | |- context [Z.compare ?a ?b] => destruct (Z.compare_spec a b); subst
  | H : context [Z.compare ?a ?b] |- _ => destruct (Z.compare_spec a b); subst
  | |- context [Pos.compare_cont Eq ?a ?b] =>
      change (Pos.compare_cont Eq a b) with (Pos.compare a b);
      destruct (Pos.compare_spec a b); subst
  | H : context [Pos.compare_cont Eq ?a ?b] |- _ =>
      change (Pos.compare_cont Eq a b) with (Pos.compare a b) in H;
      destruct (Pos.compare_spec a b); subst
  end.

(** The order of [SFcompare] is lexicographic on sign, exponent and
    mantissa; the three facts below are proved by its cases. *)
Ltac order_cases x y z :=
  destruct x as [?s|?s| |?s ?m ?e], y as [?s|?s| |?s ?m ?e],
           z as [?s|?s| |?s ?m ?e];
  unfold SFcompare; try discriminate; try reflexivity;
  repeat match goal with s : bool |- _ => destruct s end;
  try discriminate; try reflexivity;
  intros; cmp_cases; cbn [CompOpp] in *;
  try discriminate; try reflexivity; try lia.

Lemma SFltb_trans (x y z : spec_float) :
  SFltb x y = true -> SFltb y z = true -> SFltb x z = true.
Proof. unfold SFltb. order_cases x y z. Qed.

Lemma SFleb_ltb_trans (x y z : spec_float) :
  SFleb x y = true -> SFltb y z = true -> SFltb x z = true.
Proof. unfold SFleb, SFltb. order_cases x y z. Qed.

Lemma SFltb_leb_trans (x y z : spec_float) :
  SFltb x y = true -> SFleb y z = true -> SFltb x z = true.
Proof. unfold SFleb, SFltb. order_cases x y z. Qed.

(** On numbers the order is total. *)
Lemma SFltb_false_leb (x y : spec_float) :
  x <> S754_nan -> y <> S754_nan -> SFltb x y = false -> SFleb y x = true.
Proof.
  unfold SFleb, SFltb.
  destruct x as [?s|?s| |?s ?m ?e], y as [?s|?s| |?s ?m ?e];
    unfold SFcompare; try congruence; try reflexivity;
    repeat match goal with s : bool |- _ => destruct s end;
    try discriminate; try reflexivity;
    intros; cmp_cases; cbn [CompOpp] in *;
    try discriminate; try reflexivity; try lia.
Qed.

Lemma SFltb_not_nan (x y : spec_float) :
  SFltb x y = true -> x <> S754_nan /\ y <> S754_nan.
Proof.
  unfold SFltb. destruct x, y; cbn; try discriminate; split; discriminate.
Qed.

Lemma SFleb_ltb_false (x y : spec_float) :
  SFleb x y = true -> SFltb y x = false.
Proof.
  unfold SFleb, SFltb.
  destruct x as [?s|?s| |?s ?m ?e], y as [?s|?s| |?s ?m ?e];
    unfold SFcompare; try discriminate; try reflexivity;
    repeat match goal with s : bool |- _ => destruct s end;
    try discriminate; try reflexivity;
    intros; cmp_cases; cbn [CompOpp] in *;
    try discriminate; try reflexivity; try lia.
Qed.

Lemma ltb_irrefl (x : float) : (x <? x) = false.
Proof. rewrite ltb_spec. apply SFltb_irrefl. Qed.

Lemma ltb_trans (x y z : float) :
  (x <? y) = true -> (y <? z) = true -> (x <? z) = true.
Proof. rewrite !ltb_spec. apply SFltb_trans. Qed.

Lemma ltb_asym (x y : float) : (x <? y) = true -> (y <? x) = false.
Proof.
  intros H. destruct (y <? x) eqn:E; [|reflexivity].
  pose proof (ltb_trans H E) as C. now rewrite ltb_irrefl in C.
Qed.

Lemma leb_ltb_trans (x y z : float) :
  (x <=? y) = true -> (y <? z) = true -> (x <? z) = true.
Proof. rewrite !ltb_spec, leb_spec. apply SFleb_ltb_trans. Qed.

Lemma ltb_leb_trans (x y z : float) :
  (x <? y) = true -> (y <=? z) = true -> (x <? z) = true.
Proof. rewrite !ltb_spec, leb_spec. apply SFltb_leb_trans. Qed.

Lemma ltb_not_nan (x y : float) :
  (x <? y) = true -> is_nan x = false /\ is_nan y = false.
Proof.
  rewrite ltb_spec, !is_nan_false_spec. apply SFltb_not_nan.
Qed.

Lemma ltb_false_leb (x y : float) :
  is_nan x = false -> is_nan y = false -> (x <? y) = false -> (y <=? x) = true.
Proof.
  rewrite ltb_spec, leb_spec, !is_nan_false_spec. apply SFltb_false_leb.
Qed.

Lemma leb_ltb_false (x y : float) : (x <=? y) = true -> (y <? x) = false.
Proof. rewrite ltb_spec, leb_spec. apply SFleb_ltb_false. Qed.

Lemma ltb_nan_l (x y : float) : is_nan x = true -> (x <? y) = false.
Proof. rewrite is_nan_spec, ltb_spec. intros ->. reflexivity. Qed.

Lemma ltb_nan_r (x y : float) : is_nan y = true -> (x <? y) = false.
Proof.
  rewrite is_nan_spec, ltb_spec. intros ->. unfold SFltb.
  now destruct (Prim2SF x).
Qed.

(** *** Multiplication by one *)

Lemma Prim2SF_one : Prim2SF 1 = S754_finite false 4503599627370496 (-52).
Proof. reflexivity. Qed.

Lemma shr_1_iter_52 (m : positive) :
  iter_pos shr_1 52
    (Build_shr_record (Z.pos (4503599627370496 * m)) false false)
  = Build_shr_record (Z.pos m) false false.
Proof. reflexivity. Qed.

Lemma digits2_pos_shift_52 (m : positive) :
  Z.pos (digits2_pos (4503599627370496 * m))
  = (Z.pos (digits2_pos m) + 52)%Z.
Proof.
  cbn [Pos.mul digits2_pos]. rewrite !Pos2Z.inj_succ. lia.
Qed.

Lemma SF64mul_one_l (x : spec_float) :
  valid_binary x = true -> SF64mul (Prim2SF 1) x = x.
Proof.
  rewrite Prim2SF_one.
  destruct x as [s|s| |s m e]; try reflexivity.
  intros Hv. cbn [SpecFloat.valid_binary] in Hv.
  unfold bounded, canonical_mantissa in Hv.
  apply andb_prop in Hv. destruct Hv as [Hc Hb].
  apply Z.eqb_eq in Hc.
  unfold SF64mul, SFmul. cbn [xorb].
  unfold binary_round_aux, shr_fexp.
  unfold Zdigits2 at 1. rewrite digits2_pos_shift_52.
  replace (Z.pos (digits2_pos m) + 52 + (-52 + e))%Z
    with (Z.pos (digits2_pos m) + e)%Z by lia.
  rewrite Hc.
  replace (e - (-52 + e))%Z with 52%Z by lia.
  cbn [shr shr_record_of_loc]. rewrite shr_1_iter_52.
  cbn [shr_m loc_of_shr_record round_nearest_even Zdigits2].
  replace (-52 + e + 52)%Z with e by lia.
  rewrite Hc, Z.sub_diag. cbn [shr shr_m].
  rewrite Hb. reflexivity.
Qed.

Lemma mul_one_l (x : float) : 1 * x = x.
Proof.
  apply Prim2SF_inj. rewrite mul_spec. apply SF64mul_one_l, Prim2SF_valid.
Qed.

(** *** Counts as floats *)

Lemma digits2_pos_iter_xO (m k : positive) :
  Z.pos (digits2_pos (Pos.iter xO m k)) = (Z.pos (digits2_pos m) + Z.pos k)%Z.
Proof.
  induction k as [|k IH] using Pos.peano_ind.
  - cbn. lia.
  - rewrite Pos.iter_succ. cbn [digits2_pos]. lia.
Qed.

Lemma digits2_pos_bound (m : positive) (k : Z) :
  (Z.pos m < 2 ^ k)%Z -> (0 <= k)%Z -> (Z.pos (digits2_pos m) <= k)%Z.
Proof.
  revert k. induction m as [m IH|m IH|]; intros k Hm Hk; cbn [digits2_pos].
  - assert (k <> 0)%Z by (intros ->; cbn in Hm; lia).
    replace k with (Z.succ (k - 1)) in Hm by lia.
    rewrite Z.pow_succ_r in Hm by lia.
    specialize (IH (k - 1)%Z). lia.
  - assert (k <> 0)%Z by (intros ->; cbn in Hm; lia).
    replace k with (Z.succ (k - 1)) in Hm by lia.
    rewrite Z.pow_succ_r in Hm by lia.
    specialize (IH (k - 1)%Z). lia.
  - assert (k <> 0)%Z by (intros ->; cbn in Hm; lia). lia.
Qed.

(** Integers below [2 ^ 53] convert exactly. *)
Lemma binary_round_small (m : positive) :
  (Z.pos (digits2_pos m) <= 53)%Z ->
  exists mz, binary_round prec emax false m 0
             = S754_finite false mz (Z.pos (digits2_pos m) - 53).
Proof.
  intros Hd. unfold binary_round, shl_align.
  assert (Hf : fexp prec emax (Z.pos (digits2_pos m) + 0)
               = (Z.pos (digits2_pos m) - 53)%Z).
  { unfold fexp, emin, prec, emax. lia. }
  rewrite Hf.
  assert (Haux : forall mz ez,
             Z.pos (digits2_pos mz) = 53%Z -> (-52 <= ez <= 0)%Z ->
             binary_round_aux prec emax false (Z.pos mz) ez loc_Exact
             = S754_finite false mz ez).
  { intros mz ez Hmz Hez. unfold binary_round_aux, shr_fexp.
    cbn [Zdigits2]. rewrite Hmz.
    assert (Hf2 : fexp prec emax (53 + ez) = ez)
      by (unfold fexp, emin, prec, emax; lia).
    rewrite Hf2, Z.sub_diag.
    cbn [shr shr_record_of_loc shr_m loc_of_shr_record round_nearest_even
         Zdigits2].
    rewrite Hmz, Hf2, Z.sub_diag. cbn [shr shr_m].
    replace (ez <=? emax - prec)%Z with true; [reflexivity|].
    symmetry. apply Z.leb_le. unfold emax, prec. lia. }
  destruct (Z.pos (digits2_pos m) - 53 - 0)%Z as [|p|p] eqn:Ed; try lia.
  - exists m. replace (Z.pos (digits2_pos m) - 53)%Z with 0%Z by lia.
    apply Haux; lia.
  - exists (Pos.iter xO m p). apply Haux.
    + rewrite digits2_pos_iter_xO. lia.
    + lia.
Qed.

Lemma Prim2SF_1_5 : Prim2SF 1.5 = S754_finite false 6755399441055744 (-52).
Proof. reflexivity. Qed.

Lemma float_of_nat_lt_1_5 (n : nat) :
  (Z.of_nat n < 2 ^ 53)%Z ->
  (float_of_nat n <? 1.5) = (n <? 2)%nat.
Proof.
  intros Hn.
  destruct n as [|[|n]]; [reflexivity | reflexivity |].
  replace (S (S n) <? 2)%nat with false
    by (symmetry; apply Nat.ltb_ge; lia).
  unfold float_of_nat. rewrite ltb_spec, of_uint63_spec, Prim2SF_1_5.
  rewrite Uint63.of_Z_spec.
  rewrite Z.mod_small by (change Uint63.wB with (2 ^ 63)%Z; split; [lia|];
    apply Z.lt_trans with (2 ^ 53)%Z; [lia | reflexivity]).
  destruct (Z.of_nat (S (S n))) as [|m|m] eqn:Em; try lia.
  unfold binary_normalize.
  assert (Hd : (Z.pos (digits2_pos m) <= 53)%Z)
    by (apply digits2_pos_bound; lia).
  destruct (binary_round_small m Hd) as (mz & ->).
  assert (Hd2 : (2 <= Z.pos (digits2_pos m))%Z).
  { destruct m as [m|m|]; cbn [digits2_pos]; lia. }
  unfold SFltb, SFcompare.
  destruct (Z.compare_spec (Z.pos (digits2_pos m) - 53) (-52));
    try lia; try reflexivity.
Qed.

(** *** Signs and missing values through the norm *)

Lemma binary_round_aux_sign (s : bool) (m e : Z) (l : location) :
  match binary_round_aux prec emax s m e l with
  | S754_zero s' | S754_infinity s' | S754_finite s' _ _ => s' = s
  | S754_nan => True
  end.
Proof.
  unfold binary_round_aux.
  destruct (shr_fexp prec emax m e l) as [mrs e'].
  destruct (shr_fexp prec emax _ e' loc_Exact) as [mrs' e''].
  destruct (shr_m mrs'); [reflexivity | | exact I].
  destruct (Z.leb e'' _); reflexivity.
Qed.

Lemma binary_round_sign (s : bool) (m : positive) (e : Z) :
  match binary_round prec emax s m e with
  | S754_zero s' | S754_infinity s' | S754_finite s' _ _ => s' = s
  | S754_nan => True
  end.
Proof.
  unfold binary_round. destruct (shl_align m e _).
  apply binary_round_aux_sign.
Qed.

Lemma shr_1_nonneg (mrs : shr_record) :
  (0 <= shr_m mrs)%Z -> (0 <= shr_m (shr_1 mrs))%Z.
Proof.
  destruct mrs as [m r s]. cbn [shr_m]. intros H.
  destruct m as [|[p|p|]|p]; cbn; lia.
Qed.

Lemma iter_shr_1_nonneg (n : positive) :
  forall mrs, (0 <= shr_m mrs)%Z -> (0 <= shr_m (iter_pos shr_1 n mrs))%Z.
Proof.
  induction n as [n IH|n IH|]; intros mrs H; cbn [iter_pos].
  - apply IH, IH, shr_1_nonneg, H.
  - apply IH, IH, H.
  - apply shr_1_nonneg, H.
Qed.

Lemma shr_fexp_nonneg (m e : Z) (l : location) :
  (0 <= m)%Z -> (0 <= shr_m (fst (shr_fexp prec emax m e l)))%Z.
Proof.
  intros H. unfold shr_fexp, shr.
  assert (H0 : (0 <= shr_m (shr_record_of_loc m l))%Z).
  { destruct l as [|[]]; cbn; exact H. }
  destruct (_ - e)%Z; cbn [fst]; try exact H0.
  apply iter_shr_1_nonneg, H0.
Qed.

Lemma binary_round_aux_not_nan (s : bool) (m e : Z) (l : location) :
  (0 <= m)%Z -> binary_round_aux prec emax s m e l <> S754_nan.
Proof.
  intros H. unfold binary_round_aux.
  pose proof (@shr_fexp_nonneg m e l H) as H1.
  destruct (shr_fexp prec emax m e l) as [mrs e']. cbn [fst] in H1.
  assert (H2 : (0 <= round_nearest_even (shr_m mrs) (loc_of_shr_record mrs))%Z).
  { unfold round_nearest_even.
    destruct (loc_of_shr_record mrs) as [|[]]; try destruct (Z.even _); lia. }
  pose proof (@shr_fexp_nonneg _ e' loc_Exact H2) as H3.
  destruct (shr_fexp prec emax _ e' loc_Exact) as [mrs' e'']. cbn [fst] in H3.
  destruct (shr_m mrs'); try discriminate; [|lia].
  destruct (Z.leb e'' _); discriminate.
Qed.

Lemma binary_normalize_not_nan (m e : Z) (s : bool) :
  binary_normalize prec emax m e s <> S754_nan.
Proof.
  unfold binary_normalize, binary_round.
  destruct m; try discriminate;
    destruct (shl_align _ _ _); apply binary_round_aux_not_nan; lia.
Qed.

Lemma SFsub_not_nan (x y : spec_float) :
  x <> S754_nan -> sf_finite y -> SF64sub x y <> S754_nan.
Proof.
  unfold SF64sub, SFsub.
  destruct x as [sx|sx| |sx mx ex], y as [sy|sy| |sy my ey];
    cbn; try congruence; try tauto; intros _ _;
    try (destruct sx, sy; discriminate).
  apply binary_normalize_not_nan.
Qed.

Lemma SFsub_nan_l (y : spec_float) : SF64sub S754_nan y = S754_nan.
Proof. reflexivity. Qed.

Lemma SFmul_self (x : spec_float) :
  sf_nonneg (SF64mul x x) /\ (x <> S754_nan -> SF64mul x x <> S754_nan)
  /\ (x = S754_nan -> SF64mul x x = S754_nan).
Proof.
  unfold SF64mul, SFmul. destruct x as [s|s| |s m e]; cbn.
  - repeat split; try discriminate. now destruct s.
  - repeat split; try discriminate. now destruct s.
  - repeat split; congruence.
  - split; [|split].
    + pose proof (binary_round_aux_sign (xorb s s) (Z.pos (m * m)) (e + e)
                                        loc_Exact) as H.
      replace (xorb s s) with false in * by now destruct s.
      destruct (binary_round_aux _ _ _ _ _ _); cbn; auto.
    + intros _. apply binary_round_aux_not_nan. lia.
    + discriminate.
Qed.

Lemma SFadd_nonneg (x y : spec_float) :
  sf_nonneg x -> sf_nonneg y ->
  sf_nonneg (SF64add x y)
  /\ (x <> S754_nan -> y <> S754_nan -> SF64add x y <> S754_nan).
Proof.
  unfold SF64add, SFadd.
  destruct x as [sx|sx| |sx mx ex], y as [sy|sy| |sy my ey];
    cbn [sf_nonneg]; intros Hx Hy; subst; cbn [sf_nonneg];
    try (split; [auto | congruence]); try (split; [exact I | congruence]).
  unfold cond_Zopp.
  split.
  - cbn [Z.add binary_normalize].
    match goal with
    | |- sf_nonneg (binary_round _ _ false ?m ?e) =>
        pose proof (binary_round_sign false m e) as H;
        destruct (binary_round prec emax false m e); cbn; auto
    end.
  - intros _ _. apply binary_normalize_not_nan.
Qed.

Lemma SFadd_nan_l (y : spec_float) : SF64add S754_nan y = S754_nan.
Proof. reflexivity. Qed.

Lemma SFadd_nan_r (x : spec_float) : SF64add x S754_nan = S754_nan.
Proof. now destruct x. Qed.

Lemma SFsqrt_nonneg (x : spec_float) :
  sf_nonneg x ->
  sf_nonneg (SF64sqrt x) /\ (x <> S754_nan -> SF64sqrt x <> S754_nan).
Proof.
  unfold SF64sqrt, SFsqrt.
  destruct x as [s|s| |s m e]; cbn [sf_nonneg]; intros H; subst;
    try (split; [cbn; auto | congruence]).
  destruct (SFsqrt_core_binary prec emax (Z.pos m) e) as [[mz ez] lz] eqn:E.
  split.
  - pose proof (binary_round_aux_sign false mz ez lz) as H.
    destruct (binary_round_aux _ _ _ _ _ _); cbn; auto.
  - intros _. apply binary_round_aux_not_nan.
    unfold SFsqrt_core_binary in E.
    destruct (Z.sqrtrem _) as [q r] eqn:Eq.
    injection E as <- _ _.
    cbv zeta in Eq.
    match type of Eq with
    | Z.sqrtrem ?n = _ =>
        assert (Hq : q = Z.sqrt n)
          by (rewrite <- Z.sqrtrem_sqrt, Eq; reflexivity)
    end.
    subst q. apply Z.sqrt_nonneg.
Qed.

(** *** The same facts on primitive floats *)

Lemma is_finite_spec (x : float) :
  is_finite x = true -> sf_finite (Prim2SF x).
Proof.
  unfold is_finite, is_infinity. rewrite negb_true_iff, orb_false_iff.
  intros [Hn Hi]. apply is_nan_false_spec in Hn.
  rewrite eqb_spec, abs_spec in Hi.
  change (Prim2SF infinity) with (S754_infinity false) in Hi.
  destruct (Prim2SF x) as [s|s| |s m e]; cbn; auto; try congruence.
  destruct s; discriminate Hi.
Qed.

Lemma norm2_spec (e : pt2) :
  Prim2SF (norm2 e)
  = SF64sqrt (SF64add (SF64mul (Prim2SF (fst e)) (Prim2SF (fst e)))
                      (SF64mul (Prim2SF (snd e)) (Prim2SF (snd e)))).
Proof.
  unfold norm2. now rewrite sqrt_spec, add_spec, !mul_spec.
Qed.

(** A norm never is the negative zero. *)
Lemma norm2_nonneg (e : pt2) : sf_nonneg (Prim2SF (norm2 e)).
Proof.
  rewrite norm2_spec.
  apply SFsqrt_nonneg, SFadd_nonneg; apply SFmul_self.
Qed.

(** The norm of [observed - projected] is missing exactly when the
    observation is not valid, provided the projection is finite. *)
Lemma norm2_isnan (o p : pt2) :
  is_finite (fst p) = true -> is_finite (snd p) = true ->
  isnan (norm2 (sub2 o p)) = negb (valid_obs o).
Proof.
  intros Hx Hy. apply is_finite_spec in Hx, Hy.
  unfold valid_obs, isnan.
  destruct (is_nan (fst o)) eqn:Ex; [|destruct (is_nan (snd o)) eqn:Ey];
    cbn [negb andb].
  - apply is_nan_spec in Ex. apply is_nan_spec.
    rewrite norm2_spec. unfold sub2. cbn [fst snd].
    rewrite !sub_spec, Ex. reflexivity.
  - apply is_nan_spec in Ey. apply is_nan_spec.
    rewrite norm2_spec. unfold sub2. cbn [fst snd].
    rewrite !sub_spec, Ey. cbn [SF64sub SFsub].
    change (SF64mul S754_nan S754_nan) with S754_nan.
    rewrite SFadd_nan_r. reflexivity.
  - apply is_nan_false_spec in Ex, Ey. apply is_nan_false_spec.
    rewrite norm2_spec. unfold sub2. cbn [fst snd]. rewrite !sub_spec.
    pose proof (@SFsub_not_nan _ _ Ex Hx) as Dx.
    pose proof (@SFsub_not_nan _ _ Ey Hy) as Dy.
    destruct (SFmul_self (SF64sub (Prim2SF (fst o)) (Prim2SF (fst p))))
      as (Sx & Nx & _).
    destruct (SFmul_self (SF64sub (Prim2SF (snd o)) (Prim2SF (snd p))))
      as (Sy & Ny & _).
    destruct (@SFadd_nonneg _ _ Sx Sy) as (Sa & Na).
    apply SFsqrt_nonneg; auto.
Qed.

(** A residual against a missing observation has a missing norm,
    whatever the projection. *)
Lemma norm2_isnan_invalid (o p : pt2) :
  valid_obs o = false -> isnan (norm2 (sub2 o p)) = true.
Proof.
  unfold valid_obs, isnan. intros H.
  apply is_nan_spec. rewrite norm2_spec. unfold sub2. cbn [fst snd].
  rewrite !sub_spec.
  destruct (is_nan (fst o)) eqn:Ex.
  - apply is_nan_spec in Ex. rewrite Ex. reflexivity.
  - destruct (is_nan (snd o)) eqn:Ey; [|discriminate H].
    apply is_nan_spec in Ey. rewrite Ey. cbn [SF64sub SFsub].
    change (SF64mul S754_nan S754_nan) with S754_nan.
    rewrite SFadd_nan_r. reflexivity.
Qed.

Lemma add_zero_r (x : float) : sf_nonneg (Prim2SF x) -> x + 0 = x.
Proof.
  intros H. apply Prim2SF_inj. rewrite add_spec.
  change (Prim2SF 0) with (S754_zero false).
  destruct (Prim2SF x) as [s|s| |s m e]; cbn in *; subst; reflexivity.
Qed.

Lemma add_zero_l (x : float) : sf_nonneg (Prim2SF x) -> 0 + x = x.
Proof.
  intros H. apply Prim2SF_inj. rewrite add_spec.
  change (Prim2SF 0) with (S754_zero false).
  destruct (Prim2SF x) as [s|s| |s m e]; cbn in *; subst; reflexivity.
Qed.

Lemma add_nonneg (x y : float) :
  sf_nonneg (Prim2SF x) -> sf_nonneg (Prim2SF y) -> sf_nonneg (Prim2SF (x + y)).
Proof.
  intros Hx Hy. rewrite add_spec. now apply SFadd_nonneg.
Qed.

Lemma div_nan_r (x : float) : x / nan = nan.
Proof.
  apply Prim2SF_inj. rewrite div_spec.
  change (Prim2SF nan) with S754_nan.
  now destruct (Prim2SF x).
Qed.

End F64.

(* ================================================================== *)
(** ** Parameter packing of a camera *)

Section Params.

Lemma broadcast_same (n : nat) (l : list float) :
  length l = n -> broadcast n l = Ok l.
Proof.
  intros <-. unfold broadcast. now rewrite Nat.eqb_refl.
Qed.

Lemma well_shaped_inv (n : nat) (c : Camera) :
  well_shaped n c = true ->
  length (rvec c) = 3%nat /\ length (tvec c) = 3%nat /\ length (dist c) = n /\
  exists a00 a01 a02 a10 a11 a12 a20 a21 a22,
    matrix c = [[a00; a01; a02]; [a10; a11; a12]; [a20; a21; a22]].
Proof.
  unfold well_shaped. rewrite !andb_true_iff, !Nat.eqb_eq.
  intros [[[[Hr Ht] Hd] Hm] Hrows]. repeat split; trivial.
  destruct (matrix c) as [|r0 [|r1 [|r2 [|? ?]]]]; try discriminate.
  cbn in Hrows. rewrite !andb_true_iff, !Nat.eqb_eq in Hrows.
  destruct Hrows as (H0 & H1 & H2 & _).
  destruct r0 as [|? [|? [|? [|? ?]]]]; try discriminate.
  destruct r1 as [|? [|? [|? [|? ?]]]]; try discriminate.
  destruct r2 as [|? [|? [|? [|? ?]]]]; try discriminate.
  repeat eexists.
Qed.

Lemma length3_inv (l : list float) :
  length l = 3%nat -> exists a b c, l = [a; b; c].
Proof.
  destruct l as [|a [|b [|c [|? ?]]]]; try discriminate. intros _. eauto.
Qed.

Lemma length5_inv (l : list float) :
  length l = 5%nat -> exists a b c d e, l = [a; b; c; d; e].
Proof.
  destruct l as [|a [|b [|c [|d [|e [|? ?]]]]]]; try discriminate.
  intros _. repeat eexists.
Qed.

(** A pinhole camera packs 16 numbers when its flag is set and 6
    otherwise. *)
Lemma Camera_get_params_length (c : Camera) (flag : bool) :
  well_shaped 5 c = true ->
  exists p, Camera_get_params c flag = Ok p
            /\ length p = if flag then 16%nat else 6%nat.
Proof.
  intros Hw. apply well_shaped_inv in Hw.
  destruct Hw as (Hr & Ht & Hd & a00 & a01 & a02 & a10 & a11 & a12
                  & a20 & a21 & a22 & Hm).
  apply length3_inv in Hr. destruct Hr as (r0 & r1 & r2 & Hr).
  apply length3_inv in Ht. destruct Ht as (t0 & t1 & t2 & Ht).
  apply length5_inv in Hd. destruct Hd as (d0 & d1 & d2 & d3 & d4 & Hd).
  unfold Camera_get_params. rewrite Hr, Ht, Hm, Hd.
  destruct flag; cbn; eexists; split; reflexivity.
Qed.

End Params.

(** C2, as amended.  For a camera whose pose vectors have three entries
    and whose intrinsic matrix is upper triangular with unit last entry:
    on a pinhole [Camera] with five distortion coefficients,
    [setParams(getParams(cam, True), True)] is the identity on the camera
    state; on a [FisheyeCamera] with four coefficients it keeps rotation,
    translation, principal point, skew and the first distortion
    coefficient (the second too under [extra_dist]), replaces both focal
    lengths by their mean and zeroes the remaining coefficients. *)
Theorem params_roundtrip_by_class (c : Camera) (fx fy cx cy skew : float) :
  length (rvec c) = 3%nat ->
  length (tvec c) = 3%nat ->
  matrix c = [[fx; skew; cx]; [0; fy; cy]; [0; 0; 1]] ->
  length (dist c) = match kind c with Pinhole => 5%nat | Fisheye => 4%nat end ->
  params_roundtrip c =
  Ok match kind c with
     | Pinhole => c
     | Fisheye =>
         set_distortions
           (set_camera_matrix c
              [[(fx + fy) / 2; skew; cx]; [0; (fx + fy) / 2; cy]; [0; 0; 1]])
           [nth 0 (dist c) 0; if extra_dist c then nth 1 (dist c) 0 else 0; 0; 0]
     end.
Proof.
  intros Hr Ht Hm Hd.
  apply length3_inv in Hr. destruct Hr as (r0 & r1 & r2 & Hr).
  apply length3_inv in Ht. destruct Ht as (t0 & t1 & t2 & Ht).
  destruct c as [k m d sz rv tv nm ed]; cbn in *. subst m rv tv.
  unfold params_roundtrip, getParams, setParams, get_params, set_params.
  destruct k; cbn [kind class_flag negb].
  - apply length5_inv in Hd. destruct Hd as (d0 & d1 & d2 & d3 & d4 & ->).
    reflexivity.
  - destruct d as [|d0 [|d1 [|d2 [|d3 [|? ?]]]]]; try discriminate.
    destruct ed; reflexivity.
Qed.

(** The round trip on a pinhole camera, run. *)
Lemma params_roundtrip_by_class_witness :
  params_roundtrip pinhole_500 = Ok pinhole_500.
Proof.
  exact (@params_roundtrip_by_class pinhole_500 500 500 320 240 0
           eq_refl eq_refl eq_refl eq_refl).
Defined.

(** C2 as stated fails on a fisheye camera: the two focal lengths 800
    and 600 both come back as 700, and the distortion coefficients after
    the first come back as zero. *)
Lemma params_roundtrip_fisheye_not_identity :
  params_roundtrip fisheye_800_600 =
    Ok (mkCamera Fisheye [[700; 0; 320]; [0; 700; 240]; [0; 0; 1]]
                 [0.1; 0; 0; 0] (Some [640; 480]%Z)
                 [0; 0; 0] [0; 0; 1] "fish"%string false)
  /\ params_roundtrip fisheye_800_600 <> Ok fisheye_800_600.
Proof.
  split; [reflexivity|].
  intros H.
  apply (f_equal (fun r => match r with
                           | Ok c => match matrix c with
                                     | (x :: _) :: _ => (x =? 800)%float
                                     | _ => false
                                     end
                           | Raise _ => false
                           end)) in H.
  vm_compute in H. discriminate.
Qed.

(* ================================================================== *)
(** ** Parameter blocks of bundle adjustment *)

Lemma mapM_blocks {A : Type} (f : A -> result (list float)) (k : nat)
    (l : list A) :
  (forall a, In a l -> exists p, f a = Ok p /\ length p = k) ->
  exists blocks, mapM f l = Ok blocks
                 /\ length blocks = length l
                 /\ length (concat blocks) = (k * length l)%nat.
Proof.
  induction l as [|a l IH]; intros H.
  - exists []. cbn. repeat split; lia.
  - destruct (H a (or_introl eq_refl)) as (p & Hp & Hlen).
    destruct IH as (bs & Hbs & Hl & Hc).
    { intros b Hb. apply H. now right. }
    exists (p :: bs). cbn. rewrite Hp. cbn. rewrite Hbs. cbn.
    repeat split; [lia|]. rewrite length_app. lia.
Qed.

(** The committed block of a pinhole camera: with the flag set, the
    intrinsic matrix and the distortions are rebuilt from entries 6 to
    15 of the block; without it they are left alone. *)
Lemma Camera_set_params_commit (c : Camera) (params : list float) (flag : bool) :
  length params = (if flag then 16%nat else 6%nat) ->
  exists c', Camera_set_params c params flag = Ok c'
    /\ rvec c' = slice params 0 3 /\ tvec c' = slice params 3 6
    /\ if flag
       then matrix c' = [[nth 6 params 0; nth 10 params 0; nth 8 params 0];
                         [0; nth 7 params 0; nth 9 params 0]; [0; 0; 1]]
            /\ dist c' = slice params 11 16
       else matrix c' = matrix c /\ dist c' = dist c.
Proof.
  intros Hlen. unfold Camera_set_params. destruct flag; cbn [negb].
  - do 16 (destruct params as [|? params]; [discriminate|]).
    destruct params; [|discriminate].
    eexists. split; [reflexivity|]. cbn. repeat split.
  - eexists. split; [reflexivity|]. cbn. repeat split.
Qed.

(** C1, on the code.  For a non-empty group of pinhole cameras,
    [bundle_adjust] packs 16 numbers per camera when
    [only_extrinsics=True] and 6 when [only_extrinsics=False]: the flag
    reaches [Camera.get_params] as [optimize_intrinsics]. *)
Theorem pinhole_block_length_inverted (g : CameraGroup) (only_extrinsics : bool) :
  cameras g <> [] ->
  forallb (fun c => is_pinhole c && well_shaped 5 c) (cameras g) = true ->
  exists cam_params,
    camera_blocks g only_extrinsics
    = Ok (cam_params, if only_extrinsics then 16%nat else 6%nat).
Proof.
  intros Hne Hall. rewrite forallb_forall in Hall.
  unfold camera_blocks.
  destruct (@mapM_blocks Camera (fun cam => get_params cam only_extrinsics)
              (if only_extrinsics then 16%nat else 6%nat) (cameras g))
    as (blocks & Hb & Hl & Hc).
  { intros c Hc. specialize (Hall c Hc). apply andb_prop in Hall.
    destruct Hall as [Hp Hw]. unfold get_params, is_pinhole in *.
    destruct (kind c); [|discriminate].
    now apply Camera_get_params_length. }
  rewrite Hb. cbn [bind].
  destruct blocks as [|b bs].
  - destruct (cameras g); [congruence | discriminate].
  - eexists. f_equal. f_equal. rewrite Hc.
    apply Nat.div_mul. destruct (cameras g); [congruence | discriminate].
Qed.

(** Two pinhole cameras under [only_extrinsics=True]: 16 numbers each. *)
Lemma pinhole_block_length_inverted_witness :
  exists cam_params, camera_blocks two_pinholes true = Ok (cam_params, 16%nat).
Proof.
  apply (@pinhole_block_length_inverted two_pinholes true);
    [discriminate | reflexivity].
Defined.

(** The same call run through [bundle_adjust] with a solver that moves
    every parameter by one: under [only_extrinsics=True] the focal
    length of the first camera changes from 500 to 501, under
    [only_extrinsics=False] the intrinsic matrix is the one before the
    call. *)
Example bundle_adjust_only_extrinsics_run :
  (exists g' e r,
     bundle_adjust (Cap := example_capabilities) two_pinholes two_points None
                   linear 50 0.0001 1000 true tt = Ok (g', e, r)
     /\ map matrix (cameras g')
        = [[[501; 1; 321]; [0; 501; 241]; [0; 0; 1]];
           [[501; 1; 321]; [0; 501; 241]; [0; 0; 1]]])
  /\ (exists g' e r,
     bundle_adjust (Cap := example_capabilities) two_pinholes two_points None
                   linear 50 0.0001 1000 false tt = Ok (g', e, r)
     /\ map matrix (cameras g') = map matrix (cameras two_pinholes)).
Proof.
  split; do 3 eexists; split; try (vm_compute; reflexivity); reflexivity.
Qed.

(** What the inversion means for the frame: on pinhole cameras a call
    with [only_extrinsics=False] never writes the intrinsic matrix or
    the distortions, whatever the solver returns. *)
Lemma commit_params_false_keeps_intrinsics (best_params : list float)
    (n_cam_params : nat) (cams : list Camera) :
  forallb is_pinhole cams = true ->
  forall (k : nat) (cams' : list Camera),
    mapM (fun ic : nat * Camera =>
            set_params (snd ic)
                       (slice best_params (fst ic * n_cam_params)
                              ((fst ic + 1) * n_cam_params))
                       false)
         (enumerate_from k cams) = Ok cams' ->
    map matrix cams' = map matrix cams /\ map dist cams' = map dist cams.
Proof.
  induction cams as [|c cams IH]; intros Hp k cams' H.
  - injection H as <-. split; reflexivity.
  - cbn [forallb] in Hp. apply andb_prop in Hp. destruct Hp as [Hc Hp].
    cbn [enumerate_from mapM fst snd] in H.
    unfold set_params at 1 in H. unfold is_pinhole in Hc.
    destruct (kind c); [|discriminate Hc].
    cbn [Camera_set_params negb bind] in H.
    inv_bind H as cs E. injection H as <-.
    destruct (IH Hp _ _ E) as [Hm Hd].
    cbn [map]. rewrite Hm, Hd. split; reflexivity.
Qed.

Lemma bundle_adjust_false_keeps_intrinsics `{Cap : Capabilities}
    (g : CameraGroup) (p2ds : tensor) (extra : option Extra)
    (loss : loss_kind) (threshold ftol : float) (max_nfev : Z) (rng : Rng)
    (g' : CameraGroup) (error : float) (rng' : Rng) :
  forallb is_pinhole (cameras g) = true ->
  bundle_adjust g p2ds extra loss threshold ftol max_nfev false rng
  = Ok (g', error, rng') ->
  map matrix (cameras g') = map matrix (cameras g)
  /\ map dist (cameras g') = map dist (cameras g).
Proof.
  intros Hp H. unfold bundle_adjust in H.
  destruct (negb _); [discriminate H|].
  inv_bind H as [[x0 n] r1] E1. inv_bind H as cams E2.
  inv_bind H as e E3. injection H as <- _ _. cbn [cameras].
  unfold commit_params, enumerate in E2.
  eapply commit_params_false_keeps_intrinsics; eassumption.
Qed.

(* ================================================================== *)
(** ** The calibration loop *)

Section Loop.
Context `{Cap : Capabilities}.

(** The clamp of [mu]: the result is never below the lower bound, and
    never above the upper bound when the bounds are in order. *)
Lemma clamped_mu_bounds (lo hi m : float) :
  let mu := py_max (py_min hi m) lo in
  (mu <? lo) = false /\ ((hi <? lo) = false -> (hi <? mu) = false).
Proof.
  cbv zeta. unfold py_max, py_min.
  destruct (m <? hi) eqn:E1.
  - destruct (m <? lo) eqn:E2.
    + split; [apply F64.ltb_irrefl | auto].
    + split; [assumption | intros _; now apply F64.ltb_asym].
  - destruct (hi <? lo) eqn:E2.
    + split; [apply F64.ltb_irrefl | discriminate].
    + split; [assumption | intros _; apply F64.ltb_irrefl].
Qed.





(** In every view [mu] is not below the lower bound, and not above the
    upper one when the bounds are in order. *)
Lemma round_view_mu_clamped (a : iter_args) (p2ds_full : tensor)
    (extra_full : option Extra) (mus : list float) (i : nat)
    (g : CameraGroup) (r : Rng) (v : round_view) :
  round_view_of a p2ds_full extra_full mus i g r = Ok v ->
  exists lo hi mu_i,
    nth_error mus i = Some mu_i
    /\ rv_mu v = clamp_mu lo hi mu_i
    /\ (rv_mu v <? lo) = false
    /\ ((hi <? lo) = false -> (hi <? rv_mu v) = false)
    /\ rv_kept v = map (fun e => e <? rv_mu v) (rv_scores v)
    /\ rv_median v = np_median (rv_scores v).
Proof.
  unfold round_view_of. intros H.
  destruct (resample_points p2ds_full extra_full (n_samp_full a) r)
    as [[p2ds extra] rng1].
  inv_bind H as p3ds E1. inv_bind H as errors_full E2.
  inv_bind H as errors_norm E3. inv_bind H as mu_i E4.
  match type of H with
  | context [resample_points ?t ?e ?n ?r] =>
      destruct (resample_points t e n r) as [[p2ds_samp extra_samp] rng2]
  end.
  injection H as <-. cbn [rv_mu rv_kept rv_scores rv_median].
  unfold getitem in E4.
  destruct (nth_error mus i) as [m|]; [|discriminate E4]. injection E4 as ->.
  do 3 eexists. split; [reflexivity|]. split; [reflexivity|].
  split; [apply clamped_mu_bounds|].
  split; [apply clamped_mu_bounds | now split].
Qed.

End Loop.



(* ================================================================== *)
(** ** Sub-groups and the objects they share *)

Section Sharing.
Import Store.

Lemma copy_array_grows (h h' : store) (l l' : loc) :
  copy_array h l = Ok (h', l') -> exists o, h' = h ++ [o] /\ l' = length h.
Proof.
  unfold copy_array. intros H. inv_bind H as o E.
  destruct o; try discriminate H; unfold alloc in H;
    injection H as <- <-; eauto.
Qed.

Lemma Camera_copy_grows (h h' : store) (l l' : loc) :
  Store.Camera_copy h l = Ok (h', l') ->
  exists ext, h' = h ++ ext /\ (length h <= l')%nat.
Proof.
  unfold Store.Camera_copy. intros H. inv_bind H as o E.
  destruct o; try discriminate H.
  inv_bind H as [h1 m1] E1. inv_bind H as [h2 d1] E2.
  inv_bind H as [h3 r1] E3. inv_bind H as [h4 t1] E4.
  inv_bind H as [h5 m2] E5. inv_bind H as [h6 d2] E6.
  inv_bind H as [h7 r2] E7. inv_bind H as [h8 t2] E8.
  unfold alloc in H. injection H as <- <-.
  apply copy_array_grows in E1, E2, E3, E4, E5, E6, E7, E8.
  destruct E1 as (? & -> & _), E2 as (? & -> & _), E3 as (? & -> & _),
           E4 as (? & -> & _), E5 as (? & -> & _), E6 as (? & -> & _),
           E7 as (? & -> & _), E8 as (? & -> & _).
  rewrite <- !app_assoc. eexists. split; [reflexivity|].
  rewrite !length_app. lia.
Qed.

Lemma copy_all_grows (ls : list loc) :
  forall (h h' : store) (ls' : list loc),
    copy_all h ls = Ok (h', ls') ->
    (exists ext, h' = h ++ ext) /\ Forall (fun l => (length h <= l)%nat) ls'.
Proof.
  induction ls as [|l ls IH]; intros h h' ls' H; cbn [copy_all] in H.
  - injection H as <- <-. split; [|constructor].
    exists []. now rewrite app_nil_r.
  - inv_bind H as [h1 l1] E1. inv_bind H as [h2 r2] E2.
    injection H as <- <-.
    apply IH in E2. destruct E2 as ((ext2 & ->) & Hf).
    apply Camera_copy_grows in E1. destruct E1 as (ext1 & -> & Hl).
    split.
    + rewrite <- app_assoc. eauto.
    + constructor; [assumption|].
      eapply Forall_impl; [|exact Hf]. cbn. intros x Hx.
      rewrite length_app in Hx. lia.
Qed.

(** The sub-group returned by [subset_cameras] holds the very metadata
    object of its parent, whatever the indices. *)
Lemma subset_cameras_shares_metadata (h h' : store) (g g' : group)
    (indices : list Z) :
  Store.subset_cameras h g indices = Ok (h', g') ->
  g_metadata g' = g_metadata g /\ exists ext, h' = h ++ ext.
Proof.
  unfold Store.subset_cameras. intros H.
  inv_bind H as ls E1. inv_bind H as [h1 cams] E2.
  injection H as <- <-. split; [reflexivity|].
  apply copy_all_grows in E2. tauto.
Qed.

(** [CameraGroup.copy], the sibling of [subset_cameras], gives its
    result a metadata object of its own. *)
Lemma CameraGroup_copy_fresh_metadata (h h' : store) (g g' : group) :
  CameraGroup_copy h g = Ok (h', g') ->
  (length h <= g_metadata g')%nat.
Proof.
  unfold CameraGroup_copy. intros H.
  inv_bind H as [h1 cams] E1. inv_bind H as md E2.
  destruct md; try discriminate H. unfold alloc in H.
  injection H as <- <-. cbn [g_metadata].
  apply copy_all_grows in E1. destruct E1 as ((ext & ->) & _).
  rewrite length_app. lia.
Qed.

End Sharing.

(** C4, on the code.  A sub-group made by [subset_cameras] shares the
    metadata dictionary of its parent: after
    [sub = g.subset_cameras([0])] and [sub.metadata["session"] = "second"]
    the parent's metadata reads ["second"]; its camera arrays are its
    own (a write to the sub-group's rotation leaves the parent's), and
    [g.copy()] followed by the same metadata write leaves the parent's
    metadata as it was. *)
Theorem subset_cameras_metadata_aliased :
  (exists h1 sub h2,
      Store.subset_cameras session_store session_group [0%Z] = Ok (h1, sub)
      /\ Store.metadata_of h1 session_group
         = Ok [("session"%string, "first"%string)]
      /\ Store.metadata_setitem h1 sub "session" "second" = Ok h2
      /\ Store.metadata_of h2 session_group
         = Ok [("session"%string, "second"%string)])
  /\ (exists h1 sub h2,
      Store.subset_cameras session_store session_group [0%Z] = Ok (h1, sub)
      /\ Store.rvec_setitem h1 sub 0 0 1 = Ok h2
      /\ Store.rvec_of h2 sub 0 = Ok [1; 0; 0]
      /\ Store.rvec_of h2 session_group 0 = Ok [0; 0; 0])
  /\ (exists h1 cp h2,
      Store.CameraGroup_copy session_store session_group = Ok (h1, cp)
      /\ Store.metadata_setitem h1 cp "session" "second" = Ok h2
      /\ Store.metadata_of h2 session_group
         = Ok [("session"%string, "first"%string)]).
Proof.
  split; [|split]; do 3 eexists; repeat split; vm_compute; reflexivity.
Qed.

(* ================================================================== *)
(** ** The persisted record *)

Lemma from_dict_get_dict (c : Camera) (d : pydict toml_value) :
  get_dict c = Ok d ->
  (if dict_mem d "fisheye"
   then fe <- dict_get d "fisheye" ;;
        if truthy fe then FisheyeCamera_from_dict d else Camera_from_dict d
   else Camera_from_dict d) = Ok (persisted c).
Proof.
  unfold get_dict. destruct c as [k m ds sz r t n ed]; cbn [size kind].
  destruct sz as [sz|]; [|discriminate].
  destruct k; intros H; injection H as <-; reflexivity.
Qed.

Lemma from_dicts_get_dicts (cams : list Camera) :
  forall dicts, mapM get_dict cams = Ok dicts ->
  from_dicts dicts = Ok (mkGroup (map persisted cams) []).
Proof.
  unfold from_dicts.
  induction cams as [|c cams IH]; intros dicts H; cbn [mapM] in H.
  - injection H as <-. reflexivity.
  - inv_bind H as d E1. inv_bind H as ds E2. injection H as <-.
    specialize (IH ds eq_refl). cbn [mapM].
    rewrite (from_dict_get_dict c E1). cbn [bind].
    destruct (mapM _ ds) as [cs|]; [|discriminate IH].
    cbn [bind] in *. injection IH as ->. reflexivity.
Qed.

Lemma as_metadata_table (md : list (string * string)) :
  as_metadata (metadata_table md) = Ok md.
Proof.
  unfold as_metadata, metadata_table.
  induction md as [|[k v] md IH]; [reflexivity|].
  cbn [map mapM fst snd as_str bind]. rewrite IH. reflexivity.
Qed.

(** With at most ten cameras the sorted keys are in camera order, so
    loading reads the tables back in the order they were dumped. *)
Lemma load_items_upto_10 (dicts : list (pydict toml_value))
    (md : pydict toml_value) :
  (length dicts <= 10)%nat ->
  let master := dict_set (combine (map cam_key (seq 0 (length dicts))) dicts)
                         "metadata" md in
  mapM (dict_get master)
       (filter (fun k => negb (String.eqb k "metadata"))
               (sorted (map fst master))) = Ok dicts
  /\ dict_mem master "metadata" = true
  /\ dict_get master "metadata" = Ok md.
Proof.
  intros Hlen.
  do 11 (destruct dicts as [|? dicts];
         [cbv zeta; repeat split; vm_compute; reflexivity|]).
  cbn [length] in Hlen. lia.
Qed.

Lemma mapM_length {A B : Type} (f : A -> result B) (l : list A) :
  forall l', mapM f l = Ok l' -> length l' = length l.
Proof.
  induction l as [|a l IH]; intros l' H; cbn [mapM] in H.
  - injection H as <-. reflexivity.
  - inv_bind H as b E1. inv_bind H as bs E2. injection H as <-.
    cbn [length]. f_equal. now apply IH.
Qed.

(** For groups of at most ten cameras, all with a frame size, the
    persistence round trip gives back every persisted field, the
    variant and the order. *)
Lemma dump_load_upto_10 (g : CameraGroup) :
  (length (cameras g) <= 10)%nat ->
  forallb (fun c => match size c with Some _ => true | None => false end)
          (cameras g) = true ->
  dump_load g = Ok (mkGroup (map persisted (cameras g)) (metadata g)).
Proof.
  intros Hlen Hsz. unfold dump_load, dump, get_dicts.
  destruct (mapM get_dict (cameras g)) as [dicts|e] eqn:E.
  - cbn [bind]. unfold load.
    pose proof (mapM_length _ _ E) as Hl.
    destruct (@load_items_upto_10 dicts (metadata_table (metadata g)))
      as (H1 & H2 & H3); [lia|].
    cbv zeta in H1, H2, H3. rewrite H1. cbn [bind].
    rewrite (from_dicts_get_dicts _ E). cbn [bind].
    rewrite H2, H3. cbn [bind]. rewrite as_metadata_table. reflexivity.
  - exfalso. clear Hlen. revert e E.
    induction (cameras g) as [|c cams IH]; intros e E; [discriminate E|].
    cbn [forallb] in Hsz. apply andb_prop in Hsz. destruct Hsz as [Hc Hs].
    cbn [mapM] in E. unfold get_dict at 1 in E.
    destruct (size c); [|discriminate Hc].
    destruct (kind c); cbn [bind] in E;
      (destruct (mapM get_dict cams) eqn:E'; cbn [bind] in E;
       [discriminate E | eapply IH; eauto]).
Qed.

(** C8, on the code.  A group of eleven cameras [c0 .. c10] is dumped
    under the keys [cam_0 .. cam_10]; [load] sorts the keys as strings,
    so the camera dumped under [cam_10] comes back third. *)
Theorem dump_load_eleven_reorders :
  map name (cameras eleven_cameras)
  = ["c0"; "c1"; "c2"; "c3"; "c4"; "c5"; "c6"; "c7"; "c8"; "c9"; "c10"]%string
  /\ exists g',
       dump_load eleven_cameras = Ok g'
       /\ map name (cameras g')
          = ["c0"; "c1"; "c10"; "c2"; "c3"; "c4"; "c5"; "c6"; "c7"; "c8";
             "c9"]%string.
Proof.
  split; [reflexivity|].
  eexists. split; [vm_compute; reflexivity | reflexivity].
Qed.

(* ================================================================== *)
(** ** Weighted and unweighted linear triangulation *)

Lemma scale4_one (r : row4) : scale4 1 r = r.
Proof.
  destruct r as [[[a b] c] d]. unfold scale4.
  now rewrite !F64.mul_one_l.
Qed.

Lemma map_scale4_one (l : list row4) : map (scale4 1) l = l.
Proof.
  induction l as [|r l IH]; [reflexivity|].
  cbn [map]. now rewrite scale4_one, IH.
Qed.

(** Under unit weights the weighted system is the unweighted one, row
    by row. *)
Lemma weighted_system_ones (points : list pt2) :
  forall (mats : list cam_mat) (n : nat),
    (length mats <= n)%nat ->
    weighted_system points mats (repeat 1 n) = simple_system points mats.
Proof.
  unfold weighted_system, simple_system.
  induction points as [|p points IH]; intros mats n Hn; [reflexivity|].
  destruct mats as [|m mats]; [reflexivity|].
  destruct n as [|n]; [cbn in Hn; lia|].
  cbn [repeat combine flat_map fst snd].
  rewrite map_scale4_one. f_equal. apply IH. cbn in Hn. lia.
Qed.

Lemma mask_length {A : Type} (good : list bool) :
  forall l : list A, length l = length good ->
                     length (mask good l) = count_true good.
Proof.
  unfold count_true.
  induction good as [|b good IH]; intros [|x l] H; try discriminate;
    [reflexivity|].
  cbn [mask filter]. injection H as H.
  destruct b; cbn [length]; now rewrite IH.
Qed.

Lemma mask_length_le {A : Type} (good : list bool) :
  forall l : list A, (length (mask good l) <= count_true good)%nat.
Proof.
  unfold count_true.
  induction good as [|b good IH]; intros l; [cbn; lia|].
  destruct l as [|x l]; [cbn; lia|].
  specialize (IH l). destruct b; cbn in *; lia.
Qed.

Lemma mapM_ext {A B : Type} (f f' : A -> result B) (l : list A) :
  (forall a, f a = f' a) -> mapM f l = mapM f' l.
Proof.
  intros H. induction l as [|a l IH]; [reflexivity|].
  cbn [mapM]. now rewrite H, IH.
Qed.

Section Weighted.
Context `{Cap : Capabilities}.

Lemma triangulate_weighted_ones (points : list pt2) (mats : list cam_mat)
    (n : nat) :
  (length mats <= n)%nat ->
  triangulate_weighted points mats (repeat 1 n) = triangulate_simple points mats.
Proof.
  intros Hn. unfold triangulate_weighted, triangulate_simple.
  rewrite repeat_length, weighted_system_ones by assumption.
  replace (n <? length mats)%nat with false
    by (symmetry; apply Nat.ltb_ge; assumption).
  now rewrite orb_false_r.
Qed.

(** C9.  Weighted linear triangulation with every weight equal to 1
    returns what [triangulate_simple] returns on the same points and
    camera matrices (the same point, or the same exception), and
    [CameraGroup.triangulate_weighted] with [weights=None] returns what
    [CameraGroup.triangulate] returns in non-fast mode. *)
Theorem unit_weights_reproduce_unweighted :
  (forall (points : list pt2) (mats : list cam_mat),
      triangulate_weighted points mats (repeat 1 (length mats))
      = triangulate_simple points mats)
  /\ (forall (g : CameraGroup) (points : tensor) (undistort : bool),
         group_triangulate_weighted g points undistort
         = triangulate g points undistort false).
Proof.
  split.
  - intros points mats. now apply triangulate_weighted_ones.
  - intros g points undistort.
    unfold group_triangulate_weighted, triangulate.
    destruct (negb _); [reflexivity|].
    destruct (if undistort then undistort_rows (cameras g) (rows points)
              else Ok (rows points)) as [rws|e]; [|reflexivity].
    cbn [bind]. apply mapM_ext. intros ip.
    unfold triangulate_weighted_point, triangulate_point.
    destruct (2 <=? _)%nat; [|reflexivity].
    apply triangulate_weighted_ones, mask_length_le.
Qed.

End Weighted.

(* ================================================================== *)
(** ** Triangulation of a group *)

Lemma mapM_nth_error {A B : Type} (f : A -> result B) (l : list A) :
  forall (l' : list B) (i : nat) (a : A),
    mapM f l = Ok l' -> nth_error l i = Some a ->
    exists b, f a = Ok b /\ nth_error l' i = Some b.
Proof.
  induction l as [|x l IH]; intros l' i a H Hi.
  - destruct i; discriminate Hi.
  - cbn [mapM] in H. inv_bind H as b E1. inv_bind H as bs E2.
    injection H as <-. destruct i as [|i].
    + injection Hi as <-. eauto.
    + cbn [nth_error] in *. eapply IH; eauto.
Qed.

Lemma nth_error_seq (start len i : nat) :
  (i < len)%nat -> nth_error (seq start len) i = Some (start + i)%nat.
Proof.
  revert start i. induction len as [|len IH]; intros start i Hi; [lia|].
  destruct i as [|i]; cbn [seq nth_error].
  - f_equal. lia.
  - rewrite IH by lia. f_equal. lia.
Qed.

Lemma map_snd_combine_eq {A B : Type} (l1 : list A) :
  forall l2 : list B, length l2 = length l1 -> map snd (combine l1 l2) = l2.
Proof.
  induction l1 as [|a l1 IH]; intros [|b l2] H; try discriminate; [reflexivity|].
  cbn. f_equal. apply IH. now injection H.
Qed.

Section GroupTriangulation.
Context `{Cap : Capabilities}.






End GroupTriangulation.


(* ================================================================== *)
(** ** Mean reprojection error *)

Lemma fold_add_zeroed (norms : list float) :
  Forall (fun e => sf_nonneg (Prim2SF e)) norms ->
  forall acc, sf_nonneg (Prim2SF acc) ->
    fold_left PrimFloat.add (map (fun e => if isnan e then 0 else e) norms) acc
    = fold_left PrimFloat.add (mask (map (fun e => negb (isnan e)) norms) norms) acc.
Proof.
  induction 1 as [|e norms He Hn IH]; intros acc Hacc; [reflexivity|].
  cbn [map mask fold_left]. destruct (isnan e); cbn [negb fold_left].
  - rewrite F64.add_zero_r by assumption. now apply IH.
  - apply IH. now apply F64.add_nonneg.
Qed.

Lemma sum_in_order_fold (l : list float) :
  Forall (fun e => sf_nonneg (Prim2SF e)) l ->
  sum_in_order l = fold_left PrimFloat.add l 0.
Proof.
  destruct 1 as [|e l He Hl]; [reflexivity|].
  cbn [sum_in_order fold_left]. now rewrite F64.add_zero_l.
Qed.

(** For a sum taken in camera order, summing the norms with the
    missing ones replaced by zero is summing the norms that are
    there. *)
Lemma sum_in_order_zeroed (norms : list float) :
  Forall (fun e => sf_nonneg (Prim2SF e)) norms ->
  sum_in_order (map (fun e => if isnan e then 0 else e) norms)
  = sum_in_order (mask (map (fun e => negb (isnan e)) norms) norms).
Proof.
  intros H. rewrite !sum_in_order_fold.
  - apply fold_add_zeroed; [assumption | reflexivity].
  - clear -H. induction H as [|e l He Hl IH]; [constructor|].
    cbn [map mask]. destruct (isnan e); cbn [negb]; auto.
  - clear -H. induction H as [|e l He Hl IH]; [constructor|].
    cbn [map]. constructor; [|assumption].
    destruct (isnan e); [reflexivity | assumption].
Qed.

Lemma count_true_le_length (l : list bool) : (count_true l <= length l)%nat.
Proof. unfold count_true. apply filter_length_le. Qed.

Section Scorer.
Context `{Cap : Capabilities}.

(** The reduction of [mean=True] for one point: the test
    [denom < 1.5] is the test that fewer than two norms are there. *)
Lemma mean_of_norms_value (n : nat) (norms : list float) :
  (Z.of_nat (length norms) < 2 ^ 53)%Z ->
  let used := map (fun e => negb (isnan e)) norms in
  mean_of_norms n norms
  = if (count_true used <? 2)%nat then nan
    else np_sum_axis0 n (map (fun e => if isnan e then 0 else e) norms)
         / float_of_nat (count_true used).
Proof.
  intros Hlen used. unfold mean_of_norms. fold used.
  rewrite F64.float_of_nat_lt_1_5.
  - destruct (count_true used <? 2)%nat; [apply F64.div_nan_r | reflexivity].
  - pose proof (count_true_le_length used) as H.
    subst used. rewrite length_map in H. lia.
Qed.

Lemma error_rows_combine (p3ds : list pt3) (cams : list Camera) :
  forall rws : list (list pt2),
    length rws = length cams ->
    error_rows cams p3ds rws
    = map (fun cr : Camera * list pt2 =>
             Camera_reprojection_error (fst cr) p3ds (snd cr))
          (combine cams rws).
Proof.
  induction cams as [|cam cams IH]; intros [|row rws] H; try discriminate;
    [reflexivity|].
  cbn [error_rows combine map fst snd]. f_equal. apply IH. now injection H.
Qed.

Lemma nth_Camera_reprojection_error (cam : Camera) (p3ds : list pt3)
    (row : list pt2) (ip : nat) (p3d : pt3) :
  nth_error p3ds ip = Some p3d ->
  (ip < length row)%nat ->
  nth ip (Camera_reprojection_error cam p3ds row) nan_pt2
  = sub2 (nth ip row nan_pt2) (project cam p3d).
Proof.
  unfold Camera_reprojection_error. revert p3ds ip.
  induction row as [|o row IH]; intros p3ds ip Hp Hip; [cbn in Hip; lia|].
  destruct p3ds as [|q p3ds]; [destruct ip; discriminate Hp|].
  destruct ip as [|ip]; cbn [combine map nth fst snd].
  - cbn in Hp. now injection Hp as ->.
  - apply IH; [exact Hp | cbn in Hip; lia].
Qed.

(** The cameras whose residual norm is there have a valid
    observation. *)
Lemma used_are_valid (p3d : pt3) (cams : list Camera) :
  forall obs : list pt2,
    Forall2 (fun u v : bool => u = true -> v = true)
            (map (fun co : Camera * pt2 =>
                    negb (isnan (norm2 (sub2 (snd co) (project (fst co) p3d)))))
                 (combine cams obs))
            (map valid_obs (firstn (length cams) obs)).
Proof.
  induction cams as [|cam cams IH]; intros obs; [constructor|].
  destruct obs as [|o obs]; [constructor|].
  cbn [combine map length firstn fst snd]. constructor; [|apply IH].
  destruct (valid_obs o) eqn:Ev; [reflexivity|].
  now rewrite F64.norm2_isnan_invalid.
Qed.

Lemma count_true_implied (us vs : list bool) :
  Forall2 (fun u v : bool => u = true -> v = true) us vs ->
  (count_true us <= count_true vs)%nat.
Proof.
  unfold count_true. induction 1 as [|u v us vs Huv _ IH]; [reflexivity|].
  cbn [filter]. destruct u; [rewrite Huv by reflexivity|destruct v];
    cbn [length]; lia.
Qed.

(** C7, as amended.  With [mean=True], on a rectangular tensor with one
    row per camera, the score of a point is numpy's sum of the residual
    norms of exactly the cameras whose residual norm is a number (the
    other norms enter the sum as zero), divided by the number of those
    cameras, and not-a-number when there are fewer than two of them.
    Each of those cameras has a valid observation of the point, so a
    point observed by fewer than two cameras gets a not-a-number
    score; and when the projection of the 3D point is finite in every
    camera they are exactly the cameras with a valid observation.
    Where numpy adds in camera order, the sum with zeros is the sum of
    the norms of those cameras alone. *)
Theorem reprojection_error_mean_over_valid (g : CameraGroup)
    (p3ds : list pt3) (p2ds : tensor) (scores : list float) (ip : nat)
    (p3d : pt3) :
  rectangular p2ds = true ->
  length (rows p2ds) = length (cameras g) ->
  (Z.of_nat (length (cameras g)) < 2 ^ 53)%Z ->
  reprojection_error_mean g p3ds p2ds = Ok scores ->
  nth_error p3ds ip = Some p3d ->
  let obs := column (rows p2ds) ip in
  let valid := map valid_obs obs in
  let norms := map (fun co : Camera * pt2 =>
                      norm2 (sub2 (snd co) (project (fst co) p3d)))
                   (combine (cameras g) obs) in
  let used := map (fun e => negb (isnan e)) norms in
  nth_error scores ip
  = Some (if (count_true used <? 2)%nat then nan
          else np_sum_axis0 (n_points p2ds)
                            (map (fun e => if isnan e then 0 else e) norms)
               / float_of_nat (count_true used))
  /\ Forall2 (fun u v : bool => u = true -> v = true) used valid
  /\ ((count_true valid < 2)%nat -> nth_error scores ip = Some nan)
  /\ ((forall cam, In cam (cameras g) ->
         is_finite (fst (project cam p3d)) = true
         /\ is_finite (snd (project cam p3d)) = true) ->
      used = valid)
  /\ ((forall l, np_sum_axis0 (n_points p2ds) l = sum_in_order l) ->
      np_sum_axis0 (n_points p2ds)
                   (map (fun e => if isnan e then 0 else e) norms)
      = sum_in_order (mask used norms)).
Proof.
  intros Hrect Hlen Hbound Hmean Hp obs valid norms used.
  unfold reprojection_error_mean, reprojection_error in Hmean.
  destruct (length p3ds =? n_points p2ds)%nat eqn:Hn; [|discriminate Hmean].
  apply Nat.eqb_eq in Hn. cbn [negb] in Hmean.
  replace (length (rows p2ds) <? length (cameras g))%nat with false in Hmean
    by (symmetry; apply Nat.ltb_ge; lia).
  cbn [bind] in Hmean. injection Hmean as <-.
  assert (Hip : (ip < n_points p2ds)%nat).
  { rewrite <- Hn. apply nth_error_Some. congruence. }
  rewrite nth_error_map, (nth_error_seq 0 Hip). cbn [option_map Nat.add].
  assert (Hnorms : map (fun row => norm2 (nth ip row nan_pt2))
                       (error_rows (cameras g) p3ds (rows p2ds)) = norms).
  { rewrite error_rows_combine by assumption.
    unfold norms, obs, column. rewrite map_map.
    unfold rectangular in Hrect. rewrite forallb_forall in Hrect.
    clear -Hrect Hp Hip. revert Hrect.
    generalize (rows p2ds) as rws.
    induction (cameras g) as [|cam cams IH]; intros rws Hrect; [reflexivity|].
    destruct rws as [|row rws]; [reflexivity|].
    cbn [combine map fst snd]. f_equal.
    - f_equal. apply nth_Camera_reprojection_error; [assumption|].
      specialize (Hrect row (or_introl eq_refl)).
      apply Nat.eqb_eq in Hrect. lia.
    - apply IH. intros r Hr. apply Hrect. now right. }
  rewrite Hnorms.
  assert (Hl : length obs = length (cameras g))
    by (unfold obs, column; now rewrite length_map).
  assert (Hnl : (Z.of_nat (length norms) < 2 ^ 53)%Z).
  { unfold norms. rewrite length_map, length_combine. lia. }
  rewrite (mean_of_norms_value (n_points p2ds) norms Hnl). cbv zeta.
  fold used.
  assert (Huv : Forall2 (fun u v : bool => u = true -> v = true) used valid).
  { pose proof (used_are_valid p3d (cameras g) obs) as H.
    rewrite <- Hl, firstn_all in H. unfold used, norms.
    now rewrite map_map. }
  split; [reflexivity|]. split; [exact Huv|]. split; [|split].
  - intros Hlt. apply count_true_implied in Huv.
    replace (count_true used <? 2)%nat with true
      by (symmetry; apply Nat.ltb_lt; lia).
    reflexivity.
  - intros Hfin. unfold used, norms, valid. rewrite map_map.
    clear -Hfin Hl. revert Hfin Hl. generalize obs as os.
    induction (cameras g) as [|cam cams IH]; intros os Hfin Hl.
    + destruct os; [reflexivity | discriminate Hl].
    + destruct os as [|o os]; [discriminate Hl|].
      cbn [combine map fst snd]. f_equal.
      * destruct (Hfin cam (or_introl eq_refl)) as [Hx Hy].
        rewrite F64.norm2_isnan by assumption. now rewrite negb_involutive.
      * apply IH; [|now injection Hl].
        intros c Hc'. apply Hfin. now right.
  - intros Hsum. rewrite Hsum. apply sum_in_order_zeroed.
    unfold norms. clear. induction (combine (cameras g) obs); constructor;
      [apply F64.norm2_nonneg | assumption].
Qed.

End Scorer.

(** The theorem on three cameras and a point seen by all of them: the
    score is the mean of three zero residuals. *)
Lemma reprojection_error_mean_over_valid_witness :
  reprojection_error_mean (Cap := example_capabilities) three_pinholes
    [(1, 2, 3); (1, 2, 3)] partly_seen = Ok [0; nan]
  /\ nth_error [0; nan] 0 = Some (sum_in_order [0; 0; 0] / 3)
  /\ nth_error [0; nan] 1 = Some nan.
Proof.
  split; [vm_compute; reflexivity|].
  destruct (@reprojection_error_mean_over_valid example_capabilities
              three_pinholes [(1, 2, 3); (1, 2, 3)] partly_seen [0; nan] 0%nat
              (1, 2, 3) eq_refl eq_refl eq_refl eq_refl eq_refl)
    as (H0 & _).
  destruct (@reprojection_error_mean_over_valid example_capabilities
              three_pinholes [(1, 2, 3); (1, 2, 3)] partly_seen [0; nan] 1%nat
              (1, 2, 3) eq_refl eq_refl eq_refl eq_refl eq_refl)
    as (_ & _ & H1 & _).
  split; [exact H0 | apply H1; cbn; lia].
Defined.

(** C7 as stated fails when the projection of the point is not a
    number in a camera that has a valid observation of it: that camera
    is left out.  Three cameras see the point; the residual norms are
    0 and 5 in the first two, the third camera has no translation to
    project with.  The score is 2.5, the mean over two cameras, and
    not the mean of the three norms, which is not a number. *)
Lemma reprojection_error_mean_skips_nan_projection :
  reprojection_error_mean (Cap := posed_capabilities) nan_pose_group
    [(1, 2, 3)] seen_by_three = Ok [2.5]
  /\ map valid_obs (column (rows seen_by_three) 0) = [true; true; true]
  /\ (let norms :=
        map (fun co : Camera * pt2 =>
               norm2 (sub2 (snd co)
                           (project (Cap := posed_capabilities) (fst co)
                                    (1, 2, 3))))
            (combine (cameras nan_pose_group)
                     (column (rows seen_by_three) 0)) in
      isnan (sum_in_order norms / 3) = true
      /\ map isnan norms = [false; false; true]).
Proof.
  vm_compute. repeat split.
Qed.

(* ================================================================== *)
(** ** Multi-hypothesis search *)

Lemma product_spec {A : Type} (ls : list (list A)) :
  forall xs, In xs (product ls) <-> Forall2 (fun x l => In x l) xs ls.
Proof.
  induction ls as [|l ls IH]; intros xs; cbn [product].
  - split.
    + intros [<-|[]]. constructor.
    + intros H. inversion H. now left.
  - rewrite in_flat_map. split.
    + intros (x & Hx & Hin). apply in_map_iff in Hin.
      destruct Hin as (ys & <- & Hys). constructor; [assumption|].
      now apply IH.
    + intros H. inversion H as [|x l' ys ls' Hx Hys]; subst.
      exists x. split; [assumption|]. apply in_map, IH, Hys.
Qed.

Lemma product_length {A : Type} (ls : list (list A)) :
  length (product ls) = fold_right (fun l n => (length l * n)%nat) 1%nat ls.
Proof.
  induction ls as [|l ls IH]; [reflexivity|].
  cbn [product fold_right]. rewrite <- IH. clear IH.
  induction l as [|x l IHl]; [reflexivity|].
  cbn [flat_map length]. rewrite length_app, length_map, IHl. lia.
Qed.

Section SearchFacts.
Variable evaluate : list pick -> result (pt3 * list pt2 * float).
Variable min_cams : Z.
Variable n_cams_max : nat.
Variable threshold : float.

Lemma scored_fun (picked : list pick) (e1 e2 : float) :
  scored evaluate min_cams n_cams_max picked e1 ->
  scored evaluate min_cams n_cams_max picked e2 -> e1 = e2.
Proof.
  intros (_ & p1 & q1 & H1) (_ & p2 & q2 & H2). congruence.
Qed.

Lemma below_best_below_200 (best : option best_point) (be err : float)
    (done : list (list pick)) :
  search_inv evaluate min_cams n_cams_max threshold done best be ->
  (err <? be) = true -> (err <? 200) = true.
Proof.
  intros [_ Hb] Hlt. destruct best as [b|].
  - destruct Hb as (_ & H200 & _). eapply F64.ltb_trans; eauto.
  - now subst be.
Qed.

Lemma not_below_new_best (err_j err be : float) :
  (err_j <? be) = false -> (err <? be) = true ->
  (err_j <=? err) = false /\ (err_j <? err) = false.
Proof.
  intros Hj He. split.
  - destruct (err_j <=? err) eqn:E; [|reflexivity].
    rewrite (F64.leb_ltb_trans E He) in Hj. discriminate.
  - destruct (err_j <? err) eqn:E; [|reflexivity].
    rewrite (F64.ltb_trans E He) in Hj. discriminate.
Qed.

Lemma search_step_inv (done : list (list pick)) (best : option best_point)
    (be : float) (picked : list pick) (p3d : pt3) (pts : list pt2)
    (err : float) :
  search_inv evaluate min_cams n_cams_max threshold done best be ->
  skipped min_cams n_cams_max picked = false ->
  evaluate picked = Ok (p3d, pts, err) ->
  if err <? be
  then (err <? 200) = true
       /\ (forall p e, In p done -> scored evaluate min_cams n_cams_max p e ->
             (e <=? err) = false /\ (e <? err) = false
             /\ ((e <? threshold) && (e <? 200)) = false)
       /\ ((err <? threshold) = false ->
           search_inv evaluate min_cams n_cams_max threshold (done ++ [picked])
                      (Some (mkBest err p3d pts picked)) err)
  else search_inv evaluate min_cams n_cams_max threshold (done ++ [picked]) best be.
Proof.
  intros Hinv Hsk Hev.
  assert (Hsc : scored evaluate min_cams n_cams_max picked err) by (split; eauto).
  destruct (err <? be) eqn:Hlt.
  - split; [eapply below_best_below_200; eauto|].
    assert (Hold : forall p e, In p done -> scored evaluate min_cams n_cams_max p e ->
               (e <=? err) = false /\ (e <? err) = false
               /\ ((e <? threshold) && (e <? 200)) = false).
    { intros p e Hp Hs. destruct Hinv as [Ha _].
      destruct (Ha p e Hp Hs) as [H1 H2].
      destruct (not_below_new_best H1 Hlt). auto. }
    split; [exact Hold|].
    intros Hthr. split.
    + intros p e Hp Hs. apply in_app_or in Hp. destruct Hp as [Hp|[<-|[]]].
      * destruct (Hold p e Hp Hs) as (_ & H2 & H3). auto.
      * rewrite (scored_fun Hs Hsc). rewrite F64.ltb_irrefl, Hthr. auto.
    + cbn [bp_error bp_picked bp_point bp_points].
      repeat split; [eapply below_best_below_200; eauto | assumption |].
      exists done, []. repeat split; auto.
      intros p e Hp Hs. now destruct (Hold p e Hp Hs).
  - destruct Hinv as [Ha Hb]. split.
    + intros p e Hp Hs. apply in_app_or in Hp. destruct Hp as [Hp|[<-|[]]].
      * exact (Ha p e Hp Hs).
      * rewrite (scored_fun Hs Hsc). split; [assumption|].
        destruct (err <? threshold) eqn:Ht; [|reflexivity].
        destruct (err <? 200) eqn:H2; [|reflexivity]. exfalso.
        destruct best as [b|].
        -- destruct Hb as (-> & Hb200 & Hbt & _).
           pose proof (proj1 (F64.ltb_not_nan Ht)) as Hn1.
           pose proof (proj1 (F64.ltb_not_nan Hb200)) as Hn2.
           pose proof (F64.ltb_false_leb Hn1 Hn2 Hlt) as Hle.
           rewrite (F64.leb_ltb_trans Hle Ht) in Hbt. discriminate.
        -- subst be. congruence.
    + destruct best as [b|]; [|assumption].
      destruct Hb as (H1 & H2 & H3 & pre & mid & -> & H4 & H5 & H6).
      repeat split; auto.
      exists pre, (mid ++ [picked]). rewrite <- app_assoc. repeat split; auto.
Qed.

Lemma search_skip_inv (done : list (list pick)) (best : option best_point)
    (be : float) (picked : list pick) :
  search_inv evaluate min_cams n_cams_max threshold done best be ->
  skipped min_cams n_cams_max picked = true ->
  search_inv evaluate min_cams n_cams_max threshold (done ++ [picked]) best be.
Proof.
  intros [Ha Hb] Hsk. split.
  - intros p e Hp Hs. apply in_app_or in Hp. destruct Hp as [Hp|[<-|[]]].
    + exact (Ha p e Hp Hs).
    + destruct Hs as [Hs _]. congruence.
  - destruct best as [b|]; [|assumption].
    destruct Hb as (H1 & H2 & H3 & pre & mid & -> & H4 & H5 & H6).
    repeat split; auto.
    exists pre, (mid ++ [picked]). rewrite <- app_assoc. repeat split; auto.
Qed.

(** The loop, from any state that satisfies the invariant. *)
Lemma search_sound (combos : list (list pick)) :
  forall (done : list (list pick)) (best : option best_point) (be : float)
         (res : option best_point),
    search_inv evaluate min_cams n_cams_max threshold done best be ->
    search evaluate min_cams n_cams_max threshold combos best be = Ok res ->
    search_post evaluate min_cams n_cams_max threshold (done ++ combos) res.
Proof.
  induction combos as [|picked rest IH]; intros done best be res Hinv H.
  - cbn [search] in H. injection H as <-. rewrite app_nil_r.
    destruct Hinv as [Ha Hb]. destruct best as [b|]; cbn [search_post].
    + destruct Hb as (-> & H2 & H3 & pre & mid & -> & H4 & H5 & H6).
      exists pre, mid. repeat split; auto.
      * now destruct (H6 picked err H H0).
      * apply (Ha picked err); [|assumption].
        apply in_or_app. now left.
      * right. split; [assumption|]. intros p e Hp Hs.
        apply (Ha p e); [|assumption].
        apply in_or_app. right. now right.
    + subst be. intros p e Hp Hs. now destruct (Ha p e Hp Hs).
  - replace (done ++ picked :: rest) with ((done ++ [picked]) ++ rest)
      by (now rewrite <- app_assoc).
    cbn [search] in H.
    destruct (skipped min_cams n_cams_max picked) eqn:Hsk.
    + eapply IH; [|exact H]. now apply search_skip_inv.
    + destruct (evaluate picked) as [[[p3d pts] err]|] eqn:Hev;
        cbn [bind] in H; [|discriminate H].
      pose proof (search_step_inv Hinv Hsk Hev) as Hstep.
      destruct (err <? be) eqn:Hlt.
      * destruct Hstep as (H200 & Hold & Hnext).
        destruct (err <? threshold) eqn:Hthr.
        -- injection H as <-. cbn [search_post bp_error bp_picked bp_point bp_points].
           exists done, rest. rewrite <- app_assoc.
           repeat split; auto.
           ++ now destruct (Hold picked0 err0 H H0).
           ++ now destruct (Hold picked0 err0 H H0) as (_ & _ & ?).
        -- eapply IH; [|exact H]. now apply Hnext.
      * eapply IH; [|exact H]. exact Hstep.
Qed.

(** The loop as [triangulate_possible] starts it. *)
Lemma search_from_start (combos : list (list pick)) (res : option best_point) :
  search evaluate min_cams n_cams_max threshold combos None 200 = Ok res ->
  search_post evaluate min_cams n_cams_max threshold combos res.
Proof.
  intros H. apply (@search_sound combos [] None 200 res); [|exact H].
  split; [intros p e []|reflexivity].
Qed.

End SearchFacts.

Lemma two_splits {A : Type} (pre : list A) :
  forall (c : A) (post pre' : list A) (b : A) (post' : list A),
    pre ++ c :: post = pre' ++ b :: post' ->
    In b (pre ++ [c]) \/ In c pre'.
Proof.
  induction pre as [|a pre IH]; intros c post pre' b post' H.
  - destruct pre' as [|x pre']; cbn in H; injection H as -> _.
    + left. now left.
    + right. now left.
  - destruct pre' as [|x pre']; cbn in H; injection H as -> H.
    + left. now left.
    + destruct (IH _ _ _ _ _ H) as [Hb|Hc].
      * left. now right.
      * right. now right.
Qed.

(** When [threshold] is not above 200, the loop does stop at the first
    scored combination whose error is below [threshold]. *)
Lemma search_stops_at_first_below
    (evaluate : list pick -> result (pt3 * list pt2 * float))
    (min_cams : Z) (n_cams_max : nat) (threshold : float)
    (combos : list (list pick)) (res : option best_point) :
  (200 <? threshold) = false ->
  search evaluate min_cams n_cams_max threshold combos None 200 = Ok res ->
  stops_at_first_below evaluate min_cams n_cams_max threshold combos res.
Proof.
  intros Hthr Hs. apply search_from_start in Hs.
  intros pre c post [[p3d pts] err] Hc Hsk Hev Hlt. cbn [snd] in Hlt.
  destruct res as [b|]; [|exact I]. cbn [search_post] in Hs.
  destruct Hs as (pre' & post' & Hall & _ & _ & _ & Hpre & _).
  rewrite Hc in Hall. destruct (two_splits _ _ _ _ _ _ Hall) as [Hb|Hin];
    [assumption|].
  exfalso.
  assert (Hsc : scored evaluate min_cams n_cams_max c err) by (split; eauto).
  destruct (Hpre c err Hin Hsc) as [_ Hno].
  rewrite Hlt in Hno. cbn [andb] in Hno.
  destruct (F64.ltb_not_nan Hlt) as [_ Hn].
  assert (Hle : (threshold <=? 200) = true)
    by (apply F64.ltb_false_leb; [reflexivity | assumption | assumption]).
  rewrite (F64.ltb_leb_trans Hlt Hle) in Hno. discriminate.
Qed.

Section PossibleFacts.
Context `{Cap : Capabilities}.

(** C5, as amended.  For every point, [triangulate_possible] enumerates
    the Cartesian product of "one candidate or none" over the cameras
    that have a valid candidate, skips a combination whose number of
    picks is below [min_cams] unless it equals the number of those
    cameras, and scores the others by mean reprojection error.  A scored
    combination becomes the best one when its error is strictly below
    the best error so far, which starts at 200, and the enumeration
    stops as soon as a new best one has an error below [threshold].
    Hence the chosen combination has an error below 200; no earlier
    scored combination has an error as low (ties go to the first) nor an
    error below both [threshold] and 200; and either the chosen error is
    below [threshold] or no later scored combination has a lower error.
    When nothing is chosen no scored combination has an error below
    200. *)
Theorem triangulate_possible_selection (g : CameraGroup) (points : tensor4)
    (undistort : bool) (min_cams : Z) (threshold : float) (point_ix : nat)
    (res : option best_point) :
  best_for_point g points undistort min_cams threshold point_ix = Ok res ->
  let evaluate := evaluate_picked g (rows4 points) undistort point_ix in
  let options := all_iters (rows4 points) point_ix in
  let combos := combinations (rows4 points) point_ix in
  let is_scored := scored evaluate min_cams (length options) in
  (forall picked, In picked combos <->
     exists choice, Forall2 (fun x l => In x l) choice options
                    /\ picked = drop_none choice)
  /\ match res with
     | None =>
         forall picked err, In picked combos -> is_scored picked err ->
           (err <? 200) = false
     | Some b =>
         exists pre post,
           combos = pre ++ bp_picked b :: post
           /\ skipped min_cams (length options) (bp_picked b) = false
           /\ evaluate (bp_picked b) = Ok (bp_point b, bp_points b, bp_error b)
           /\ (bp_error b <? 200) = true
           /\ (forall picked err, In picked pre -> is_scored picked err ->
                 (err <=? bp_error b) = false
                 /\ ((err <? threshold) && (err <? 200)) = false)
           /\ ((bp_error b <? threshold) = true
               \/ ((bp_error b <? threshold) = false
                   /\ forall picked err, In picked post -> is_scored picked err ->
                        (err <? bp_error b) = false))
     end.
Proof.
  intros H evaluate options combos is_scored. split.
  - intros picked. unfold combos, combinations. rewrite in_map_iff.
    split.
    + intros (choice & <- & Hc). exists choice. split; [|reflexivity].
      now apply product_spec.
    + intros (choice & Hc & ->). exists choice. split; [reflexivity|].
      now apply product_spec.
  - apply search_from_start in H. exact H.
Qed.

Lemma picked_row_None (n c : nat) : picked_row None n c = repeat false n.
Proof.
  unfold picked_row. generalize 0%nat.
  induction n as [|n IH]; intros k; [reflexivity|].
  cbn [seq map repeat]. f_equal. apply IH.
Qed.

(** C10.  A point for which no scored combination has an error below
    200 comes back with error entry 0, an all-false row of the picked
    mask in every camera, and missing 3D and 2D outputs. *)
Theorem triangulate_possible_unaccepted_point (g : CameraGroup)
    (points : tensor4) (undistort : bool) (min_cams : Z) (threshold : float)
    (o : possible_out) (ip : nat) :
  triangulate_possible g points undistort min_cams threshold = Ok o ->
  (ip < n_points4 points)%nat ->
  (forall picked err,
     In picked (combinations (rows4 points) ip) ->
     scored (evaluate_picked g (rows4 points) undistort ip) min_cams
            (length (all_iters (rows4 points) ip)) picked err ->
     (err <? 200) = false) ->
  nth_error (errors o) ip = Some 0
  /\ nth_error (out o) ip = Some nan_pt3
  /\ (forall c, (c < length (rows4 points))%nat ->
        exists row, nth_error (picked_vals o) c = Some row
                    /\ nth_error row ip = Some (repeat false (n_possible points)))
  /\ (forall c, (c < length (rows4 points))%nat ->
        exists row, nth_error (points_2d o) c = Some row
                    /\ nth_error row ip = Some nan_pt2).
Proof.
  intros H Hip Hnone. unfold triangulate_possible in H.
  destruct (negb _); [discriminate H|].
  inv_bind H as bests E. injection H as <-.
  destruct (mapM_nth_error _ _ ip E (nth_error_seq 0 Hip)) as (res & Hres & Hnth).
  cbn [Nat.add] in Hres.
  assert (res = None) as ->.
  { destruct res as [b|]; [|reflexivity]. exfalso.
    unfold best_for_point in Hres. apply search_from_start in Hres.
    cbn [search_post] in Hres.
    destruct Hres as (pre & post & Hall & Hsk & Hev & H200 & _).
    rewrite (Hnone (bp_picked b) (bp_error b)) in H200; [discriminate| |].
    - rewrite Hall. apply in_or_app. right. now left.
    - split; eauto. }
  cbn [errors out picked_vals points_2d].
  repeat split.
  - now rewrite nth_error_map, Hnth.
  - now rewrite nth_error_map, Hnth.
  - intros c Hc. eexists. split.
    + rewrite nth_error_map, (nth_error_seq 0 Hc). reflexivity.
    + rewrite nth_error_map, Hnth. cbn [option_map Nat.add].
      now rewrite picked_row_None.
  - intros c Hc. eexists. split.
    + rewrite nth_error_map, (nth_error_seq 0 Hc). reflexivity.
    + now rewrite nth_error_map, Hnth.
Qed.

End PossibleFacts.

(** The selection on two cameras with two candidates each, default
    threshold: the combination of the two 100-pixel candidates is
    chosen. *)
Lemma triangulate_possible_selection_witness :
  exists b,
    best_for_point (Cap := example_capabilities) two_pinholes two_candidates
                   false 2 0.5 0 = Ok (Some b)
    /\ (bp_error b <? 200) = true.
Proof.
  destruct (best_for_point (Cap := example_capabilities) two_pinholes
              two_candidates false 2 0.5 0) as [[b|]|e] eqn:E.
  - exists b. split; [reflexivity|].
    destruct (proj2 (triangulate_possible_selection _ _ _ _ _ _ E))
      as (pre & post & _ & _ & _ & H & _).
    exact H.
  - vm_compute in E. discriminate E.
  - vm_compute in E. discriminate E.
Defined.

(** C5 as stated fails for a threshold above 200.  With threshold 300
    the first combination scores 250, which is below the threshold but
    not below 200: the loop does not stop there, goes on to the second
    combination, which scores 175, and returns it. *)
Lemma triangulate_possible_scores_past_threshold :
  exists b,
    best_for_point (Cap := example_capabilities) two_pinholes two_candidates
                   false 2 300 0 = Ok (Some b)
    /\ bp_picked b = [(0, 0); (1, 1)]%nat /\ bp_error b = 175
    /\ evaluate_picked (Cap := example_capabilities) two_pinholes
         (rows4 two_candidates) false 0 [(0, 0); (1, 0)]%nat
       = Ok (1, 2, 3, [(1, 252); (1, 252)], 250)
    /\ ~ stops_at_first_below
           (evaluate_picked (Cap := example_capabilities) two_pinholes
                            (rows4 two_candidates) false 0)
           2 (length (all_iters (rows4 two_candidates) 0)) 300
           (combinations (rows4 two_candidates) 0) (Some b).
Proof.
  eexists. split; [vm_compute; reflexivity|].
  split; [reflexivity|]. split; [reflexivity|]. split; [reflexivity|].
  intros H.
  specialize (H [] [(0, 0); (1, 0)]%nat
                (tl (combinations (rows4 two_candidates) 0))
                (1, 2, 3, [(1, 252); (1, 252)], 250)
                eq_refl eq_refl eq_refl eq_refl).
  cbn in H. destruct H as [H|[]]. discriminate H.
Qed.

(** The theorem on a point that both cameras see 250 pixels off: no
    combination is accepted and the error entry is 0. *)
Lemma triangulate_possible_unaccepted_point_witness :
  exists o,
    triangulate_possible (Cap := example_capabilities) two_pinholes
                         unseen_and_far false 2 0.5 = Ok o
    /\ nth_error (errors o) 1 = Some 0
    /\ nth_error (out o) 1 = Some nan_pt3.
Proof.
  destruct (triangulate_possible (Cap := example_capabilities) two_pinholes
              unseen_and_far false 2 0.5) as [o|e] eqn:E.
  - exists o. split; [reflexivity|].
    assert (Hnone : forall picked err,
               In picked (combinations (rows4 unseen_and_far) 1) ->
               scored (evaluate_picked (Cap := example_capabilities)
                         two_pinholes (rows4 unseen_and_far) false 1) 2
                      (length (all_iters (rows4 unseen_and_far) 1)) picked err ->
               (err <? 200) = false).
    { intros picked err Hin (Hsk & p3d & pts & Hev).
      cbn in Hin.
      destruct Hin as [<-|[<-|[<-|[<-|[]]]]];
        vm_compute in Hsk; try discriminate Hsk;
        vm_compute in Hev; injection Hev as _ _ <-; reflexivity. }
    destruct (@triangulate_possible_unaccepted_point example_capabilities
                two_pinholes unseen_and_far false 2 0.5 o 1%nat E
                (Nat.lt_succ_diag_r 1) Hnone) as (H1 & H2 & _).
    split; assumption.
  - vm_compute in E. discriminate E.
Defined.

(* ================================================================== *)
(** ** Names, poses and sub-groups by name *)

Lemma zip_update_map {A B : Type} (f : Camera -> A -> Camera)
    (get : Camera -> B) (put : A -> B) :
  (forall c v, get (f c v) = put v) ->
  forall (cams : list Camera) (vals : list A),
    map get (zip_update f cams vals)
    = map put (firstn (length cams) vals)
      ++ skipn (length vals) (map get cams).
Proof.
  intros Hf. induction cams as [|c cams IH]; intros vals.
  - destruct vals; cbn; now rewrite ?skipn_nil.
  - destruct vals as [|v vals]; [reflexivity|].
    cbn [zip_update map length firstn skipn app]. now rewrite Hf, IH.
Qed.

Lemma zip_update_frame {A B : Type} (f : Camera -> A -> Camera)
    (get : Camera -> B) :
  (forall c v, get (f c v) = get c) ->
  forall (cams : list Camera) (vals : list A),
    map get (zip_update f cams vals) = map get cams.
Proof.
  intros Hf. induction cams as [|c cams IH]; intros vals.
  - now destruct vals.
  - destruct vals as [|v vals]; [reflexivity|].
    cbn [zip_update map]. now rewrite Hf, IH.
Qed.

(** X1.  [set_names] followed by [get_names]: the first cameras carry
    the given names, as many as there are cameras, and the cameras
    beyond the given names keep theirs; nothing else of a camera is
    written and the number of cameras stays. *)
Theorem set_names_get_names (g : CameraGroup) (names : list string) :
  get_names (set_names g names)
  = firstn (length (cameras g)) names
    ++ skipn (length names) (get_names g)
  /\ map (fun c => (kind c, matrix c, dist c, size c, rvec c, tvec c,
                    extra_dist c))
         (cameras (set_names g names))
     = map (fun c => (kind c, matrix c, dist c, size c, rvec c, tvec c,
                      extra_dist c))
           (cameras g)
  /\ metadata (set_names g names) = metadata g.
Proof.
  unfold get_names, set_names. cbn [cameras metadata]. repeat split.
  - rewrite (zip_update_map set_name name (fun n => n)) by reflexivity.
    now rewrite map_id.
  - now apply zip_update_frame.
Qed.

Lemma np_stack_same (k : nat) (rws : list (list float)) :
  Forall (fun r => length r = k) rws -> np_stack rws = Ok rws.
Proof.
  intros H. destruct rws as [|r rest]; [reflexivity|].
  unfold np_stack. inversion H as [|? ? Hr Hrest]; subst.
  replace (forallb _ rest) with true; [reflexivity|].
  symmetry. apply forallb_forall. intros r' Hin.
  rewrite Forall_forall in Hrest. apply Nat.eqb_eq. now apply Hrest.
Qed.

(** X2.  Poses written with [set_rotations] and [set_translations],
    one 3-vector per camera, are the ones [get_rotations] and
    [get_translations] read back, in either order of the two writes;
    names are not touched. *)
Theorem set_get_poses (g : CameraGroup) (rvecs tvecs : list (list float)) :
  length rvecs = length (cameras g) ->
  length tvecs = length (cameras g) ->
  Forall (fun r => length r = 3%nat) rvecs ->
  Forall (fun t => length t = 3%nat) tvecs ->
  let g' := set_translations (set_rotations g rvecs) tvecs in
  get_rotations g' = Ok rvecs
  /\ get_translations g' = Ok tvecs
  /\ set_rotations (set_translations g tvecs) rvecs = g'
  /\ get_names g' = get_names g.
Proof.
  intros Hr Ht Fr Ft g'. subst g'.
  unfold get_rotations, get_translations, get_names,
    set_translations, set_rotations.
  cbn [cameras metadata].
  assert (Hlen : forall (A : Type) (f : Camera -> A -> Camera) cams
                        (vals : list A),
             length (zip_update f cams vals) = length cams).
  { intros A f. induction cams as [|c cams IH]; intros [|v vals];
      cbn [zip_update length]; auto. }
  repeat split.
  - rewrite (zip_update_frame set_translation rvec) by reflexivity.
    rewrite (zip_update_map set_rotation rvec (fun r => r)) by reflexivity.
    rewrite map_id, <- Hr, firstn_all, skipn_all2
      by (rewrite length_map; lia).
    rewrite app_nil_r. now apply np_stack_same with (k := 3%nat).
  - rewrite (zip_update_map set_translation tvec (fun r => r)) by reflexivity.
    rewrite map_id, Hlen, <- Ht, firstn_all, skipn_all2
      by (rewrite length_map, Hlen; lia).
    rewrite app_nil_r. now apply np_stack_same with (k := 3%nat).
  - f_equal. clear. revert rvecs tvecs.
    induction (cameras g) as [|c cams IH]; intros [|r rvecs] [|t tvecs];
      cbn [zip_update]; try reflexivity.
    f_equal. apply IH.
  - rewrite (zip_update_frame set_translation name) by reflexivity.
    now rewrite (zip_update_frame set_rotation name) by reflexivity.
Qed.

(** Two cameras given a pose each. *)
Lemma set_get_poses_witness :
  get_rotations (set_translations
                   (set_rotations two_pinholes [[1; 0; 0]; [0; 1; 0]])
                   [[0; 0; 5]; [0; 0; 7]])
  = Ok [[1; 0; 0]; [0; 1; 0]].
Proof.
  apply (@set_get_poses two_pinholes [[1; 0; 0]; [0; 1; 0]]
           [[0; 0; 5]; [0; 0; 7]]);
    try reflexivity; repeat constructor.
Defined.

Lemma dict_mem_set {V : Type} (d : pydict V) (k k' : string) (v : V) :
  dict_mem (dict_set d k v) k' = String.eqb k' k || dict_mem d k'.
Proof.
  induction d as [|[k0 v0] d IH]; cbn [dict_set dict_mem].
  - reflexivity.
  - destruct (String.eqb k k0) eqn:E; cbn [dict_mem].
    + apply String.eqb_eq in E. subst k0.
      now destruct (String.eqb k' k).
    + rewrite IH. now destruct (String.eqb k' k), (String.eqb k' k0).
Qed.

Lemma dict_get_set {V : Type} (d : pydict V) (k k' : string) (v : V) :
  dict_get (dict_set d k v) k'
  = if String.eqb k' k then Ok v else dict_get d k'.
Proof.
  induction d as [|[k0 v0] d IH]; cbn [dict_set dict_get].
  - reflexivity.
  - destruct (String.eqb k k0) eqn:E; cbn [dict_get].
    + apply String.eqb_eq in E. subst k0.
      now destruct (String.eqb k' k).
    + rewrite IH. destruct (String.eqb k' k) eqn:E'; [|reflexivity].
      apply String.eqb_eq in E'. subst k'. now rewrite E.
Qed.

Lemma dict_mem_get {V : Type} (d : pydict V) (k : string) :
  dict_mem d k = true -> exists v, dict_get d k = Ok v.
Proof.
  induction d as [|[k0 v0] d IH]; cbn [dict_mem dict_get]; [discriminate|].
  destruct (String.eqb k k0); cbn [orb]; eauto.
Qed.

(** The dictionary of [dict(zip(keys, vals))]: its keys are the zipped
    keys, and every value is one zipped with its key. *)
Lemma dict_of_zip_spec {V : Type} (keys : list string) (vals : list V) :
  (forall k, dict_mem (dict_of_zip keys vals) k
             = existsb (String.eqb k) (map fst (combine keys vals)))
  /\ (forall k v, dict_get (dict_of_zip keys vals) k = Ok v ->
                  In (k, v) (combine keys vals)).
Proof.
  unfold dict_of_zip.
  assert (G : forall (kvs : list (string * V)) (d : pydict V),
             let d' := fold_left (fun d kv => dict_set d (fst kv) (snd kv)) kvs d in
             (forall k, dict_mem d' k
                        = dict_mem d k || existsb (String.eqb k) (map fst kvs))
             /\ (forall k v, dict_get d' k = Ok v ->
                             dict_get d k = Ok v \/ In (k, v) kvs)).
  { induction kvs as [|[k0 v0] kvs IH]; intros d; cbn [fold_left].
    - split; intros; cbn; [now rewrite orb_false_r | now left].
    - destruct (IH (dict_set d k0 v0)) as [Hm Hg]. cbv zeta. split.
      + intros k. rewrite Hm, dict_mem_set. cbn [map existsb fst snd].
        now destruct (String.eqb k k0), (dict_mem d k).
      + intros k v H. apply Hg in H. destruct H as [H|H]; [|right; now right].
        cbn [fst snd] in H. rewrite dict_get_set in H.
        destruct (String.eqb k k0) eqn:E; [|now left].
        apply String.eqb_eq in E. injection H as <-. subst. right. now left. }
  destruct (G (combine keys vals) []) as [Hm Hg]. split.
  - intros k. now rewrite Hm.
  - intros k v H. apply Hg in H. destruct H as [H|H]; [discriminate H|exact H].
Qed.

Lemma In_combine_seq {A : Type} (l : list A) :
  forall (s i : nat) (a : A),
    In (a, i) (combine l (seq s (length l))) ->
    (s <= i)%nat /\ nth_error l (i - s) = Some a.
Proof.
  induction l as [|x l IH]; intros s i a H; [contradiction|].
  cbn [length seq combine] in H. destruct H as [H|H].
  - injection H as -> ->. rewrite Nat.sub_diag. split; [lia|reflexivity].
  - apply IH in H. destruct H as [Hle H]. split; [lia|].
    replace (i - s)%nat with (S (i - S s)) by lia. exact H.
Qed.

Lemma map_fst_combine_seq {A : Type} (l : list A) (s : nat) :
  map fst (combine l (seq s (length l))) = l.
Proof.
  revert s. induction l as [|x l IH]; intros s; [reflexivity|].
  cbn [length seq combine map fst]. now rewrite IH.
Qed.

Lemma Camera_copy_id (c : Camera) : Camera_copy c = c.
Proof. now destruct c. Qed.

Section NamesFacts.
Context `{Cap : Capabilities}.

Lemma indices_of_names_spec (d : pydict nat) (cur names : list string) :
  (forall k, dict_mem d k = existsb (String.eqb k) cur) ->
  (forall k i, dict_get d k = Ok i -> nth_error cur i = Some k) ->
  match indices_of_names d names with
  | Ok idxs =>
      forallb (fun nm => existsb (String.eqb nm) cur) names = true
      /\ Forall2 (fun nm i => nth_error cur i = Some nm) names idxs
  | Raise e =>
      e = IndexError
      /\ forallb (fun nm => existsb (String.eqb nm) cur) names = false
  end.
Proof.
  intros Hm Hg. unfold indices_of_names.
  induction names as [|nm names IH]; cbn [mapM forallb].
  - split; [reflexivity | constructor].
  - rewrite <- Hm. destruct (dict_mem d nm) eqn:E; cbn [andb]; [|now split].
    destruct (dict_mem_get _ _ E) as [i Hi]. rewrite Hi. cbn [bind].
    destruct (mapM _ names) as [idxs|e]; cbn [bind].
    + destruct IH as [IH1 IH2]. split; [exact IH1|].
      constructor; [now apply Hg | exact IH2].
    + exact IH.
Qed.

Lemma subset_cameras_by_index (g : CameraGroup) (names : list string) :
  forall idxs,
    Forall2 (fun nm i => nth_error (get_names g) i = Some nm) names idxs ->
    exists cams',
      subset_cameras g (map Z.of_nat idxs) = Ok (mkGroup cams' (metadata g))
      /\ map name cams' = names
      /\ Forall (fun c => In c (cameras g)) cams'.
Proof.
  unfold subset_cameras, get_names.
  induction names as [|nm names IH]; intros idxs H;
    inversion H as [|nm' y names' l' Hhd Htl]; subst.
  - exists []. repeat split. constructor.
  - destruct (IH _ Htl) as (cams' & Hs & Hn & Hin).
    rewrite nth_error_map in Hhd.
    destruct (nth_error (cameras g) y) as [c|] eqn:Ec; [|discriminate Hhd].
    injection Hhd as Hx.
    exists (c :: cams'). cbn [map mapM].
    unfold py_getitem at 1, getitem at 1.
    replace (0 <=? Z.of_nat y)%Z with true by (symmetry; apply Z.leb_le; lia).
    rewrite Nat2Z.id, Ec. cbn [bind].
    destruct (mapM _ (map Z.of_nat l')) as [cs|e]; cbn [bind] in Hs |- *;
      [|discriminate Hs].
    injection Hs as ->. rewrite Camera_copy_id. repeat split.
    + now rewrite Hx, Hn.
    + constructor; [eapply nth_error_In; eauto | exact Hin].
Qed.

(** X3.  [subset_cameras_names] succeeds exactly when every requested
    name is the name of a camera of the group, and raises [IndexError]
    otherwise.  On success the sub-group's cameras are cameras of the
    group, carry the requested names in the requested order, and the
    metadata are the group's. *)
Theorem subset_cameras_names_spec (g : CameraGroup) (names : list string) :
  match subset_cameras_names g names with
  | Ok g' =>
      forallb (fun nm => existsb (String.eqb nm) (get_names g)) names = true
      /\ get_names g' = names
      /\ Forall (fun c => In c (cameras g)) (cameras g')
      /\ metadata g' = metadata g
  | Raise e =>
      e = IndexError
      /\ forallb (fun nm => existsb (String.eqb nm) (get_names g)) names = false
  end.
Proof.
  unfold subset_cameras_names. cbv zeta.
  destruct (dict_of_zip_spec (get_names g) (seq 0 (length (get_names g))))
    as [Hm Hg].
  assert (Hg' : forall k i,
             dict_get (dict_of_zip (get_names g)
                         (seq 0 (length (get_names g)))) k = Ok i ->
             nth_error (get_names g) i = Some k).
  { intros k i H. apply Hg, In_combine_seq in H. destruct H as [_ H].
    now rewrite Nat.sub_0_r in H. }
  assert (Hm' : forall k,
             dict_mem (dict_of_zip (get_names g)
                         (seq 0 (length (get_names g)))) k
             = existsb (String.eqb k) (get_names g)).
  { intros k. now rewrite Hm, map_fst_combine_seq. }
  pose proof (@indices_of_names_spec _ _ names Hm' Hg') as H.
  destruct (indices_of_names _ names) as [idxs|e]; cbn [bind]; [|exact H].
  destruct H as [Hall HF].
  destruct (@subset_cameras_by_index g _ _ HF) as (cams' & Hs & Hn & Hin).
  rewrite Hs. cbn [cameras metadata]. repeat split; assumption.
Qed.

End NamesFacts.

(* ================================================================== *)
(** ** Projection and residuals *)



Section ProjectionFacts.
Context `{Cap : Capabilities}.




End ProjectionFacts.


(** [zero_distortions]: what [dist * 0] does to one coefficient. *)
Lemma SFmul_zero_r (x : spec_float) :
  SF64mul x (S754_zero false)
  = match x with
    | S754_zero s | S754_finite s _ _ => S754_zero s
    | _ => S754_nan
    end.
Proof. destruct x as [s|s| |s m e]; try reflexivity; now destruct s. Qed.

(** X5.  [zero_distortions] keeps the number of coefficients; a finite
    coefficient becomes a zero (equal to 0, with the coefficient's
    sign), and a coefficient that is infinite or not a number becomes
    not-a-number, not zero.  The rest of the camera is untouched. *)
Theorem zero_distortions_spec (c : Camera) :
  length (dist (zero_distortions c)) = length (dist c)
  /\ (forall i d, nth_error (dist c) i = Some d ->
        exists d', nth_error (dist (zero_distortions c)) i = Some d'
                   /\ if is_finite d then (d' =? 0) = true
                      else is_nan d' = true)
  /\ set_distortions (zero_distortions c) (dist c) = c.
Proof.
  unfold zero_distortions. cbn [dist set_distortions]. repeat split.
  - apply length_map.
  - intros i d Hd. eexists. split; [rewrite nth_error_map, Hd; reflexivity|].
    destruct (is_finite d) eqn:Ef.
    + apply F64.is_finite_spec in Ef. rewrite eqb_spec, mul_spec.
      change (Prim2SF 0) with (S754_zero false). rewrite SFmul_zero_r.
      destruct (Prim2SF d) as [s|s| |s m e]; try contradiction; reflexivity.
    + apply F64.is_nan_spec. rewrite mul_spec.
      change (Prim2SF 0) with (S754_zero false). rewrite SFmul_zero_r.
      destruct (Prim2SF d) as [s|s| |s m e] eqn:E; try reflexivity; exfalso.
      * assert (H : is_finite d = true); [|congruence].
        unfold is_finite, is_infinity.
        rewrite eqb_spec, abs_spec, E.
        replace (is_nan d) with false; [reflexivity|].
        symmetry. apply F64.is_nan_false_spec. congruence.
      * assert (H : is_finite d = true); [|congruence].
        unfold is_finite, is_infinity.
        rewrite eqb_spec, abs_spec, E.
        replace (is_nan d) with false; [reflexivity|].
        symmetry. apply F64.is_nan_false_spec. congruence.
  - now destruct c.
Qed.

(* ================================================================== *)
(** ** What bundle adjustment never writes *)

Lemma set_params_identity (c c' : Camera) (params : list float) (flag : bool) :
  set_params c params flag = Ok c' -> identity_of c' = identity_of c.
Proof.
  unfold set_params, identity_of. destruct (kind c) eqn:Ek; intros H.
  - unfold Camera_set_params in H. destruct (negb flag).
    + injection H as <-. cbn. now rewrite Ek.
    + inv_bind H as fx E1. inv_bind H as fy E2. inv_bind H as cx E3.
      inv_bind H as cy E4. inv_bind H as skew E5.
      destruct (slice params 11 16) as [|k1 [|k2 [|p1 [|p2 [|k3 [|? ?]]]]]];
        try discriminate H.
      injection H as <-. cbn. now rewrite Ek.
  - unfold FisheyeCamera_set_params in H. destruct flag.
    + injection H as <-. cbn. now rewrite Ek.
    + inv_bind H as f E1. inv_bind H as c2 E2. inv_bind H as d0 E3.
      unfold set_focal_length in E2.
      inv_bind E2 as m1 E4. inv_bind E2 as m2 E5. injection E2 as <-.
      destruct (extra_dist c) eqn:Ex.
      * inv_bind H as d1 E6. injection H as <-. cbn. now rewrite Ek, Ex.
      * injection H as <-. cbn. now rewrite Ek, Ex.
Qed.

Lemma commit_params_identity (best_params : list float) (n_cam_params : nat)
    (flag : bool) (cams : list Camera) :
  forall (k : nat) (cams' : list Camera),
    mapM (fun ic : nat * Camera =>
            set_params (snd ic)
                       (slice best_params (fst ic * n_cam_params)
                              ((fst ic + 1) * n_cam_params))
                       flag)
         (enumerate_from k cams) = Ok cams' ->
    map identity_of cams' = map identity_of cams.
Proof.
  induction cams as [|c cams IH]; intros k cams' H.
  - injection H as <-. reflexivity.
  - cbn [enumerate_from mapM fst snd] in H.
    inv_bind H as c' E1. inv_bind H as cs E2. injection H as <-.
    cbn [map]. f_equal; [eapply set_params_identity; eauto | eauto].
Qed.

Section BundleFrame.
Context `{Cap : Capabilities}.

Lemma bundle_adjust_identity (g : CameraGroup) (p2ds : tensor)
    (extra : option Extra) (loss : loss_kind) (threshold ftol : float)
    (max_nfev : Z) (only_extrinsics : bool) (rng : Rng)
    (g' : CameraGroup) (error : float) (rng' : Rng) :
  bundle_adjust g p2ds extra loss threshold ftol max_nfev only_extrinsics rng
  = Ok (g', error, rng') ->
  map identity_of (cameras g') = map identity_of (cameras g)
  /\ metadata g' = metadata g.
Proof.
  intros H. unfold bundle_adjust in H.
  destruct (negb _); [discriminate H|].
  inv_bind H as [[x0 n] r1] E1. inv_bind H as cams E2.
  inv_bind H as e E3. injection H as <- _ _. cbn [cameras metadata].
  split; [|reflexivity].
  unfold commit_params, enumerate in E2.
  eapply commit_params_identity; eassumption.
Qed.

(** X6.  Whatever the solver returns and whichever flag is passed, a
    successful [bundle_adjust] leaves the number of cameras, their
    classes, names, frame sizes and [extra_dist] switches, and the
    group's metadata as they were: only poses, intrinsic matrices and
    distortion coefficients are written. *)
Theorem bundle_adjust_frame (g : CameraGroup) (p2ds : tensor)
    (extra : option Extra) (loss : loss_kind) (threshold ftol : float)
    (max_nfev : Z) (only_extrinsics : bool) (rng : Rng)
    (g' : CameraGroup) (error : float) (rng' : Rng) :
  bundle_adjust g p2ds extra loss threshold ftol max_nfev only_extrinsics rng
  = Ok (g', error, rng') ->
  length (cameras g') = length (cameras g)
  /\ map identity_of (cameras g') = map identity_of (cameras g)
  /\ metadata g' = metadata g.
Proof.
  intros H. apply bundle_adjust_identity in H. destruct H as [H1 H2].
  repeat split; try assumption.
  apply (f_equal (@length _)) in H1. now rewrite !length_map in H1.
Qed.

Lemma rounds_identity (a : iter_args) (p2ds_full : tensor)
    (extra_full : option Extra) (mus : list float) (todo : list nat) :
  forall s s',
    rounds a p2ds_full extra_full mus todo s = Ok s' ->
    map identity_of (cameras (st_group s'))
    = map identity_of (cameras (st_group s))
    /\ metadata (st_group s') = metadata (st_group s).
Proof.
  induction todo as [|i todo IH]; intros s s' H; cbn [rounds] in H.
  - injection H as <-. now split.
  - inv_bind H as ex E. unfold round_body in E.
    destruct (resample_points p2ds_full extra_full (n_samp_full a) (st_rng s))
      as [[p2ds extra] rng1].
    inv_bind E as p3ds E1. inv_bind E as errors_full E2.
    inv_bind E as errors_norm E3. inv_bind E as mu_i E4.
    destruct (resample_points _ _ (n_samp_iter a) rng1)
      as [[p2ds_samp extra_samp] rng2].
    destruct (_ <? error_threshold a).
    + injection E as <-. injection H as <-. now split.
    + inv_bind E as [[g' e'] rng3] E5. injection E as <-.
      apply IH in H. cbn [st_group] in H.
      apply bundle_adjust_identity in E5.
      destruct H as [H1 H2], E5 as [H3 H4]. split; congruence.
Qed.

(** X7.  The same frame for the whole calibration loop: a successful
    [bundle_adjust_iter], after any number of rounds, returns a group
    with the same cameras by class, name, frame size and [extra_dist],
    in the same order, and the same metadata. *)
Theorem bundle_adjust_iter_frame (g : CameraGroup) (p2ds_full : tensor)
    (extra_full : option Extra) (a : iter_args) (rng : Rng)
    (error : float) (s : iter_state) :
  bundle_adjust_iter g p2ds_full extra_full a rng = Ok (error, s) ->
  length (cameras (st_group s)) = length (cameras g)
  /\ map identity_of (cameras (st_group s)) = map identity_of (cameras g)
  /\ metadata (st_group s) = metadata g.
Proof.
  intros H. unfold bundle_adjust_iter in H.
  destruct (negb _); [discriminate H|].
  destruct (resample_points p2ds_full extra_full (n_samp_full a) rng)
    as [[p2ds0 e0] rng0].
  inv_bind H as e1 E1. inv_bind H as s1 E2.
  destruct (resample_points p2ds_full extra_full (n_samp_full a) (st_rng s1))
    as [[p2ds extra] rng1].
  inv_bind H as p3ds E3. inv_bind H as errors_full E4.
  inv_bind H as errors_norm E5. inv_bind H as [[g2 e2] rng2] E6.
  inv_bind H as err E7. inv_bind H as p3ds' E8. inv_bind H as ef E9.
  injection H as _ <-. cbn [st_group].
  apply rounds_identity in E2. cbn [st_group] in E2.
  apply bundle_adjust_identity in E6.
  destruct E2 as [H1 H2], E6 as [H3 H4].
  assert (Hid : map identity_of (cameras g2) = map identity_of (cameras g))
    by congruence.
  repeat split; try congruence.
  apply (f_equal (@length _)) in Hid. now rewrite !length_map in Hid.
Qed.

End BundleFrame.

(** The run of two pinhole cameras on two points. *)
Lemma bundle_adjust_frame_witness :
  exists g' e r,
    bundle_adjust (Cap := example_capabilities) two_pinholes two_points None
                  linear 50 0.0001 1000 true tt = Ok (g', e, r)
    /\ map identity_of (cameras g') = map identity_of (cameras two_pinholes).
Proof.
  destruct (bundle_adjust (Cap := example_capabilities) two_pinholes two_points
              None linear 50 0.0001 1000 true tt) as [[[g' e] r]|err] eqn:E;
    [|vm_compute in E; discriminate E].
  exists g', e, r. split; [reflexivity|].
  exact (proj1 (proj2 (bundle_adjust_frame (Cap := example_capabilities) _ _ _
                         _ _ _ _ _ _ E))).
Defined.

(** Six rounds and the final solve on the stereo pair. *)
Lemma bundle_adjust_iter_frame_witness :
  exists error s,
    bundle_adjust_iter (Cap := example_capabilities) stereo_pair twelve_points
                       None never_stop_args tt = Ok (error, s)
    /\ length (cameras (st_group s)) = 2%nat
    /\ map identity_of (cameras (st_group s))
       = map identity_of (cameras stereo_pair)
    /\ metadata (st_group s) = [].
Proof.
  destruct (bundle_adjust_iter (Cap := example_capabilities) stereo_pair
              twelve_points None never_stop_args tt) as [[error s]|e] eqn:E.
  - exists error, s. split; [reflexivity|].
    exact (bundle_adjust_iter_frame (Cap := example_capabilities) _ _ _ _ _ E).
  - vm_compute in E. discriminate E.
Defined.

(* ================================================================== *)
(** ** Sparse matrices of ones *)

Lemma key_eqb_eq (a b : nat * nat) : key_eqb a b = true <-> a = b.
Proof.
  destruct a as [a1 a2], b as [b1 b2]. unfold key_eqb. cbn [fst snd].
  rewrite andb_true_iff, !Nat.eqb_eq. split; [intros [-> ->] | intros [= -> ->]];
    auto.
Qed.

Lemma dok_set_spec (A A' : dok) (rc : nat * nat) :
  dok_set A rc = Ok A' ->
  dok_rows A' = dok_rows A /\ dok_cols A' = dok_cols A
  /\ forall k, In k (dok_keys A') <-> In k (dok_keys A) \/ k = rc.
Proof.
  unfold dok_set. destruct (_ && _); [|discriminate].
  intros [= <-]. cbn [dok_rows dok_cols dok_keys]. repeat split.
  - destruct (existsb _ _) eqn:E; [tauto|].
    rewrite in_app_iff. cbn [In]. intuition.
  - destruct (existsb (key_eqb rc) (dok_keys A)) eqn:E.
    + intros [H| ->]; [exact H|].
      apply existsb_exists in E. destruct E as (x & Hx & E).
      apply key_eqb_eq in E. now subst.
    + rewrite in_app_iff. cbn [In]. intuition.
Qed.

Lemma dok_set_ok (A : dok) (rc : nat * nat) :
  (fst rc < dok_rows A)%nat -> (snd rc < dok_cols A)%nat ->
  exists A', dok_set A rc = Ok A'.
Proof.
  intros Hr Hc. unfold dok_set.
  apply Nat.ltb_lt in Hr, Hc. rewrite Hr, Hc. cbn [andb]. eauto.
Qed.

Lemma foldM_dok_set (pairs : list (nat * nat)) :
  forall A : dok,
    (forall rc, In rc pairs ->
                (fst rc < dok_rows A)%nat /\ (snd rc < dok_cols A)%nat) ->
    exists A', foldM dok_set pairs A = Ok A'
               /\ dok_rows A' = dok_rows A /\ dok_cols A' = dok_cols A
               /\ forall k, In k (dok_keys A') <-> In k (dok_keys A) \/ In k pairs.
Proof.
  induction pairs as [|rc pairs IH]; intros A Hb; cbn [foldM].
  - exists A. repeat split; cbn [In]; tauto.
  - destruct (Hb rc (or_introl eq_refl)) as [Hr Hc].
    destruct (dok_set_ok A rc Hr Hc) as [A1 H1]. rewrite H1. cbn [bind].
    apply dok_set_spec in H1. destruct H1 as (R1 & C1 & K1).
    destruct (IH A1) as (A' & H' & R' & C' & K').
    { intros rc' Hin. rewrite R1, C1. apply Hb. now right. }
    exists A'. split; [exact H'|]. split; [congruence|]. split; [congruence|].
    intros k. rewrite K', K1. cbn [In]. intuition.
Qed.

Lemma dok_assign_spec (A : dok) (rws cls : list nat) :
  length rws = length cls ->
  (forall rc, In rc (combine rws cls) ->
              (fst rc < dok_rows A)%nat /\ (snd rc < dok_cols A)%nat) ->
  exists A', dok_assign A rws cls = Ok A'
             /\ dok_rows A' = dok_rows A /\ dok_cols A' = dok_cols A
             /\ forall k, In k (dok_keys A')
                          <-> In k (dok_keys A) \/ In k (combine rws cls).
Proof.
  intros Hl Hb. unfold dok_assign.
  apply Nat.eqb_eq in Hl. rewrite Hl. cbn [negb].
  now apply foldM_dok_set.
Qed.

(** A loop of assignments [A[rws i, cls i] = 1] over [i]. *)
Lemma foldM_dok_assign {I : Type} (rws cls : I -> list nat) (l : list I) :
  forall A : dok,
    (forall i, In i l -> length (rws i) = length (cls i)) ->
    (forall i rc, In i l -> In rc (combine (rws i) (cls i)) ->
                  (fst rc < dok_rows A)%nat /\ (snd rc < dok_cols A)%nat) ->
    exists A', foldM (fun A i => dok_assign A (rws i) (cls i)) l A = Ok A'
               /\ dok_rows A' = dok_rows A /\ dok_cols A' = dok_cols A
               /\ forall k, In k (dok_keys A')
                            <-> In k (dok_keys A)
                                \/ exists i, In i l
                                             /\ In k (combine (rws i) (cls i)).
Proof.
  induction l as [|i l IH]; intros A Hl Hb; cbn [foldM].
  - exists A. repeat split; try tauto. intros [H|(i & [] & _)]. exact H.
  - destruct (@dok_assign_spec A (rws i) (cls i)) as (A1 & H1 & R1 & C1 & K1).
    { apply Hl. now left. }
    { intros rc. apply Hb. now left. }
    rewrite H1. cbn [bind].
    destruct (IH A1) as (A' & H' & R' & C' & K').
    { intros j Hj. apply Hl. now right. }
    { intros j rc Hj. rewrite R1, C1. apply Hb. now right. }
    exists A'. split; [exact H'|]. split; [congruence|]. split; [congruence|].
    intros k. rewrite K', K1. cbn [In]. split.
    + intros [[H|H]|(j & Hj & H)]; eauto 6.
    + intros [H|(j & [<-|Hj] & H)]; eauto 6.
Qed.

Lemma In_combine_seq_map {A : Type} (f : A -> nat) (l : list A) (r col : nat) :
  In (r, col) (combine (seq 0 (length l)) (map f l))
  <-> exists x, nth_error l r = Some x /\ col = f x.
Proof.
  assert (G : forall s,
             In (r, col) (combine (seq s (length l)) (map f l))
             <-> (s <= r)%nat
                 /\ exists x, nth_error l (r - s) = Some x /\ col = f x).
  { induction l as [|a l IH]; intros s; cbn [length seq map combine In].
    - split; [tauto|]. intros (_ & x & H & _). now destruct (r - s)%nat.
    - rewrite IH. split.
      + intros [[= <- <-]|(Hle & x & Hx & ->)].
        * split; [lia|]. rewrite Nat.sub_diag. now exists a.
        * split; [lia|]. exists x. split; [|reflexivity].
          replace (r - s)%nat with (S (r - S s)) by lia. exact Hx.
      + intros (Hle & x & Hx & ->).
        destruct (Nat.eq_dec s r) as [->|Hne].
        * left. rewrite Nat.sub_diag in Hx. now injection Hx as ->.
        * right. split; [lia|]. exists x. split; [|reflexivity].
          replace (r - s)%nat with (S (r - S s)) in Hx by lia. exact Hx. }
  rewrite G, Nat.sub_0_r. split; [tauto|]. intros H. split; [lia|exact H].
Qed.

Lemma In_mask {A : Type} (good : list bool) :
  forall (l : list A) (x : A), In x (mask good l) -> In x l.
Proof.
  induction good as [|b good IH]; intros [|y l] x H; try contradiction.
  cbn [mask] in H. destruct b.
  - destruct H as [->|H]; [now left | right; eauto].
  - right. eauto.
Qed.

(* ================================================================== *)
(** ** The Jacobian pattern of [bundle_adjust] *)

Lemma In_enumerate_from {A : Type} (l : list A) :
  forall (s i : nat) (x : A),
    In (i, x) (enumerate_from s l) ->
    (s <= i)%nat /\ nth_error l (i - s) = Some x.
Proof.
  induction l as [|a l IH]; intros s i x H; [contradiction|].
  cbn [enumerate_from In] in H. destruct H as [[= <- <-]|H].
  - rewrite Nat.sub_diag. split; [lia|reflexivity].
  - apply IH in H. destruct H as [Hle H]. split; [lia|].
    replace (i - s)%nat with (S (i - S s)) by lia. exact H.
Qed.

Lemma coord_entries_bounds (p2ds : tensor) (c n : nat) (v : float) :
  rectangular p2ds = true ->
  In (c, n, v) (coord_entries p2ds) ->
  (c < length (rows p2ds))%nat /\ (n < n_points p2ds)%nat.
Proof.
  intros Hrect H. unfold coord_entries in H.
  apply in_flat_map in H. destruct H as ([c' row] & Hc & H).
  apply in_flat_map in H. destruct H as ([n' p] & Hn & H).
  cbn [fst snd] in H, Hn.
  apply In_enumerate_from in Hc, Hn. destruct Hc as [_ Hc], Hn as [_ Hn].
  rewrite Nat.sub_0_r in Hc, Hn.
  assert (Hrow : length row = n_points p2ds).
  { unfold rectangular in Hrect. rewrite forallb_forall in Hrect.
    apply Nat.eqb_eq, Hrect. eapply nth_error_In; eauto. }
  assert (c = c' /\ n = n') as [-> ->]
    by (destruct H as [H|[H|[]]]; injection H as <- <- _; now split).
  split.
  - apply nth_error_Some. congruence.
  - rewrite <- Hrow. apply nth_error_Some. congruence.
Qed.

Lemma cam_indices_good_length (p2ds : tensor) :
  length (cam_indices_good p2ds) = count_true (good_coords p2ds).
Proof.
  unfold cam_indices_good. apply mask_length.
  unfold good_coords. now rewrite !length_map.
Qed.

Lemma point_indices_good_length (p2ds : tensor) :
  length (point_indices_good p2ds) = count_true (good_coords p2ds).
Proof.
  unfold point_indices_good. apply mask_length.
  unfold good_coords. now rewrite !length_map.
Qed.

Lemma cam_indices_good_bound (p2ds : tensor) (c : nat) :
  rectangular p2ds = true ->
  In c (cam_indices_good p2ds) -> (c < length (rows p2ds))%nat.
Proof.
  intros Hrect H. apply In_mask in H. apply in_map_iff in H.
  destruct H as ([[c' n] v] & <- & H). cbn [fst].
  now apply (coord_entries_bounds _ _ _ _ Hrect H).
Qed.

Lemma point_indices_good_bound (p2ds : tensor) (n : nat) :
  rectangular p2ds = true ->
  In n (point_indices_good p2ds) -> (n < n_points p2ds)%nat.
Proof.
  intros Hrect H. apply In_mask in H. apply in_map_iff in H.
  destruct H as ([[c n'] v] & <- & H). cbn [fst snd].
  now apply (coord_entries_bounds _ _ _ _ Hrect H).
Qed.

Section JacobianPattern.
Context `{Cap : Capabilities}.
Variable ids_map : Extra -> list nat.
Variable board_residuals :
  Extra -> list float -> list pt3 -> result (list float).

(** The matrix of [_jac_sparsity_bundle] without board data: its shape
    and its ones. *)
Lemma jac_sparsity_bundle_built (p2ds : tensor) (n_cam_params : nat) :
  rectangular p2ds = true ->
  let n_cams := length (rows p2ds) in
  exists A,
    _jac_sparsity_bundle ids_map p2ds n_cam_params None = Ok A
    /\ dok_rows A = count_true (good_coords p2ds)
    /\ dok_cols A = (n_cams * n_cam_params + n_points p2ds * 3)%nat
    /\ forall r col,
         In (r, col) (dok_keys A)
         <-> exists c n,
               nth_error (cam_indices_good p2ds) r = Some c
               /\ nth_error (point_indices_good p2ds) r = Some n
               /\ ((c * n_cam_params <= col < c * n_cam_params + n_cam_params)%nat
                   \/ (n_cams * n_cam_params + n * 3 <= col
                       < n_cams * n_cam_params + n * 3 + 3)%nat).
Proof.
  intros Hrect n_cams. unfold _jac_sparsity_bundle. cbn [bind]. cbv zeta.
  fold n_cams.
  set (ng := count_true (good_coords p2ds)).
  set (A0 := mkDok ng (n_cams * n_cam_params + n_points p2ds * 3 + 0 * (3 + 3)) []).
  pose proof (cam_indices_good_length p2ds) as Lc.
  pose proof (point_indices_good_length p2ds) as Lp.
  fold ng in Lc, Lp.
  destruct (@foldM_dok_assign nat (fun _ => seq 0 ng)
              (fun i => map (fun c => (c * n_cam_params + i)%nat)
                            (cam_indices_good p2ds))
              (seq 0 n_cam_params) A0) as (A1 & H1 & R1 & C1 & K1).
  { intros i _. now rewrite length_seq, length_map. }
  { intros i [r col] Hi H. rewrite <- Lc in H.
    apply In_combine_seq_map in H. destruct H as (c & Hc & ->).
    cbn [fst snd A0 dok_rows dok_cols]. split.
    - rewrite <- Lc. apply nth_error_Some. congruence.
    - apply nth_error_In in Hc. apply cam_indices_good_bound in Hc; [|exact Hrect].
      apply in_seq in Hi. fold n_cams in Hc. nia. }
  cbv beta in H1. rewrite H1. cbn [bind].
  destruct (@foldM_dok_assign nat (fun _ => seq 0 ng)
              (fun i => map (fun p => (n_cams * n_cam_params + p * 3 + i)%nat)
                            (point_indices_good p2ds))
              (seq 0 3) A1) as (A2 & H2 & R2 & C2 & K2).
  { intros i _. now rewrite length_seq, length_map. }
  { intros i [r col] Hi H. rewrite <- Lp in H.
    apply In_combine_seq_map in H. destruct H as (n & Hn & ->).
    rewrite R1, C1. cbn [fst snd A0 dok_rows dok_cols]. split.
    - rewrite <- Lp. apply nth_error_Some. congruence.
    - apply nth_error_In in Hn.
      apply point_indices_good_bound in Hn; [|exact Hrect].
      apply in_seq in Hi. lia. }
  cbv beta in H2. rewrite H2.
  exists A2. split; [reflexivity|].
  split; [rewrite R2, R1; reflexivity|].
  split; [rewrite C2, C1; cbn [A0 dok_cols]; lia|].
  intros r col. rewrite K2, K1. cbn [A0 dok_keys In]. split.
  - intros [[[]|(i & Hi & H)]|(i & Hi & H)].
    + rewrite <- Lc in H. apply In_combine_seq_map in H.
      destruct H as (c & Hc & ->).
      destruct (nth_error (point_indices_good p2ds) r) as [n|] eqn:En.
      * exists c, n. apply in_seq in Hi. repeat split; trivial. left. lia.
      * exfalso. apply nth_error_None in En.
        assert (r < length (cam_indices_good p2ds))%nat
          by (apply nth_error_Some; congruence).
        lia.
    + rewrite <- Lp in H. apply In_combine_seq_map in H.
      destruct H as (n & Hn & ->).
      destruct (nth_error (cam_indices_good p2ds) r) as [c|] eqn:Ec.
      * exists c, n. apply in_seq in Hi. repeat split; trivial. right. lia.
      * exfalso. apply nth_error_None in Ec.
        assert (r < length (point_indices_good p2ds))%nat
          by (apply nth_error_Some; congruence).
        lia.
  - intros (c & n & Hc & Hn & [Hcol|Hcol]).
    + left. right. exists (col - c * n_cam_params)%nat. split.
      * apply in_seq. lia.
      * rewrite <- Lc. apply In_combine_seq_map. exists c. split; [exact Hc|lia].
    + right. exists (col - (n_cams * n_cam_params + n * 3))%nat. split.
      * apply in_seq. lia.
      * rewrite <- Lp. apply In_combine_seq_map. exists n. split; [exact Hn|lia].
Qed.

(** X8.  Without board data, [_jac_sparsity_bundle] always builds its
    matrix.  It has one row per observed coordinate and one column per
    camera parameter and point coordinate, and row [r] holds a one
    exactly in the [n_cam_params] columns of the camera of the [r]-th
    observed coordinate and in the three columns of its point. *)
Theorem jac_sparsity_bundle_pattern (p2ds : tensor) (n_cam_params : nat) :
  rectangular p2ds = true ->
  let n_cams := length (rows p2ds) in
  exists A,
    _jac_sparsity_bundle ids_map p2ds n_cam_params None = Ok A
    /\ dok_rows A = count_true (good_coords p2ds)
    /\ dok_cols A = (n_cams * n_cam_params + n_points p2ds * 3)%nat
    /\ forall r col,
         In (r, col) (dok_keys A)
         <-> exists c n,
               nth_error (cam_indices_good p2ds) r = Some c
               /\ nth_error (point_indices_good p2ds) r = Some n
               /\ ((c * n_cam_params <= col < c * n_cam_params + n_cam_params)%nat
                   \/ (n_cams * n_cam_params + n * 3 <= col
                       < n_cams * n_cam_params + n * 3 + 3)%nat).
Proof. exact (jac_sparsity_bundle_built p2ds n_cam_params). Qed.

End JacobianPattern.

Lemma ravel3_length (ps : list pt3) : length (ravel3 ps) = (length ps * 3)%nat.
Proof.
  unfold ravel3. induction ps as [|[[x y] z] ps IH]; [reflexivity|].
  cbn [flat_map length app]. rewrite IH. lia.
Qed.

Lemma ravel2_length (rws : list (list pt2)) :
  length (ravel2 rws) = (2 * list_sum (map (@length _) rws))%nat.
Proof.
  unfold ravel2, list_sum. induction rws as [|row rws IH]; [reflexivity|].
  cbn [flat_map map fold_right]. rewrite length_app, IH.
  assert (H : length (flat_map (fun p : pt2 => [fst p; snd p]) row)
              = (2 * length row)%nat).
  { clear. induction row as [|p row IH]; [reflexivity|].
    cbn [flat_map length app]. rewrite IH. lia. }
  rewrite H. lia.
Qed.

Lemma coord_entries_length (p2ds : tensor) :
  length (coord_entries p2ds)
  = (2 * list_sum (map (@length _) (rows p2ds)))%nat.
Proof.
  assert (H : forall (c : nat) (l : list pt2) (k : nat),
             length (flat_map (fun ip : nat * pt2 =>
                                 [(c, fst ip, fst (snd ip));
                                  (c, fst ip, snd (snd ip))])
                              (enumerate_from k l))
             = (2 * length l)%nat).
  { intros c l. induction l as [|p l IH]; intros k; [reflexivity|].
    cbn [enumerate_from flat_map length app]. rewrite IH. lia. }
  assert (G : forall (rws : list (list pt2)) (s : nat),
             length (flat_map
                       (fun cr : nat * list pt2 =>
                          flat_map (fun ip : nat * pt2 =>
                                      [(fst cr, fst ip, fst (snd ip));
                                       (fst cr, fst ip, snd (snd ip))])
                                   (enumerate (snd cr)))
                       (enumerate_from s rws))
             = (2 * list_sum (map (@length _) rws))%nat).
  { unfold list_sum, enumerate.
    induction rws as [|row rws IH]; intros s; [reflexivity|].
    cbn [enumerate_from flat_map map fold_right fst snd].
    rewrite length_app, IH, H. lia. }
  apply G.
Qed.

Section SolverShapes.
Context `{Cap : Capabilities}.
Variable ids_map : Extra -> list nat.
Variable board_residuals :
  Extra -> list float -> list pt3 -> result (list float).

Lemma error_rows_shape (p3ds : list pt3) (n : nat) (rws : list (list pt2)) :
  length p3ds = n ->
  Forall (fun row => length row = n) rws ->
  forall cams, map (@length _) (error_rows cams p3ds rws) = map (@length _) rws.
Proof.
  intros Hp. induction 1 as [|row rws Hrow Hrws IH]; intros cams.
  - now destruct cams.
  - destruct cams as [|cam cams]; cbn [error_rows map]; rewrite IH; f_equal.
    + now rewrite length_map.
    + unfold Camera_reprojection_error.
      rewrite length_map, length_combine. lia.
Qed.

Lemma initialize_params_length (g : CameraGroup) (p2ds : tensor)
    (only_extrinsics : bool) (rng rng' : Rng) (x0 : list float)
    (n_cam_params k : nat) :
  Forall (fun cam => exists p, get_params cam only_extrinsics = Ok p
                               /\ length p = k) (cameras g) ->
  _initialize_params_bundle g p2ds None only_extrinsics rng
  = Ok (x0, n_cam_params, rng') ->
  n_cam_params = k
  /\ length x0 = (length (rows p2ds) * k + n_points p2ds * 3)%nat.
Proof.
  intros Hk H. unfold _initialize_params_bundle in H.
  inv_bind H as [cam_params n] E1.
  destruct (negb _) eqn:En; [discriminate H|].
  apply negb_false_iff, Nat.eqb_eq in En.
  inv_bind H as p3ds E2. injection H as <- <- _.
  unfold camera_blocks in E1.
  destruct (@mapM_blocks Camera (fun cam => get_params cam only_extrinsics) k
              (cameras g)) as (blocks & Hb & Hl & Hc).
  { rewrite Forall_forall in Hk. exact Hk. }
  rewrite Hb in E1. cbn [bind] in E1.
  destruct blocks as [|b bs]; [discriminate E1|].
  injection E1 as <- <-.
  assert (Hpos : length (cameras g) <> 0%nat)
    by (rewrite <- Hl; discriminate).
  unfold triangulate in E2. rewrite En, Nat.eqb_refl in E2. cbn [negb] in E2.
  inv_bind E2 as rws Erws.
  apply mapM_length in E2. rewrite length_seq in E2.
  change (b ++ concat bs) with (concat (b :: bs)).
  rewrite Hc. split.
  - now apply Nat.div_mul.
  - rewrite app_nil_r, length_app, Hc, ravel3_length, E2, En. lia.
Qed.

Lemma error_fun_bundle_length (g g' : CameraGroup) (params res : list float)
    (p2ds : tensor) (n_cam_params : nat) (only_extrinsics : bool) :
  rectangular p2ds = true ->
  _error_fun_bundle board_residuals g params p2ds n_cam_params None
                    only_extrinsics = Ok (res, g') ->
  length res = count_true (good_coords p2ds).
Proof.
  intros Hrect H. unfold _error_fun_bundle in H.
  inv_bind H as cams E1. inv_bind H as p3ds E2. inv_bind H as errors E3.
  cbn [bind] in H. injection H as <- _.
  rewrite app_nil_r. apply mask_length.
  unfold good_coords. rewrite length_map, coord_entries_length, ravel2_length.
  unfold reprojection_error in E3.
  destruct (negb _) eqn:En; [discriminate E3|].
  apply negb_false_iff, Nat.eqb_eq in En.
  destruct (_ <? _)%nat; [discriminate E3|]. injection E3 as <-.
  cbn [cameras]. rewrite (@error_rows_shape p3ds (n_points p2ds)); trivial.
  unfold rectangular in Hrect. rewrite forallb_forall in Hrect.
  apply Forall_forall. intros row Hin. now apply Nat.eqb_eq, Hrect.
Qed.

(** X9.  The three things [bundle_adjust] hands to the solver fit
    together (no board data, every camera packing [k] numbers): the
    starting vector of [_initialize_params_bundle] has as many entries
    as the sparsity pattern of [_jac_sparsity_bundle] has columns, and
    every residual vector [_error_fun_bundle] returns has as many
    entries as the pattern has rows. *)
Theorem bundle_solver_shapes_agree (g : CameraGroup) (p2ds : tensor)
    (only_extrinsics : bool) (rng rng' : Rng) (x0 : list float)
    (n_cam_params k : nat) :
  rectangular p2ds = true ->
  Forall (fun cam => exists p, get_params cam only_extrinsics = Ok p
                               /\ length p = k) (cameras g) ->
  _initialize_params_bundle g p2ds None only_extrinsics rng
  = Ok (x0, n_cam_params, rng') ->
  exists A,
    _jac_sparsity_bundle ids_map p2ds n_cam_params None = Ok A
    /\ length x0 = dok_cols A
    /\ forall params res g',
         _error_fun_bundle board_residuals g params p2ds n_cam_params None
                           only_extrinsics = Ok (res, g') ->
         length res = dok_rows A.
Proof.
  intros Hrect Hk H.
  destruct (initialize_params_length _ _ _ _ Hk H) as [-> Hx].
  destruct (jac_sparsity_bundle_built ids_map p2ds k Hrect)
    as (A & HA & HR & HC & _).
  exists A. split; [exact HA|]. split; [congruence|].
  intros params res g' Hres. rewrite HR.
  eapply error_fun_bundle_length; eauto.
Qed.

End SolverShapes.

(** Two cameras and two points, all four observations complete: eight
    rows, and twelve camera columns plus six point columns. *)
Lemma jac_sparsity_bundle_pattern_witness :
  exists A,
    _jac_sparsity_bundle (Cap := example_capabilities) (fun _ => [])
                         two_points 6 None = Ok A
    /\ dok_rows A = 8%nat /\ dok_cols A = 18%nat.
Proof.
  destruct (@jac_sparsity_bundle_pattern example_capabilities (fun _ => [])
              two_points 6 eq_refl) as (A & H & R & C & _).
  exists A. repeat split; assumption.
Defined.

(** The same two cameras with six numbers each. *)
Lemma bundle_solver_shapes_agree_witness :
  exists x0 A,
    _initialize_params_bundle (Cap := example_capabilities) two_pinholes
                              two_points None false tt = Ok (x0, 6%nat, tt)
    /\ _jac_sparsity_bundle (Cap := example_capabilities) (fun _ => [])
                            two_points 6 None = Ok A
    /\ length x0 = dok_cols A.
Proof.
  destruct (_initialize_params_bundle (Cap := example_capabilities)
              two_pinholes two_points None false tt)
    as [[[x0 n] r]|e] eqn:E; [|vm_compute in E; discriminate E].
  assert (Hn : n = 6%nat /\ r = tt).
  { vm_compute in E. injection E as _ <- <-. now split. }
  destruct Hn as [-> ->].
  assert (Hk : Forall (fun cam => exists p, get_params cam false = Ok p
                                            /\ length p = 6%nat)
                      (cameras two_pinholes)).
  { repeat constructor; eexists; split; reflexivity. }
  destruct (@bundle_solver_shapes_agree example_capabilities (fun _ => [])
              (fun _ _ _ => Ok []) two_pinholes two_points false tt tt x0 6 6
              eq_refl Hk E) as (A & HA & Hx & _).
  exists x0, A. repeat split; assumption.
Defined.

(* ================================================================== *)
(** ** Packing and unpacking the parameters of the weighted solver *)

Lemma broadcast_length (n : nat) (src l : list float) :
  broadcast n src = Ok l -> length l = n.
Proof.
  unfold broadcast. destruct (Nat.eqb_spec (length src) n) as [E|E].
  - now intros [= <-].
  - destruct src as [|x [|? ?]]; try discriminate.
    intros [= <-]. apply repeat_length.
Qed.

(** Whatever the shapes of the camera's arrays, a block that
    [Camera.get_params] returns has 16 entries with the flag and 6
    without. *)
Lemma Camera_get_params_ok_length (c : Camera) (flag : bool) (p : list float) :
  Camera_get_params c flag = Ok p ->
  length p = if flag then 16%nat else 6%nat.
Proof.
  unfold Camera_get_params. intros H.
  inv_bind H as r E1. inv_bind H as t E2.
  apply broadcast_length in E1, E2.
  destruct flag; cbn [negb] in H.
  - inv_bind H as fx E3. inv_bind H as fy E4. inv_bind H as cx E5.
    inv_bind H as cy E6. inv_bind H as skew E7. inv_bind H as d E8.
    apply broadcast_length in E8. injection H as <-.
    rewrite !length_app. cbn [length]. lia.
  - injection H as <-. rewrite length_app. lia.
Qed.

Lemma pinhole_block_roundtrip (c : Camera) (flag : bool) :
  well_shaped 5 c = true ->
  (flag = true -> canonical_matrix c) ->
  exists p, Camera_get_params c flag = Ok p
            /\ Camera_set_params c p flag = Ok c.
Proof.
  intros Hw Hm. apply well_shaped_inv in Hw.
  destruct Hw as (Hr & Ht & Hd & _).
  apply length3_inv in Hr. destruct Hr as (r0 & r1 & r2 & Hr).
  apply length3_inv in Ht. destruct Ht as (t0 & t1 & t2 & Ht).
  apply length5_inv in Hd. destruct Hd as (d0 & d1 & d2 & d3 & d4 & Hd).
  destruct c as [kd m d sz rv tv nm ed]. cbn [rvec tvec dist] in Hr, Ht, Hd.
  subst rv tv d. destruct flag.
  - destruct (Hm eq_refl) as (fx & fy & cx & cy & skew & Hmat).
    cbn [matrix] in Hmat. subst m. eexists. split; reflexivity.
  - eexists. split; reflexivity.
Qed.

Lemma slice_app_block {A : Type} (pre b rest : list A) (k n : nat) :
  length pre = (k * n)%nat -> length b = n ->
  slice (pre ++ b ++ rest) (k * n) ((k + 1) * n) = b.
Proof.
  intros Hp Hb. unfold slice.
  rewrite skipn_app, <- Hp, skipn_all, Nat.sub_diag. cbn [app skipn].
  replace ((k + 1) * n - length pre)%nat with (length b) by lia.
  rewrite firstn_app, firstn_all, Nat.sub_diag. cbn [firstn].
  apply app_nil_r.
Qed.

Lemma commit_blocks_kw (n : nat) (flag : bool) (rest : list float)
    (cams : list Camera) :
  forall (blocks : list (list float)) (k : nat) (pre : list float),
    Forall2 (fun c b => length b = n /\ set_params_kw c b flag = Ok c)
            cams blocks ->
    length pre = (k * n)%nat ->
    mapM (fun ic : nat * Camera =>
            set_params_kw (snd ic)
                          (slice (pre ++ concat blocks ++ rest)
                                 (fst ic * n) ((fst ic + 1) * n))
                          flag)
         (enumerate_from k cams) = Ok cams.
Proof.
  induction cams as [|c cams IH]; intros blocks k pre HF Hp;
    inversion HF as [|c' b cams' bs Hcb HF']; subst; [reflexivity|].
  destruct Hcb as [Hb Hs].
  cbn [enumerate_from mapM fst snd concat].
  rewrite <- app_assoc.
  rewrite (slice_app_block pre b (concat bs ++ rest) k Hp Hb), Hs.
  cbn [bind].
  replace (pre ++ b ++ concat bs ++ rest)
    with ((pre ++ b) ++ concat bs ++ rest) by now rewrite <- app_assoc.
  rewrite (IH bs (S k) (pre ++ b) HF'); [reflexivity|].
  rewrite length_app. lia.
Qed.

Lemma unravel3_ravel3 (ps : list pt3) : unravel3 (ravel3 ps) = ps.
Proof.
  unfold ravel3. induction ps as [|[[x y] z] ps IH]; [reflexivity|].
  cbn [flat_map app unravel3]. now rewrite IH.
Qed.

Lemma chunks_of_concat {A : Type} (K : nat) (rws : list (list A)) :
  Forall (fun row => length row = K) rws ->
  forall (s : nat) (pre : list A),
    length pre = (s * K)%nat ->
    map (fun t => slice (pre ++ concat rws) (t * K) ((t + 1) * K))
        (seq s (length rws)) = rws.
Proof.
  induction 1 as [|row rws Hrow Hrws IH]; intros s pre Hp; [reflexivity|].
  cbn [length seq map concat]. f_equal.
  - exact (slice_app_block pre row (concat rws) s Hp Hrow).
  - rewrite app_assoc. apply IH. rewrite length_app. lia.
Qed.

Lemma concat_length_uniform {A : Type} (K : nat) (rws : list (list A)) :
  Forall (fun row => length row = K) rws ->
  length (concat rws) = (length rws * K)%nat.
Proof.
  induction 1 as [|row rws Hrow Hrws IH]; [reflexivity|].
  cbn [concat length]. rewrite length_app, IH. lia.
Qed.

Lemma points3_ok_inv (p : points3) :
  points3_ok p = true ->
  length (p3_rows p) = p3_T p
  /\ Forall (fun row => length row = p3_K p) (p3_rows p).
Proof.
  unfold points3_ok. rewrite andb_true_iff, Nat.eqb_eq, forallb_forall.
  intros [H1 H2]. split; [exact H1|].
  apply Forall_forall. intros row Hin. now apply Nat.eqb_eq, H2.
Qed.

(** X10.  [_pack_params] followed by [_unpack_params] is the identity:
    for pinhole cameras with 3-vector poses and five distortion
    coefficients (and, when the intrinsics are packed, an intrinsic
    matrix of the form [set_params] writes), unpacking the packed
    vector writes back every camera as it was and returns the points
    as they were.  The block of a camera has 16 numbers with
    [optimize_intrinsics] and 6 without. *)
Theorem pack_unpack_roundtrip (g : CameraGroup) (points_3d : points3)
    (optimize_intrinsics : bool) :
  cameras g <> [] ->
  Forall (fun c => kind c = Pinhole /\ well_shaped 5 c = true
                   /\ (optimize_intrinsics = true -> canonical_matrix c))
         (cameras g) ->
  points3_ok points_3d = true ->
  let n := if optimize_intrinsics then 16%nat else 6%nat in
  exists x0,
    _pack_params g points_3d optimize_intrinsics = Ok (x0, n)
    /\ length x0 = (length (cameras g) * n
                    + p3_T points_3d * p3_K points_3d * 3)%nat
    /\ _unpack_params x0 g (p3_T points_3d, p3_K points_3d) n
                      optimize_intrinsics
       = Ok (points_3d, g).
Proof.
  intros Hne Hall Hok n.
  destruct (points3_ok_inv _ Hok) as [HT HK].
  assert (Hb : exists blocks,
             mapM (fun cam => get_params_kw cam optimize_intrinsics) (cameras g)
             = Ok blocks
             /\ Forall2 (fun c b => length b = n
                                    /\ set_params_kw c b optimize_intrinsics
                                       = Ok c)
                        (cameras g) blocks).
  { clear Hne. induction Hall as [|c cams (Hk & Hw & Hm) Hcams IH].
    - exists []. split; [reflexivity | constructor].
    - destruct IH as (bs & Hbs & HF).
      destruct (pinhole_block_roundtrip Hw Hm) as (p & Hg & Hs).
      exists (p :: bs). cbn [mapM]. unfold get_params_kw at 1.
      rewrite Hk, Hg. cbn [bind]. rewrite Hbs. cbn [bind].
      split; [reflexivity|]. constructor; [|exact HF].
      split; [now apply Camera_get_params_ok_length in Hg|].
      unfold set_params_kw. now rewrite Hk. }
  destruct Hb as (blocks & Hb & HF).
  assert (Hlen : length (concat blocks) = (length (cameras g) * n)%nat).
  { clear - HF. induction HF as [|c b cams bs [Hl _] HF IH]; [reflexivity|].
    cbn [concat length]. rewrite length_app, IH. lia. }
  assert (Hpts : length (ravel3 (concat (p3_rows points_3d)))
                 = (p3_T points_3d * p3_K points_3d * 3)%nat).
  { now rewrite ravel3_length, (concat_length_uniform HK), HT. }
  destruct blocks as [|b0 bs]; [inversion HF; congruence|].
  assert (Hb0 : length b0 = n)
    by (inversion HF as [|? ? ? ? Hx ?]; exact (proj1 Hx)).
  unfold _pack_params. rewrite Hb. cbn [bind].
  set (blocks := b0 :: bs) in *.
  eexists. split; [|split].
  - rewrite <- Hb0. reflexivity.
  - rewrite length_app, Hlen, Hpts. reflexivity.
  - unfold _unpack_params, commit_params_kw, enumerate.
    pose proof (commit_blocks_kw (n := n) optimize_intrinsics
                  (ravel3 (concat (p3_rows points_3d))) 0 [] HF eq_refl) as Hc.
    cbn [app] in Hc. rewrite Hc.
    cbn [bind]. unfold reshape_TK3.
    assert (Hs : slice (concat blocks ++ ravel3 (concat (p3_rows points_3d)))
                       (length (cameras g) * n)
                       (length (cameras g) * n
                        + p3_T points_3d * p3_K points_3d * 3)
                 = ravel3 (concat (p3_rows points_3d))).
    { unfold slice. rewrite skipn_app, <- Hlen, skipn_all, Nat.sub_diag.
      cbn [app skipn].
      replace (length (concat blocks) + _ - length (concat blocks))%nat
        with (length (ravel3 (concat (p3_rows points_3d)))) by lia.
      apply firstn_all. }
    rewrite Hs, Hpts, Nat.eqb_refl, unravel3_ravel3. cbn [bind].
    pose proof (chunks_of_concat HK 0 [] eq_refl) as Hch.
    cbn [app] in Hch. rewrite HT in Hch. rewrite Hch.
    destruct points_3d, g. reflexivity.
Qed.

(** One keypoint over two frames, two pinhole cameras, intrinsics
    included: 32 camera numbers and 6 point coordinates. *)
Lemma pack_unpack_roundtrip_witness :
  exists x0,
    _pack_params two_pinholes gappy_points true = Ok (x0, 16%nat)
    /\ length x0 = 38%nat
    /\ _unpack_params x0 two_pinholes (2%nat, 1%nat) 16 true
       = Ok (gappy_points, two_pinholes).
Proof.
  apply (@pack_unpack_roundtrip two_pinholes gappy_points true).
  - discriminate.
  - repeat constructor; intros _; repeat eexists.
  - reflexivity.
Defined.

(** X11.  The weighted bundle adjustment cannot pack a group that
    holds a [FisheyeCamera]: [_pack_params] passes the flag by the
    keyword [optimize_intrinsics], which [FisheyeCamera.get_params]
    does not have, so the call raises [TypeError]. *)
Theorem pack_params_rejects_fisheye (g : CameraGroup) (points_3d : points3)
    (optimize_intrinsics : bool) :
  Forall (fun c => kind c = Fisheye \/ well_shaped 5 c = true) (cameras g) ->
  Exists (fun c => kind c = Fisheye) (cameras g) ->
  _pack_params g points_3d optimize_intrinsics = Raise TypeError.
Proof.
  intros Hall Hex. unfold _pack_params.
  assert (H : mapM (fun cam => get_params_kw cam optimize_intrinsics)
                   (cameras g) = Raise TypeError).
  { induction Hall as [|c cams Hc Hcams IH]; [inversion Hex|].
    cbn [mapM]. unfold get_params_kw at 1.
    destruct (kind c) eqn:Ek; [|reflexivity].
    destruct Hc as [Hc|Hc]; [discriminate Hc|].
    destruct (Camera_get_params_length c optimize_intrinsics Hc) as (p & Hp & _).
    rewrite Hp. cbn [bind].
    rewrite IH; [reflexivity|].
    inversion Hex as [? ? Hf|? ? Hf]; subst; [congruence | exact Hf]. }
  now rewrite H.
Qed.

(** A fisheye camera between two pinhole cameras. *)
Lemma pack_params_rejects_fisheye_witness :
  _pack_params named_cameras gappy_points false = Raise TypeError.
Proof.
  apply pack_params_rejects_fisheye.
  - repeat constructor; (now left) || (now right).
  - right. left. reflexivity.
Defined.

(* ================================================================== *)
(** ** Residuals and Jacobian pattern of the weighted solver *)

Lemma getitem3_at3 {A : Type} (a : grid A) (c t k : nat) :
  getitem3 a c t k
  = match at3 a c t k with Some x => Ok x | None => Raise IndexError end.
Proof.
  unfold getitem3, at3, getitem.
  destruct (nth_error (cells a) c) as [plane|]; [|reflexivity]. cbn [bind].
  destruct (nth_error plane t) as [row|]; [|reflexivity]. cbn [bind].
  now destruct (nth_error row k).
Qed.

Lemma grid_ok_inv {A : Type} (a : grid A) :
  grid_ok a = true ->
  Forall (fun plane => length plane = grid_T a
                       /\ Forall (fun row => length row = grid_K a) plane)
         (cells a).
Proof.
  unfold grid_ok. rewrite forallb_forall. intros H.
  apply Forall_forall. intros plane Hin. specialize (H plane Hin).
  apply andb_prop in H. destruct H as [H1 H2]. split; [now apply Nat.eqb_eq|].
  rewrite forallb_forall in H2. apply Forall_forall. intros row Hr.
  now apply Nat.eqb_eq, H2.
Qed.

Lemma grid_ok_at3 {A : Type} (a : grid A) (c t k : nat) :
  grid_ok a = true ->
  (c < length (cells a))%nat -> (t < grid_T a)%nat -> (k < grid_K a)%nat ->
  exists x, at3 a c t k = Some x.
Proof.
  intros Hok Hc Ht Hk. apply grid_ok_inv in Hok.
  rewrite Forall_forall in Hok. unfold at3.
  destruct (nth_error (cells a) c) as [plane|] eqn:Ec;
    [|apply nth_error_None in Ec; lia].
  destruct (Hok plane (nth_error_In _ _ Ec)) as [HT HK].
  rewrite Forall_forall in HK.
  destruct (nth_error plane t) as [row|] eqn:Et;
    [|apply nth_error_None in Et; lia].
  specialize (HK row (nth_error_In _ _ Et)).
  destruct (nth_error row k) as [x|] eqn:Ek;
    [eauto | apply nth_error_None in Ek; lia].
Qed.

Lemma In_index_triples (C T K c t k : nat) :
  In (c, t, k) (index_triples C T K)
  <-> (c < C)%nat /\ (t < T)%nat /\ (k < K)%nat.
Proof.
  unfold index_triples. rewrite in_flat_map. split.
  - intros (c' & Hc & H). apply in_flat_map in H. destruct H as (t' & Ht & H).
    apply in_map_iff in H. destruct H as (k' & [= <- <- <-] & Hk).
    apply in_seq in Hc, Ht, Hk. lia.
  - intros (Hc & Ht & Hk). exists c. split; [apply in_seq; lia|].
    apply in_flat_map. exists t. split; [apply in_seq; lia|].
    apply in_map_iff. exists k. split; [reflexivity | apply in_seq; lia].
Qed.

Lemma flat_map_nth_error {A B : Type} (F : option A -> list B) (l : list A) :
  flat_map (fun i => F (nth_error l i)) (seq 0 (length l))
  = flat_map (fun x => F (Some x)) l.
Proof.
  induction l as [|a l IH]; [reflexivity|].
  cbn [length seq flat_map nth_error]. f_equal.
  rewrite <- seq_shift, !flat_map_concat_map, map_map.
  rewrite <- !flat_map_concat_map. exact IH.
Qed.

Lemma flat_map_ext_Forall {A B : Type} (P : A -> Prop) (f g : A -> list B)
    (l : list A) :
  Forall P l -> (forall a, P a -> f a = g a) -> flat_map f l = flat_map g l.
Proof.
  intros HF H. induction HF as [|a l Ha Hl IH]; [reflexivity|].
  cbn [flat_map]. now rewrite (H a Ha), IH.
Qed.

Lemma map_flat_map_comm {A B C : Type} (f : B -> C) (g : A -> list B)
    (l : list A) :
  map f (flat_map g l) = flat_map (fun a => map f (g a)) l.
Proof.
  induction l as [|a l IH]; [reflexivity|].
  cbn [flat_map]. now rewrite map_app, IH.
Qed.

Lemma flat_map_concat_concat {A : Type} (l : list (list (list A))) :
  flat_map (fun plane => flat_map (fun row => row) plane) l
  = concat (concat l).
Proof.
  induction l as [|p l IH]; [reflexivity|].
  cbn [flat_map concat]. rewrite concat_app, IH. reflexivity.
Qed.

Lemma filter_length_count {A : Type} (p : A -> bool) (l : list A) :
  length (filter p l) = count_true (map p l).
Proof.
  unfold count_true. induction l as [|a l IH]; [reflexivity|].
  cbn [filter map]. destruct (p a); cbn [length]; now rewrite IH.
Qed.

(** On a mask of shape [C x T x K] the loops meet every entry once, in
    storage order. *)
Lemma measured_index_triples (m : grid bool) :
  grid_ok m = true ->
  map (measured m) (index_triples (length (cells m)) (grid_T m) (grid_K m))
  = concat (concat (cells m)).
Proof.
  intros Hok. apply grid_ok_inv in Hok.
  unfold index_triples. rewrite map_flat_map_comm.
  rewrite <- flat_map_concat_concat.
  set (F := fun o : option (list (list bool)) =>
              flat_map (fun t =>
                          map (fun k =>
                                 match o with
                                 | Some plane =>
                                     match nth_error plane t with
                                     | Some row =>
                                         match nth_error row k with
                                         | Some b => b
                                         | None => false
                                         end
                                     | None => false
                                     end
                                 | None => false
                                 end) (seq 0 (grid_K m)))
                       (seq 0 (grid_T m))).
  transitivity (flat_map (fun c => F (nth_error (cells m) c))
                         (seq 0 (length (cells m)))).
  { apply flat_map_ext. intros c. unfold F.
    rewrite map_flat_map_comm. apply flat_map_ext. intros t.
    rewrite map_map. apply map_ext. intros k.
    unfold measured, at3. cbn [fst snd].
    destruct (nth_error (cells m) c) as [plane|]; [|reflexivity].
    now destruct (nth_error plane t). }
  rewrite flat_map_nth_error.
  eapply flat_map_ext_Forall; [exact Hok|]. intros plane [HT HK]. unfold F.
  rewrite <- HT.
  rewrite (flat_map_nth_error
             (fun o => map (fun k => match o with
                                     | Some row =>
                                         match nth_error row k with
                                         | Some b => b
                                         | None => false
                                         end
                                     | None => false
                                     end) (seq 0 (grid_K m)))).
  eapply flat_map_ext_Forall; [exact HK|]. intros row Hrow. cbv beta.
  rewrite <- Hrow. clear.
  induction row as [|b row IH]; [reflexivity|].
  cbn [length seq map nth_error]. f_equal.
  rewrite <- seq_shift, map_map. exact IH.
Qed.

Lemma valid_triples_count (m : grid bool) :
  grid_ok m = true ->
  length (valid_triples m (length (cells m)) (grid_T m) (grid_K m))
  = grid_count m.
Proof.
  intros Hok. unfold valid_triples, grid_count.
  now rewrite filter_length_count, measured_index_triples.
Qed.

Lemma mark_columns_spec (r1 r2 start n : nat) (A : dok) :
  (r1 < dok_rows A)%nat -> (r2 < dok_rows A)%nat ->
  (start + n <= dok_cols A)%nat ->
  exists A',
    mark_columns r1 r2 start n A = Ok A'
    /\ dok_rows A' = dok_rows A /\ dok_cols A' = dok_cols A
    /\ forall k, In k (dok_keys A')
                 <-> In k (dok_keys A)
                     \/ exists col, (start <= col < start + n)%nat
                                    /\ (k = (r1, col) \/ k = (r2, col)).
Proof.
  unfold mark_columns. revert start A.
  induction n as [|n IH]; intros start A H1 H2 Hc; cbn [seq foldM].
  - exists A. repeat split; try tauto. intros [H|(col & Hcol & _)]; [exact H|lia].
  - destruct (@dok_set_ok A (r1, start)) as [A1 E1]; cbn [fst snd]; try lia.
    rewrite E1. cbn [bind]. apply dok_set_spec in E1.
    destruct E1 as (R1 & C1 & K1).
    destruct (@dok_set_ok A1 (r2, start)) as [A2 E2]; cbn [fst snd]; try lia.
    rewrite E2. cbn [bind]. apply dok_set_spec in E2.
    destruct E2 as (R2 & C2 & K2).
    destruct (IH (S start) A2) as (A' & E' & R' & C' & K'); try lia.
    exists A'. split; [exact E'|]. split; [lia|]. split; [lia|].
    intros k. rewrite K', K2, K1. split.
    + intros [[[H| ->]| ->]|(col & Hcol & H)].
      * now left.
      * right. exists start. split; [lia | now left].
      * right. exists start. split; [lia | now right].
      * right. exists col. split; [lia | exact H].
    + intros [H|(col & Hcol & H)]; [now do 3 left|].
      destruct (Nat.eq_dec col start) as [->|Hne].
      * destruct H as [->| ->]; [left; left; now right | left; now right].
      * right. exists col. split; [lia | exact H].
Qed.

Lemma nth_error_snoc {A : Type} (l : list A) (x y : A) (j : nat) :
  nth_error (l ++ [x]) j = Some y
  <-> nth_error l j = Some y \/ (j = length l /\ y = x).
Proof.
  destruct (Nat.lt_ge_cases j (length l)) as [Hlt|Hge].
  - rewrite nth_error_app1 by exact Hlt. split; [now left|].
    intros [H|[-> _]]; [exact H | lia].
  - rewrite nth_error_app2 by exact Hge. split.
    + intros H. right. destruct (j - length l)%nat as [|d] eqn:E.
      * cbn in H. injection H as <-. split; [lia | reflexivity].
      * cbn in H. now destruct d.
    + intros [H|[-> ->]].
      * apply nth_error_None in Hge. congruence.
      * now rewrite Nat.sub_diag.
Qed.

Lemma sparsity_loop (mask_valid : grid bool)
    (n_cam_params K n_cam_total n_rows n_params : nat)
    (all : list (nat * nat * nat)) :
  (forall c t k, In (c, t, k) all ->
     (exists b, at3 mask_valid c t k = Some b)
     /\ (c * n_cam_params + n_cam_params <= n_params)%nat
     /\ (n_cam_total + (t * K + k) * 3 + 3 <= n_params)%nat) ->
  (2 * length (filter (measured mask_valid) all) <= n_rows)%nat ->
  forall (todo done : list (nat * nat * nat)) (st : dok * nat),
    all = done ++ todo ->
    sparsity_inv mask_valid n_cam_params K n_cam_total n_rows n_params done st ->
    exists st',
      foldM (sparsity_step mask_valid n_cam_params K n_cam_total) todo st
      = Ok st'
      /\ sparsity_inv mask_valid n_cam_params K n_cam_total n_rows n_params
                      all st'.
Proof.
  intros Hall Hrows.
  induction todo as [|[[c t] k] todo IH]; intros done st Hsplit Hinv.
  - rewrite app_nil_r in Hsplit. subst done. exists st. now split.
  - assert (Hin : In (c, t, k) all)
      by (rewrite Hsplit; apply in_or_app; right; now left).
    destruct (Hall c t k Hin) as ((b & Hb) & Hcam & Hpt).
    assert (Hsplit' : all = (done ++ [(c, t, k)]) ++ todo)
      by now rewrite <- app_assoc.
    cbn [foldM]. unfold sparsity_step at 1.
    rewrite getitem3_at3, Hb. cbn [bind].
    destruct Hinv as (Hptr & HR & HC & Hpat).
    assert (Hm : measured mask_valid (c, t, k) = b)
      by (unfold measured; cbn [fst snd]; now rewrite Hb).
    destruct b; cbn [negb].
    + set (j0 := length (filter (measured mask_valid) done)) in *.
      assert (Hj0 : (2 * j0 + 2 <= n_rows)%nat).
      { rewrite Hsplit, filter_app, length_app in Hrows.
        cbn [filter] in Hrows. rewrite Hm in Hrows. cbn [length] in Hrows.
        fold j0 in Hrows. lia. }
      destruct (@mark_columns_spec (snd st) (snd st + 1) (c * n_cam_params)
                  n_cam_params (fst st)) as (A1 & E1 & R1 & C1 & K1); try lia.
      rewrite E1. cbn [bind].
      destruct (@mark_columns_spec (snd st) (snd st + 1)
                  (n_cam_total + (t * K + k) * 3) 3 A1)
        as (A2 & E2 & R2 & C2 & K2); try lia.
      rewrite E2. cbn [bind].
      apply (IH (done ++ [(c, t, k)])); [exact Hsplit'|].
      unfold sparsity_inv. cbn [fst snd].
      rewrite filter_app. cbn [filter]. rewrite Hm, length_app. cbn [length].
      fold j0. split; [lia|]. split; [lia|]. split; [lia|].
      intros r col. rewrite K2, K1, (Hpat r col). split.
      * intros [[(j & ctk & Hj & Hr & Hd)|(col' & Hcol & H)]|(col' & Hcol & H)].
        -- exists j, ctk. split; [apply nth_error_snoc; now left|]. now split.
        -- exists j0, (c, t, k).
           split; [apply nth_error_snoc; right; now split|].
           split; [destruct H as [[= -> _]|[= -> _]]; lia|].
           left. destruct H as [[= _ ->]|[= _ ->]]; lia.
        -- exists j0, (c, t, k).
           split; [apply nth_error_snoc; right; now split|].
           split; [destruct H as [[= -> _]|[= -> _]]; lia|].
           right. destruct H as [[= _ ->]|[= _ ->]]; lia.
      * intros (j & ctk & Hj & Hr & Hd).
        apply nth_error_snoc in Hj. destruct Hj as [Hj|[-> ->]].
        -- left. left. exists j, ctk. now repeat split.
        -- destruct Hd as [Hd|Hd].
           ++ left. right. exists col. split; [lia|].
              destruct Hr as [->| ->]; [left | right]; f_equal; lia.
           ++ right. exists col. split; [lia|].
              destruct Hr as [->| ->]; [left | right]; f_equal; lia.
    + apply (IH (done ++ [(c, t, k)])); [exact Hsplit'|].
      unfold sparsity_inv. rewrite filter_app. cbn [filter].
      rewrite Hm, app_nil_r.
      split; [exact Hptr|]. split; [exact HR|]. split; [exact HC | exact Hpat].
Qed.

(** The matrix of [make_jac_sparsity] for a mask of the shape of the
    observations: its shape and its ones. *)
Lemma make_jac_sparsity_built (points_2d : grid pt2)
    (mask_valid : grid bool) (n_cam_params : nat) :
  grid_ok mask_valid = true ->
  length (cells mask_valid) = length (cells points_2d) ->
  grid_T mask_valid = grid_T points_2d ->
  grid_K mask_valid = grid_K points_2d ->
  let C := length (cells points_2d) in
  let T := grid_T points_2d in
  let K := grid_K points_2d in
  exists A,
    make_jac_sparsity points_2d mask_valid n_cam_params = Ok A
    /\ dok_rows A = (2 * length (valid_triples mask_valid C T K))%nat
    /\ dok_cols A = (C * n_cam_params + T * K * 3)%nat
    /\ pattern_of n_cam_params K (C * n_cam_params)
                  (valid_triples mask_valid C T K) A.
Proof.
  intros Hok HC HT HK C T K. unfold make_jac_sparsity. fold C T K.
  pose proof (@valid_triples_count mask_valid Hok) as Hcount.
  rewrite HC, HT, HK in Hcount. fold C T K in Hcount.
  destruct (@sparsity_loop mask_valid n_cam_params K (C * n_cam_params)
              (grid_count mask_valid * 2) (C * n_cam_params + T * K * 3)
              (index_triples C T K))
    with (todo := index_triples C T K) (done := @nil (nat * nat * nat))
         (st := (mkDok (grid_count mask_valid * 2)
                       (C * n_cam_params + T * K * 3) [], 0%nat))
    as ([A ptr] & E & Hptr & HR & HCo & Hpat).
  - intros c t k Hin. apply In_index_triples in Hin.
    destruct Hin as (Hc & Ht & Hk). split; [|split].
    + apply grid_ok_at3; trivial; unfold C, T, K in *; lia.
    + nia.
    + nia.
  - fold (valid_triples mask_valid C T K). lia.
  - reflexivity.
  - unfold sparsity_inv. cbn [fst snd filter length dok_rows dok_cols dok_keys].
    repeat split; try lia.
    + intros [].
    + intros (j & ctk & Hj & _). now destruct j.
  - rewrite E. cbn [bind fst]. exists A. cbn [fst snd] in *.
    split; [reflexivity|]. fold (valid_triples mask_valid C T K) in Hpat.
    split; [lia|]. split; [exact HCo | exact Hpat].
Qed.

(** X12.  For a mask of the shape of the observations,
    [make_jac_sparsity] always builds its matrix: two rows per valid
    measurement, one column per camera parameter and point coordinate,
    and the rows [2 j] and [2 j + 1] of the [j]-th valid measurement
    hold a one exactly in the columns of its camera and of its point. *)
Theorem make_jac_sparsity_pattern (points_2d : grid pt2)
    (mask_valid : grid bool) (n_cam_params : nat) :
  grid_ok mask_valid = true ->
  length (cells mask_valid) = length (cells points_2d) ->
  grid_T mask_valid = grid_T points_2d ->
  grid_K mask_valid = grid_K points_2d ->
  let C := length (cells points_2d) in
  let T := grid_T points_2d in
  let K := grid_K points_2d in
  exists A,
    make_jac_sparsity points_2d mask_valid n_cam_params = Ok A
    /\ dok_rows A = (2 * length (valid_triples mask_valid C T K))%nat
    /\ dok_cols A = (C * n_cam_params + T * K * 3)%nat
    /\ pattern_of n_cam_params K (C * n_cam_params)
                  (valid_triples mask_valid C T K) A.
Proof. exact (make_jac_sparsity_built points_2d mask_valid n_cam_params). Qed.

Lemma mapM_Forall2 {A B : Type} (f : A -> result B) (l : list A) :
  forall l', mapM f l = Ok l' -> Forall2 (fun a b => f a = Ok b) l l'.
Proof.
  induction l as [|a l IH]; intros l' H; cbn [mapM] in H.
  - injection H as <-. constructor.
  - inv_bind H as b E1. inv_bind H as bs E2. injection H as <-.
    constructor; [exact E1 | now apply IH].
Qed.

Lemma pack_params_length (g : CameraGroup) (points_3d : points3)
    (optimize_intrinsics : bool) (x0 : list float) (n_cam_params : nat) :
  points3_ok points_3d = true ->
  _pack_params g points_3d optimize_intrinsics = Ok (x0, n_cam_params) ->
  n_cam_params = (if optimize_intrinsics then 16%nat else 6%nat)
  /\ length x0 = (length (cameras g) * n_cam_params
                  + p3_T points_3d * p3_K points_3d * 3)%nat.
Proof.
  intros Hok H. destruct (points3_ok_inv _ Hok) as [HT HK].
  unfold _pack_params in H. inv_bind H as blocks E.
  apply mapM_Forall2 in E.
  set (n := if optimize_intrinsics then 16%nat else 6%nat).
  assert (HF : Forall (fun b : list float => length b = n) blocks
               /\ length blocks = length (cameras g)).
  { clear H. induction E as [|c b cams bs Hc Hcs IH]; [now split|].
    destruct IH as [IH1 IH2]. split; [|cbn [length]; now rewrite IH2].
    constructor; [|exact IH1].
    unfold get_params_kw in Hc. destruct (kind c); [|discriminate Hc].
    now apply Camera_get_params_ok_length in Hc. }
  destruct HF as [HF HL].
  destruct blocks as [|b0 bs]; [discriminate H|]. injection H as <- <-.
  inversion HF as [|? ? Hb0 _]; subst.
  split; [exact Hb0|].
  change (b0 ++ concat bs) with (concat (b0 :: bs)).
  rewrite length_app, (concat_length_uniform HF), HL, Hb0.
  now rewrite ravel3_length, (concat_length_uniform HK), HT.
Qed.

Section WeightedShapes.
Context `{Cap : Capabilities}.

Lemma residual_loop_length (cams : list Camera) (p3d_flat : list pt3)
    (K : nat) (points_2d : grid pt2) (weights : option (grid float))
    (mask_valid : grid bool) (l : list (nat * nat * nat)) :
  forall res res',
    foldM (residual_step cams p3d_flat K points_2d weights mask_valid) l res
    = Ok res' ->
    length res' = (length res + 2 * length (filter (measured mask_valid) l))%nat.
Proof.
  induction l as [|[[c t] k] l IH]; intros res res' H; cbn [foldM] in H.
  - injection H as <-. cbn. lia.
  - inv_bind H as res1 E. apply IH in H. rewrite H. clear H IH.
    unfold residual_step in E. inv_bind E as cam E1.
    rewrite getitem3_at3 in E.
    cbn [filter].
    replace (measured mask_valid (c, t, k))
      with (match at3 mask_valid c t k with Some b => b | None => false end)
      by reflexivity.
    destruct (at3 mask_valid c t k) as [b|]; [|discriminate E].
    cbn [bind] in E. destruct b; cbn [negb] in E.
    + inv_bind E as obs E2. inv_bind E as X E3. inv_bind E as w E4.
      injection E as <-. rewrite length_app. cbn [length]. lia.
    + injection E as <-. lia.
Qed.

(** X13.  What [bundle_adjust_with_weighted] hands to the solver fits
    together when observations, mask and initial points have the
    shapes [C x T x K], with one plane per camera: the vector of
    [_pack_params] has as many entries as the pattern of
    [make_jac_sparsity] has columns, and every residual vector [fun]
    returns has as many entries as the pattern has rows. *)
Theorem weighted_solver_shapes_agree (g : CameraGroup) (points_3d : points3)
    (points_2d : grid pt2) (mask_valid : grid bool)
    (optimize_intrinsics : bool) (x0 : list float) (n_cam_params : nat) :
  points3_ok points_3d = true ->
  grid_ok mask_valid = true ->
  length (cells mask_valid) = length (cameras g) ->
  length (cells points_2d) = length (cameras g) ->
  (grid_T mask_valid, grid_K mask_valid) = (p3_T points_3d, p3_K points_3d) ->
  (grid_T points_2d, grid_K points_2d) = (p3_T points_3d, p3_K points_3d) ->
  _pack_params g points_3d optimize_intrinsics = Ok (x0, n_cam_params) ->
  exists A,
    make_jac_sparsity points_2d mask_valid n_cam_params = Ok A
    /\ length x0 = dok_cols A
    /\ forall x weights res g',
         fun_ x g (p3_T points_3d, p3_K points_3d) points_2d weights
              n_cam_params optimize_intrinsics mask_valid = Ok (res, g') ->
         length res = dok_rows A.
Proof.
  intros Hp Hm HCm HCp [= HTm HKm] [= HTp HKp] Hpack.
  destruct (@pack_params_length _ _ _ _ _ Hp Hpack) as [_ Hx].
  destruct (@make_jac_sparsity_built points_2d mask_valid n_cam_params)
    as (A & HA & HR & HC & _); try congruence.
  exists A. split; [exact HA|]. split.
  - rewrite Hx, HC, HCp, HTp, HKp. reflexivity.
  - intros x weights res g' H. unfold fun_ in H.
    inv_bind H as cams E1. destruct (negb _); [discriminate H|].
    inv_bind H as residuals E2. injection H as <- _.
    apply residual_loop_length in E2. cbn [length] in E2.
    rewrite E2, HR. unfold valid_triples.
    now rewrite HCp, HTp, HKp.
Qed.

End WeightedShapes.

(** Two cameras, one keypoint, two frames; three of the four
    measurements are valid: six rows and 2 * 6 + 6 columns. *)
Lemma make_jac_sparsity_pattern_witness :
  exists A,
    make_jac_sparsity gappy_obs gappy_mask 6 = Ok A
    /\ dok_rows A = 6%nat /\ dok_cols A = 18%nat.
Proof.
  destruct (@make_jac_sparsity_pattern gappy_obs gappy_mask 6
              eq_refl eq_refl eq_refl eq_refl) as (A & H & R & C & _).
  exists A. repeat split; assumption.
Defined.

Lemma weighted_solver_shapes_agree_witness :
  exists x0 A,
    _pack_params two_pinholes gappy_points false = Ok (x0, 6%nat)
    /\ make_jac_sparsity gappy_obs gappy_mask 6 = Ok A
    /\ length x0 = dok_cols A.
Proof.
  destruct (_pack_params two_pinholes gappy_points false)
    as [[x0 n]|e] eqn:E; [|vm_compute in E; discriminate E].
  assert (Hn : n = 6%nat) by (vm_compute in E; now injection E as _ <-).
  subst n.
  destruct (@weighted_solver_shapes_agree example_capabilities two_pinholes
              gappy_points gappy_obs gappy_mask false x0 6
              eq_refl eq_refl eq_refl eq_refl eq_refl eq_refl E)
    as (A & HA & Hx & _).
  exists x0, A. repeat split; assumption.
Defined.

(* ================================================================== *)
(** ** Missing initial points of the weighted solver *)

Lemma nth_error_map_enumerate {A B : Type} (f : nat * A -> B) (l : list A) :
  forall (s i : nat),
    nth_error (map f (enumerate_from s l)) i
    = option_map (fun x => f ((s + i)%nat, x)) (nth_error l i).
Proof.
  induction l as [|a l IH]; intros s i.
  - now destruct i.
  - destruct i as [|i]; cbn [enumerate_from map nth_error option_map].
    + now rewrite Nat.add_0_r.
    + rewrite IH. now replace (S s + i)%nat with (s + S i)%nat by lia.
Qed.

Lemma set_column_at3 {A : Type} (w w' : grid A) (t k : nat) (v : A) :
  set_column w t k v = Ok w' ->
  grid_T w' = grid_T w /\ grid_K w' = grid_K w
  /\ forall c t' k',
       at3 w' c t' k'
       = option_map (fun w0 => if (t' =? t)%nat && (k' =? k)%nat then v else w0)
                    (at3 w c t' k').
Proof.
  unfold set_column. destruct (_ && _); [|discriminate].
  intros [= <-]. cbn [grid_T grid_K]. repeat split.
  intros c t' k'. unfold at3. cbn [cells].
  rewrite nth_error_map.
  destruct (nth_error (cells w) c) as [plane|]; [|reflexivity].
  cbn [option_map]. unfold enumerate. rewrite nth_error_map_enumerate.
  destruct (nth_error plane t') as [row|]; [|reflexivity].
  cbn [option_map fst snd Nat.add].
  destruct (t' =? t)%nat; cbn [andb].
  - rewrite nth_error_map_enumerate. cbn [fst snd Nat.add]. reflexivity.
  - now destruct (nth_error row k').
Qed.

Lemma zero_columns_spec (nan_mask : list (list bool)) (l : list (nat * nat)) :
  forall w : grid float,
    (forall tk, In tk l ->
                (fst tk < grid_T w)%nat /\ (snd tk < grid_K w)%nat) ->
    exists w',
      foldM (fun w tk => if nan_mask_at nan_mask tk
                         then set_column w (fst tk) (snd tk) 0
                         else Ok w) l w = Ok w'
      /\ grid_T w' = grid_T w /\ grid_K w' = grid_K w
      /\ forall c t k,
           at3 w' c t k
           = option_map
               (fun w0 => if existsb (fun tk => (t =? fst tk)%nat
                                                && (k =? snd tk)%nat) l
                             && nan_mask_at nan_mask (t, k)
                          then 0 else w0)
               (at3 w c t k).
Proof.
  induction l as [|[t0 k0] l IH]; intros w Hb; cbn [foldM].
  - exists w. repeat split. intros c t k. cbn [existsb andb].
    now destruct (at3 w c t k).
  - destruct (Hb (t0, k0) (or_introl eq_refl)) as [Ht Hk]. cbn [fst snd] in *.
    assert (Hstep : exists w1,
               (if nan_mask_at nan_mask (t0, k0) then set_column w t0 k0 0
                else Ok w) = Ok w1
               /\ grid_T w1 = grid_T w /\ grid_K w1 = grid_K w
               /\ forall c t k,
                    at3 w1 c t k
                    = option_map
                        (fun w0 => if (t =? t0)%nat && (k =? k0)%nat
                                      && nan_mask_at nan_mask (t0, k0)
                                   then 0 else w0)
                        (at3 w c t k)).
    { destruct (nan_mask_at nan_mask (t0, k0)).
      - destruct (set_column w t0 k0 0) as [w1|e] eqn:E.
        + exists w1. split; [reflexivity|].
          destruct (set_column_at3 _ _ _ _ E) as (H1 & H2 & H3).
          repeat split; trivial. intros c t k. rewrite H3.
          now rewrite andb_true_r.
        + unfold set_column in E. apply Nat.ltb_lt in Ht, Hk.
          rewrite Ht, Hk in E. discriminate E.
      - exists w. repeat split. intros c t k. rewrite andb_false_r.
        now destruct (at3 w c t k). }
    destruct Hstep as (w1 & E1 & T1 & K1 & A1). rewrite E1. cbn [bind].
    destruct (IH w1) as (w' & E' & T' & K' & A').
    { intros tk Hin. rewrite T1, K1. apply Hb. now right. }
    exists w'. split; [exact E'|]. split; [congruence|]. split; [congruence|].
    intros c t k. rewrite A', A1. destruct (at3 w c t k) as [w0|]; [|reflexivity].
    cbn [option_map existsb fst snd]. f_equal.
    destruct (Nat.eqb_spec t t0) as [->|Hne]; cbn [andb orb];
      [|reflexivity].
    destruct (Nat.eqb_spec k k0) as [->|Hne]; cbn [andb orb];
      [|reflexivity].
    destruct (nan_mask_at nan_mask (t0, k0)); [|now rewrite andb_false_r].
    now destruct (existsb _ l).
Qed.

Lemma nan_to_zero_not_nan (x : float) : isnan (nan_to_zero x) = false.
Proof. unfold nan_to_zero. now destruct (isnan x) eqn:E. Qed.

Lemma nan_mask_at_spec (p3 : points3) (t k : nat) (p : pt3) :
  at2 p3 t k = Some p ->
  nan_mask_at (map (map any_nan) (p3_rows p3)) (t, k) = any_nan p.
Proof.
  unfold at2, nan_mask_at. cbn [fst snd].
  destruct (nth_error (p3_rows p3) t) as [row|] eqn:Et; [|discriminate].
  intros Hk.
  rewrite (nth_error_nth (map (map any_nan) (p3_rows p3)) t []
             (x := map any_nan row))
    by now rewrite nth_error_map, Et.
  apply nth_error_nth. now rewrite nth_error_map, Hk.
Qed.

(** X14.  [fix_init_points_and_weights]: the returned points have the
    shape of the given ones and no missing coordinate, every
    coordinate that was present is kept and every missing one is 0
    (so a point missing one coordinate keeps the other two); the
    weight of every camera for a point with a missing coordinate is
    0 and every other weight is kept; without weights none are
    returned. *)
Theorem fix_init_points_and_weights_spec (init_points_3d : points3)
    (weights : grid float) :
  points3_ok init_points_3d = true ->
  grid_ok weights = true ->
  (grid_T weights, grid_K weights)
  = (p3_T init_points_3d, p3_K init_points_3d) ->
  exists fixed weights_fixed,
    fix_init_points_and_weights init_points_3d (Some weights)
    = Ok (fixed, Some weights_fixed)
    /\ fix_init_points_and_weights init_points_3d None = Ok (fixed, None)
    /\ (p3_T fixed, p3_K fixed) = (p3_T init_points_3d, p3_K init_points_3d)
    /\ (forall t k x y z,
          at2 init_points_3d t k = Some (x, y, z) ->
          at2 fixed t k = Some (nan_to_zero x, nan_to_zero y, nan_to_zero z)
          /\ any_nan (nan_to_zero x, nan_to_zero y, nan_to_zero z) = false)
    /\ (forall c t k w0 p,
          at3 weights c t k = Some w0 ->
          at2 init_points_3d t k = Some p ->
          at3 weights_fixed c t k = Some (if any_nan p then 0 else w0)).
Proof.
  intros Hp Hw [= HT HK]. unfold fix_init_points_and_weights.
  destruct (@zero_columns_spec (map (map any_nan) (p3_rows init_points_3d))
              (list_prod (seq 0 (p3_T init_points_3d))
                         (seq 0 (p3_K init_points_3d))) weights)
    as (w' & E & T' & K' & A').
  { intros [t k] Hin. apply in_prod_iff in Hin. destruct Hin as [Ht Hk].
    apply in_seq in Ht, Hk. cbn [fst snd]. lia. }
  rewrite E. cbn [bind]. do 2 eexists.
  split; [reflexivity|]. split; [reflexivity|].
  cbn [p3_T p3_K]. split; [reflexivity|]. split.
  - intros t k x y z H. unfold at2 in *. cbn [p3_rows].
    rewrite nth_error_map.
    destruct (nth_error (p3_rows init_points_3d) t) as [row|]; [|discriminate H].
    cbn [option_map]. rewrite nth_error_map, H. cbn [option_map].
    split; [reflexivity|].
    unfold any_nan. now rewrite !nan_to_zero_not_nan.
  - intros c t k w0 p Hw0 Hpt. rewrite A', Hw0. cbn [option_map]. f_equal.
    rewrite (nan_mask_at_spec _ _ _ Hpt).
    replace (existsb _ _) with true; [reflexivity|].
    symmetry. apply existsb_exists. exists (t, k). cbn [fst snd].
    rewrite !Nat.eqb_refl. split; [|reflexivity].
    apply in_prod_iff. rewrite !in_seq.
    destruct (points3_ok_inv _ Hp) as [HL HR].
    unfold at2 in Hpt.
    destruct (nth_error (p3_rows init_points_3d) t) as [row|] eqn:Et;
      [|discriminate Hpt].
    rewrite Forall_forall in HR.
    pose proof (HR row (nth_error_In _ _ Et)) as Hrow.
    assert (t < length (p3_rows init_points_3d))%nat
      by (apply nth_error_Some; congruence).
    assert (k < length row)%nat by (apply nth_error_Some; congruence).
    lia.
Qed.

(** The second frame of [gappy_points] misses its depth: the two
    coordinates it has are kept and both cameras lose their weight for
    that frame. *)
Lemma fix_init_points_and_weights_spec_witness :
  exists fixed weights_fixed,
    fix_init_points_and_weights gappy_points (Some gappy_weights)
    = Ok (fixed, Some weights_fixed)
    /\ at2 fixed 1 0 = Some (4, 5, 0)
    /\ at3 weights_fixed 0 1 0 = Some 0
    /\ at3 weights_fixed 0 0 0 = Some 0.5.
Proof.
  destruct (@fix_init_points_and_weights_spec gappy_points gappy_weights
              eq_refl eq_refl eq_refl)
    as (fixed & wf & H & _ & _ & Hpts & Hws).
  exists fixed, wf. split; [exact H|]. split; [|split].
  - exact (proj1 (Hpts 1%nat 0%nat 4 5 nan eq_refl)).
  - exact (Hws 0%nat 1%nat 0%nat 0.7 (4, 5, nan) eq_refl eq_refl).
  - exact (Hws 0%nat 0%nat 0%nat 0.5 (1, 2, 3) eq_refl eq_refl).
Defined.

(* ================================================================== *)
(** ** What the multi-hypothesis selection never returns *)

(** A choice of one option per camera list: its picks are valid
    candidates and their camera numbers increase strictly. *)
Lemma choice_picks (point_ix : nat) (rws : list (list (list pt2))) :
  forall (s : nat) (choice : list (option pick)),
    Forall2 (fun x l => In x l) choice
            (flat_map (fun cr : nat * list (list pt2) =>
                         match valid_candidates (nth point_ix (snd cr) []) with
                         | [] => []
                         | ks => [map (fun k => Some (fst cr, k)) ks ++ [None]]
                         end)
                      (enumerate_from s rws)) ->
    Forall (fun p : pick =>
              (s <= fst p)%nat
              /\ exists row, nth_error rws (fst p - s) = Some row
                             /\ In (snd p)
                                   (valid_candidates (nth point_ix row [])))
           (drop_none choice)
    /\ increasing_cams (drop_none choice).
Proof.
  induction rws as [|row rws IH]; intros s choice H.
  - inversion H; subst. split; constructor.
  - cbn [enumerate_from flat_map fst snd] in H.
    assert (Hshift : forall ch,
               Forall2 (fun x l => In x l) ch
                 (flat_map (fun cr : nat * list (list pt2) =>
                              match valid_candidates (nth point_ix (snd cr) [])
                              with
                              | [] => []
                              | ks => [map (fun k => Some (fst cr, k)) ks
                                       ++ [None]]
                              end)
                           (enumerate_from (S s) rws)) ->
               Forall (fun p : pick =>
                         (S s <= fst p)%nat
                         /\ exists row0, nth_error (row :: rws) (fst p - s)
                                         = Some row0
                                         /\ In (snd p)
                                               (valid_candidates
                                                  (nth point_ix row0 [])))
                      (drop_none ch)
               /\ increasing_cams (drop_none ch)).
    { intros ch Hch. destruct (IH (S s) ch Hch) as [H1 H2]. split; [|exact H2].
      eapply Forall_impl; [|exact H1]. cbv beta.
      intros p (Hle & row0 & Hr & Hin). split; [exact Hle|].
      exists row0. split; [|exact Hin].
      replace (fst p - s)%nat with (S (fst p - S s)) by lia. exact Hr. }
    destruct (valid_candidates (nth point_ix row [])) as [|k0 ks] eqn:Ev.
    + cbn [app] in H. destruct (Hshift choice H) as [H1 H2]. split; [|exact H2].
      eapply Forall_impl; [|exact H1]. cbv beta. intros p [Hle Hp].
      split; [lia | exact Hp].
    + cbn [app] in H.
      inversion H as [|x l ch ls Hx Hch]; subst.
      destruct (Hshift ch Hch) as [H1 H2].
      assert (H1' : Forall (fun p : pick =>
                              (s <= fst p)%nat
                              /\ exists row0,
                                   nth_error (row :: rws) (fst p - s) = Some row0
                                   /\ In (snd p)
                                         (valid_candidates
                                            (nth point_ix row0 [])))
                           (drop_none ch)).
      { eapply Forall_impl; [|exact H1]. cbv beta. intros p [Hle Hp].
        split; [lia | exact Hp]. }
      destruct x as [[c k]|]; cbn [drop_none]; [|now split].
      assert (Hck : c = s /\ In k (k0 :: ks)).
      { change (Some (s, k0) :: map (fun k => Some (s, k)) ks ++ [None])
          with (map (fun k => Some (s, k)) (k0 :: ks) ++ [None]) in Hx.
        apply in_app_or in Hx. destruct Hx as [Hx|[Hx|[]]]; [|discriminate Hx].
        apply in_map_iff in Hx. destruct Hx as (k' & [= <- <-] & Hk').
        now split. }
      destruct Hck as [-> Hk]. split.
      * constructor; [|exact H1']. cbn [fst snd]. split; [lia|].
        exists row. rewrite Nat.sub_diag. split; [reflexivity|].
        now rewrite Ev.
      * cbn [increasing_cams]. split; [|exact H2].
        eapply Forall_impl; [|exact H1]. cbv beta. cbn [fst].
        intros p [Hle _]. lia.
Qed.

Lemma count_true_orb (f g : nat -> bool) (l : list nat) :
  (count_true (map (fun k => f k || g k) l)
   <= count_true (map f l) + count_true (map g l))%nat.
Proof.
  unfold count_true. induction l as [|k l IH]; [cbn; lia|].
  cbn [map filter]. destruct (f k), (g k); cbn [orb length]; lia.
Qed.

Lemma count_true_one_pick (c : nat) (p : pick) (n s : nat) :
  (count_true (map (fun k => pick_eqb (c, k) p) (seq s n))
   <= if (fst p =? c)%nat then 1 else 0)%nat.
Proof.
  unfold pick_eqb, count_true. cbn [fst snd]. rewrite (Nat.eqb_sym c).
  destruct (fst p =? c)%nat; cbn [andb].
  - revert s. induction n as [|n IH]; intros s; [cbn; lia|].
    cbn [seq map filter].
    destruct (Nat.eqb_spec s (snd p)) as [E|E]; [|apply IH].
    cbn [length]. clear IH.
    assert (H : forall m t, (snd p < t)%nat ->
                length (filter (fun b : bool => b)
                          (map (fun k => (k =? snd p)%nat) (seq t m))) = 0%nat).
    { induction m as [|m IHm]; intros t Ht; [reflexivity|].
      cbn [seq map filter].
      destruct (Nat.eqb_spec t (snd p)); [lia|]. apply IHm. lia. }
    rewrite H by lia. lia.
  - revert s. induction n as [|n IH]; intros s; [cbn; lia|].
    cbn [seq map filter]. apply IH.
Qed.

Lemma count_true_picked (c : nat) (picked : list pick) (n : nat) :
  (count_true (map (fun k => existsb (pick_eqb (c, k)) picked) (seq 0 n))
   <= length (filter (fun p : pick => (fst p =? c)%nat) picked))%nat.
Proof.
  induction picked as [|p picked IH].
  - cbn [existsb filter length]. unfold count_true.
    induction (seq 0 n) as [|k l IHl]; [reflexivity | exact IHl].
  - cbn [existsb filter].
    pose proof (count_true_orb (fun k => pick_eqb (c, k) p)
                  (fun k => existsb (pick_eqb (c, k)) picked) (seq 0 n)) as H1.
    pose proof (count_true_one_pick c p n 0) as H2.
    cbv beta in H1. destruct (fst p =? c)%nat; cbn [length]; lia.
Qed.

Lemma sorted_picks_one_per_camera (c : nat) (picked : list pick) :
  increasing_cams picked ->
  (length (filter (fun p : pick => (fst p =? c)%nat) picked) <= 1)%nat.
Proof.
  induction picked as [|p picked IH]; intros Hs; [cbn; lia|].
  destruct Hs as [Hall Hs]. specialize (IH Hs).
  cbn [filter]. destruct (Nat.eqb_spec (fst p) c) as [E|E]; [|exact IH].
  cbn [length].
  replace (filter (fun q : pick => (fst q =? c)%nat) picked) with (@nil pick);
    [cbn; lia|].
  symmetry. clear IH Hs. induction Hall as [|q picked Hq Hall IH]; [reflexivity|].
  cbn [filter]. destruct (Nat.eqb_spec (fst q) c); [lia | exact IH].
Qed.

Lemma valid_candidates_spec (cands : list pt2) (k : nat) :
  In k (valid_candidates cands) ->
  exists p, nth_error cands k = Some p /\ isnan (fst p) = false.
Proof.
  unfold valid_candidates, enumerate. intros H.
  apply in_map_iff in H. destruct H as ([k' p] & <- & H).
  apply filter_In in H. destruct H as [Hin Hp]. cbn [fst snd] in *.
  apply In_enumerate_from in Hin. destruct Hin as [_ Hin].
  rewrite Nat.sub_0_r in Hin. exists p. split; [exact Hin|].
  now apply negb_true_iff.
Qed.

Lemma Forall2_nth_error_r {A B : Type} (R : A -> B -> Prop) (l : list A)
    (l' : list B) :
  Forall2 R l l' ->
  forall i b, nth_error l' i = Some b ->
              exists a, nth_error l i = Some a /\ R a b.
Proof.
  induction 1 as [|a b l l' Hab Hl IH]; intros i y Hy.
  - now destruct i.
  - destruct i as [|i]; cbn [nth_error] in *.
    + injection Hy as <-. eauto.
    + now apply IH.
Qed.

Section PossibleInvariants.
Context `{Cap : Capabilities}.

Lemma best_for_point_picks (g : CameraGroup) (points : tensor4)
    (undistort : bool) (min_cams : Z) (threshold : float) (point_ix : nat)
    (b : best_point) :
  best_for_point g points undistort min_cams threshold point_ix = Ok (Some b) ->
  (bp_error b <? 200) = true
  /\ increasing_cams (bp_picked b)
  /\ Forall (fun p : pick =>
               exists row, nth_error (rows4 points) (fst p) = Some row
                           /\ In (snd p) (valid_candidates (nth point_ix row [])))
            (bp_picked b).
Proof.
  intros H. unfold best_for_point in H. apply search_from_start in H.
  cbn [search_post] in H. destruct H as (pre & post & Hall & _ & _ & H200 & _).
  split; [exact H200|].
  assert (Hin : In (bp_picked b) (combinations (rows4 points) point_ix))
    by (rewrite Hall; apply in_or_app; right; now left).
  unfold combinations in Hin. apply in_map_iff in Hin.
  destruct Hin as (choice & <- & Hc). apply product_spec in Hc.
  destruct (choice_picks point_ix (rows4 points) 0 Hc) as [H1 H2].
  split; [exact H2|].
  eapply Forall_impl; [|exact H1]. cbv beta.
  intros p (_ & row & Hr & Hin). rewrite Nat.sub_0_r in Hr. eauto.
Qed.

(** X15.  What [triangulate_possible] never returns: for no point a
    reported error of 200 or more, for no camera and point more than
    one picked candidate, and no picked candidate whose first
    coordinate is missing.  The outputs have one entry per point. *)
Theorem triangulate_possible_picks (g : CameraGroup) (points : tensor4)
    (undistort : bool) (min_cams : Z) (threshold : float) (o : possible_out) :
  triangulate_possible g points undistort min_cams threshold = Ok o ->
  length (out o) = n_points4 points
  /\ length (errors o) = n_points4 points
  /\ Forall (fun e => (e <? 200) = true) (errors o)
  /\ forall c ip rows_c row,
       nth_error (picked_vals o) c = Some rows_c ->
       nth_error rows_c ip = Some row ->
       length row = n_possible points
       /\ (count_true row <= 1)%nat
       /\ forall k, nth_error row k = Some true ->
            exists cam_rows p,
              nth_error (rows4 points) c = Some cam_rows
              /\ nth_error (nth ip cam_rows []) k = Some p
              /\ isnan (fst p) = false.
Proof.
  intros H. unfold triangulate_possible in H.
  destruct (negb _); [discriminate H|].
  inv_bind H as bests E. injection H as <-.
  cbn [out errors picked_vals].
  pose proof (mapM_length _ _ E) as Hlen. rewrite length_seq in Hlen.
  apply mapM_Forall2 in E.
  split; [now rewrite length_map|]. split; [now rewrite length_map|]. split.
  - apply Forall_forall. intros e He. apply in_map_iff in He.
    destruct He as (best & <- & Hb).
    destruct best as [b|]; [|reflexivity].
    apply In_nth_error in Hb. destruct Hb as [i Hi].
    destruct (Forall2_nth_error_r E _ Hi) as (ip & _ & Hbest).
    now apply best_for_point_picks in Hbest.
  - intros c ip rows_c row Hc Hrow.
    rewrite nth_error_map in Hc.
    destruct (nth_error (seq 0 (length (rows4 points))) c) as [c'|] eqn:Ec;
      [|discriminate Hc].
    assert (c' = c) as ->.
    { assert (c < length (seq 0 (length (rows4 points))))%nat
        by (apply nth_error_Some; congruence).
      rewrite length_seq in H. rewrite (nth_error_seq 0 H) in Ec.
      now injection Ec as <-. }
    injection Hc as <-. rewrite nth_error_map in Hrow.
    destruct (nth_error bests ip) as [best|] eqn:Eb; [|discriminate Hrow].
    injection Hrow as <-.
    destruct (Forall2_nth_error_r E _ Eb) as (ip' & Hip' & Hbest).
    assert (ip' = ip) as ->.
    { assert (ip < length (seq 0 (n_points4 points)))%nat
        by (apply nth_error_Some; congruence).
      rewrite length_seq in H. rewrite (nth_error_seq 0 H) in Hip'.
      now injection Hip' as <-. }
    split; [unfold picked_row; now rewrite length_map, length_seq|].
    destruct best as [b|].
    + apply best_for_point_picks in Hbest. destruct Hbest as (_ & Hs & Hv).
      split.
      * unfold picked_row.
        pose proof (count_true_picked c (bp_picked b) (n_possible points)).
        pose proof (sorted_picks_one_per_camera c (bp_picked b) Hs). lia.
      * intros k Hk. unfold picked_row in Hk. rewrite nth_error_map in Hk.
        destruct (nth_error (seq 0 (n_possible points)) k) as [k'|] eqn:Ek;
          [|discriminate Hk].
        assert (k' = k) as ->.
        { assert (k < length (seq 0 (n_possible points)))%nat
            by (apply nth_error_Some; congruence).
          rewrite length_seq in H. rewrite (nth_error_seq 0 H) in Ek.
          now injection Ek as <-. }
        injection Hk as Hk. apply existsb_exists in Hk.
        destruct Hk as ([c' k'] & Hin & Heq). unfold pick_eqb in Heq.
        cbn [fst snd] in Heq. apply andb_prop in Heq.
        destruct Heq as [H1 H2]. apply Nat.eqb_eq in H1, H2. subst c' k'.
        rewrite Forall_forall in Hv. destruct (Hv _ Hin) as (row & Hr & Hvc).
        cbn [fst snd] in Hr, Hvc.
        apply valid_candidates_spec in Hvc. destruct Hvc as (p & Hp & Hn).
        exists row, p. now repeat split.
    + rewrite picked_row_None. split.
      * unfold count_true. clear. induction (n_possible points); cbn; lia.
      * intros k Hk. apply nth_error_In, repeat_spec in Hk. discriminate Hk.
Qed.

End PossibleInvariants.

(** Two cameras with two candidates each: the second candidate of each
    camera is picked, and only that one. *)
Lemma triangulate_possible_picks_witness :
  exists o,
    triangulate_possible (Cap := example_capabilities) two_pinholes
                         two_candidates false 2 0.5 = Ok o
    /\ Forall (fun e => (e <? 200) = true) (errors o)
    /\ picked_vals o = [[[false; true]]; [[false; true]]].
Proof.
  destruct (triangulate_possible (Cap := example_capabilities) two_pinholes
              two_candidates false 2 0.5) as [o|e] eqn:E.
  - exists o. split; [reflexivity|]. split.
    + exact (proj1 (proj2 (proj2 (triangulate_possible_picks _ _ _ _ _ E)))).
    + vm_compute in E. now injection E as <-.
  - vm_compute in E. discriminate E.
Defined.

(* ================================================================== *)
(** ** Writes through a sub-group or a copy *)

Lemma setitem_other {A : Type} (l : list A) :
  forall (i : nat) (v : A) (l' : list A),
    setitem l i v = Ok l' ->
    forall k, k <> i -> nth_error l' k = nth_error l k.
Proof.
  induction l as [|x l IH]; intros i v l' H k Hk; [discriminate H|].
  destruct i as [|i]; cbn [setitem] in H.
  - injection H as <-. destruct k; [congruence | reflexivity].
  - inv_bind H as r E. injection H as <-.
    destruct k as [|k]; [reflexivity|]. cbn [nth_error].
    apply (IH _ _ _ E). congruence.
Qed.

Lemma setitem_same {A : Type} (l : list A) :
  forall (i : nat) (v : A),
    (i < length l)%nat ->
    exists l', setitem l i v = Ok l' /\ nth_error l' i = Some v.
Proof.
  induction l as [|x l IH]; intros i v Hi; [cbn in Hi; lia|].
  destruct i as [|i]; cbn [setitem].
  - eexists. split; reflexivity.
  - destruct (IH i v) as (l' & E & Hn); [cbn in Hi; lia|].
    rewrite E. cbn [bind]. eexists. split; [reflexivity | exact Hn].
Qed.

Section StoreFrame.
Import Store.

Lemma write_frame (h h' : store) (l : loc) (o : obj) :
  write h l o = Ok h' -> forall k, k <> l -> read h' k = read h k.
Proof.
  unfold write, read, getitem. intros H k Hk.
  now rewrite (@setitem_other _ _ _ _ _ H _ Hk).
Qed.

Lemma read_app (h ext : store) (l : loc) :
  (l < length h)%nat -> read (h ++ ext) l = read h l.
Proof.
  intros Hl. unfold read, getitem. now rewrite nth_error_app1.
Qed.

Lemma Camera_copy_fresh (h h' : store) (l l' : loc) :
  Store.Camera_copy h l = Ok (h', l') ->
  (exists ext, h' = h ++ ext) /\ fresh_camera (length h) h' l'.
Proof.
  unfold Store.Camera_copy. intros H. inv_bind H as o E.
  destruct o; try discriminate H.
  inv_bind H as [h1 m1] E1. inv_bind H as [h2 d1] E2.
  inv_bind H as [h3 r1] E3. inv_bind H as [h4 t1] E4.
  inv_bind H as [h5 m2] E5. inv_bind H as [h6 d2] E6.
  inv_bind H as [h7 r2] E7. inv_bind H as [h8 t2] E8.
  unfold alloc in H. injection H as <- <-.
  apply copy_array_grows in E1, E2, E3, E4, E5, E6, E7, E8.
  destruct E1 as (? & -> & ->), E2 as (? & -> & ->), E3 as (? & -> & ->),
           E4 as (? & -> & ->), E5 as (? & -> & ->), E6 as (? & -> & ->),
           E7 as (? & -> & ->), E8 as (? & -> & ->).
  split.
  - rewrite <- !app_assoc. eexists. reflexivity.
  - eexists. split.
    + rewrite nth_error_app2 by lia. rewrite Nat.sub_diag. reflexivity.
    + cbn [o_matrix o_dist o_rvec o_tvec]. rewrite !length_app. cbn. lia.
Qed.

Lemma copy_all_fresh (ls : list loc) :
  forall (h h' : store) (ls' : list loc),
    copy_all h ls = Ok (h', ls') ->
    (exists ext, h' = h ++ ext) /\ Forall (fresh_camera (length h) h') ls'.
Proof.
  induction ls as [|l ls IH]; intros h h' ls' H; cbn [copy_all] in H.
  - injection H as <- <-. split; [|constructor].
    exists []. now rewrite app_nil_r.
  - inv_bind H as [h1 l1] E1. inv_bind H as [h2 r2] E2.
    injection H as <- <-.
    apply IH in E2. destruct E2 as ((ext2 & ->) & Hf).
    apply Camera_copy_fresh in E1.
    destruct E1 as ((ext1 & ->) & c' & Hc & Hb). split.
    + rewrite <- app_assoc. eauto.
    + constructor.
      * exists c'. split; [|exact Hb].
        rewrite nth_error_app1; [exact Hc|].
        apply nth_error_Some. congruence.
      * eapply Forall_impl; [|exact Hf]. cbv beta.
        intros x (c & Hx & Hm & Hd & Hr & Ht). exists c. split; [exact Hx|].
        rewrite length_app in Hm, Hd, Hr, Ht. lia.
Qed.

Lemma rvec_setitem_fresh (n : nat) (h h' : store) (g : group) (i j : nat)
    (v : float) :
  Forall (fresh_camera n h) (g_cameras g) ->
  rvec_setitem h g i j v = Ok h' ->
  forall l, (l < n)%nat -> read h' l = read h l.
Proof.
  intros Hf H l Hl. unfold rvec_setitem in H.
  inv_bind H as cl E1. inv_bind H as co E2.
  destruct co as [| | | |c]; try discriminate H.
  inv_bind H as ro E3. destruct ro as [a| | | |]; try discriminate H.
  inv_bind H as a' E4.
  unfold getitem in E1.
  destruct (nth_error (g_cameras g) i) as [cl'|] eqn:Ei; [|discriminate E1].
  injection E1 as ->. rewrite Forall_forall in Hf.
  destruct (Hf cl (nth_error_In _ _ Ei)) as (c' & Hc' & _ & _ & Hr & _).
  unfold read, getitem in E2. rewrite Hc' in E2. injection E2 as <-.
  apply (@write_frame _ _ _ _ H). lia.
Qed.

(** X16.  The arrays of a sub-group are its own, for every store,
    group and index list: after [sub = g.subset_cameras(indices)] a
    write to an entry of a rotation vector of a camera of [sub] leaves
    every object that existed before the call as it was (the cameras
    of [g], their arrays and its metadata). *)
Theorem subset_cameras_arrays_fresh (h h' h'' : store) (g sub : group)
    (indices : list Z) (i j : nat) (v : float) :
  Store.subset_cameras h g indices = Ok (h', sub) ->
  rvec_setitem h' sub i j v = Ok h'' ->
  forall l, (l < length h)%nat -> read h'' l = read h l.
Proof.
  unfold Store.subset_cameras. intros H Hw l Hl.
  inv_bind H as ls E1. inv_bind H as [h1 cams] E2. injection H as <- <-.
  apply copy_all_fresh in E2. destruct E2 as ((ext & ->) & Hf).
  rewrite (@rvec_setitem_fresh (length h) _ _ (mkGroupRef cams (g_metadata g))
             _ _ _ Hf Hw l Hl).
  now apply read_app.
Qed.

Lemma read_extends (h ext : store) (l : loc) (o : obj) :
  read h l = Ok o -> read (h ++ ext) l = Ok o.
Proof.
  unfold read, getitem. intros H.
  destruct (nth_error h l) as [x|] eqn:E; [|discriminate H].
  rewrite nth_error_app1; [now rewrite E|].
  apply nth_error_Some. congruence.
Qed.

(** [Camera.copy] hands the size object on: the copy refers to the
    size of the camera it was made from. *)
Lemma Camera_copy_size (h h' : store) (l l' : loc) (c : cam_obj) :
  Store.Camera_copy h l = Ok (h', l') ->
  read h l = Ok (OCamera c) ->
  (exists ext, h' = h ++ ext)
  /\ exists c', read h' l' = Ok (OCamera c') /\ o_size c' = o_size c.
Proof.
  unfold Store.Camera_copy. intros H Hc. rewrite Hc in H. cbn [bind] in H.
  inv_bind H as [h1 m1] E1. inv_bind H as [h2 d1] E2.
  inv_bind H as [h3 r1] E3. inv_bind H as [h4 t1] E4.
  inv_bind H as [h5 m2] E5. inv_bind H as [h6 d2] E6.
  inv_bind H as [h7 r2] E7. inv_bind H as [h8 t2] E8.
  unfold alloc in H. injection H as <- <-.
  apply copy_array_grows in E1, E2, E3, E4, E5, E6, E7, E8.
  destruct E1 as (? & -> & ->), E2 as (? & -> & ->), E3 as (? & -> & ->),
           E4 as (? & -> & ->), E5 as (? & -> & ->), E6 as (? & -> & ->),
           E7 as (? & -> & ->), E8 as (? & -> & ->).
  split.
  - rewrite <- !app_assoc. eexists. reflexivity.
  - eexists. split.
    + unfold read, getitem.
      rewrite nth_error_app2 by lia. rewrite Nat.sub_diag. reflexivity.
    + reflexivity.
Qed.

Lemma copy_all_size (ls : list loc) :
  forall (h h' : store) (ls' : list loc),
    copy_all h ls = Ok (h', ls') ->
    (exists ext, h' = h ++ ext)
    /\ forall i l c,
         nth_error ls i = Some l ->
         read h l = Ok (OCamera c) ->
         exists l' c', nth_error ls' i = Some l'
                       /\ read h' l' = Ok (OCamera c')
                       /\ o_size c' = o_size c.
Proof.
  induction ls as [|l0 ls IH]; intros h h' ls' H; cbn [copy_all] in H.
  - injection H as <- <-. split; [exists []; now rewrite app_nil_r|].
    intros i l c Hi. destruct i; discriminate Hi.
  - inv_bind H as [h1 l1] E1. inv_bind H as [h2 r2] E2.
    injection H as <- <-.
    apply IH in E2. destruct E2 as ((ext2 & ->) & Hf).
    split.
    + unfold Store.Camera_copy in E1. inv_bind E1 as o Eo.
      destruct o as [| | | |c0]; try discriminate E1.
      assert (E1' : Store.Camera_copy h l0 = Ok (h1, l1))
        by (unfold Store.Camera_copy; rewrite Eo; exact E1).
      destruct (@Camera_copy_size _ _ _ _ _ E1' Eo) as ((ext1 & ->) & _).
      rewrite <- app_assoc. eauto.
    + intros [|i] l c Hi Hc.
      * injection Hi as ->.
        destruct (@Camera_copy_size _ _ _ _ _ E1 Hc)
          as ((ext1 & ->) & c' & Hc' & Hs).
        exists l1, c'. split; [reflexivity|]. split; [|exact Hs].
        now apply read_extends.
      * cbn [nth_error] in Hi.
        assert (Hext : exists ext1, h1 = h ++ ext1).
        { unfold Store.Camera_copy in E1. inv_bind E1 as o Eo.
          destruct o as [| | | |c0]; try discriminate E1.
          assert (E1' : Store.Camera_copy h l0 = Ok (h1, l1))
            by (unfold Store.Camera_copy; rewrite Eo; exact E1).
          exact (proj1 (@Camera_copy_size _ _ _ _ _ E1' Eo)). }
        destruct Hext as [ext1 ->].
        destruct (Hf i l c Hi (@read_extends _ ext1 _ _ Hc))
          as (l' & c' & H1 & H2 & H3).
        exists l', c'. auto.
Qed.

(** X17.  [CameraGroup.copy] gives the copy arrays and a metadata
    dictionary of its own, but not size lists of its own.  Neither a
    write to an entry of a rotation vector nor a write to a metadata
    key through the copy changes an object that existed before the
    call; but every camera of the copy refers to the size list of the
    camera it was made from, so a write to an entry of a size list
    through the copy is read through the original group. *)
Theorem CameraGroup_copy_shares_sizes (h h' : store) (g cp : group) :
  CameraGroup_copy h g = Ok (h', cp) ->
  (forall i j v h'',
     rvec_setitem h' cp i j v = Ok h'' ->
     forall l, (l < length h)%nat -> read h'' l = read h l)
  /\ (forall k v h'',
        metadata_setitem h' cp k v = Ok h'' ->
        forall l, (l < length h)%nat -> read h'' l = read h l)
  /\ (forall i j v sz sz',
        size_of h g i = Ok sz ->
        setitem sz j v = Ok sz' ->
        exists h'',
          size_setitem h' cp i j v = Ok h'' /\ size_of h'' g i = Ok sz').
Proof.
  unfold CameraGroup_copy. intros H.
  inv_bind H as [h1 cams] E1. inv_bind H as md E2.
  destruct md as [| | |d|]; try discriminate H.
  unfold alloc in H. injection H as <- <-.
  pose proof (copy_all_size _ _ E1) as Hsize.
  apply copy_all_fresh in E1. destruct E1 as ((ext & ->) & Hf).
  destruct Hsize as (_ & Hsize). split; [|split].
  - intros i j v h'' Hw l Hl.
    assert (Hf' : Forall (fresh_camera (length h) ((h ++ ext) ++ [ODict d]))
                         cams).
    { eapply Forall_impl; [|exact Hf]. cbv beta.
      intros x (c & Hx & Hb). exists c. split; [|exact Hb].
      rewrite nth_error_app1; [exact Hx|].
      apply nth_error_Some. congruence. }
    rewrite (@rvec_setitem_fresh (length h) _ _
               (mkGroupRef cams (length (h ++ ext))) _ _ _ Hf' Hw l Hl).
    rewrite <- app_assoc. now apply read_app.
  - intros k v h'' Hw l Hl. unfold metadata_setitem in Hw.
    cbn [g_metadata] in Hw. inv_bind Hw as o E.
    destruct o; try discriminate Hw.
    rewrite (@write_frame _ _ _ _ Hw) by (rewrite length_app; lia).
    rewrite <- app_assoc. now apply read_app.
  - intros i j v sz sz' Hsz Hset. unfold size_of in Hsz.
    inv_bind Hsz as cl Ecl. inv_bind Hsz as co Eco.
    destruct co as [| | | |c]; try discriminate Hsz.
    destruct (o_size c) as [sl|] eqn:Esl; [|discriminate Hsz].
    inv_bind Hsz as so Eso. destruct so as [| |sz0| |]; try discriminate Hsz.
    injection Hsz as ->.
    assert (Hi : nth_error (g_cameras g) i = Some cl).
    { unfold getitem in Ecl. destruct (nth_error (g_cameras g) i);
        [now injection Ecl as -> | discriminate Ecl]. }
    destruct (Hsize i cl c Hi Eco) as (l' & c' & Hl' & Hc' & Hs').
    set (hc := (h ++ ext) ++ [ODict d]).
    assert (Hsl : (sl < length hc)%nat).
    { unfold hc. rewrite !length_app. unfold read, getitem in Eso.
      destruct (nth_error h sl) eqn:En; [|discriminate Eso].
      assert (sl < length h)%nat by (apply nth_error_Some; congruence). lia. }
    destruct (@setitem_same _ hc sl (OSize sz') Hsl) as (h'' & Hw & Hn).
    exists h''. split.
    + unfold size_setitem. cbn [g_cameras]. unfold getitem at 1.
      rewrite Hl'. cbn [bind].
      unfold hc. rewrite (@read_extends _ [ODict d] _ _ Hc'). cbn [bind].
      rewrite Hs', Esl.
      rewrite <- app_assoc, (@read_extends _ (ext ++ [ODict d]) _ _ Eso).
      cbn [bind]. rewrite Hset. cbn [bind].
      rewrite app_assoc. exact Hw.
    + unfold size_of. rewrite Ecl. cbn [bind].
      assert (Hne : cl <> sl).
      { intros ->. rewrite Eco in Eso. discriminate Eso. }
      rewrite (@write_frame _ _ _ _ Hw cl Hne).
      unfold hc. rewrite <- app_assoc, (@read_extends _ (ext ++ [ODict d]) _ _ Eco).
      cbn [bind]. rewrite Esl.
      unfold read, getitem. rewrite Hn. reflexivity.
Qed.

End StoreFrame.

(** The session group: a write to the rotation of the sub-group's
    camera leaves the parent's rotation vector (object 3) alone. *)
Lemma subset_cameras_arrays_fresh_witness :
  exists h' sub h'',
    Store.subset_cameras session_store session_group [0%Z] = Ok (h', sub)
    /\ Store.rvec_setitem h' sub 0%nat 0%nat 1 = Ok h''
    /\ Store.read h'' 3%nat = Ok (Store.ONdarray [0; 0; 0]).
Proof.
  destruct (Store.subset_cameras session_store session_group [0%Z])
    as [[h' sub]|e] eqn:E1; [|vm_compute in E1; discriminate E1].
  destruct (Store.rvec_setitem h' sub 0%nat 0%nat 1) as [h''|e] eqn:E2.
  - exists h', sub, h''. split; [reflexivity|]. split; [exact E2|].
    rewrite (@subset_cameras_arrays_fresh _ _ _ _ _ _ _ _ _ E1 E2 3%nat);
      [reflexivity | cbn; lia].
  - vm_compute in E1. injection E1 as <- <-. vm_compute in E2. discriminate E2.
Defined.

(** The session group: a metadata write through the copy leaves the
    original's dictionary (object 6) alone, and a write to the width in
    the copy's size list changes the width of the original camera. *)
Lemma CameraGroup_copy_shares_sizes_witness :
  exists h' cp h'' h3,
    Store.CameraGroup_copy session_store session_group = Ok (h', cp)
    /\ Store.metadata_setitem h' cp "session" "second" = Ok h''
    /\ Store.read h'' 6%nat
       = Ok (Store.ODict [("session"%string, "first"%string)])
    /\ size_of session_store session_group 0 = Ok [640; 480]%Z
    /\ size_setitem h' cp 0 0 1280 = Ok h3
    /\ size_of h3 session_group 0 = Ok [1280; 480]%Z.
Proof.
  destruct (Store.CameraGroup_copy session_store session_group)
    as [[h' cp]|e] eqn:E1; [|vm_compute in E1; discriminate E1].
  destruct (Store.metadata_setitem h' cp "session" "second")
    as [h''|e] eqn:E2.
  - destruct (proj2 (proj2 (@CameraGroup_copy_shares_sizes _ _ _ _ E1))
                0%nat 0%nat 1280%Z [640; 480]%Z [1280; 480]%Z
                eq_refl eq_refl) as (h3 & Hw & Hr).
    exists h', cp, h'', h3. split; [reflexivity|]. split; [exact E2|].
    split; [|split; [reflexivity | split; [exact Hw | exact Hr]]].
    rewrite (proj1 (proj2 (@CameraGroup_copy_shares_sizes _ _ _ _ E1))
               _ _ _ E2 6%nat);
      [reflexivity | cbn; lia].
  - vm_compute in E1. injection E1 as <- <-. vm_compute in E2. discriminate E2.
Defined.

(* ================================================================== *)
(** ** Dumping and loading a group *)

Lemma get_dicts_spec (cams : list Camera) :
  match mapM get_dict cams with
  | Ok dicts =>
      forallb (fun c => match size c with Some _ => true | None => false end)
              cams = true
      /\ length dicts = length cams
  | Raise e =>
      e = TypeError
      /\ forallb (fun c => match size c with Some _ => true | None => false end)
                 cams = false
  end.
Proof.
  induction cams as [|c cams IH]; cbn [mapM forallb]; [now split|].
  unfold get_dict at 1. destruct (size c) as [sz|]; cbn [andb]; [|now split].
  destruct (mapM get_dict cams) as [dicts|e].
  - destruct IH as [IH1 IH2].
    destruct (kind c); cbn [bind length]; split; congruence.
  - destruct (kind c); cbn [bind]; exact IH.
Qed.

Lemma cam_key_not_metadata (i : nat) :
  String.eqb "metadata" (cam_key i) = false.
Proof. reflexivity. Qed.

Lemma dict_set_new_key {V : Type} (d : pydict V) (k : string) (v : V) :
  forallb (fun kv => negb (String.eqb k (fst kv))) d = true ->
  dict_set d k v = d ++ [(k, v)].
Proof.
  induction d as [|[k' v'] d IH]; cbn [forallb dict_set fst app]; [reflexivity|].
  intros H. apply andb_prop in H. destruct H as [H1 H2].
  apply negb_true_iff in H1. rewrite H1. now rewrite IH.
Qed.

(** The document [dump] builds before it opens the file. *)
Lemma dump_document (g : CameraGroup) :
  match dump g with
  | Ok doc =>
      forallb (fun c => match size c with Some _ => true | None => false end)
              (cameras g) = true
      /\ map fst doc
         = map cam_key (seq 0 (length (cameras g))) ++ ["metadata"%string]
  | Raise e =>
      e = TypeError
      /\ forallb (fun c => match size c with Some _ => true | None => false end)
                 (cameras g) = false
  end.
Proof.
  unfold dump, get_dicts. pose proof (get_dicts_spec (cameras g)) as H.
  destruct (mapM get_dict (cameras g)) as [dicts|e]; cbn [bind]; [|exact H].
  destruct H as [H1 H2]. split; [exact H1|].
  rewrite dict_set_new_key.
  - rewrite map_app, H2. cbn [map fst]. f_equal.
    generalize 0%nat. clear H1. revert dicts H2.
    induction (cameras g) as [|c cams IH]; intros [|d dicts] H2 s;
      try discriminate H2; [reflexivity|].
    cbn [length seq map combine fst]. f_equal. apply IH. now injection H2.
  - apply forallb_forall. intros [k d] Hin. cbn [fst].
    apply in_combine_l in Hin. apply in_map_iff in Hin.
    destruct Hin as (i & <- & _). now rewrite cam_key_not_metadata.
Qed.

Lemma combine_keys_nth (ds : list (pydict toml_value)) :
  forall (s i : nat) (d : pydict toml_value),
    nth_error ds i = Some d ->
    nth_error (combine (map cam_key (seq s (length ds))) ds) i
    = Some (cam_key (s + i), d).
Proof.
  induction ds as [|d0 ds IH]; intros s i d Hi; [destruct i; discriminate Hi|].
  destruct i as [|i]; cbn [length seq map combine nth_error] in *.
  - injection Hi as ->. now rewrite Nat.add_0_r.
  - rewrite (IH (S s) i d Hi). do 3 f_equal. lia.
Qed.

Section TomlFiles.
Variable fs : Type.
Variable toml_dump :
  pydict (pydict toml_value) -> string -> fs -> result fs.
Variable toml_load : string -> fs -> result (pydict (pydict toml_value)).

(** X18.  [dump] needs the frame size of every camera before it
    touches the file: when some camera has none (as the cameras of
    [from_names] do) it raises [TypeError] whatever the file and the
    encoder are; when every camera has one, it does what opening the
    file and [toml.dump] do, raising their exceptions too, on the
    document with one table per camera under the keys
    [cam_0, cam_1, ...] in camera order, followed by the metadata
    table. *)
Theorem dump_needs_sizes (g : CameraGroup) (fname : string) (files : fs) :
  if forallb (fun c => match size c with Some _ => true | None => false end)
             (cameras g)
  then exists doc,
         Toml.dump toml_dump g fname files = toml_dump doc fname files
         /\ map fst doc
            = map cam_key (seq 0 (length (cameras g))) ++ ["metadata"%string]
         /\ (forall i c, nth_error (cameras g) i = Some c ->
               exists d, get_dict c = Ok d
                         /\ nth_error doc i = Some (cam_key i, d))
         /\ nth_error doc (length (cameras g))
            = Some ("metadata"%string, metadata_table (metadata g))
  else Toml.dump toml_dump g fname files = Raise TypeError.
Proof.
  unfold Toml.dump. pose proof (dump_document g) as H.
  destruct (dump g) as [doc|e] eqn:E.
  - destruct H as [-> Hk]. exists doc. split; [reflexivity|].
    split; [exact Hk|].
    unfold dump, get_dicts in E. inv_bind E as dicts Ed. injection E as <-.
    pose proof (mapM_length _ _ Ed) as Hl.
    rewrite dict_set_new_key.
    + split.
      * intros i c Hi.
        destruct (mapM_nth_error _ _ i Ed Hi) as (d & Hd & Hnd).
        exists d. split; [exact Hd|].
        rewrite nth_error_app1.
        -- exact (combine_keys_nth dicts 0 i Hnd).
        -- rewrite length_combine, length_map, length_seq, Nat.min_id.
           apply nth_error_Some. congruence.
      * rewrite <- Hl.
        rewrite nth_error_app2
          by (rewrite length_combine, length_map, length_seq; lia).
        rewrite length_combine, length_map, length_seq, Nat.min_id.
        rewrite Nat.sub_diag. reflexivity.
    + apply forallb_forall. intros [k d] Hin. cbn [fst].
      apply in_combine_l in Hin. apply in_map_iff in Hin.
      destruct Hin as (i & <- & _). now rewrite cam_key_not_metadata.
  - destruct H as [-> ->]. reflexivity.
Qed.

(** X19.  For a group of at most ten cameras that all have a frame
    size, and a file that gives back to [toml.load] the document
    [toml.dump] was handed, dumping and loading returns the same
    cameras in the same order with their class, name, size, matrix,
    distortions and pose, and the same metadata; [extra_dist], which
    is not written, comes back unset, so a group without it round-trips
    exactly. *)
Theorem dump_load_roundtrip (g : CameraGroup) (fname : string)
    (files files' : fs) :
  (length (cameras g) <= 10)%nat ->
  forallb (fun c => match size c with Some _ => true | None => false end)
          (cameras g) = true ->
  Toml.dump toml_dump g fname files = Ok files' ->
  (forall doc, dump g = Ok doc -> toml_load fname files' = Ok doc) ->
  exists g',
    Toml.load toml_load fname files' = Ok g'
    /\ metadata g' = metadata g
    /\ map (fun c => (kind c, name c, size c, matrix c, dist c, rvec c, tvec c))
           (cameras g')
       = map (fun c => (kind c, name c, size c, matrix c, dist c, rvec c,
                        tvec c))
             (cameras g)
    /\ Forall (fun c => extra_dist c = false) (cameras g')
    /\ (Forall (fun c => extra_dist c = false) (cameras g) -> g' = g).
Proof.
  intros Hlen Hsz Hdump Hfile.
  pose proof (dump_load_upto_10 g Hlen Hsz) as Hrt. unfold dump_load in Hrt.
  unfold Toml.dump in Hdump. unfold Toml.load.
  destruct (dump g) as [doc|e] eqn:E; [|discriminate Hdump].
  cbn [bind] in Hrt, Hdump. rewrite (Hfile doc eq_refl). cbn [bind].
  rewrite Hrt.
  eexists. split; [reflexivity|]. cbn [cameras metadata].
  split; [reflexivity|]. split; [|split].
  - rewrite map_map. reflexivity.
  - apply Forall_forall. intros c Hc. apply in_map_iff in Hc.
    now destruct Hc as (c0 & <- & _).
  - intros Hx. destruct g as [cams md]. cbn [cameras metadata] in *.
    f_equal. clear -Hx. induction Hx as [|c cams Hc Hcs IH]; [reflexivity|].
    cbn [map]. rewrite IH. f_equal. destruct c. cbn in Hc. now subst.
Qed.

End TomlFiles.

(** A pinhole, a fisheye and a pinhole camera, written to a file that
    keeps the document as it is, come back as they were. *)
Lemma dump_load_roundtrip_witness :
  exists files',
    Toml.dump plain_dump named_cameras "rig.toml" [] = Ok files'
    /\ Toml.load plain_load "rig.toml" files' = Ok named_cameras.
Proof.
  destruct (Toml.dump plain_dump named_cameras "rig.toml" [])
    as [files'|e] eqn:E; [|vm_compute in E; discriminate E].
  exists files'. split; [reflexivity|].
  destruct (@dump_load_roundtrip plain_files plain_dump plain_load
              named_cameras "rig.toml"%string [] files')
    as (g' & H & _ & _ & _ & Hid).
  - cbn. lia.
  - reflexivity.
  - exact E.
  - intros doc Hd. vm_compute in E. injection E as <-.
    vm_compute in Hd. injection Hd as <-. reflexivity.
  - rewrite H. f_equal. apply Hid. repeat constructor.
Defined.

(* ================================================================== *)
(** ** The default metadata of a group *)

Lemma new_cameras_grows (k : cam_kind) (names : list string) :
  forall (h h' : Store.store) (cams : list Store.loc),
    Construct.new_cameras h k names = (h', cams) ->
    exists ext, h' = h ++ ext.
Proof.
  induction names as [|nm names IH]; intros h h' cams H;
    cbn [Construct.new_cameras] in H.
  - injection H as <- _. exists []. now rewrite app_nil_r.
  - unfold Construct.new_camera, Store.alloc in H.
    destruct (Construct.new_cameras _ k names) as [h2 cs] eqn:E.
    injection H as <- _. apply IH in E. destruct E as [ext ->].
    rewrite <- !app_assoc. eauto.
Qed.

(** X20.  Groups made without a [metadata] argument share one
    dictionary, the default value of [CameraGroup.__init__]: after two
    calls of [from_names], a key written to the metadata of the first
    group is read in the metadata of the second. *)
Theorem default_metadata_shared (h : Store.store) (dm : Store.loc)
    (d : list (string * string)) (names1 names2 : list string)
    (fisheye1 fisheye2 : bool) (k v : string) :
  Store.read h dm = Ok (Store.ODict d) ->
  exists h1 g1 h2 g2 h3,
    Construct.from_names h dm names1 fisheye1 = (h1, g1)
    /\ Construct.from_names h1 dm names2 fisheye2 = (h2, g2)
    /\ Store.metadata_of h2 g2 = Ok d
    /\ Store.metadata_setitem h2 g1 k v = Ok h3
    /\ Store.metadata_of h3 g2 = Ok (Store.assoc_set d k v).
Proof.
  intros Hd. unfold Construct.from_names.
  destruct (Construct.new_cameras h (if fisheye1 then Fisheye else Pinhole)
              names1) as [h1 cams1] eqn:E1.
  destruct (Construct.new_cameras h1 (if fisheye2 then Fisheye else Pinhole)
              names2) as [h2 cams2] eqn:E2.
  destruct (new_cameras_grows _ _ _ E1) as [ext1 G1].
  destruct (new_cameras_grows _ _ _ E2) as [ext2 G2].
  assert (Hdm : (dm < length h)%nat).
  { unfold Store.read, getitem in Hd.
    destruct (nth_error h dm) eqn:E; [|discriminate Hd].
    apply nth_error_Some. congruence. }
  assert (Hr : Store.read h2 dm = Ok (Store.ODict d)).
  { rewrite G2, G1, <- app_assoc. unfold Store.read, getitem in *.
    now rewrite nth_error_app1. }
  destruct (@setitem_same _ h2 dm (Store.ODict (Store.assoc_set d k v)))
    as (h3 & Hw & Hn).
  { rewrite G2, G1, !length_app. lia. }
  exists h1, (Construct.CameraGroup_init cams1 None dm),
    h2, (Construct.CameraGroup_init cams2 None dm), h3.
  split; [reflexivity|]. split; [now rewrite E2|].
  unfold Store.metadata_of, Store.metadata_setitem, Construct.CameraGroup_init.
  cbn [Store.g_metadata]. rewrite Hr. cbn [bind].
  split; [reflexivity|]. split; [exact Hw|].
  unfold Store.read, getitem. now rewrite Hn.
Qed.

(** Two groups made one after the other in a fresh interpreter. *)
Lemma default_metadata_shared_witness :
  exists h1 g1 h2 g2 h3,
    Construct.from_names fresh_interpreter 0%nat ["a"; "b"]%string false
    = (h1, g1)
    /\ Construct.from_names h1 0%nat ["c"]%string true = (h2, g2)
    /\ Store.metadata_setitem h2 g1 "session" "first" = Ok h3
    /\ Store.metadata_of h3 g2 = Ok [("session"%string, "first"%string)].
Proof.
  destruct (@default_metadata_shared fresh_interpreter 0%nat [] ["a"; "b"]%string
              ["c"]%string false true "session" "first" eq_refl)
    as (h1 & g1 & h2 & g2 & h3 & H1 & H2 & _ & H3 & H4).
  exists h1, g1, h2, g2, h3. repeat split; assumption.
Defined.

(* ================================================================== *)
(** ** Dense board identifiers *)

Lemma In_insert_unique (x y : Z) (l : list Z) :
  In y (insert_unique x l) <-> y = x \/ In y l.
Proof.
  induction l as [|z l IH]; cbn [insert_unique In]; [intuition|].
  destruct (Z.ltb_spec x z); [cbn [In]; intuition|].
  destruct (Z.eqb_spec x z); cbn [In]; [subst; intuition|].
  rewrite IH. intuition.
Qed.

Lemma insert_unique_sorted (x : Z) (l : list Z) :
  strictly_sorted l -> strictly_sorted (insert_unique x l).
Proof.
  induction l as [|z l IH]; intros Hs; cbn [insert_unique].
  - split; [constructor | exact I].
  - destruct Hs as [Hz Hs].
    destruct (Z.ltb_spec x z) as [Hlt|Hge].
    + split; [|now split]. constructor; [exact Hlt|].
      eapply Forall_impl; [|exact Hz]. cbv beta. intros a Ha. lia.
    + destruct (Z.eqb_spec x z) as [->|Hne]; [now split|].
      split; [|now apply IH].
      apply Forall_forall. intros a Ha. apply In_insert_unique in Ha.
      destruct Ha as [->|Ha]; [lia|].
      rewrite Forall_forall in Hz. now apply Hz.
Qed.

Lemma np_unique_spec (ids : list Z) :
  strictly_sorted (np_unique ids) /\ forall x, In x (np_unique ids) <-> In x ids.
Proof.
  unfold np_unique. induction ids as [|a ids [IH1 IH2]]; cbn [fold_right].
  - split; [exact I | tauto].
  - split; [now apply insert_unique_sorted|].
    intros x. rewrite In_insert_unique, IH2. cbn [In]. intuition.
Qed.

Lemma strictly_sorted_nth (l : list Z) :
  strictly_sorted l ->
  forall i j x y, (i < j)%nat -> nth_error l i = Some x ->
                  nth_error l j = Some y -> (x < y)%Z.
Proof.
  induction l as [|a l IH]; intros Hs i j x y Hij Hi Hj;
    [now destruct i|].
  destruct Hs as [Ha Hs]. destruct j as [|j]; [lia|]. cbn [nth_error] in Hj.
  destruct i as [|i]; cbn [nth_error] in Hi.
  - injection Hi as <-. rewrite Forall_forall in Ha.
    apply Ha. eapply nth_error_In; eauto.
  - apply (IH Hs i j); trivial. lia.
Qed.

(** The value one position ends with: the index of the last entry of
    the enumeration that equals the identifier there. *)
Lemma remap_fold_pointwise (ids : list Z) (l : list (nat * Z)) :
  forall out0,
    length out0 = length ids ->
    fold_left (fun ids_out (inum : nat * Z) =>
                 map (fun p : Z * Z =>
                        if (fst p =? snd inum)%Z then Z.of_nat (fst inum)
                        else snd p)
                     (combine ids ids_out)) l out0
    = map (fun p : Z * Z =>
             fold_left (fun o (inum : nat * Z) =>
                          if (fst p =? snd inum)%Z then Z.of_nat (fst inum)
                          else o) l (snd p))
          (combine ids out0).
Proof.
  induction l as [|inum l IH]; intros out0 Hlen; cbn [fold_left].
  - revert out0 Hlen. induction ids as [|x ids IHi]; intros [|o out0] Hlen;
      try discriminate Hlen; [reflexivity|].
    cbn [combine map snd]. f_equal. apply IHi. now injection Hlen.
  - rewrite IH by (rewrite length_map, length_combine; lia).
    clear IH. revert out0 Hlen.
    induction ids as [|x ids IHi]; intros [|o out0] Hlen;
      try discriminate Hlen; [reflexivity|].
    cbn [combine map fst snd]. f_equal. apply IHi. now injection Hlen.
Qed.

Lemma rank_fold (x : Z) (u : list Z) :
  strictly_sorted u ->
  forall (s : nat) (o : Z) (i : nat),
    nth_error u i = Some x ->
    fold_left (fun o (inum : nat * Z) =>
                 if (x =? snd inum)%Z then Z.of_nat (fst inum) else o)
              (enumerate_from s u) o
    = Z.of_nat (s + i).
Proof.
  induction u as [|a u IH]; intros Hs s o i Hi; [now destruct i|].
  destruct Hs as [Ha Hs]. cbn [enumerate_from fold_left fst snd].
  destruct i as [|i]; cbn [nth_error] in Hi.
  - injection Hi as ->. rewrite Z.eqb_refl, Nat.add_0_r.
    assert (Hrest : forall (l : list Z) t o',
               Forall (Z.lt x) l ->
               fold_left (fun o (inum : nat * Z) =>
                            if (x =? snd inum)%Z then Z.of_nat (fst inum) else o)
                         (enumerate_from t l) o' = o').
    { induction l as [|b l IHl]; intros t o' Hl; [reflexivity|].
      inversion Hl as [|? ? Hb Hl']; subst.
      cbn [enumerate_from fold_left fst snd].
      destruct (Z.eqb_spec x b); [lia|]. now apply IHl. }
    now apply Hrest.
  - rewrite (IH Hs (S s) _ i Hi). f_equal. lia.
Qed.

(** X21.  [remap_ids] replaces every identifier by its rank among the
    distinct identifiers: the result has the length of the input, its
    values are exactly [0 .. n - 1] for [n] distinct identifiers, and
    it keeps the order of the identifiers (smaller stays smaller,
    equal stays equal). *)
Theorem remap_ids_spec (ids : list Z) :
  let out := remap_ids ids in
  let n := length (np_unique ids) in
  length out = length ids
  /\ (forall r, In r out <-> exists i, (i < n)%nat /\ r = Z.of_nat i)
  /\ (forall a b x y x' y',
        nth_error ids a = Some x -> nth_error ids b = Some y ->
        nth_error out a = Some x' -> nth_error out b = Some y' ->
        ((x < y)%Z <-> (x' < y')%Z) /\ (x = y <-> x' = y')).
Proof.
  intros out n. destruct (np_unique_spec ids) as [Hs Hin].
  assert (Hout : out = map (fun x =>
                    fold_left (fun o (inum : nat * Z) =>
                                 if (x =? snd inum)%Z then Z.of_nat (fst inum)
                                 else o)
                              (enumerate (np_unique ids)) x) ids).
  { unfold out, remap_ids. rewrite remap_fold_pointwise by reflexivity.
    generalize (enumerate (np_unique ids)). intros l. clear.
    induction ids as [|x ids IH]; [reflexivity|].
    cbn [combine map fst snd]. now rewrite IH. }
  assert (Hrank : forall a x x',
             nth_error ids a = Some x -> nth_error out a = Some x' ->
             exists i, nth_error (np_unique ids) i = Some x
                       /\ x' = Z.of_nat i).
  { intros a x x' Hx Hx'. rewrite Hout, nth_error_map, Hx in Hx'.
    injection Hx' as <-.
    assert (Hu : In x (np_unique ids))
      by (apply Hin; eapply nth_error_In; eauto).
    apply In_nth_error in Hu. destruct Hu as [i Hi]. exists i.
    split; [exact Hi|]. unfold enumerate.
    now rewrite (@rank_fold x _ Hs 0 x i Hi). }
  split; [rewrite Hout; apply length_map|]. split.
  - intros r. split.
    + intros Hr. apply In_nth_error in Hr. destruct Hr as [a Ha].
      destruct (nth_error ids a) as [x|] eqn:Ex.
      * destruct (Hrank a x r Ex Ha) as (i & Hi & ->). exists i.
        split; [|reflexivity]. apply nth_error_Some. congruence.
      * rewrite Hout, nth_error_map, Ex in Ha. discriminate Ha.
    + intros (i & Hi & ->).
      destruct (nth_error (np_unique ids) i) as [x|] eqn:Ex;
        [|apply nth_error_None in Ex; unfold n in Hi; lia].
      assert (Hx : In x ids) by (apply Hin; eapply nth_error_In; eauto).
      apply In_nth_error in Hx. destruct Hx as [a Ha].
      destruct (nth_error out a) as [x'|] eqn:Ex'.
      * destruct (Hrank a x x' Ha Ex') as (j & Hj & ->).
        assert (i = j) as ->.
        { destruct (Nat.lt_trichotomy i j) as [H|[H|H]]; [|exact H|].
          - pose proof (@strictly_sorted_nth _ Hs _ _ _ _ H Ex Hj). lia.
          - pose proof (@strictly_sorted_nth _ Hs _ _ _ _ H Hj Ex). lia. }
        eapply nth_error_In; eauto.
      * rewrite Hout, nth_error_map, Ha in Ex'. discriminate Ex'.
  - intros a b x y x' y' Ha Hb Ha' Hb'.
    destruct (Hrank a x x' Ha Ha') as (i & Hi & ->).
    destruct (Hrank b y y' Hb Hb') as (j & Hj & ->).
    destruct (Nat.lt_trichotomy i j) as [H|[H|H]].
    + pose proof (@strictly_sorted_nth _ Hs _ _ _ _ H Hi Hj). split; split; lia.
    + subst j. assert (x = y) by congruence. split; split; lia.
    + pose proof (@strictly_sorted_nth _ Hs _ _ _ _ H Hj Hi). split; split; lia.
Qed.

(* ================================================================== *)
(** ** Residuals and Jacobian pattern with temporal smoothness *)

Lemma smoothing_tests_agree (w : float) :
  isnan w = false ->
  smoothing_off (Some w) = negb (smoothing_on (Some w)).
Proof.
  intros Hw. unfold smoothing_off, smoothing_on.
  destruct (1e-12 <? w) eqn:E; cbn [negb].
  - destruct (w <=? 1e-12) eqn:E'; [|reflexivity].
    apply F64.leb_ltb_false in E'. congruence.
  - apply F64.ltb_false_leb; [reflexivity | exact Hw | exact E].
Qed.

Lemma getitem_In {A : Type} (l : list A) (i : nat) (x : A) :
  getitem l i = Ok x -> In x l.
Proof.
  unfold getitem. destruct (nth_error l i) eqn:E; [|discriminate].
  intros [= <-]. eapply nth_error_In; eauto.
Qed.

Lemma weighted3_length (s : float) (d : pt3) : length (weighted3 s d) = 3%nat.
Proof. now destruct d as [[dx dy] dz]. Qed.

Lemma first_loop_length (p3d_flat : list pt3) (K : nat) (sqrt_sw : float)
    (l : list (nat * nat)) :
  Forall (fun p => any_nan p = false) p3d_flat ->
  forall res res',
    foldM (first_step p3d_flat K sqrt_sw) l res = Ok res' ->
    length res' = (length res + 3 * length l)%nat.
Proof.
  intros Hn. rewrite Forall_forall in Hn.
  induction l as [|[t k] l IH]; intros res res' H; cbn [foldM] in H.
  - injection H as <-. cbn. lia.
  - inv_bind H as res1 E. apply IH in H. rewrite H. clear H IH.
    unfold first_step in E. inv_bind E as a Ea. inv_bind E as b Eb.
    rewrite (Hn a (@getitem_In _ _ _ _ Ea)), (Hn b (@getitem_In _ _ _ _ Eb)) in E.
    cbn [orb] in E. injection E as <-.
    rewrite length_app, weighted3_length. cbn [length]. lia.
Qed.

Lemma second_loop_length (p3d_flat : list pt3) (K : nat) (sqrt_sw : float)
    (l : list (nat * nat)) :
  Forall (fun p => any_nan p = false) p3d_flat ->
  forall res res',
    foldM (second_step p3d_flat K sqrt_sw) l res = Ok res' ->
    length res' = (length res + 3 * length l)%nat.
Proof.
  intros Hn. rewrite Forall_forall in Hn.
  induction l as [|[t k] l IH]; intros res res' H; cbn [foldM] in H.
  - injection H as <-. cbn. lia.
  - inv_bind H as res1 E. apply IH in H. rewrite H. clear H IH.
    unfold second_step in E. inv_bind E as a Ea. inv_bind E as b Eb.
    inv_bind E as c Ec.
    rewrite (Hn a (@getitem_In _ _ _ _ Ea)), (Hn b (@getitem_In _ _ _ _ Eb)),
      (Hn c (@getitem_In _ _ _ _ Ec)) in E.
    cbn [orb] in E. injection E as <-.
    rewrite length_app, weighted3_length. cbn [length]. lia.
Qed.

Lemma smooth_loop_ok (cam_offset : nat) (p_idxs : nat * nat -> list nat)
    (l : list (nat * nat)) :
  forall (A : dok) (ptr : nat),
    (ptr + 3 * length l <= dok_rows A)%nat ->
    (forall tk p, In tk l -> In p (p_idxs tk) ->
                  (cam_offset + p * 3 + 3 <= dok_cols A)%nat) ->
    exists A',
      foldM (smooth_step cam_offset p_idxs) l (A, ptr)
      = Ok (A', (ptr + 3 * length l)%nat)
      /\ dok_rows A' = dok_rows A /\ dok_cols A' = dok_cols A.
Proof.
  induction l as [|tk l IH]; intros A ptr Hr Hc; cbn [foldM].
  - exists A. rewrite Nat.add_0_r. now repeat split.
  - cbn [length] in Hr. unfold smooth_step at 1. cbn [fst snd].
    destruct (@foldM_dok_set (smooth_keys ptr cam_offset (p_idxs tk)) A)
      as (A1 & E1 & R1 & C1 & _).
    { intros [r c] Hin. unfold smooth_keys in Hin.
      apply in_flat_map in Hin. destruct Hin as (i & Hi & Hin).
      apply in_map_iff in Hin. destruct Hin as (p & [= <- <-] & Hp).
      apply in_seq in Hi. cbn [fst snd].
      specialize (Hc tk p (or_introl eq_refl) Hp). lia. }
    rewrite E1. cbn [bind].
    destruct (IH A1 (ptr + 3)%nat) as (A' & E' & R' & C').
    { rewrite R1. lia. }
    { intros tk' p Hin Hp. rewrite C1. apply (Hc tk' p); [now right | exact Hp]. }
    exists A'.
    replace (ptr + 3 * length (tk :: l))%nat
      with (ptr + 3 + 3 * length l)%nat by (cbn [length]; lia).
    split; [exact E'|]. split; congruence.
Qed.

Lemma list_prod_seq_bounds (a b : nat) (tk : nat * nat) :
  In tk (list_prod (seq 0 a) (seq 0 b)) -> (fst tk < a)%nat /\ (snd tk < b)%nat.
Proof.
  destruct tk as [t k]. intros H. apply in_prod_iff in H.
  rewrite !in_seq in H. cbn [fst snd]. lia.
Qed.

Lemma list_prod_seq_length (a b : nat) :
  length (list_prod (seq 0 a) (seq 0 b)) = (a * b)%nat.
Proof. now rewrite length_prod, !length_seq. Qed.

(** The keys of the reprojection pattern lie inside its shape. *)
Lemma pattern_keys_bounds (mask_valid : grid bool) (n_cam_params C T K : nat)
    (A : dok) (r col : nat) :
  pattern_of n_cam_params K (C * n_cam_params)
             (valid_triples mask_valid C T K) A ->
  In (r, col) (dok_keys A) ->
  (r < 2 * length (valid_triples mask_valid C T K))%nat
  /\ (col < C * n_cam_params + T * K * 3)%nat.
Proof.
  intros Hpat Hin. apply Hpat in Hin.
  destruct Hin as (j & [[c t] k] & Hj & Hr & Hd).
  assert (Hjl : (j < length (valid_triples mask_valid C T K))%nat)
    by (apply nth_error_Some; congruence).
  split; [lia|].
  apply nth_error_In in Hj. unfold valid_triples in Hj.
  apply filter_In in Hj. destruct Hj as [Hj _].
  apply In_index_triples in Hj. unfold depends_on in Hd. nia.
Qed.

Lemma foldM_dok_set_raises (l : list (nat * nat)) :
  forall (A : dok) (rc : nat * nat),
    In rc l -> (dok_rows A <= fst rc)%nat ->
    exists e, foldM dok_set l A = Raise e.
Proof.
  induction l as [|x l IH]; intros A rc Hin Hr; [contradiction|].
  cbn [foldM]. destruct (dok_set A x) as [A1|e] eqn:E; cbn [bind]; [|eauto].
  destruct Hin as [->|Hin].
  - unfold dok_set in E. apply Nat.ltb_ge in Hr. rewrite Hr in E.
    discriminate E.
  - apply dok_set_spec in E. destruct E as (R1 & _ & _).
    apply (IH A1 rc Hin). now rewrite R1.
Qed.

Section SmoothShapes.
Context `{Cap : Capabilities}.

(** X22.  With temporal smoothness, residuals and sparsity pattern
    fit together as long as the smoothness weight is not
    not-a-number, there are enough frames for the differences (one for
    the first derivative, two for the second) and the points in the
    parameter vector have no missing coordinate: every residual vector
    [fun_with_smoothness] returns then has as many entries as the
    pattern of [make_jac_sparsity_with_smoothness] has rows. *)
Theorem smooth_solver_shapes_agree (g g' : CameraGroup) (x res : list float)
    (T K : nat) (points_2d : grid pt2) (weights : option (grid float))
    (n_cam_params : nat) (optimize_intrinsics : bool) (mask_valid : grid bool)
    (smoothness_weight : option float) (smoothness_derivative : derivative) :
  grid_ok mask_valid = true ->
  length (cells mask_valid) = length (cameras g) ->
  length (cells points_2d) = length (cameras g) ->
  (grid_T mask_valid, grid_K mask_valid) = (T, K) ->
  (grid_T points_2d, grid_K points_2d) = (T, K) ->
  match smoothness_weight with Some w => isnan w = false | None => True end ->
  enough_frames smoothness_derivative T ->
  Forall (fun p => any_nan p = false)
         (unravel3 (slice x (length (cameras g) * n_cam_params)
                          (length (cameras g) * n_cam_params + T * K * 3))) ->
  fun_with_smoothness x g (T, K) points_2d weights n_cam_params
                      optimize_intrinsics mask_valid smoothness_weight
                      smoothness_derivative = Ok (res, g') ->
  exists A,
    make_jac_sparsity_with_smoothness points_2d mask_valid n_cam_params
      smoothness_weight smoothness_derivative T K = Ok A
    /\ length res = dok_rows A.
Proof.
  intros Hok HCm HCp [= HTm HKm] [= HTp HKp] Hw Hfr Hnan H.
  destruct (@make_jac_sparsity_built points_2d mask_valid n_cam_params)
    as (Ar & HA & HR & HC & Hpat); try congruence.
  cbv zeta in HR, HC, Hpat. rewrite HCp, HTp, HKp in HR, HC, Hpat.
  set (C := length (cameras g)) in *.
  set (v := length (valid_triples mask_valid C T K)) in *.
  unfold fun_with_smoothness in H. fold C in H.
  inv_bind H as cams E1. destruct (negb _); [discriminate H|].
  inv_bind H as residuals E2.
  apply residual_loop_length in E2. cbn [length Nat.add] in E2.
  fold (valid_triples mask_valid C T K) in E2. fold v in E2.
  inv_bind H as residuals' E3. injection H as <- _.
  unfold make_jac_sparsity_with_smoothness. rewrite HA. cbn [bind].
  destruct smoothness_weight as [w|].
  2:{ cbn [smoothing_off]. injection E3 as <-. exists Ar.
      split; [reflexivity | congruence]. }
  rewrite (smoothing_tests_agree w Hw).
  destruct (smoothing_on (Some w)) eqn:Eon; cbn [negb].
  2:{ injection E3 as <-. exists Ar. split; [reflexivity | congruence]. }
  assert (Hcopy : forall n : nat,
             (dok_rows Ar <= n)%nat ->
             exists A1, foldM dok_set (dok_keys Ar) (mkDok n (dok_cols Ar) [])
                        = Ok A1
                        /\ dok_rows A1 = n /\ dok_cols A1 = dok_cols Ar).
  { intros n Hn.
    destruct (@foldM_dok_set (dok_keys Ar) (mkDok n (dok_cols Ar) []))
      as (A1 & EA & RA & CA & _).
    - intros [r c] Hin. cbn [fst snd dok_rows dok_cols].
      destruct (@pattern_keys_bounds _ _ _ _ _ _ _ _ Hpat Hin) as [Hr Hc].
      fold v in Hr. lia.
    - exists A1. now repeat split. }
  destruct smoothness_derivative; cbn [enough_frames] in Hfr.
  - replace (Z.of_nat (dok_rows Ar) + (Z.of_nat T - 1) * Z.of_nat K * 3 <? 0)%Z
      with false by (symmetry; apply Z.ltb_ge; nia).
    replace (Z.to_nat (Z.of_nat (dok_rows Ar)
                       + (Z.of_nat T - 1) * Z.of_nat K * 3))
      with (dok_rows Ar + 3 * ((T - 1) * K))%nat by nia.
    destruct (Hcopy (dok_rows Ar + 3 * ((T - 1) * K))%nat) as (A1 & EA & RA & CA);
      [apply Nat.le_add_r|].
    rewrite EA. cbn [bind].
    destruct (@smooth_loop_ok (length (cells points_2d) * n_cam_params)
                (fun tk => [(fst tk * K + snd tk)%nat;
                            ((fst tk + 1) * K + snd tk)%nat])
                (list_prod (seq 0 (T - 1)) (seq 0 K)) A1 (dok_rows Ar))
      as (A' & E' & R' & C').
    { rewrite RA, list_prod_seq_length. lia. }
    { intros tk p Hin Hp. apply list_prod_seq_bounds in Hin.
      rewrite CA, HC, HCp. fold C.
      destruct Hp as [<-|[<-|[]]]; nia. }
    rewrite E'. cbn [bind fst]. exists A'. split; [reflexivity|].
    apply (@first_loop_length _ _ _ _ Hnan) in E3.
    rewrite E3, R', RA, list_prod_seq_length. lia.
  - replace (Z.of_nat (dok_rows Ar) + (Z.of_nat T - 2) * Z.of_nat K * 3 <? 0)%Z
      with false by (symmetry; apply Z.ltb_ge; nia).
    replace (Z.to_nat (Z.of_nat (dok_rows Ar)
                       + (Z.of_nat T - 2) * Z.of_nat K * 3))
      with (dok_rows Ar + 3 * ((T - 2) * K))%nat by nia.
    destruct (Hcopy (dok_rows Ar + 3 * ((T - 2) * K))%nat) as (A1 & EA & RA & CA);
      [apply Nat.le_add_r|].
    rewrite EA. cbn [bind].
    destruct (@smooth_loop_ok (length (cells points_2d) * n_cam_params)
                (fun tk => [(fst tk * K + snd tk)%nat;
                            ((fst tk + 1) * K + snd tk)%nat;
                            ((fst tk + 2) * K + snd tk)%nat])
                (list_prod (seq 0 (T - 2)) (seq 0 K)) A1 (dok_rows Ar))
      as (A' & E' & R' & C').
    { rewrite RA, list_prod_seq_length. lia. }
    { intros tk p Hin Hp. apply list_prod_seq_bounds in Hin.
      rewrite CA, HC, HCp. fold C.
      destruct Hp as [<-|[<-|[<-|[]]]]; nia. }
    rewrite E'. cbn [bind fst]. exists A'. split; [reflexivity|].
    apply (@second_loop_length _ _ _ _ Hnan) in E3.
    rewrite E3, R', RA, list_prod_seq_length. lia.
  - replace (Z.of_nat (dok_rows Ar) + 0 <? 0)%Z
      with false by (symmetry; apply Z.ltb_ge; lia).
    replace (Z.to_nat (Z.of_nat (dok_rows Ar) + 0)) with (dok_rows Ar) by lia.
    destruct (Hcopy (dok_rows Ar)) as (A1 & EA & RA & CA); [lia|].
    rewrite EA. cbn [bind]. injection E3 as <-.
    exists A1. split; [reflexivity | congruence].
Qed.

End SmoothShapes.

(** X23.  The second-derivative smoothness term needs two frames:
    with a single frame, at least one keypoint, at least one valid
    measurement and smoothing switched on, the row count
    [n_reproj_rows + (T - 2) * K * 3] is too small for the
    reprojection pattern and [make_jac_sparsity_with_smoothness]
    raises. *)
Theorem second_derivative_one_frame_raises (points_2d : grid pt2)
    (mask_valid : grid bool) (n_cam_params K : nat)
    (smoothness_weight : option float) :
  grid_ok mask_valid = true ->
  length (cells mask_valid) = length (cells points_2d) ->
  (grid_T mask_valid, grid_K mask_valid) = (1%nat, K) ->
  (grid_T points_2d, grid_K points_2d) = (1%nat, K) ->
  (1 <= K)%nat ->
  (1 <= grid_count mask_valid)%nat ->
  smoothing_off smoothness_weight = false ->
  exists e,
    make_jac_sparsity_with_smoothness points_2d mask_valid n_cam_params
      smoothness_weight Second 1 K = Raise e.
Proof.
  intros Hok HC [= HTm HKm] [= HTp HKp] HK Hv Hoff.
  destruct (@make_jac_sparsity_built points_2d mask_valid n_cam_params)
    as (Ar & HA & HR & HCo & Hpat); try congruence.
  cbv zeta in HR, HCo, Hpat. rewrite HTp, HKp in HR, HCo, Hpat.
  pose proof (@valid_triples_count mask_valid Hok) as Hcount.
  rewrite HC, HTm, HKm in Hcount.
  set (C := length (cells points_2d)) in *.
  set (valid := valid_triples mask_valid C 1 K) in *.
  unfold make_jac_sparsity_with_smoothness. rewrite HA. cbn [bind].
  rewrite Hoff.
  destruct (Z.ltb_spec (Z.of_nat (dok_rows Ar)
                        + (Z.of_nat 1 - 2) * Z.of_nat K * 3) 0) as [Hneg|Hpos];
    [eauto|].
  destruct (nth_error valid (length valid - 1)) as [[[c t] k]|] eqn:En;
    [|apply nth_error_None in En; lia].
  assert (Hkey : In ((2 * (length valid - 1) + 1)%nat,
                     (C * n_cam_params + (t * K + k) * 3)%nat)
                    (dok_keys Ar)).
  { apply Hpat. exists (length valid - 1)%nat, (c, t, k).
    split; [exact En|]. split; [now right|].
    unfold depends_on. right. lia. }
  destruct (@foldM_dok_set_raises (dok_keys Ar)
              (mkDok (Z.to_nat (Z.of_nat (dok_rows Ar)
                                + (Z.of_nat 1 - 2) * Z.of_nat K * 3))
                     (dok_cols Ar) []) _ Hkey) as [e He].
  { cbn [dok_rows fst]. lia. }
  exists e. now rewrite He.
Qed.

(** Two cameras, two frames, first-derivative smoothing with weight
    0.5: six reprojection residuals and three smoothness residuals. *)
Lemma smooth_solver_shapes_agree_witness :
  exists res g' A,
    fun_with_smoothness (Cap := example_capabilities) (repeat 1 18)
      two_pinholes (2%nat, 1%nat) gappy_obs None 6 false gappy_mask
      (Some 0.5) First = Ok (res, g')
    /\ make_jac_sparsity_with_smoothness gappy_obs gappy_mask 6 (Some 0.5)
         First 2 1 = Ok A
    /\ length res = dok_rows A.
Proof.
  destruct (fun_with_smoothness (Cap := example_capabilities) (repeat 1 18)
              two_pinholes (2%nat, 1%nat) gappy_obs None 6 false gappy_mask
              (Some 0.5) First) as [[res g']|e] eqn:E;
    [|vm_compute in E; discriminate E].
  destruct (@smooth_solver_shapes_agree example_capabilities two_pinholes g'
              (repeat 1 18) res 2 1 gappy_obs None 6 false gappy_mask
              (Some 0.5) First eq_refl eq_refl eq_refl eq_refl eq_refl
              eq_refl (le_n_S _ _ (le_0_n _)))
    as (A & HA & HL); [repeat constructor | exact E |].
  exists res, g', A. repeat split; assumption.
Defined.

(** One frame seen by two cameras, second-derivative smoothing. *)
Lemma second_derivative_one_frame_raises_witness :
  exists e,
    make_jac_sparsity_with_smoothness one_frame_obs one_frame_mask 6
      (Some 0.5) Second 1 1 = Raise e.
Proof.
  apply (@second_derivative_one_frame_raises one_frame_obs one_frame_mask 6 1
           (Some 0.5)); try reflexivity.
  vm_compute. lia.
Defined.

(* ================================================================== *)
(** ** The weighted bundle adjustment as a whole *)

Lemma unravel3_length (n : nat) :
  forall l : list float, length l = (n * 3)%nat -> length (unravel3 l) = n.
Proof.
  induction n as [|n IH]; intros l H.
  - destruct l; [reflexivity | discriminate H].
  - destruct l as [|x [|y [|z l]]]; try discriminate H.
    cbn [unravel3 length]. f_equal. apply IH. cbn in H. lia.
Qed.

Lemma reshape_TK3_ok (T K : nat) (flat : list float) (p : points3) :
  reshape_TK3 T K flat = Ok p ->
  p3_T p = T /\ p3_K p = K /\ points3_ok p = true.
Proof.
  unfold reshape_TK3. destruct (Nat.eqb_spec (length flat) (T * K * 3));
    [|discriminate].
  intros [= <-]. cbn [p3_T p3_K]. repeat split.
  unfold points3_ok. cbn [p3_rows p3_T p3_K].
  rewrite length_map, length_seq, Nat.eqb_refl. cbn [andb].
  apply forallb_forall. intros row Hin. apply in_map_iff in Hin.
  destruct Hin as (t & <- & Ht). apply in_seq in Ht. apply Nat.eqb_eq.
  unfold slice. rewrite length_firstn, length_skipn.
  rewrite (unravel3_length (T * K)) by assumption. nia.
Qed.

Lemma commit_params_kw_identity (x : list float) (n_cam_params : nat)
    (flag : bool) (cams : list Camera) :
  forall (k : nat) (cams' : list Camera),
    mapM (fun ic : nat * Camera =>
            set_params_kw (snd ic)
                          (slice x (fst ic * n_cam_params)
                                 ((fst ic + 1) * n_cam_params))
                          flag)
         (enumerate_from k cams) = Ok cams' ->
    map identity_of cams' = map identity_of cams
    /\ Forall (fun c => kind c = Pinhole) cams.
Proof.
  induction cams as [|c cams IH]; intros k cams' H.
  - injection H as <-. split; [reflexivity | constructor].
  - cbn [enumerate_from mapM fst snd] in H.
    inv_bind H as c' E1. inv_bind H as cs E2. injection H as <-.
    destruct (IH _ _ E2) as [IH1 IH2]. unfold set_params_kw in E1.
    destruct (kind c) eqn:Ek; [|discriminate E1]. split.
    + cbn [map]. f_equal; [|exact IH1].
      apply (@set_params_identity c c'
               (slice x (k * n_cam_params) ((k + 1) * n_cam_params)) flag).
      unfold set_params. now rewrite Ek.
    + now constructor.
Qed.

Lemma restore_nan_at2 (init p : points3) (t k : nat) (x y z a b c : float) :
  at2 init t k = Some (x, y, z) ->
  at2 p t k = Some (a, b, c) ->
  at2 (restore_nan init p) t k
  = Some (if isnan x then nan else a, if isnan y then nan else b,
          if isnan z then nan else c).
Proof.
  unfold at2, restore_nan. cbn [p3_rows]. intros Hi Hp.
  destruct (nth_error (p3_rows init) t) as [ri|] eqn:Ei; [|discriminate Hi].
  destruct (nth_error (p3_rows p) t) as [rp|] eqn:Ep; [|discriminate Hp].
  assert (Hc : forall (A B : Type) (l1 : list A) (l2 : list B) i u w,
             nth_error l1 i = Some u -> nth_error l2 i = Some w ->
             nth_error (combine l1 l2) i = Some (u, w)).
  { intros A B l1. induction l1 as [|h l1 IH]; intros l2 i u w H1 H2;
      [now destruct i|].
    destruct l2 as [|h2 l2]; [now destruct i|].
    destruct i as [|i]; cbn in *; [congruence | now apply IH]. }
  rewrite nth_error_map, (Hc _ _ _ _ _ _ _ Ei Ep). cbn [option_map fst snd].
  now rewrite nth_error_map, (Hc _ _ _ _ _ _ _ Hi Hp).
Qed.

Section WeightedWhole.
Variable least_squares_weighted :
  CameraGroup -> list float -> dok -> grid pt2 -> option (grid float) ->
  nat -> bool -> grid bool -> loss_kind -> float -> Z -> list float.

(** X24.  Whatever the solver returns, a successful
    [bundle_adjust_with_weighted] gives back points of the shape
    [T x K] of the observations in which every coordinate that was
    missing in the initial points is missing again, and a group of the
    same cameras (all of them pinhole cameras) by class, name, frame
    size and [extra_dist], with the same metadata. *)
Theorem bundle_adjust_with_weighted_spec (g g' : CameraGroup)
    (points_2d : grid pt2) (init_points_3d p3d_opt : points3)
    (weights : option (grid float)) (optimize_intrinsics : bool)
    (max_nfev : Z) (ftol : float) (loss : loss_kind) :
  points3_ok init_points_3d = true ->
  bundle_adjust_with_weighted least_squares_weighted g points_2d
    init_points_3d weights optimize_intrinsics max_nfev ftol loss
  = Ok (p3d_opt, g') ->
  (p3_T p3d_opt, p3_K p3d_opt) = (grid_T points_2d, grid_K points_2d)
  /\ (forall t k x y z,
        at2 init_points_3d t k = Some (x, y, z) ->
        exists a b c,
          at2 p3d_opt t k = Some (a, b, c)
          /\ (isnan x = true -> isnan a = true)
          /\ (isnan y = true -> isnan b = true)
          /\ (isnan z = true -> isnan c = true))
  /\ map identity_of (cameras g') = map identity_of (cameras g)
  /\ Forall (fun c => kind c = Pinhole) (cameras g)
  /\ metadata g' = metadata g.
Proof.
  intros Hinit H. unfold bundle_adjust_with_weighted in H.
  destruct (negb _) eqn:Eshape; [discriminate H|].
  apply negb_false_iff, andb_prop in Eshape.
  destruct Eshape as [ET EK]. apply Nat.eqb_eq in ET, EK.
  inv_bind H as fw E1. inv_bind H as xn E2. inv_bind H as jac E3.
  inv_bind H as pg E4. injection H as <- <-.
  unfold _unpack_params in E4. inv_bind E4 as cams E5.
  inv_bind E4 as p3d_new E6. injection E4 as <-. cbn [fst snd].
  apply reshape_TK3_ok in E6. destruct E6 as (HT & HK & Hok).
  unfold commit_params_kw, enumerate in E5.
  apply commit_params_kw_identity in E5. destruct E5 as [Hid Hpin].
  cbn [restore_nan p3_T p3_K cameras metadata].
  split; [congruence|]. split; [|now repeat split].
  intros t k x y z Hxyz.
  destruct (points3_ok_inv _ Hinit) as [HLi HRi].
  destruct (points3_ok_inv _ Hok) as [HLp HRp].
  assert (Hex : exists a b c, at2 p3d_new t k = Some (a, b, c)).
  { unfold at2 in *.
    destruct (nth_error (p3_rows init_points_3d) t) as [ri|] eqn:Ei;
      [|discriminate Hxyz].
    assert (Ht : (t < length (p3_rows p3d_new))%nat).
    { rewrite HLp, HT, <- ET, <- HLi. apply nth_error_Some. congruence. }
    destruct (nth_error (p3_rows p3d_new) t) as [rp|] eqn:Ep;
      [|apply nth_error_None in Ep; lia].
    rewrite Forall_forall in HRi, HRp.
    pose proof (HRi ri (nth_error_In _ _ Ei)) as Hri.
    pose proof (HRp rp (nth_error_In _ _ Ep)) as Hrp.
    assert (Hk : (k < length rp)%nat).
    { rewrite Hrp, HK, <- EK, <- Hri. apply nth_error_Some. congruence. }
    destruct (nth_error rp k) as [[[a b] c]|] eqn:Ek;
      [eauto | apply nth_error_None in Ek; lia]. }
  destruct Hex as (a & b & c & Habc).
  do 3 eexists. split; [apply (restore_nan_at2 _ _ _ _ Hxyz Habc)|].
  repeat split; intros ->; reflexivity.
Qed.

End WeightedWhole.

(** Two cameras, one keypoint, two frames, a solver that returns its
    start vector: the depth that was missing in the second frame is
    missing in the result. *)
Lemma bundle_adjust_with_weighted_spec_witness :
  exists p3d_opt g',
    bundle_adjust_with_weighted
      (fun _ x0 _ _ _ _ _ _ _ _ _ => x0) two_pinholes gappy_obs gappy_points
      (Some gappy_weights) false 100 0.0001 linear = Ok (p3d_opt, g')
    /\ (p3_T p3d_opt, p3_K p3d_opt) = (2%nat, 1%nat)
    /\ map identity_of (cameras g') = map identity_of (cameras two_pinholes).
Proof.
  destruct (bundle_adjust_with_weighted
              (fun _ x0 _ _ _ _ _ _ _ _ _ => x0) two_pinholes gappy_obs
              gappy_points (Some gappy_weights) false 100 0.0001 linear)
    as [[p3d_opt g']|e] eqn:E; [|vm_compute in E; discriminate E].
  destruct (@bundle_adjust_with_weighted_spec
              (fun _ x0 _ _ _ _ _ _ _ _ _ => x0) two_pinholes g' gappy_obs
              gappy_points p3d_opt (Some gappy_weights) false 100 0.0001 linear
              eq_refl E) as (H1 & _ & H2 & _).
  exists p3d_opt, g'. repeat split; assumption.
Defined.

(* ================================================================== *)
(** ** Resampled points *)

Lemma In_set_add (x y : nat) (l : list nat) :
  In y (set_add x l) <-> y = x \/ In y l.
Proof.
  induction l as [|z l IH]; cbn [set_add In]; [intuition|].
  destruct (Nat.ltb_spec x z); [cbn [In]; intuition|].
  destruct (Nat.eqb_spec x z); cbn [In]; [subst; intuition|].
  rewrite IH. intuition.
Qed.

Lemma set_add_increasing (x : nat) (l : list nat) :
  strictly_increasing l -> strictly_increasing (set_add x l).
Proof.
  induction l as [|z l IH]; intros Hs; cbn [set_add].
  - split; [constructor | exact I].
  - destruct Hs as [Hz Hs].
    destruct (Nat.ltb_spec x z) as [Hlt|Hge].
    + split; [|now split]. constructor; [exact Hlt|].
      eapply Forall_impl; [|exact Hz]. cbv beta. unfold Nat.lt. intros a Ha. lia.
    + destruct (Nat.eqb_spec x z) as [->|Hne]; [now split|].
      split; [|now apply IH].
      apply Forall_forall. intros a Ha. apply In_set_add in Ha.
      destruct Ha as [->|Ha]; [unfold Nat.lt; lia|].
      rewrite Forall_forall in Hz. now apply Hz.
Qed.

Lemma fold_set_add (picked : list nat) :
  forall s : list nat,
    strictly_increasing s ->
    strictly_increasing (fold_left (fun s x => set_add x s) picked s)
    /\ forall y, In y (fold_left (fun s x => set_add x s) picked s)
                 <-> In y s \/ In y picked.
Proof.
  induction picked as [|x picked IH]; intros s Hs; cbn [fold_left].
  - split; [exact Hs|]. intros y. cbn [In]. tauto.
  - destruct (IH (set_add x s) (set_add_increasing x s Hs)) as [H1 H2].
    split; [exact H1|]. intros y. rewrite H2, In_set_add. cbn [In]. intuition.
Qed.

Lemma In_mask_iff {A : Type} (good : list bool) :
  forall (l : list A) (x : A),
    In x (mask good l)
    <-> exists pos, nth_error l pos = Some x /\ nth_error good pos = Some true.
Proof.
  induction good as [|b good IH]; intros l x.
  - cbn [mask]. split; [contradiction|]. intros (pos & _ & H). now destruct pos.
  - destruct l as [|y l].
    + cbn [mask]. split; [contradiction|]. intros (pos & H & _). now destruct pos.
    + cbn [mask]. destruct b.
      * cbn [In]. rewrite IH. split.
        -- intros [->|(pos & H1 & H2)]; [now exists 0%nat | now exists (S pos)].
        -- intros ([|pos] & H1 & H2); cbn [nth_error] in *;
             [left; congruence | right; eauto].
      * rewrite IH. split.
        -- intros (pos & H1 & H2). now exists (S pos).
        -- intros ([|pos] & H1 & H2); cbn [nth_error] in *;
             [discriminate H2 | eauto].
Qed.

Lemma In_index_pairs (n i j : nat) :
  In (i, j) (index_pairs n) <-> (i < j < n)%nat.
Proof.
  unfold index_pairs. rewrite in_flat_map. split.
  - intros (i' & Hi & H). apply in_map_iff in H.
    destruct H as (j' & [= <- <-] & Hj). apply in_seq in Hi, Hj. lia.
  - intros H. exists i. split; [apply in_seq; lia|].
    apply in_map_iff. exists j. split; [reflexivity | apply in_seq; lia].
Qed.

Lemma nth_error_and_rows (a b : list bool) (pos : nat) :
  nth_error (map (fun ab : bool * bool => fst ab && snd ab) (combine a b)) pos
  = Some true
  <-> nth_error a pos = Some true /\ nth_error b pos = Some true.
Proof.
  revert b pos. induction a as [|x a IH]; intros b pos.
  - cbn. split; [now destruct pos | intros [H _]; now destruct pos].
  - destruct b as [|y b].
    + cbn. split; [now destruct pos | intros [_ H]; now destruct pos].
    + destruct pos as [|pos]; cbn [combine map nth_error fst snd].
      * destruct x, y; cbn; split; try intros [H1 H2]; try split;
          congruence.
      * apply IH.
Qed.

Lemma nth_error_true_nth (l : list bool) (pos : nat) :
  nth_error l pos = Some true <-> nth pos l false = true.
Proof.
  revert pos. induction l as [|b l IH]; intros [|pos]; cbn [nth_error nth];
    try (split; congruence); try apply IH.
Qed.

Section ResampleFacts.
Context `{Cap : Capabilities}.
Variable random : Rng -> nat -> list float * Rng.
Variable argsort : list float -> list nat.
Variable subset_extra_ixs : option Extra -> list nat -> option Extra.

Lemma pair_step_sound (imgp : tensor) (num_cams : list nat) (n_samp : nat)
    (st st' : list nat * Rng) (i j : nat) :
  Sampling.pair_step random argsort (good_of imgp) num_cams
                     (seq 0 (n_points imgp)) n_samp st (i, j) = Ok st' ->
  strictly_increasing (fst st) ->
  strictly_increasing (fst st')
  /\ forall y, In y (fst st') ->
       In y (fst st)
       \/ ((y < n_points imgp)%nat
           /\ nth y (nth i (good_of imgp) []) false = true
           /\ nth y (nth j (good_of imgp) []) false = true).
Proof.
  unfold Sampling.pair_step. cbn [fst snd]. intros H Hs.
  destruct (0 <? _)%nat; [|injection H as <-; split; [exact Hs | now left]].
  destruct (random (snd st) _) as [rnd rng'].
  inv_bind H as picked E. injection H as <-. cbn [fst].
  destruct (fold_set_add picked (fst st) Hs) as [H1 H2].
  split; [exact H1|]. intros y Hy. apply H2 in Hy.
  destruct Hy as [Hy|Hy]; [now left|]. right.
  apply mapM_Forall2 in E.
  apply In_nth_error in Hy. destruct Hy as [q Hq].
  destruct (Forall2_nth_error_r E _ Hq) as (ix & _ & Hget).
  apply getitem_In, In_mask_iff in Hget.
  destruct Hget as (pos & Hpos & Htrue).
  assert (Hlt : (pos < n_points imgp)%nat).
  { assert (pos < length (seq 0 (n_points imgp)))%nat
      by (apply nth_error_Some; congruence).
    now rewrite length_seq in H. }
  rewrite (nth_error_seq 0 Hlt) in Hpos. injection Hpos as <-.
  cbn [Nat.add] in *. apply nth_error_and_rows in Htrue.
  destruct Htrue as [Hi Hj]. apply nth_error_true_nth in Hi, Hj.
  now repeat split.
Qed.

Lemma resample_fold_sound (imgp : tensor) (n_samp : nat) :
  forall (l : list (nat * nat)) (st st' : list nat * Rng),
    (forall i j, In (i, j) l -> (i < j < length (rows imgp))%nat) ->
    foldM (Sampling.pair_step random argsort (good_of imgp)
             (num_cams_of (good_of imgp) (n_points imgp))
             (seq 0 (n_points imgp)) n_samp) l st = Ok st' ->
    (strictly_increasing (fst st)
     /\ forall ix, In ix (fst st) ->
          (ix < n_points imgp)%nat /\ seen_by_pair imgp ix) ->
    strictly_increasing (fst st')
    /\ forall ix, In ix (fst st') ->
         (ix < n_points imgp)%nat /\ seen_by_pair imgp ix.
Proof.
  induction l as [|[i j] l IH]; intros st st' Hl Hf Hinv; cbn [foldM] in Hf.
  - now injection Hf as <-.
  - inv_bind Hf as st1 E1. apply (IH st1 st'); trivial.
    + intros i' j' Hin. apply Hl. now right.
    + destruct Hinv as [Hs Hp].
      destruct (@pair_step_sound _ _ _ _ _ _ _ E1 Hs) as [Hs1 Hy1].
      split; [exact Hs1|]. intros ix Hix.
      destruct (Hy1 ix Hix) as [Hold|(Hlt & Hi & Hj)]; [now apply Hp|].
      split; [exact Hlt|]. exists i, j.
      split; [apply Hl; now left | now split].
Qed.

(** X25.  Whatever the random numbers and the order [argsort] gives,
    the points [resample_points] returns are columns of the input
    taken in increasing order, none twice, and each of them is seen by
    at least two cameras. *)
Theorem resample_points_sound (imgp newp : tensor) (extra extra' : option Extra)
    (n_samp : nat) (rng rng' : Rng) :
  Sampling.resample_points random argsort subset_extra_ixs imgp extra n_samp rng
  = Ok (newp, extra', rng') ->
  exists final_ixs,
    n_points newp = length final_ixs
    /\ rows newp = map (fun row : list pt2 =>
                          map (fun ix => nth ix row nan_pt2) final_ixs)
                       (rows imgp)
    /\ extra' = subset_extra_ixs extra final_ixs
    /\ strictly_increasing final_ixs
    /\ forall ix, In ix final_ixs ->
                  (ix < n_points imgp)%nat /\ seen_by_pair imgp ix.
Proof.
  unfold Sampling.resample_points. intros H.
  inv_bind H as [final_ixs r] E. cbn [fst snd] in H. injection H as <- <- _.
  exists final_ixs. cbn [n_points rows]. do 3 (split; [reflexivity|]).
  apply (@resample_fold_sound imgp n_samp _ _ _
           (fun i j => proj1 (In_index_pairs _ i j)) E).
  cbn [fst]. split; [exact I | intros ix []].
Qed.

Lemma pair_step_grows (good : list (list bool)) (num_cams ixs : list nat)
    (n_samp : nat) (st st' : list nat * Rng) (ij : nat * nat) (y : nat) :
  Sampling.pair_step random argsort good num_cams ixs n_samp st ij = Ok st' ->
  strictly_increasing (fst st) ->
  In y (fst st) -> In y (fst st').
Proof.
  unfold Sampling.pair_step. intros H Hs Hy.
  destruct (0 <? _)%nat; [|now injection H as <-].
  destruct (random (snd st) _) as [rnd rng'].
  inv_bind H as picked E. injection H as <-. cbn [fst].
  apply (fold_set_add picked (fst st) Hs). now left.
Qed.

Hypothesis random_length : forall r n, length (fst (random r n)) = n.
Hypothesis argsort_length : forall l, length (argsort l) = length l.
Hypothesis argsort_onto :
  forall l q, (q < length l)%nat -> In q (argsort l).

Lemma pair_step_complete (imgp : tensor) (n_samp : nat)
    (st st' : list nat * Rng) (i j y : nat) :
  rectangular imgp = true ->
  (n_points imgp <= n_samp)%nat ->
  (i < j < length (rows imgp))%nat ->
  (y < n_points imgp)%nat ->
  nth y (nth i (good_of imgp) []) false = true ->
  nth y (nth j (good_of imgp) []) false = true ->
  strictly_increasing (fst st) ->
  Sampling.pair_step random argsort (good_of imgp)
                     (num_cams_of (good_of imgp) (n_points imgp))
                     (seq 0 (n_points imgp)) n_samp st (i, j) = Ok st' ->
  In y (fst st').
Proof.
  intros Hrect Hn Hij Hy Hi Hj Hs H.
  unfold Sampling.pair_step in H. cbn [fst snd] in H.
  set (subset := map (fun ab : bool * bool => fst ab && snd ab)
                     (combine (nth i (good_of imgp) [])
                              (nth j (good_of imgp) []))) in *.
  assert (Hrow : forall c, (c < length (rows imgp))%nat ->
                           length (nth c (good_of imgp) []) = n_points imgp).
  { intros c Hc. unfold good_of.
    rewrite (nth_indep _ [] (map (fun p : pt2 => negb (isnan (fst p))) []))
      by (rewrite length_map; exact Hc).
    rewrite map_nth, length_map.
    unfold rectangular in Hrect. rewrite forallb_forall in Hrect.
    apply Nat.eqb_eq, Hrect, nth_In. exact Hc. }
  assert (Hsub : length subset = n_points imgp).
  { unfold subset. rewrite length_map, length_combine, !Hrow by lia. lia. }
  assert (Htrue : nth_error subset y = Some true).
  { apply nth_error_and_rows. split; now apply nth_error_true_nth. }
  assert (Hin : In y (mask subset (seq 0 (n_points imgp)))).
  { apply In_mask_iff. exists y. split; [|exact Htrue].
    now rewrite (nth_error_seq 0 Hy). }
  assert (Hcount : length (mask subset (seq 0 (n_points imgp)))
                   = count_true subset).
  { apply mask_length. rewrite length_seq. congruence. }
  assert (Hpos : (0 < count_true subset)%nat).
  { rewrite <- Hcount.
    destruct (mask subset (seq 0 (n_points imgp))); [contradiction|cbn; lia]. }
  apply Nat.ltb_lt in Hpos. rewrite Hpos in H.
  destruct (random (snd st) _) as [rnd rng'] eqn:Ernd.
  inv_bind H as picked E. injection H as <-. cbn [fst].
  apply (fold_set_add picked (fst st) Hs). right.
  apply In_nth_error in Hin. destruct Hin as [q Hq].
  assert (Hlen : length (mask subset (num_cams_of (good_of imgp) (n_points imgp)))
                 = length (mask subset (seq 0 (n_points imgp)))).
  { rewrite Hcount. apply mask_length.
    unfold num_cams_of. rewrite length_map, length_seq. congruence. }
  assert (Hq' : In q (firstn n_samp
                        (argsort
                           (map PrimFloat.opp
                              (map (fun ar : float * float => fst ar + snd ar)
                                 (combine
                                    (map float_of_nat
                                       (mask subset
                                          (num_cams_of (good_of imgp)
                                             (n_points imgp))))
                                    rnd)))))).
  { pose proof (random_length (snd st)
                  (length (map float_of_nat
                             (mask subset
                                (num_cams_of (good_of imgp) (n_points imgp))))))
      as Hr.
    rewrite Ernd in Hr. cbn [fst] in Hr.
    assert (Hm : (length (mask subset (seq 0 (n_points imgp)))
                  <= n_points imgp)%nat).
    { rewrite Hcount, <- Hsub. unfold count_true. apply filter_length_le. }
    rewrite firstn_all2.
    - apply argsort_onto. rewrite !length_map, length_combine, Hr, !length_map.
      rewrite Nat.min_id, Hlen. apply nth_error_Some. congruence.
    - rewrite argsort_length, !length_map, length_combine, Hr, !length_map.
      rewrite Nat.min_id, Hlen. lia. }
  apply mapM_Forall2 in E. clear - E Hq Hq'.
  induction E as [|a b l l' Hab Hl IH]; [contradiction|].
  destruct Hq' as [->|Hq'].
  - left. unfold getitem in Hab. rewrite Hq in Hab. congruence.
  - right. now apply IH.
Qed.

Lemma resample_fold_complete (imgp : tensor) (n_samp i j ix : nat) :
  rectangular imgp = true ->
  (n_points imgp <= n_samp)%nat ->
  (ix < n_points imgp)%nat ->
  nth ix (nth i (good_of imgp) []) false = true ->
  nth ix (nth j (good_of imgp) []) false = true ->
  forall (l : list (nat * nat)) (st st' : list nat * Rng),
    (forall a b, In (a, b) l -> (a < b < length (rows imgp))%nat) ->
    foldM (Sampling.pair_step random argsort (good_of imgp)
             (num_cams_of (good_of imgp) (n_points imgp))
             (seq 0 (n_points imgp)) n_samp) l st = Ok st' ->
    strictly_increasing (fst st) ->
    (In ix (fst st) \/ In (i, j) l) ->
    In ix (fst st').
Proof.
  intros Hrect Hn Hix Hi Hj.
  induction l as [|[a b] l IH]; intros st st0 Hl Hf' Hs Hor;
    cbn [foldM] in Hf'.
  - injection Hf' as <-. destruct Hor as [Hor|[]]. exact Hor.
  - inv_bind Hf' as st1 E1.
    assert (Hs1 : strictly_increasing (fst st1))
      by (apply (@pair_step_sound _ _ _ _ _ _ _ E1 Hs)).
    apply (IH st1 st0); trivial.
    + intros a' b' Hin. apply Hl. now right.
    + destruct Hor as [Hor|[Heq|Hor]].
      * left. eapply pair_step_grows; eauto.
      * left. injection Heq as -> ->.
        apply (@pair_step_complete imgp n_samp st st1 i j ix Hrect Hn
                 (Hl i j (or_introl eq_refl)) Hix Hi Hj Hs E1).
      * now right.
Qed.

(** X26.  When [n_samp] is at least the number of points (and the
    random draw has the requested size and [argsort] returns an
    ordering of all indices), [resample_points] drops nothing it could
    keep: a point is in the result exactly when at least two cameras
    see it. *)
Theorem resample_points_complete (imgp newp : tensor)
    (extra extra' : option Extra) (n_samp : nat) (rng rng' : Rng) :
  rectangular imgp = true ->
  (n_points imgp <= n_samp)%nat ->
  Sampling.resample_points random argsort subset_extra_ixs imgp extra n_samp rng
  = Ok (newp, extra', rng') ->
  exists final_ixs,
    rows newp = map (fun row : list pt2 =>
                       map (fun ix => nth ix row nan_pt2) final_ixs)
                    (rows imgp)
    /\ forall ix, (ix < n_points imgp)%nat ->
                  (In ix final_ixs <-> seen_by_pair imgp ix).
Proof.
  intros Hrect Hn H. unfold Sampling.resample_points in H.
  inv_bind H as [final_ixs r] E. cbn [fst snd] in H. injection H as <- _ _.
  exists final_ixs. cbn [rows]. split; [reflexivity|]. intros ix Hix. split.
  - intros Hin.
    apply (@resample_fold_sound imgp n_samp _ _ _
             (fun i j => proj1 (In_index_pairs _ i j)) E);
      [cbn [fst]; split; [exact I | intros ? []] | exact Hin].
  - intros (i & j & Hij & Hi & Hj).
    apply (@resample_fold_complete imgp n_samp i j ix Hrect Hn Hix Hi Hj
             _ _ _ (fun a b => proj1 (In_index_pairs _ a b)) E I).
    right. now apply In_index_pairs.
Qed.

End ResampleFacts.

Lemma resample_points_sound_witness :
  exists newp e r,
    Sampling.resample_points (Cap := example_capabilities) zero_draw index_order
                             (fun e _ => e) partly_seen None 1 tt
    = Ok (newp, e, r)
    /\ exists final_ixs,
         n_points newp = length final_ixs
         /\ rows newp = map (fun row : list pt2 =>
                               map (fun ix => nth ix row nan_pt2) final_ixs)
                            (rows partly_seen)
         /\ e = None
         /\ strictly_increasing final_ixs
         /\ forall ix, In ix final_ixs ->
                       (ix < n_points partly_seen)%nat
                       /\ seen_by_pair partly_seen ix.
Proof.
  destruct (Sampling.resample_points (Cap := example_capabilities) zero_draw
              index_order (fun e _ => e) partly_seen None 1 tt)
    as [[[newp e] r]|err] eqn:E.
  - exists newp, e, r. split; [reflexivity|].
    exact (@resample_points_sound example_capabilities zero_draw index_order
             (fun e _ => e) partly_seen newp None e 1 tt r E).
  - vm_compute in E. discriminate E.
Defined.

Lemma resample_points_complete_witness :
  exists newp e r,
    rectangular partly_seen = true
    /\ (n_points partly_seen <= 2)%nat
    /\ Sampling.resample_points (Cap := example_capabilities) zero_draw
                                index_order (fun e _ => e) partly_seen None 2 tt
       = Ok (newp, e, r)
    /\ exists final_ixs,
         rows newp = map (fun row : list pt2 =>
                            map (fun ix => nth ix row nan_pt2) final_ixs)
                         (rows partly_seen)
         /\ forall ix, (ix < n_points partly_seen)%nat ->
                       (In ix final_ixs <-> seen_by_pair partly_seen ix).
Proof.
  destruct (Sampling.resample_points (Cap := example_capabilities) zero_draw
              index_order (fun e _ => e) partly_seen None 2 tt)
    as [[[newp e] r]|err] eqn:E.
  - exists newp, e, r. split; [reflexivity|]. split; [vm_compute; lia|].
    split; [reflexivity|].
    refine (@resample_points_complete example_capabilities zero_draw index_order
              (fun e _ => e) _ _ _ partly_seen newp None e 2 tt r _ _ E).
    + intros r0 n. cbn [zero_draw fst]. apply repeat_length.
    + intros l. unfold index_order. apply length_seq.
    + intros l q Hq. unfold index_order. apply in_seq. lia.
    + reflexivity.
    + vm_compute. lia.
  - vm_compute in E. discriminate E.
Defined.

(* ================================================================== *)
(** ** The error dictionary *)

Lemma NoDup_index_pairs (n : nat) : NoDup (index_pairs n).
Proof.
  unfold index_pairs.
  assert (G : forall l : list nat,
             NoDup l ->
             NoDup (flat_map (fun i => map (fun j => (i, j))
                                           (seq (S i) (n - S i))) l)).
  { induction l as [|i l IH]; intros Hl; [constructor|].
    cbn [flat_map]. inversion Hl as [|? ? Hni Hl']; subst.
    apply NoDup_app.
    - apply NoDup_map_NoDup_ForallPairs; [|apply seq_NoDup].
      intros x y _ _ [= ->]. reflexivity.
    - now apply IH.
    - intros [a b] Ha Hb. apply in_map_iff in Ha.
      destruct Ha as (j & [= <- <-] & _).
      apply in_flat_map in Hb. destruct Hb as (i' & Hi' & Hb).
      apply in_map_iff in Hb. destruct Hb as (j' & [= -> _] & _).
      contradiction. }
  apply G, seq_NoDup.
Qed.

Lemma NoDup_keys_flat_map {A B : Type} (g : A -> list (A * B)) :
  (forall a, g a = [] \/ exists b, g a = [(a, b)]) ->
  forall l : list A, NoDup l -> NoDup (map fst (flat_map g l)).
Proof.
  intros Hg. induction l as [|a l IH]; intros Hl; [constructor|].
  inversion Hl as [|? ? Hna Hl']; subst. cbn [flat_map].
  destruct (Hg a) as [E|[b E]]; rewrite E; cbn [app map fst];
    [now apply IH|].
  constructor; [|now apply IH].
  intros Hin. apply in_map_iff in Hin. destruct Hin as ([a' b'] & Ha & Hin).
  cbn [fst] in Ha. subst a'. apply in_flat_map in Hin.
  destruct Hin as (x & Hx & Hin).
  destruct (Hg x) as [Ex|[bx Ex]]; rewrite Ex in Hin; [contradiction|].
  destruct Hin as [[= -> _]|[]]. contradiction.
Qed.

Section ErrorDict.
Context `{Cap : Capabilities}.

(** X27.  The error dictionary has one entry for each camera pair
    [i < j] that shares more than [min_points] points, and no other:
    its keys are distinct, and an entry's count is the number of shared
    points, which exceeds [min_points]. *)
Theorem get_error_dict_keys (errors_full : list (list pt2)) (min_points : nat) :
  NoDup (map fst (get_error_dict errors_full min_points))
  /\ (forall i j v,
        In (i, j, v) (get_error_dict errors_full min_points) ->
        (i < j < length errors_full)%nat
        /\ fst v = count_true (common_errors errors_full i j)
        /\ (min_points < fst v)%nat)
  /\ (forall i j,
        (i < j < length errors_full)%nat ->
        (min_points < count_true (common_errors errors_full i j))%nat ->
        exists v, In (i, j, v) (get_error_dict errors_full min_points)).
Proof.
  unfold get_error_dict. split; [|split].
  - apply NoDup_keys_flat_map; [|apply NoDup_index_pairs].
    intros ij. cbv zeta. destruct (_ <? _)%nat; [right; eauto | now left].
  - intros i j v H. apply in_flat_map in H. destruct H as ([a b] & Hab & H).
    cbv zeta in H. cbn [fst snd] in H.
    destruct (_ <? _)%nat eqn:E in H; [|contradiction].
    destruct H as [[= -> -> <-]|[]]. cbn [fst].
    split; [now apply In_index_pairs|]. split; [reflexivity|].
    now apply Nat.ltb_lt in E.
  - intros i j Hij Hm. eexists. apply in_flat_map. exists (i, j).
    split; [now apply In_index_pairs|]. cbv zeta. cbn [fst snd].
    apply Nat.ltb_lt in Hm. unfold common_errors in Hm. rewrite Hm.
    left. reflexivity.
Qed.

End ErrorDict.
